(** * thirdroom: cross-thread resource synchronisation

  A shallow embedding of the resource managers of
  [src/engine/resource/ScriptResourceManager.ts] (the script-side
  [ScriptResourceManager] and the in-process [GameResourceManager]) and of
  the consuming-side resource module of
  [src/engine/resource/resource.common.ts], followed by the properties of
  the specification that were checked against them.

  Conventions.
  - JavaScript numbers that hold resource ids, pointers and byte offsets
    are [N]; a [Uint32Array] is a [list N] whose writes wrap modulo 2^32,
    or, where it is a view of the WASM heap, its byte offset and length,
    read and written through the bytes of the heap; a [Uint8Array] is a
    [list byte].
  - Reading a typed array out of range gives [undefined] ([None]); writing
    out of range is ignored.
  - A JavaScript [Map] is a [gmap].
  - A function that can throw returns an [Outcome], which keeps the state
    reached when the exception left the function. *)

From Stdlib Require Import NArith ZArith Lia.
From Stdlib Require Import Init.Byte.
From stdpp Require Import base option list gmap strings pretty.

Local Open Scope N_scope.

(** ** JavaScript values used by the resource code *)

Module JS.

Inductive Outcome (S A : Type) : Type :=
| Returned (s : S) (a : A)
| Thrown (s : S) (message : string).
Arguments Returned {S A} s a.
Arguments Thrown {S A} s message.

(** [ToUint32] of a non-negative integer: what a store into a
    [Uint32Array] keeps. *)
Definition toUint32 (n : N) : N := n mod 2 ^ 32.

(** Truthiness of a value read from a [Uint32Array] or a [Map] of numbers:
    [undefined] and [0] are falsy. *)
Definition truthy (v : option N) : bool :=
  match v with
  | Some n => negb (n =? 0)
  | None => false
  end.

(** [view[i]] on a [Uint32Array]. *)
Definition u32Get (view : list N) (i : nat) : option N := view !! i.

(** [view[i] = v] on a [Uint32Array]: wraps, and is ignored out of range. *)
Definition u32Set (view : list N) (i : nat) (v : N) : list N :=
  <[i := toUint32 v]> view.

(** [map.get(k)] where [k] may be [undefined]: no key is [undefined]. *)
Definition mapGet (m : gmap N N) (k : option N) : option N :=
  match k with
  | Some p => m !! p
  | None => None
  end.

(** [target.set(source)] on a [Uint8Array]: a [RangeError] when [source]
    does not fit. *)
Definition typedArraySet (target source : list byte) : option (list byte) :=
  if decide (length source ≤ length target)%nat
  then Some (source ++ drop (length source) target)
  else None.

(** [target.set(source, offset)]. *)
Definition typedArraySetAt (target source : list byte) (offset : nat)
  : option (list byte) :=
  if decide (offset + length source ≤ length target)%nat
  then Some (take offset target ++ source ++ drop (offset + length source) target)
  else None.

Definition byteOfN (n : N) : byte :=
  match Byte.of_N (n mod 256) with
  | Some b => b
  | None => x00
  end.

(** Little-endian bytes of a 32-bit word. *)
Definition bytesOfU32 (v : N) : list byte :=
  [ byteOfN v; byteOfN (v / 256); byteOfN (v / 65536); byteOfN (v / 16777216) ].

Definition u32OfBytes (b0 b1 b2 b3 : byte) : N :=
  Byte.to_N b0 + 256 * Byte.to_N b1 + 65536 * Byte.to_N b2
  + 16777216 * Byte.to_N b3.

(** [new Uint32Array(buffer)[i]] read through the bytes of [buffer]. *)
Definition wordGet (buffer : list byte) (i : nat) : option N :=
  match drop (4 * i) buffer with
  | b0 :: b1 :: b2 :: b3 :: _ => Some (u32OfBytes b0 b1 b2 b3)
  | _ => None
  end.

(** [new Uint32Array(buffer)[i] = v] written through to the bytes. *)
Definition wordSet (buffer : list byte) (i : nat) (v : N) : list byte :=
  if decide (4 * i + 4 ≤ length buffer)%nat
  then take (4 * i) buffer ++ bytesOfU32 (toUint32 v) ++ drop (4 * i + 4) buffer
  else buffer.

(** [byteOffset / Uint32Array.BYTES_PER_ELEMENT] used as an index: a
    fractional quotient is no index at all (reads give [undefined], writes
    are ignored). *)
Definition wordIndex (byteOffset : N) : option nat :=
  if byteOffset mod 4 =? 0 then Some (N.to_nat (byteOffset / 4)) else None.

End JS.

Import JS.

(** ** TripleBuffer *)

Module TripleBuffer.

(** Modelled from the spec: [allocator/TripleBuffer.ts] is not among the
    sources.  The three slots [buffers[0..2]] of a triple buffer. *)
Inductive Index : Type := I0 | I1 | I2.

#[global] Instance Index_eq_dec : EqDecision Index.
Proof. solve_decision. Defined.

(** Modelled from the spec: the shared flag word of [TripleBuffer.ts],
    which tells which slot is readable and which one is being written; it is
    kept decoded. *)
Record Flags : Type := {
  readBufferIndex : Index;
  writeBufferIndex : Index;
}.

(** Modelled from the spec: the [TripleBuffer] of [TripleBuffer.ts], three
    byte buffers and the flag word. *)
Record t : Type := {
  byteView0 : list byte;
  byteView1 : list byte;
  byteView2 : list byte;
  flags : Flags;
}.

(** [tripleBuffer.byteViews[k]] *)
Definition byteViews (tb : t) (k : Index) : list byte :=
  match k with
  | I0 => byteView0 tb
  | I1 => byteView1 tb
  | I2 => byteView2 tb
  end.

Definition withByteView (tb : t) (k : Index) (view : list byte) : t :=
  match k with
  | I0 => {| byteView0 := view; byteView1 := byteView1 tb;
             byteView2 := byteView2 tb; flags := flags tb |}
  | I1 => {| byteView0 := byteView0 tb; byteView1 := view;
             byteView2 := byteView2 tb; flags := flags tb |}
  | I2 => {| byteView0 := byteView0 tb; byteView1 := byteView1 tb;
             byteView2 := view; flags := flags tb |}
  end.

(** Modelled from the spec: [getReadBufferIndex] of [TripleBuffer.ts]; the
    consumer reads the slot of the most recently completed write. *)
Definition getReadBufferIndex (tb : t) : Index := readBufferIndex (flags tb).

(** [tripleBuffer.byteViews[k].set(view)]; [None] is the [RangeError] of a
    view that does not fit. *)
Definition setSlot (tb : t) (k : Index) (view : list byte) : option t :=
  slot ← typedArraySet (byteViews tb k) view;
  Some (withByteView tb k slot).

(** Modelled from the spec: [copyToWriteBuffer] of [TripleBuffer.ts]; after
    the first commit a commit is a single-slot write, into the slot that the
    flag word marks as being written. *)
Definition copyToWriteBuffer (tb : t) (view : list byte) : option t :=
  setSlot tb (writeBufferIndex (flags tb)) view.

End TripleBuffer.

(** ** Resource definitions ([ResourceDefinition.ts] is used through its
  fields only) *)

Module Schema.

Inductive PropType : Type :=
| PString
| PRef
| PRefArray
| PRefMap
| PArrayBuffer
| PScalar (kind : string).

#[global] Instance PropType_eq_dec : EqDecision PropType.
Proof. solve_decision. Defined.

Record PropDef : Type := {
  type : PropType;
  backRef : bool;
  size : nat;
  byteOffset : N;
  bytesPerElement : N;   (* prop.arrayType.BYTES_PER_ELEMENT *)
}.

(** [schema] lists the properties in the enumeration order of
    [for (const propName in schema)]. *)
Record ResourceDefinition : Type := {
  name : string;
  schema : list (string * PropDef);
  byteLength : N;
}.

Definition isRefLike (t : PropType) : bool :=
  match t with
  | PString | PRef | PRefArray | PRefMap => true
  | _ => false
  end.

End Schema.

(** ** Remote resources and the functions of [resource.game.ts] *)

Module Remote.

(** A [RemoteResource] as the managers use it.  [props] is [__props]: the
    typed array of each property. *)
Record RemoteResource : Type := {
  resourceId : N;
  ptr : N;
  resourceType : string;
  resourceName : string;
  resourceDef : Schema.ResourceDefinition;
  byteView : list byte;
  props : gmap string (list N);
  tripleBuffer : TripleBuffer.t;
  initialized : bool;
}.

Definition withPublished (r : RemoteResource) (tb : TripleBuffer.t)
    (init : bool) : RemoteResource :=
  {| resourceId := resourceId r; ptr := ptr r; resourceType := resourceType r;
     resourceName := resourceName r; resourceDef := resourceDef r;
     byteView := byteView r; props := props r;
     tripleBuffer := tb; initialized := init |}.

(** What [getRemoteResource] can return. *)
Inductive RemoteValue : Type :=
| RString (s : string)
| RArrayBuffer (bytes : list byte)
| RResource (r : RemoteResource).

(** [!value] for a value returned by [getRemoteResource]. *)
Definition valueFalsy (v : option RemoteValue) : bool :=
  match v with
  | None => true
  | Some (RString s) => bool_decide (s = "")
  | Some _ => false
  end.

(** The functions imported from [resource.game.ts], [strings.ts] and the
    exports of the WebAssembly instance.  None of them is among the
    sources, so they are parameters of the development: every statement
    below holds for any implementation of them.  They act on the game
    context [Ctx] (respectively on the state [Inst] of the instance). *)
Class ResourceGame (Ctx Inst : Type) : Type := {
  addResourceRef : Ctx → N → Ctx;
  removeResourceRef : Ctx → N → Ctx;
  disposeResource : Ctx → N → Ctx;
  (** the optional pointer is the one the [dispose] callback hands back to
      [deallocate] *)
  createStringResource : Ctx → string → option N → Ctx * N;
  createArrayBufferResource : Ctx → list byte → Ctx * N;
  getRemoteResource : Ctx → N → option RemoteValue;
  decodeString : option N → list byte → string;
  websg_allocate : Inst → N → Inst * N;
  websg_deallocate : Inst → N → Inst;
}.

(** The end of the loop body, shared by both managers: a single-slot write
    for an initialized resource, the three slots otherwise. *)
Definition publish (resource : RemoteResource) (view : list byte)
  : Outcome RemoteResource unit :=
  let tb := tripleBuffer resource in
  if initialized resource then
    match TripleBuffer.copyToWriteBuffer tb view with
    | Some tb' => Returned (withPublished resource tb' true) tt
    | None => Thrown resource "copyToWriteBuffer failed"
    end
  else
    match TripleBuffer.setSlot tb TripleBuffer.I0 view with
    | None => Thrown resource "byteViews[0].set failed"
    | Some tb0 =>
        match TripleBuffer.setSlot tb0 TripleBuffer.I1 view with
        | None => Thrown (withPublished resource tb0 false) "byteViews[1].set failed"
        | Some tb1 =>
            match TripleBuffer.setSlot tb1 TripleBuffer.I2 view with
            | None => Thrown (withPublished resource tb1 false) "byteViews[2].set failed"
            | Some tb2 => Returned (withPublished resource tb2 true) tt
            end
        end
    end.

End Remote.

Import Remote.

(** ** ScriptResourceManager (the script-side variant) *)

Module Script.

(** [refView] is [new Uint32Array(resource.buffer, resource.ptr, length)]: a
    live window on the WASM heap, kept as its byte offset (a multiple of 4,
    or the constructor would have thrown) and its length, and read through
    the heap.  [prevRefs] is a [number[]]; a missing index reads
    [undefined]. *)
Record ScriptResourceStore : Type := {
  refViewOffset : N;
  refViewLength : nat;
  prevRefs : gmap nat N;
}.

(** [store.refView[k]] read through the heap; [k] is [None] for a fractional
    index. *)
Definition refViewGet (heap : list byte) (store : ScriptResourceStore)
    (k : option nat) : option N :=
  match k with
  | Some k =>
      if decide (k < refViewLength store)%nat
      then wordGet heap (N.to_nat (refViewOffset store / 4) + k)
      else None
  | None => None
  end.

(** [ResourceTransformData] is declared in [resource.game.ts]; it is used
    through four fields.  [commitResources] writes the translated ids to
    [refView] and then publishes [writeView]: the two are the 32-bit-word view
    and the byte view of one scratch buffer, so only the bytes are kept and
    [refView] is accessed with [wordGet] and [wordSet]. *)
Record ResourceTransformData : Type := {
  writeView : list byte;
  refOffsets : list N;
  refIsString : list bool;
}.

Section Manager.
Context {Ctx Inst : Type} `{!ResourceGame Ctx Inst}.

(** The fields of the class, together with the table
    [resourceModule.resourceTransformData] that it reads through
    [getModule]. *)
Record ScriptResourceManager : Type := {
  ctx : Ctx;
  U8Heap : list byte;
  instance : option Inst;
  ptrToResourceId : gmap N N;
  resourceStorage : gmap N ScriptResourceStore;
  resources : list RemoteResource;
  resourceTransformData : gmap string ResourceTransformData;
}.

Definition withCtx (m : ScriptResourceManager) (c : Ctx) : ScriptResourceManager :=
  {| ctx := c; U8Heap := U8Heap m; instance := instance m;
     ptrToResourceId := ptrToResourceId m; resourceStorage := resourceStorage m;
     resources := resources m; resourceTransformData := resourceTransformData m |}.

Definition withInstance (m : ScriptResourceManager) (i : option Inst) : ScriptResourceManager :=
  {| ctx := ctx m; U8Heap := U8Heap m; instance := i;
     ptrToResourceId := ptrToResourceId m; resourceStorage := resourceStorage m;
     resources := resources m; resourceTransformData := resourceTransformData m |}.

Definition withHeap (m : ScriptResourceManager) (h : list byte) : ScriptResourceManager :=
  {| ctx := ctx m; U8Heap := h; instance := instance m;
     ptrToResourceId := ptrToResourceId m; resourceStorage := resourceStorage m;
     resources := resources m; resourceTransformData := resourceTransformData m |}.

Definition withPtrToResourceId (m : ScriptResourceManager) (t : gmap N N) : ScriptResourceManager :=
  {| ctx := ctx m; U8Heap := U8Heap m; instance := instance m;
     ptrToResourceId := t; resourceStorage := resourceStorage m;
     resources := resources m; resourceTransformData := resourceTransformData m |}.

Definition withResourceStorage (m : ScriptResourceManager)
    (st : gmap N ScriptResourceStore) : ScriptResourceManager :=
  {| ctx := ctx m; U8Heap := U8Heap m; instance := instance m;
     ptrToResourceId := ptrToResourceId m; resourceStorage := st;
     resources := resources m; resourceTransformData := resourceTransformData m |}.

Definition withResources (m : ScriptResourceManager) (rs : list RemoteResource)
  : ScriptResourceManager :=
  {| ctx := ctx m; U8Heap := U8Heap m; instance := instance m;
     ptrToResourceId := ptrToResourceId m; resourceStorage := resourceStorage m;
     resources := rs; resourceTransformData := resourceTransformData m |}.

Definition withTransformData (m : ScriptResourceManager)
    (t : gmap string ResourceTransformData) : ScriptResourceManager :=
  {| ctx := ctx m; U8Heap := U8Heap m; instance := instance m;
     ptrToResourceId := ptrToResourceId m; resourceStorage := resourceStorage m;
     resources := resources m; resourceTransformData := t |}.

Definition addRef (m : ScriptResourceManager) (resourceId : N) : ScriptResourceManager :=
  withCtx m (addResourceRef (ctx m) resourceId).

Definition removeRef (m : ScriptResourceManager) (resourceId : N) : ScriptResourceManager :=
  withCtx m (removeResourceRef (ctx m) resourceId).

Definition allocate (m : ScriptResourceManager) (byteLength : N)
  : Outcome ScriptResourceManager N :=
  match instance m with
  | None => Thrown m "Called allocate before instance was set."
  | Some i =>
      let '(i', p) := websg_allocate i byteLength in
      Returned (withInstance m (Some i')) p
  end.

Definition deallocate (m : ScriptResourceManager) (p : N)
  : Outcome ScriptResourceManager unit :=
  match instance m with
  | None => Thrown m "Called deallocate before instance was set."
  | Some i => Returned (withInstance m (Some (websg_deallocate i p))) tt
  end.

(** The loop of [disposeResource] over [transform.refOffsets].  The offset
    indexes [refView] as it stands in the source (no division by the element
    size here). *)
Fixpoint releaseRefs (m : ScriptResourceManager) (store : ScriptResourceStore)
    (offsets : list N) : ScriptResourceManager :=
  match offsets with
  | [] => m
  | refOffset :: rest =>
      let refPtr := refViewGet (U8Heap m) store (Some (N.to_nat refOffset)) in
      let m' :=
        if truthy refPtr then
          match mapGet (ptrToResourceId m) refPtr with
          | Some resourceId =>
              if negb (resourceId =? 0) then removeRef m resourceId else m
          | None => m
          end
        else m in
      releaseRefs m' store rest
  end.

(** The double quote of the template literal of [disposeResource]. *)
Definition quote : string := String (Ascii.ascii_of_nat 34) EmptyString.

Definition disposeResource (m : ScriptResourceManager) (resourceId : N)
  : Outcome ScriptResourceManager bool :=
  match list_find (λ r, Remote.resourceId r = resourceId) (resources m) with
  | None => Returned m false
  | Some (index, resource) =>
      match resourceTransformData m !! resourceType resource with
      | None =>
          Thrown m ("Resource type " +:+ quote +:+ resourceType resource +:+ quote
                    +:+ " not registered.")
      | Some transform =>
          match resourceStorage m !! Remote.resourceId resource, refOffsets transform with
          | None, _ :: _ => Thrown m "TypeError: resourceStore is undefined"
          | None, [] | Some _, _ =>
              let m1 :=
                match resourceStorage m !! Remote.resourceId resource with
                | Some store => releaseRefs m store (refOffsets transform)
                | None => m
                end in
              match deallocate m1 (ptr resource) with
              | Thrown m2 msg => Thrown m2 msg
              | Returned m2 _ =>
                  let m3 := withPtrToResourceId m2 (delete (ptr resource) (ptrToResourceId m2)) in
                  let m4 := withResources m3 (delete index (resources m3)) in
                  Returned
                    (withResourceStorage m4 (delete resourceId (resourceStorage m4)))
                    true
              end
          end
      end
  end.

(** The getters and setters of fields.  [store] is taken here as an array
    of its own, of which the new contents are returned: what the methods call
    on the game context and enter in the pointer table does not depend on
    where the array lives.  In the program the store of a field of a script
    resource is a view of the WASM heap; the module [HeapField] below has the
    same methods for such a store, with their writes to the heap. *)

(** [curValue !== value] in [setString]: [curValue] is the remote value of
    the current resource, or the empty string. *)
Definition currentString (m : ScriptResourceManager) (store : list N) : RemoteValue :=
  let curResourceId := mapGet (ptrToResourceId m) (u32Get store 0) in
  if truthy curResourceId then
    match curResourceId with
    | Some id =>
        let v := getRemoteResource (ctx m) id in
        if valueFalsy v then RString "" else default (RString "") v
    | None => RString ""
    end
  else RString "".

Definition sameValue (v : RemoteValue) (s : string) : bool :=
  match v with
  | RString s' => bool_decide (s' = s)
  | _ => false
  end.

Definition setString (m : ScriptResourceManager) (value : string) (store : list N)
  : Outcome (ScriptResourceManager * list N) unit :=
  if negb (sameValue (currentString m store) value) then
    let m1 :=
      if truthy (u32Get store 0)
      then removeRef m (default 0 (u32Get store 0))
      else m in
    if bool_decide (value ≠ "") then
      let arr := String.list_byte_of_string value in
      let nullTerminatedArr := arr ++ [x00] in
      match allocate m1 (N.of_nat (length nullTerminatedArr)) with
      | Thrown m2 msg => Thrown (m2, store) msg
      | Returned m2 p =>
          match typedArraySetAt (U8Heap m2) nullTerminatedArr (N.to_nat p) with
          | None => Thrown (m2, store) "RangeError: offset is out of bounds"
          | Some heap =>
              let m3 := withHeap m2 heap in
              let store' := u32Set store 0 p in
              let '(c, resourceId) := createStringResource (ctx m3) value (Some p) in
              let m4 := addRef (withCtx m3 c) resourceId in
              Returned
                (withPtrToResourceId m4 (<[p := resourceId]> (ptrToResourceId m4)), store')
                tt
          end
      end
    else Returned (m1, store) tt
  else Returned (m, store) tt.

Definition setArrayBuffer (m : ScriptResourceManager) (value : list byte) (store : list N)
  : Outcome (ScriptResourceManager * list N) unit :=
  if truthy (u32Get store 1) then
    Thrown (m, store) "You cannot mutate an existing arrayBuffer field."
  else
    let store1 := u32Set store 0 (N.of_nat (length value)) in
    match allocate m (N.of_nat (length value)) with
    | Thrown m1 msg => Thrown (m1, store1) msg
    | Returned m1 p =>
        match typedArraySetAt (U8Heap m1) value (N.to_nat p) with
        | None => Thrown (m1, store1) "RangeError: offset is out of bounds"
        | Some heap =>
            let m2 := withHeap m1 heap in
            let store2 := u32Set store1 1 p in
            let '(c, resourceId) := createArrayBufferResource (ctx m2) value in
            let m3 := addRef (withCtx m2 c) resourceId in
            Returned
              (withPtrToResourceId m3 (<[p := resourceId]> (ptrToResourceId m3)), store2)
              tt
        end
    end.

(** [value?.resourceId || 0] *)
Definition nextResourceIdOf (value : option RemoteResource) : N :=
  match value with
  | Some v => Remote.resourceId v
  | None => 0
  end.

(** [value ? value.ptr : 0] *)
Definition ptrOf (value : option RemoteResource) : N :=
  match value with
  | Some v => ptr v
  | None => 0
  end.

(** The two guarded calls shared by [setRef] and [setRefArrayItem]. *)
Definition countRefs (m : ScriptResourceManager) (curResourceId : option N)
    (nextResourceId : N) : ScriptResourceManager :=
  let m1 :=
    if negb (nextResourceId =? 0) && bool_decide (Some nextResourceId ≠ curResourceId)
    then addRef m nextResourceId
    else m in
  if truthy curResourceId && bool_decide (Some nextResourceId ≠ curResourceId)
  then removeRef m1 (default 0 curResourceId)
  else m1.

Definition setRef (m : ScriptResourceManager) (value : option RemoteResource)
    (store : list N) (backRef : bool) : ScriptResourceManager * list N :=
  let curResourceId := u32Get store 0 in
  let nextResourceId := nextResourceIdOf value in
  let m' := if negb backRef then countRefs m curResourceId nextResourceId else m in
  (m', u32Set store 0 (ptrOf value)).

Definition setRefArrayItem (m : ScriptResourceManager) (index : nat)
    (value : option RemoteResource) (store : list N) : ScriptResourceManager * list N :=
  let curResourceId := u32Get store index in
  let nextResourceId := nextResourceIdOf value in
  (countRefs m curResourceId nextResourceId, u32Set store index (ptrOf value)).

(** [getRef]: the resource a field holds, through the pointer table. *)
Definition getRef (m : ScriptResourceManager) (store : list N) : option RemoteValue :=
  let resourceId := mapGet (ptrToResourceId m) (u32Get store 0) in
  if truthy resourceId then getRemoteResource (ctx m) (default 0 resourceId) else None.

(** One iteration of the inner loop of [commitResources]: the reference at
    [refOffsets[j]].  The state threaded through the loop is the game
    context, [resourceStore.prevRefs] and the scratch buffer behind
    [writeView] and [refView]. *)
Definition commitRef (heap : list byte) (table : gmap N N) (store : ScriptResourceStore)
    (acc : Ctx * gmap nat N * list byte) (j : nat) (byteOff : N) (isString : bool)
  : Ctx * gmap nat N * list byte :=
  let '(c, prev, view) := acc in
  let refOffset := wordIndex byteOff in
  let nextRefPtr := refViewGet heap store refOffset in
  let prevRefPtr := prev !! j in
  let nextResourceId := mapGet table nextRefPtr in
  let '(c', prev', nextResourceId') :=
    if bool_decide (nextRefPtr ≠ prevRefPtr) && isString then
      let prevResourceId := mapGet table prevRefPtr in
      let c1 :=
        if truthy prevResourceId
        then removeResourceRef c (default 0 prevResourceId)
        else c in
      let prev1 :=
        match nextRefPtr with
        | Some p => <[j := p]> prev
        | None => delete j prev
        end in
      if negb (truthy nextResourceId) then
        let '(c2, id) := createStringResource c1 (decodeString nextRefPtr heap) None in
        (c2, prev1, Some id)
      else (c1, prev1, nextResourceId)
    else (c, prev, nextResourceId) in
  let published := if truthy nextResourceId' then default 0 nextResourceId' else 0 in
  (c', prev',
   match refOffset with
   | Some k => wordSet view k published
   | None => view
   end).

(** The inner loop, from index [j] on. *)
Fixpoint commitRefs (heap : list byte) (table : gmap N N) (store : ScriptResourceStore)
    (isStrings : list bool) (acc : Ctx * gmap nat N * list byte) (j : nat)
    (offsets : list N) : Ctx * gmap nat N * list byte :=
  match offsets with
  | [] => acc
  | byteOff :: rest =>
      commitRefs heap table store isStrings
        (commitRef heap table store acc j byteOff (default false (isStrings !! j)))
        (S j) rest
  end.

Definition withScratch (m : ScriptResourceManager) (type : string)
    (transform : ResourceTransformData) (view : list byte) : ScriptResourceManager :=
  withTransformData m
    (<[type := {| writeView := view; refOffsets := refOffsets transform;
                  refIsString := refIsString transform |}]> (resourceTransformData m)).

Definition withPrevRefs (m : ScriptResourceManager) (resourceId : N)
    (prev : gmap nat N) : ScriptResourceManager :=
  match resourceStorage m !! resourceId with
  | Some store =>
      withResourceStorage m
        (<[resourceId := {| refViewOffset := refViewOffset store;
                            refViewLength := refViewLength store;
                            prevRefs := prev |}]> (resourceStorage m))
  | None => m
  end.

(** The bytes that the loop body of [commitResources] leaves in the scratch
    buffer for [resource], with the manager state after the inner loop. *)
Definition translate (m : ScriptResourceManager) (resource : RemoteResource)
    (transform : ResourceTransformData) (view0 : list byte)
  : Outcome ScriptResourceManager (list byte) :=
  match resourceStorage m !! Remote.resourceId resource, refOffsets transform with
  | None, [] => Returned (withScratch m (resourceType resource) transform view0) view0
  | None, _ :: _ =>
      Thrown (withScratch m (resourceType resource) transform view0)
        "TypeError: resourceStore is undefined"
  | Some store, offsets =>
      let '(c, prev, view) :=
        commitRefs (U8Heap m) (ptrToResourceId m) store (refIsString transform)
          (ctx m, prevRefs store, view0) 0%nat offsets in
      Returned
        (withScratch
           (withPrevRefs (withCtx m c) (Remote.resourceId resource) prev)
           (resourceType resource) transform view)
        view
  end.

(** The body of the outer loop of [commitResources] for one resource. *)
Definition commitResource (m : ScriptResourceManager) (resource : RemoteResource)
  : Outcome (ScriptResourceManager * RemoteResource) unit :=
  match resourceTransformData m !! resourceType resource with
  | None => Thrown (m, resource) "TypeError: transform data is undefined"
  | Some transform =>
      match typedArraySet (writeView transform) (byteView resource) with
      | None => Thrown (m, resource) "RangeError: offset is out of bounds"
      | Some view0 =>
          match translate m resource transform view0 with
          | Thrown m' msg => Thrown (m', resource) msg
          | Returned m' view =>
              match publish resource view with
              | Thrown resource' msg => Thrown (m', resource') msg
              | Returned resource' _ => Returned (m', resource') tt
              end
          end
      end
  end.

(** The outer loop: [done] are the resources already committed. *)
Fixpoint commitLoop (m : ScriptResourceManager) (done todo : list RemoteResource)
  : Outcome ScriptResourceManager unit :=
  match todo with
  | [] => Returned (withResources m done) tt
  | resource :: rest =>
      match commitResource m resource with
      | Thrown (m', resource') msg =>
          Thrown (withResources m' (done ++ resource' :: rest)) msg
      | Returned (m', resource') _ => commitLoop m' (done ++ [resource']) rest
      end
  end.

Definition commitResources (m : ScriptResourceManager)
  : Outcome ScriptResourceManager unit :=
  commitLoop m [] (resources m).

(** [setInstance] *)
Definition setInstance (m : ScriptResourceManager) (i : Inst) : ScriptResourceManager :=
  withInstance m (Some i).

(** [getString]: the expression is the one that [setString] evaluates for
    [curValue]. *)
Definition getString (m : ScriptResourceManager) (store : list N) : RemoteValue :=
  currentString m store.

(** [getRefArrayItem] *)
Definition getRefArrayItem (m : ScriptResourceManager) (index : nat) (store : list N)
  : option RemoteValue :=
  let resourceId := mapGet (ptrToResourceId m) (u32Get store index) in
  if truthy resourceId then getRemoteResource (ctx m) (default 0 resourceId) else None.

(** The import [websg.dispose_resource] of [createImports]: [1] when the
    pointer names a resource that [disposeResource] disposed, [0]
    otherwise. *)
Definition dispose_resource (m : ScriptResourceManager) (p : N)
  : Outcome ScriptResourceManager N :=
  let resourceId := ptrToResourceId m !! p in
  if negb (truthy resourceId) then Returned m 0
  else
    match disposeResource m (default 0 resourceId) with
    | Returned m' true => Returned m' 1
    | Returned m' false => Returned m' 0
    | Thrown m' msg => Thrown m' msg
    end.

End Manager.

Arguments ScriptResourceManager : clear implicits.

End Script.

(** ** Fields of a script resource: stores that share the WASM heap *)

Module HeapField.

(** The [store] that the class of a script resource hands to a getter or
    setter of [ScriptResourceManager] is a [Uint32Array] on the buffer that
    [allocateResource] returns, the buffer of the WASM memory, so that what is
    written to [store] is written to the heap and is what [commitResources]
    reads through [refView].  [Script.setString] and its siblings take
    [store] as an array of its own, which is right for what they call on the
    game context and the pointer table; the functions of this module are the
    same methods for a store that is a view of the heap, kept as its byte
    offset (a multiple of 4) and its length and accessed through
    [U8Heap]. *)
Record Store : Type := {
  storeOffset : N;
  storeLength : nat;
}.

(** The index in [U32Heap] of [store[k]]. *)
Definition heapIndex (store : Store) (k : nat) : nat :=
  (N.to_nat (storeOffset store / 4) + k)%nat.

(** [store[k]] *)
Definition get (heap : list byte) (store : Store) (k : nat) : option N :=
  if decide (k < storeLength store)%nat then wordGet heap (heapIndex store k) else None.

(** [store[k] = v] *)
Definition set (heap : list byte) (store : Store) (k : nat) (v : N) : list byte :=
  if decide (k < storeLength store)%nat then wordSet heap (heapIndex store k) v else heap.

Section Manager.
Context {Ctx Inst : Type} `{!ResourceGame Ctx Inst}.

(** [getString], [setString] *)
Definition currentString (m : Script.ScriptResourceManager Ctx Inst) (store : Store)
  : RemoteValue :=
  let curResourceId := mapGet (Script.ptrToResourceId m) (get (Script.U8Heap m) store 0) in
  if truthy curResourceId then
    match curResourceId with
    | Some id =>
        let v := getRemoteResource (Script.ctx m) id in
        if valueFalsy v then RString "" else default (RString "") v
    | None => RString ""
    end
  else RString "".

Definition getString (m : Script.ScriptResourceManager Ctx Inst) (store : Store)
  : RemoteValue :=
  currentString m store.

Definition setString (m : Script.ScriptResourceManager Ctx Inst) (value : string)
    (store : Store) : Outcome (Script.ScriptResourceManager Ctx Inst) unit :=
  if negb (Script.sameValue (currentString m store) value) then
    let m1 :=
      if truthy (get (Script.U8Heap m) store 0)
      then Script.removeRef m (default 0 (get (Script.U8Heap m) store 0))
      else m in
    if bool_decide (value ≠ "") then
      let arr := String.list_byte_of_string value in
      let nullTerminatedArr := arr ++ [x00] in
      match Script.allocate m1 (N.of_nat (length nullTerminatedArr)) with
      | Thrown m2 msg => Thrown m2 msg
      | Returned m2 p =>
          match typedArraySetAt (Script.U8Heap m2) nullTerminatedArr (N.to_nat p) with
          | None => Thrown m2 "RangeError: offset is out of bounds"
          | Some heap =>
              let m3 := Script.withHeap m2 (set heap store 0 p) in
              let '(c, resourceId) := createStringResource (Script.ctx m3) value (Some p) in
              let m4 := Script.addRef (Script.withCtx m3 c) resourceId in
              Returned
                (Script.withPtrToResourceId m4
                   (<[p := resourceId]> (Script.ptrToResourceId m4)))
                tt
          end
      end
    else Returned m1 tt
  else Returned m tt.

(** [getArrayBuffer].  The id that the table gives for [store[1]] is passed
    on to [getRemoteResource] as it is; for a pointer that the table does not
    know the id is [undefined], which names no resource. *)
Definition getArrayBuffer (m : Script.ScriptResourceManager Ctx Inst) (store : Store)
  : Outcome (Script.ScriptResourceManager Ctx Inst) (option RemoteValue) :=
  if negb (truthy (get (Script.U8Heap m) store 1))
  then Thrown m "arrayBuffer field not initialized."
  else
    Returned m
      (mapGet (Script.ptrToResourceId m) (get (Script.U8Heap m) store 1)
         ≫= getRemoteResource (Script.ctx m)).

(** [setArrayBuffer]: [store[0] = value.byteLength] is written before
    [allocate] is called. *)
Definition setArrayBuffer (m : Script.ScriptResourceManager Ctx Inst) (value : list byte)
    (store : Store) : Outcome (Script.ScriptResourceManager Ctx Inst) unit :=
  if truthy (get (Script.U8Heap m) store 1) then
    Thrown m "You cannot mutate an existing arrayBuffer field."
  else
    let m0 := Script.withHeap m (set (Script.U8Heap m) store 0 (N.of_nat (length value))) in
    match Script.allocate m0 (N.of_nat (length value)) with
    | Thrown m1 msg => Thrown m1 msg
    | Returned m1 p =>
        match typedArraySetAt (Script.U8Heap m1) value (N.to_nat p) with
        | None => Thrown m1 "RangeError: offset is out of bounds"
        | Some heap =>
            let m2 := Script.withHeap m1 (set heap store 1 p) in
            let '(c, resourceId) := createArrayBufferResource (Script.ctx m2) value in
            let m3 := Script.addRef (Script.withCtx m2 c) resourceId in
            Returned
              (Script.withPtrToResourceId m3
                 (<[p := resourceId]> (Script.ptrToResourceId m3)))
              tt
        end
    end.

(** [setRef] *)
Definition setRef (m : Script.ScriptResourceManager Ctx Inst)
    (value : option RemoteResource) (store : Store) (backRef : bool)
  : Script.ScriptResourceManager Ctx Inst :=
  let curResourceId := get (Script.U8Heap m) store 0 in
  let nextResourceId := Script.nextResourceIdOf value in
  let m' := if negb backRef then Script.countRefs m curResourceId nextResourceId else m in
  Script.withHeap m' (set (Script.U8Heap m') store 0 (Script.ptrOf value)).

End Manager.

End HeapField.

(** ** GameResourceManager (the in-process variant) *)

Module Game.

Section Manager.
Context {Ctx Inst : Type} `{!ResourceGame Ctx Inst}.

Record GameResourceManager : Type := {
  ctx : Ctx;
  resources : list RemoteResource;
}.

Definition withCtx (m : GameResourceManager) (c : Ctx) : GameResourceManager :=
  {| ctx := c; resources := resources m |}.

Definition withResources (m : GameResourceManager) (rs : list RemoteResource)
  : GameResourceManager :=
  {| ctx := ctx m; resources := rs |}.

Definition addRef (m : GameResourceManager) (resourceId : N) : GameResourceManager :=
  withCtx m (addResourceRef (ctx m) resourceId).

(** [removeRef] is [disposeResource(this.ctx, resourceId)] of
    [resource.game.ts]. *)
Definition removeRef (m : GameResourceManager) (resourceId : N) : GameResourceManager :=
  withCtx m (Remote.disposeResource (ctx m) resourceId).

(** [for (i = 0; i < resourceIds.length; i++) if (resourceIds[i]) removeRef] *)
Fixpoint releaseAll (m : GameResourceManager) (resourceIds : list N)
  : GameResourceManager :=
  match resourceIds with
  | [] => m
  | resourceId :: rest =>
      releaseAll (if negb (resourceId =? 0) then removeRef m resourceId else m) rest
  end.

(** The loop of [disposeResource] over the schema. *)
Fixpoint releaseProps (m : GameResourceManager) (props : gmap string (list N))
    (schema : list (string * Schema.PropDef)) : Outcome GameResourceManager unit :=
  match schema with
  | [] => Returned m tt
  | (propName, prop) :: rest =>
      if Schema.isRefLike (Schema.type prop) then
        match props !! propName with
        | None => Thrown m "TypeError: resourceIds is undefined"
        | Some resourceIds => releaseProps (releaseAll m resourceIds) props rest
        end
      else if bool_decide (Schema.type prop = Schema.PArrayBuffer) then
        match props !! propName with
        | None => Thrown m "TypeError: property is undefined"
        | Some store =>
            releaseProps
              (if truthy (u32Get store 1) then removeRef m (default 0 (u32Get store 1)) else m)
              props rest
        end
      else releaseProps m props rest
  end.

(** [disposeResource] is declared [void]: the result is [None] where the
    source returns nothing. *)
Definition disposeResource (m : GameResourceManager) (resourceId : N)
  : Outcome GameResourceManager (option bool) :=
  let resource := getRemoteResource (ctx m) resourceId in
  if valueFalsy resource then Returned m None
  else
    let m1 :=
      match list_find (λ r, Remote.resourceId r = resourceId) (resources m) with
      | Some (index, _) => withResources m (delete index (resources m))
      | None => m
      end in
    match resource with
    | Some (RResource r) =>
        match releaseProps m1 (props r) (Schema.schema (resourceDef r)) with
        | Returned m2 _ => Returned m2 None
        | Thrown m2 msg => Thrown m2 msg
        end
    | _ => Thrown m1 "TypeError: resourceDef is undefined"
    end.

Definition setString (m : GameResourceManager) (value : string) (store : list N)
  : GameResourceManager * list N :=
  let m1 :=
    if truthy (u32Get store 0)
    then withCtx m (Remote.disposeResource (ctx m) (default 0 (u32Get store 0)))
    else m in
  let '(c, resourceId) := createStringResource (ctx m1) value None in
  (addRef (withCtx m1 c) resourceId, u32Set store 0 resourceId).

Definition setArrayBuffer (m : GameResourceManager) (value : list byte) (store : list N)
  : Outcome (GameResourceManager * list N) unit :=
  if truthy (u32Get store 1) then
    Thrown (m, store) "You cannot mutate an existing arrayBuffer field."
  else
    let '(c, resourceId) := createArrayBufferResource (ctx m) value in
    let m1 := addRef (withCtx m c) resourceId in
    Returned (m1, u32Set (u32Set store 0 (N.of_nat (length value))) 1 resourceId) tt.

(** [addResourceRef(this.ctx, store[0])] reads the id back from the store. *)
Definition setRef (m : GameResourceManager) (value : option RemoteResource)
    (store : list N) : GameResourceManager * list N :=
  let m1 :=
    if truthy (u32Get store 0)
    then withCtx m (Remote.disposeResource (ctx m) (default 0 (u32Get store 0)))
    else m in
  match value with
  | Some v =>
      let store' := u32Set store 0 (resourceId v) in
      match u32Get store' 0 with
      | Some id => (addRef m1 id, store')
      | None => (m1, store')   (* [addResourceRef(ctx, undefined)] is not modelled *)
      end
  | None => (m1, u32Set store 0 0)
  end.

Definition setRefArrayItem (m : GameResourceManager) (index : nat)
    (value : option RemoteResource) (store : list N) : GameResourceManager * list N :=
  match value with
  | Some v => (addRef m (resourceId v), u32Set store index (resourceId v))
  | None => (m, u32Set store index 0)
  end.

(** The outer loop of [commitResources]. *)
Fixpoint commitLoop (done todo : list RemoteResource)
  : Outcome (list RemoteResource) unit :=
  match todo with
  | [] => Returned done tt
  | resource :: rest =>
      match publish resource (byteView resource) with
      | Thrown resource' msg => Thrown (done ++ resource' :: rest) msg
      | Returned resource' _ => commitLoop (done ++ [resource']) rest
      end
  end.

Definition commitResources (m : GameResourceManager)
  : Outcome GameResourceManager unit :=
  match commitLoop [] (resources m) with
  | Returned rs _ => Returned (withResources m rs) tt
  | Thrown rs msg => Thrown (withResources m rs) msg
  end.

(** [getResource] *)
Definition getResource (m : GameResourceManager) (resourceId : N) : option RemoteValue :=
  getRemoteResource (ctx m) resourceId.

(** [getString], [getRef]: the field holds the resource id itself.  A store
    without a word [0] gives [undefined], which names no resource. *)
Definition getString (m : GameResourceManager) (store : list N) : option RemoteValue :=
  u32Get store 0 ≫= getRemoteResource (ctx m).

Definition getRef (m : GameResourceManager) (store : list N) : option RemoteValue :=
  u32Get store 0 ≫= getRemoteResource (ctx m).

(** [getArrayBuffer] *)
Definition getArrayBuffer (m : GameResourceManager) (store : list N)
  : Outcome GameResourceManager (option RemoteValue) :=
  if negb (truthy (u32Get store 1)) then Thrown m "arrayBuffer field not initialized."
  else Returned m (u32Get store 1 ≫= getRemoteResource (ctx m)).

End Manager.

Arguments GameResourceManager : clear implicits.

End Game.

(** ** Deferred promises *)

Module Deferred.

(** The errors that settle a deferred: [ResourceDisposedError] is the class
    of [resource.common.ts], [Error] a plain [Error], [TimeoutError] the
    time-out error of the spec. *)
Inductive LoadError : Type :=
| ResourceDisposedError (message : string)
| TimeoutError (message : string)
| Error (message : string).

Inductive Settlement : Type :=
| Pending
| Resolved
| Rejected (e : LoadError).

#[global] Instance LoadError_eq_dec : EqDecision LoadError.
Proof. solve_decision. Defined.

#[global] Instance Settlement_eq_dec : EqDecision Settlement.
Proof. solve_decision. Defined.

(** Modelled from the spec: [utils/Deferred.ts] is not among the sources.  A
    deferred is a single-settlement future; it is rejected with a timeout
    error when its timeout (30 s unless the caller gives another one)
    elapses before it is settled. *)
Record t : Type := {
  settlement : Settlement;
  timeout : N;                 (* milliseconds *)
  timeoutMessage : string;
}.

Definition defaultTimeout : N := 30000.

(** Modelled from the spec: [createDeferred(timeout?, message?)]. *)
Definition createDeferred (ms : option N) (message : option string) : t :=
  {| settlement := Pending;
     timeout := default defaultTimeout ms;
     timeoutMessage := default "Deferred timed out" message |}.

Definition settle (d : t) (st : Settlement) : t :=
  match settlement d with
  | Pending => {| settlement := st; timeout := timeout d;
                  timeoutMessage := timeoutMessage d |}
  | _ => d
  end.

(** Modelled from the spec: single settlement, the first one wins. *)
Definition resolve (d : t) : t := settle d Resolved.
Definition reject (d : t) (e : LoadError) : t := settle d (Rejected e).

(** Modelled from the spec: the timer of the deferred fires. *)
Definition expire (d : t) : t := reject d (TimeoutError (timeoutMessage d)).

Definition isSettled (d : t) : bool :=
  match settlement d with
  | Pending => false
  | _ => true
  end.

(** [error.message || "Unknown error"] *)
Definition messageOf (e : LoadError) : string :=
  let m := match e with
           | ResourceDisposedError m | TimeoutError m | Error m => m
           end in
  if bool_decide (m = "") then "Unknown error" else m.

End Deferred.

(** ** The resource module of a consuming thread ([resource.common.ts]) *)

Module Local.

(** Modelled from the spec: [NOOP] of [config.common.ts], which is not
    among the sources, is the zero id; the message of [waitForLocalResource]
    names it: "Cannot load a resourceId of 0." *)
Definition NOOP : N := 0.

(** A loaded thread-local resource.  Objects are compared by identity:
    [LResource k] is the object built by the [k]-th call of
    [loadLocalResource]. *)
Inductive LocalValue : Type :=
| LString (s : string)
| LArrayBuffer (handle : nat)
| LResource (task : nat)
| LOther (handle : nat).

#[global] Instance LocalValue_eq_dec : EqDecision LocalValue.
Proof. solve_decision. Defined.

Definition valueTruthy (v : LocalValue) : bool :=
  match v with
  | LString s => bool_decide (s ≠ "")
  | _ => true
  end.

(** [props] of a creation record. *)
Inductive Props : Type :=
| PropsString (s : string)
| PropsArrayBuffer (handle : nat)
| PropsTripleBuffer (tb : TripleBuffer.t)
| PropsOther (handle : nat).

Record CreateResourceMessage : Type := {
  msgResourceType : string;
  msgId : N;
  msgName : string;
  msgProps : Props;
  msgStatusBuffer : TripleBuffer.t;
}.

Record ResourceLoadedMessage : Type := {
  loadedId : N;
  loadedFlag : bool;
  loadedError : option string;
}.

Record LocalResourceInfo : Type := {
  id : N;
  name : string;
  loaded : bool;
  error : option string;
  resourceType : string;
  props : Props;
  resource : option LocalValue;
  statusBuffer : TripleBuffer.t;
}.

(** What [resourceLoaders] can hold: the closure [loadLocalResource] that
    [registerResource] builds around the dependency offsets of a schema, the
    two loaders of [init] that return their value, or a function installed
    with [registerResourceLoader]. *)
Inductive ResourceLoader : Type :=
| LoadLocalResource (dependencyByteOffsets : list N) (dependencyNames : list string)
| OnLoadValue
| External (handle : nat).

Inductive Promise : Type :=
| OfDeferred (h : nat)                       (* [deferred.promise] *)
| RejectedWith (e : Deferred.LoadError).     (* [Promise.reject(e)] *)

(** Where a call of [loadResource] stands.  [Loaded] and [Failed] are the
    two ways in which the call runs to its last statement; [Abandoned] is a
    call that its own [catch] block has thrown out of. *)
Inductive Phase : Type :=
| AwaitDependencies    (* suspended at [await Promise.all(...)] *)
| AwaitLoad            (* the loader of the type has been invoked *)
| Loaded
| Failed
| Abandoned.

(** What the promise of a loader can be rejected with, as the [catch] block
    of [loadResource] sees it: [null] or [undefined], on which
    [error.message] throws a [TypeError], or any other value, of which the
    block reads the message (a value without one is an error with the empty
    message). *)
Inductive Rejection : Type :=
| Nullish
| WithError (e : Deferred.LoadError).

#[global] Instance Phase_eq_dec : EqDecision Phase.
Proof. solve_decision. Defined.

(** A call of [loadResource]: the objects it holds on to across its
    [await]s. *)
Record LoadTask : Type := {
  taskId : N;
  taskType : string;
  taskProps : Props;
  taskInfo : nat;            (* its [resourceInfo] object *)
  taskDeferred : nat;        (* its [deferred] object *)
  taskLoader : option ResourceLoader;
  promises : list Promise;   (* the argument of [Promise.all] *)
  phase : Phase;
}.

Definition withPhase (t : LoadTask) (ph : Phase) : LoadTask :=
  {| taskId := taskId t; taskType := taskType t; taskProps := taskProps t;
     taskInfo := taskInfo t; taskDeferred := taskDeferred t;
     taskLoader := taskLoader t; promises := promises t; phase := ph |}.

(** [ResourceModuleState].  The two maps hold objects, which live in
    [infoHeap] and [deferredHeap] and are named by their index there, so
    that a task keeps its own objects when a map entry is replaced or
    deleted.  [tasks] are the calls of [loadResource], [outbox] the messages
    sent to the game thread, [disposedLocals] the resources whose [dispose]
    was called. *)
Record State : Type := {
  resourceIds : list N;
  resourceInfos : gmap N nat;
  infoHeap : list LocalResourceInfo;
  resourcesByType : gmap string (list LocalValue);
  deferredResources : gmap N nat;
  deferredHeap : list Deferred.t;
  resourceLoaders : gmap string ResourceLoader;
  tasks : list LoadTask;
  outbox : list ResourceLoadedMessage;
  disposedLocals : list LocalValue;
}.

Definition withResourceIds (s : State) (x : list N) : State :=
  {| resourceIds := x; resourceInfos := resourceInfos s; infoHeap := infoHeap s;
     resourcesByType := resourcesByType s; deferredResources := deferredResources s;
     deferredHeap := deferredHeap s; resourceLoaders := resourceLoaders s;
     tasks := tasks s; outbox := outbox s; disposedLocals := disposedLocals s |}.

Definition withResourceInfos (s : State) (x : gmap N nat) : State :=
  {| resourceIds := resourceIds s; resourceInfos := x; infoHeap := infoHeap s;
     resourcesByType := resourcesByType s; deferredResources := deferredResources s;
     deferredHeap := deferredHeap s; resourceLoaders := resourceLoaders s;
     tasks := tasks s; outbox := outbox s; disposedLocals := disposedLocals s |}.

Definition withInfoHeap (s : State) (x : list LocalResourceInfo) : State :=
  {| resourceIds := resourceIds s; resourceInfos := resourceInfos s; infoHeap := x;
     resourcesByType := resourcesByType s; deferredResources := deferredResources s;
     deferredHeap := deferredHeap s; resourceLoaders := resourceLoaders s;
     tasks := tasks s; outbox := outbox s; disposedLocals := disposedLocals s |}.

Definition withResourcesByType (s : State) (x : gmap string (list LocalValue)) : State :=
  {| resourceIds := resourceIds s; resourceInfos := resourceInfos s; infoHeap := infoHeap s;
     resourcesByType := x; deferredResources := deferredResources s;
     deferredHeap := deferredHeap s; resourceLoaders := resourceLoaders s;
     tasks := tasks s; outbox := outbox s; disposedLocals := disposedLocals s |}.

Definition withDeferredResources (s : State) (x : gmap N nat) : State :=
  {| resourceIds := resourceIds s; resourceInfos := resourceInfos s; infoHeap := infoHeap s;
     resourcesByType := resourcesByType s; deferredResources := x;
     deferredHeap := deferredHeap s; resourceLoaders := resourceLoaders s;
     tasks := tasks s; outbox := outbox s; disposedLocals := disposedLocals s |}.

Definition withDeferredHeap (s : State) (x : list Deferred.t) : State :=
  {| resourceIds := resourceIds s; resourceInfos := resourceInfos s; infoHeap := infoHeap s;
     resourcesByType := resourcesByType s; deferredResources := deferredResources s;
     deferredHeap := x; resourceLoaders := resourceLoaders s;
     tasks := tasks s; outbox := outbox s; disposedLocals := disposedLocals s |}.

Definition withResourceLoaders (s : State) (x : gmap string ResourceLoader) : State :=
  {| resourceIds := resourceIds s; resourceInfos := resourceInfos s; infoHeap := infoHeap s;
     resourcesByType := resourcesByType s; deferredResources := deferredResources s;
     deferredHeap := deferredHeap s; resourceLoaders := x;
     tasks := tasks s; outbox := outbox s; disposedLocals := disposedLocals s |}.

Definition withTasks (s : State) (x : list LoadTask) : State :=
  {| resourceIds := resourceIds s; resourceInfos := resourceInfos s; infoHeap := infoHeap s;
     resourcesByType := resourcesByType s; deferredResources := deferredResources s;
     deferredHeap := deferredHeap s; resourceLoaders := resourceLoaders s;
     tasks := x; outbox := outbox s; disposedLocals := disposedLocals s |}.

Definition withOutbox (s : State) (x : list ResourceLoadedMessage) : State :=
  {| resourceIds := resourceIds s; resourceInfos := resourceInfos s; infoHeap := infoHeap s;
     resourcesByType := resourcesByType s; deferredResources := deferredResources s;
     deferredHeap := deferredHeap s; resourceLoaders := resourceLoaders s;
     tasks := tasks s; outbox := x; disposedLocals := disposedLocals s |}.

Definition withDisposedLocals (s : State) (x : list LocalValue) : State :=
  {| resourceIds := resourceIds s; resourceInfos := resourceInfos s; infoHeap := infoHeap s;
     resourcesByType := resourcesByType s; deferredResources := deferredResources s;
     deferredHeap := deferredHeap s; resourceLoaders := resourceLoaders s;
     tasks := tasks s; outbox := outbox s; disposedLocals := x |}.

(** *** [registerResource]: the dependency offsets of a schema *)

(** The body of [for (const propName in resourceDef.schema)]: what one
    property pushes on [dependencyByteOffsets] and [dependencyNames]. *)
Definition pushDependencies (acc : list N * list string)
    (propName : string) (prop : Schema.PropDef) : list N * list string :=
  if Schema.backRef prop then acc
  else if Schema.isRefLike (Schema.type prop) then
    (acc.1 ++ map (λ i, Schema.byteOffset prop + N.of_nat i * Schema.bytesPerElement prop)
                  (seq 0 (Schema.size prop)),
     acc.2 ++ replicate (Schema.size prop) propName)
  else if bool_decide (Schema.type prop = Schema.PArrayBuffer) then
    (acc.1 ++ [Schema.byteOffset prop + 4], acc.2 ++ [propName])
  else acc.

Fixpoint collectDependencies (acc : list N * list string)
    (schema : list (string * Schema.PropDef)) : list N * list string :=
  match schema with
  | [] => acc
  | (propName, prop) :: rest => collectDependencies (pushDependencies acc propName prop) rest
  end.

Definition dependencyByteOffsets (def : Schema.ResourceDefinition) : list N :=
  (collectDependencies ([], []) (Schema.schema def)).1.

Definition dependencyNames (def : Schema.ResourceDefinition) : list string :=
  (collectDependencies ([], []) (Schema.schema def)).2.

(** [registerResource] installs [loadLocalResource] for the name of the
    definition. *)
Definition registerResource (s : State) (def : Schema.ResourceDefinition) : State :=
  withResourceLoaders s
    (<[Schema.name def := LoadLocalResource (dependencyByteOffsets def) (dependencyNames def)]>
       (resourceLoaders s)).

Definition registerResourceLoader (s : State) (resourceType : string)
    (loader : ResourceLoader) : State :=
  withResourceLoaders s (<[resourceType := loader]> (resourceLoaders s)).

(** The disposer that [registerResource] and [registerResourceLoader]
    return. *)
Definition unregisterResourceLoader (s : State) (resourceType : string) : State :=
  withResourceLoaders s (delete resourceType (resourceLoaders s)).

Definition StringResourceType : string := "string".
Definition ArrayBufferResourceType : string := "arrayBuffer".

(** [create] followed by [init]. *)
Definition create : State :=
  {| resourceIds := []; resourceInfos := ∅; infoHeap := [];
     resourcesByType := ∅; deferredResources := ∅; deferredHeap := [];
     resourceLoaders := ∅; tasks := []; outbox := []; disposedLocals := [] |}.

Definition init (resourceDefinitions : list Schema.ResourceDefinition) : State :=
  registerResourceLoader
    (registerResourceLoader
       (foldl registerResource create resourceDefinitions)
       StringResourceType OnLoadValue)
    ArrayBufferResourceType OnLoadValue.

(** *** Waiting for resources *)

Definition waitForLocalResource (s : State) (resourceId : N) (description : string)
  : State * Promise :=
  if resourceId =? NOOP then
    (s, RejectedWith (Deferred.Error "Cannot load a resourceId of 0."))
  else
    match deferredResources s !! resourceId with
    | Some h => (s, OfDeferred h)
    | None =>
        let h := length (deferredHeap s) in
        let d := Deferred.createDeferred (Some 30000)
                   (Some ("Loading resource " +:+ pretty resourceId +:+ " " +:+ description
                         +:+ " timed out.")) in
        (withDeferredResources (withDeferredHeap s (deferredHeap s ++ [d]))
           (<[resourceId := h]> (deferredResources s)),
         OfDeferred h)
    end.

(** The loop of [waitForLocalResourceDependencies] from index [i] on;
    [view] is the buffer behind the [Uint32Array]. *)
Fixpoint waitForDependenciesFrom (s : State) (view : list byte) (names : list string)
    (i : nat) (offsets : list N) : State * list Promise :=
  match offsets with
  | [] => (s, [])
  | byteOff :: rest =>
      let resourceId :=
        match wordIndex byteOff with
        | Some index => wordGet view index
        | None => None
        end in
      if truthy resourceId then
        let '(s1, p) := waitForLocalResource s (default 0 resourceId)
                          (default "undefined" (names !! i)) in
        let '(s2, ps) := waitForDependenciesFrom s1 view names (S i) rest in
        (s2, p :: ps)
      else waitForDependenciesFrom s view names (S i) rest
  end.

(** [waitForLocalResourceDependencies]: the snapshot is the readable slot
    of the triple buffer of the resource. *)
Definition waitForLocalResourceDependencies (s : State) (tb : TripleBuffer.t)
    (offsets : list N) (names : list string) : State * list Promise :=
  let bufferIndex := TripleBuffer.getReadBufferIndex tb in
  waitForDependenciesFrom s (TripleBuffer.byteViews tb bufferIndex) names 0%nat offsets.

Definition promiseSettlement (s : State) (p : Promise) : Deferred.Settlement :=
  match p with
  | OfDeferred h =>
      match deferredHeap s !! h with
      | Some d => Deferred.settlement d
      | None => Deferred.Pending
      end
  | RejectedWith e => Deferred.Rejected e
  end.

Definition allResolved (s : State) (ps : list Promise) : bool :=
  forallb (λ p, bool_decide (promiseSettlement s p = Deferred.Resolved)) ps.

(** *** [loadResource] and its continuations *)

Definition sendMessage (s : State) (m : ResourceLoadedMessage) : State :=
  withOutbox s (outbox s ++ [m]).

Definition updateInfo (s : State) (ih : nat)
    (f : LocalResourceInfo → LocalResourceInfo) : State :=
  withInfoHeap s (alter f ih (infoHeap s)).

Definition updateDeferred (s : State) (h : nat) (f : Deferred.t → Deferred.t) : State :=
  withDeferredHeap s (alter f h (deferredHeap s)).

Definition setTaskPhase (s : State) (k : nat) (ph : Phase) : State :=
  withTasks s (alter (λ t, withPhase t ph) k (tasks s)).

Definition withError (i : LocalResourceInfo) (e : string) : LocalResourceInfo :=
  {| id := id i; name := name i; loaded := loaded i; error := Some e;
     resourceType := resourceType i; props := props i; resource := resource i;
     statusBuffer := statusBuffer i |}.

Definition withResource (i : LocalResourceInfo) (v : LocalValue) : LocalResourceInfo :=
  {| id := id i; name := name i; loaded := true; error := error i;
     resourceType := resourceType i; props := props i; resource := Some v;
     statusBuffer := statusBuffer i |}.

Definition withStatusBuffer (i : LocalResourceInfo) (tb : TripleBuffer.t)
  : LocalResourceInfo :=
  {| id := id i; name := name i; loaded := loaded i; error := error i;
     resourceType := resourceType i; props := props i; resource := resource i;
     statusBuffer := tb |}.

(** The [ctx.sendMessage] that ends [loadResource]. *)
Definition sendLoaded (s : State) (t : LoadTask) : State :=
  match infoHeap s !! taskInfo t with
  | Some i =>
      sendMessage s {| loadedId := taskId t; loadedFlag := loaded i;
                       loadedError := error i |}
  | None => s
  end.

(** The [catch] block of [loadResource] for an error that is not [null]
    or [undefined], then the last statement of [loadResource]. *)
Definition failLoad (s : State) (k : nat) (t : LoadTask) (e : Deferred.LoadError) : State :=
  let s1 := updateInfo s (taskInfo t) (λ i, withError i (Deferred.messageOf e)) in
  let s2 := updateDeferred s1 (taskDeferred t) (λ d, Deferred.reject d e) in
  sendLoaded (setTaskPhase s2 k Failed) t.

(** The statements of [loadResource] after [await resourceLoader(...)]. *)
Definition finishLoad (s : State) (k : nat) (t : LoadTask) (v : LocalValue) : State :=
  let s1 := updateInfo s (taskInfo t) (λ i, withResource i v) in
  let resourceArr := default [] (resourcesByType s1 !! taskType t) in
  let s2 := withResourcesByType s1
              (<[taskType t := resourceArr ++ [v]]> (resourcesByType s1)) in
  let s3 := updateDeferred s2 (taskDeferred t) Deferred.resolve in
  sendLoaded (setTaskPhase s3 k Loaded) t.

(** What [onLoadStringResource] and [onLoadArrayBufferResource] return. *)
Definition valueOfProps (p : Props) : LocalValue :=
  match p with
  | PropsString s => LString s
  | PropsArrayBuffer h => LArrayBuffer h
  | PropsTripleBuffer _ => LOther 0
  | PropsOther h => LOther h
  end.

(** The statements of [loadResource] before its [try] block: the info is
    stored, the id pushed on [resourceIds], and the deferred of the id
    fetched, or created when there is none.  The result names the deferred. *)
Definition announce (s : State) (msg : CreateResourceMessage) : State * nat :=
  let resourceInfo :=
    {| id := msgId msg; name := msgName msg; loaded := false; error := None;
       resourceType := msgResourceType msg; props := msgProps msg;
       resource := None; statusBuffer := msgStatusBuffer msg |} in
  let ih := length (infoHeap s) in
  let s1 := withResourceIds s (resourceIds s ++ [msgId msg]) in
  let s2 := withResourceInfos (withInfoHeap s1 (infoHeap s1 ++ [resourceInfo]))
              (<[msgId msg := ih]> (resourceInfos s1)) in
  match deferredResources s2 !! msgId msg with
  | Some h => (s2, h)
  | None =>
      let h := length (deferredHeap s2) in
      (withDeferredResources
         (withDeferredHeap s2 (deferredHeap s2 ++ [Deferred.createDeferred None None]))
         (<[msgId msg := h]> (deferredResources s2)),
       h)
  end.

(** The task of a call of [loadResource]; its info object is the one that
    [announce] has just put on the heap. *)
Definition taskOf (s : State) (msg : CreateResourceMessage) (h : nat)
    (ps : list Promise) (ph : Phase) : LoadTask :=
  {| taskId := msgId msg; taskType := msgResourceType msg; taskProps := msgProps msg;
     taskInfo := length (infoHeap s); taskDeferred := h;
     taskLoader := resourceLoaders s !! msgResourceType msg;
     promises := ps; phase := ph |}.

Definition spawn (s : State) (t : LoadTask) : State := withTasks s (tasks s ++ [t]).

(** [loadResource], up to its first [await] (or to its end when it fails
    before). *)
Definition loadResource (s : State) (msg : CreateResourceMessage) : State :=
  let '(s3, h) := announce s msg in
  let failed e :=
    failLoad (spawn s3 (taskOf s msg h [] Failed)) (length (tasks s3))
      (taskOf s msg h [] Failed) e in
  match resourceLoaders s3 !! msgResourceType msg with
  | None =>
      failed (Deferred.Error ("No registered resource loader for " +:+ msgResourceType msg))
  | Some (LoadLocalResource offsets names) =>
      match msgProps msg with
      | PropsTripleBuffer tb =>
          let view := TripleBuffer.byteViews tb (TripleBuffer.getReadBufferIndex tb) in
          if bool_decide (length view `mod` 4 = 0)%nat then
            let '(s4, ps) := waitForLocalResourceDependencies s3 tb offsets names in
            spawn s4 (taskOf s msg h ps AwaitDependencies)
          else failed (Deferred.Error "RangeError: byte length should be a multiple of 4")
      | _ => failed (Deferred.Error "TypeError: props is not a triple buffer")
      end
  | Some _ => spawn s3 (taskOf s msg h [] AwaitLoad)
  end.

Definition onLoadResources (s : State) (resources : list CreateResourceMessage) : State :=
  foldl loadResource s resources.

(** [loadLocalResource] after [await Promise.all(...)]: when every promise
    is fulfilled, [resource.load(ctx)] is called; when the promise at [j] is
    rejected, [Promise.all] may have rejected with its error and the load
    fails. *)
Definition resumeAfterDependencies (s : State) (k j : nat) : State :=
  match tasks s !! k with
  | Some t =>
      if bool_decide (phase t = AwaitDependencies) then
        if allResolved s (promises t) then setTaskPhase s k AwaitLoad
        else
          match promises t !! j with
          | Some p =>
              match promiseSettlement s p with
              | Deferred.Rejected e => failLoad s k t e
              | _ => s
              end
          | None => s
          end
      else s
  | None => s
  end.

(** The [catch] block of [loadResource] for [null] or [undefined]: after
    [console.error], [error.message] throws, so that the block is left before
    [resourceInfo.error] is set and before [deferred.reject], and
    [ctx.sendMessage] is not reached. *)
Definition abandonLoad (s : State) (k : nat) : State := setTaskPhase s k Abandoned.

(** The promise of the loader of task [k] settles: [None] when it is
    fulfilled, [Some r] when it is rejected with [r].  [v] is the value of a
    loader installed with [registerResourceLoader]. *)
Definition resumeAfterLoad (s : State) (k : nat) (v : LocalValue)
    (failure : option Rejection) : State :=
  match tasks s !! k with
  | Some t =>
      if bool_decide (phase t = AwaitLoad) then
        match taskLoader t, failure with
        | Some OnLoadValue, _ => finishLoad s k t (valueOfProps (taskProps t))
        | Some (LoadLocalResource _ _), None => finishLoad s k t (LResource k)
        | Some (External _), None => finishLoad s k t v
        | Some _, Some (WithError e) => failLoad s k t e
        | Some _, Some Nullish => abandonLoad s k
        | None, _ => s
        end
      else s
  | None => s
  end.

(** *** The disposal system *)

Definition getResourceDisposed (s : State) (resourceId : N) : bool :=
  match resourceInfos s !! resourceId with
  | Some ih =>
      match infoHeap s !! ih with
      | Some info =>
          let index := TripleBuffer.getReadBufferIndex (statusBuffer info) in
          match TripleBuffer.byteViews (statusBuffer info) index !! 0%nat with
          | Some b => negb (Byte.to_N b =? 0)
          | None => false
          end
      | None => false
      end
  | None => false
  end.

(** [resourceArr.splice(resourceArr.indexOf(v), 1)] *)
Definition removeFirst (v : LocalValue) (arr : list LocalValue) : list LocalValue :=
  match list_find (λ x, x = v) arr with
  | Some (index, _) => delete index arr
  | None => arr
  end.

Definition hasDispose (v : LocalValue) : bool :=
  match v with
  | LResource _ => true
  | _ => false
  end.

(** The body of the loop of [ResourceDisposalSystem] at index [i]. *)
Definition disposeAt (s : State) (i : nat) : State :=
  match resourceIds s !! i with
  | Some resourceId =>
      if getResourceDisposed s resourceId then
        match resourceInfos s !! resourceId ≫= (λ ih, infoHeap s !! ih) with
        | Some resourceInfo =>
            let s1 :=
              match deferredResources s !! resourceId with
              | Some h =>
                  withDeferredResources
                    (updateDeferred s h
                       (λ d, Deferred.reject d
                               (Deferred.ResourceDisposedError "Resource disposed")))
                    (delete resourceId (deferredResources s))
              | None => s
              end in
            let s2 :=
              match resource resourceInfo with
              | Some v =>
                  if valueTruthy v then
                    let s' :=
                      match resourcesByType s1 !! resourceType resourceInfo with
                      | Some resourceArr =>
                          withResourcesByType s1
                            (<[resourceType resourceInfo := removeFirst v resourceArr]>
                               (resourcesByType s1))
                      | None => s1
                      end in
                    if hasDispose v
                    then withDisposedLocals s' (disposedLocals s' ++ [v])
                    else s'
                  else s1
              | None => s1
              end in
            let s3 := withResourceInfos s2 (delete resourceId (resourceInfos s2)) in
            withResourceIds s3 (delete i (resourceIds s3))
        | None => s
        end
      else s
  | None => s
  end.

(** [for (let i = resourceIds.length - 1; i >= 0; i--)]: the indices below
    [n], downwards. *)
Fixpoint disposeBelow (s : State) (n : nat) : State :=
  match n with
  | O => s
  | S i => disposeBelow (disposeAt s i) i
  end.

Definition ResourceDisposalSystem (s : State) : State :=
  disposeBelow s (length (resourceIds s)).

(** *** Looking resources up *)

(** [getLocalResource]: the info object that [resourceInfos] holds for the
    id. *)
Definition getLocalResource (s : State) (resourceId : N) : option LocalResourceInfo :=
  resourceInfos s !! resourceId ≫= (λ ih, infoHeap s !! ih).

(** [getLocalResources]: [resourcesByType.get(resourceDef.name) || []]. *)
Definition getLocalResources (s : State) (def : Schema.ResourceDefinition)
  : list LocalValue :=
  default [] (resourcesByType s !! Schema.name def).

(** *** Runs of a consuming thread *)

(** What can happen on the thread, one turn of the event loop each. *)
Inductive Event : Type :=
| LoadResources (resources : list CreateResourceMessage)
| RegisterResource (def : Schema.ResourceDefinition)
| RegisterResourceLoader (resourceType : string) (handle : nat)
| UnregisterResourceLoader (resourceType : string)
| DependenciesSettled (k j : nat)
| LoadSettled (k : nat) (v : LocalValue) (failure : option Rejection)
| TimerFired (h : nat)
| StatusWritten (ih : nat) (tb : TripleBuffer.t)   (* by the game thread *)
| DisposalSystem.

Definition step (s : State) (e : Event) : State :=
  match e with
  | LoadResources resources => onLoadResources s resources
  | RegisterResource def => registerResource s def
  | RegisterResourceLoader resourceType handle =>
      registerResourceLoader s resourceType (External handle)
  | UnregisterResourceLoader resourceType => unregisterResourceLoader s resourceType
  | DependenciesSettled k j => resumeAfterDependencies s k j
  | LoadSettled k v failure => resumeAfterLoad s k v failure
  | TimerFired h => updateDeferred s h Deferred.expire
  | StatusWritten ih tb => updateInfo s ih (λ i, withStatusBuffer i tb)
  | DisposalSystem => ResourceDisposalSystem s
  end.

Definition run (defs : list Schema.ResourceDefinition) (events : list Event) : State :=
  foldl step (init defs) events.

End Local.

(** ** Network ids (the networking part of [ScriptResourceManager.ts]) *)

Module Network.

Local Open Scope Z_scope.

(** JavaScript's 32-bit operators on numbers that hold integers: the
    operands are taken modulo 2^32, as signed numbers by [<<], [&] and [|],
    whose result is signed, and as an unsigned number by [>>>]; a shift count
    is taken modulo 32. *)
Definition toInt32 (z : Z) : Z := (z + 2 ^ 31) mod 2 ^ 32 - 2 ^ 31.
Definition toUint32 (z : Z) : Z := z mod 2 ^ 32.

(** [a << b] *)
Definition shl (a b : Z) : Z := toInt32 (Z.shiftl (toInt32 a) (toUint32 b mod 32)).

(** [a >>> b] *)
Definition ushr (a b : Z) : Z := Z.shiftr (toUint32 a) (toUint32 b mod 32).

(** [a & b] *)
Definition and (a b : Z) : Z := Z.land (toInt32 a) (toInt32 b).

(** [a | b] *)
Definition or (a b : Z) : Z := Z.lor (toInt32 a) (toInt32 b).

(** [val & (((1 << n) - 1) << offset)] *)
Definition isolateBits (val n offset : Z) : Z := and val (shl (shl 1 n - 1) offset).

Definition getPeerIdFromNetworkId (nid : Z) : Z := isolateBits nid 16 0.

Definition getLocalIdFromNetworkId (nid : Z) : Z := isolateBits (ushr nid 16) 16 0.

(** The fields of [state.network] that the id functions use. *)
Record NetworkState : Type := {
  removedLocalIds : list Z;
  localIdCount : Z;
  peerId : Z;
}.

(** [network.removedLocalIds.shift() || network.localIdCount++]: the first
    removed id is taken off the queue; when there is none, or when it is [0],
    the counter is used and incremented. *)
Definition takeLocalId (network : NetworkState) : NetworkState * Z :=
  let fresh :=
    ({| removedLocalIds := tail (removedLocalIds network);
        localIdCount := localIdCount network + 1; peerId := peerId network |},
     localIdCount network) in
  match removedLocalIds network with
  | localId :: rest =>
      if localId =? 0 then fresh
      else ({| removedLocalIds := rest; localIdCount := localIdCount network;
               peerId := peerId network |}, localId)
  | [] => fresh
  end.

(** [createNetworkId]: [((localId << 16) | network.peerId) >>> 0] *)
Definition createNetworkId (network : NetworkState) : NetworkState * Z :=
  let '(network', localId) := takeLocalId network in
  (network', ushr (or (shl localId 16) (peerId network')) 0).

(** [deleteNetworkId] *)
Definition deleteNetworkId (network : NetworkState) (nid : Z) : NetworkState :=
  {| removedLocalIds := removedLocalIds network ++ [getLocalIdFromNetworkId nid];
     localIdCount := localIdCount network; peerId := peerId network |}.

(** *** Change masks *)

(** The cursor-view functions that the change-mask code imports from
    [./CursorView], which is not among the sources; they are used as they
    are called.  [W] is the state they act on: the cursor view and the
    component stores.  A [space] function reserves room for a number and
    returns the function that writes the number there later. *)
Class CursorView (W : Type) : Type := {
  spaceUint8 : W → W * (Z → W → W);
  spaceUint16 : W → W * (Z → W → W);
  spaceUint32 : W → W * (Z → W → W);
  readUint8 : W → W * Z;
}.

Section ChangeMask.
Context {W : Type} `{!CursorView W}.

(** The loop of the function that [defineChangedSerializer] returns, from
    the function of index [b] on, for functions that return:
    [changeMask |= fn(v, eid) ? 1 << b++ : b++ && 0]. *)
Fixpoint changedLoop (fns : list (W → Z → W * bool)) (w : W) (eid : Z)
    (changeMask b : Z) : W * Z :=
  match fns with
  | [] => (w, changeMask)
  | fn :: rest =>
      let '(w', changed) := fn w eid in
      changedLoop rest w' eid (or changeMask (if changed then shl 1 b else 0)) (b + 1)
  end.

(** [defineChangedSerializer(...fns)(v, eid)] *)
Definition defineChangedSerializer (fns : list (W → Z → W * bool)) (w : W) (eid : Z)
  : W * bool :=
  let spacer :=
    if bool_decide (length fns ≤ 8)%nat then spaceUint8
    else if bool_decide (length fns ≤ 16)%nat then spaceUint16
    else spaceUint32 in
  let '(w0, writeChangeMask) := spacer w in
  let '(w1, changeMask) := changedLoop fns w0 eid 0 0 in
  (writeChangeMask changeMask w1, 0 <? changeMask).

(** [(mask & flag) === flag] *)
Definition checkBitflag (mask flag : Z) : bool := bool_decide (and mask flag = flag).

(** The loop of the function that [defineChangedDeserializer] returns:
    [if (checkBitflag(changeMask, 1 << b++)) fn(v, eid)]. *)
Fixpoint deserializeLoop (fns : list (W → Z → W)) (w : W) (eid : Z)
    (changeMask b : Z) : W :=
  match fns with
  | [] => w
  | fn :: rest =>
      deserializeLoop rest
        (if checkBitflag changeMask (shl 1 b) then fn w eid else w)
        eid changeMask (b + 1)
  end.

(** [defineChangedDeserializer(...fns)(v, eid)] *)
Definition defineChangedDeserializer (fns : list (W → Z → W)) (w : W) (eid : Z) : W :=
  let '(w0, changeMask) := readUint8 w in
  deserializeLoop fns w0 eid changeMask 0.

End ChangeMask.


End Network.

(** ** A reference-count table for the examples *)

Module ReferenceCounts.

(** Modelled from the spec: [resource.game.ts] is not among the sources.
    Ids are process-unique and monotonic; a reference count is kept per
    resource id, incremented when a field is set to point at the resource
    and decremented when the field is cleared or its owner disposed; the
    resource goes away when its count reaches zero.  What disposal does to
    the fields of the disposed resource is not part of this table: no
    example depends on it.  The general statements do not use this table:
    they hold for every implementation of the class [ResourceGame]. *)
Record GameCtx : Type := {
  resourceIdCounter : N;
  refCounts : gmap N N;
  remoteResources : gmap N RemoteValue;
}.

(** Modelled from the spec: [addResourceRef] of [resource.game.ts]. *)
Definition acquire (c : GameCtx) (resourceId : N) : GameCtx :=
  match refCounts c !! resourceId with
  | Some n =>
      {| resourceIdCounter := resourceIdCounter c;
         refCounts := <[resourceId := n + 1]> (refCounts c);
         remoteResources := remoteResources c |}
  | None => c
  end.

(** Modelled from the spec: [removeResourceRef] and [disposeResource] of
    [resource.game.ts]; the resource goes away with its last reference. *)
Definition release (c : GameCtx) (resourceId : N) : GameCtx :=
  match refCounts c !! resourceId with
  | Some n =>
      if n <=? 1 then
        {| resourceIdCounter := resourceIdCounter c;
           refCounts := delete resourceId (refCounts c);
           remoteResources := delete resourceId (remoteResources c) |}
      else
        {| resourceIdCounter := resourceIdCounter c;
           refCounts := <[resourceId := n - 1]> (refCounts c);
           remoteResources := remoteResources c |}
  | None => c
  end.

(** Modelled from the spec: the [create...Resource] functions of
    [resource.game.ts]; a new monotonic id, not referenced yet. *)
Definition register (c : GameCtx) (v : RemoteValue) : GameCtx * N :=
  let resourceId := resourceIdCounter c in
  ({| resourceIdCounter := resourceId + 1;
      refCounts := <[resourceId := 0]> (refCounts c);
      remoteResources := <[resourceId := v]> (remoteResources c) |},
   resourceId).

(** For the examples, [decodeString] of [strings.ts] reads a
    null-terminated string from the heap, as [setString] writes them. *)
Fixpoint untilNull (bytes : list byte) : list byte :=
  match bytes with
  | [] => []
  | b :: rest => if Byte.to_N b =? 0 then [] else b :: untilNull rest
  end.

Definition decode (p : option N) (heap : list byte) : string :=
  match p with
  | Some p => String.string_of_list_byte (untilNull (drop (N.to_nat p) heap))
  | None => ""
  end.

(** For the examples, [websg_allocate] hands out the next free address,
    rounded to words, and [websg_deallocate] reuses none. *)
Definition bump (next : N) (byteLength : N) : N * N :=
  (next + 4 * ((byteLength + 3) / 4), next).

#[global] Instance table : ResourceGame GameCtx N := {|
  addResourceRef := acquire;
  removeResourceRef := release;
  Remote.disposeResource := release;
  createStringResource c value _ := register c (RString value);
  createArrayBufferResource c value := register c (RArrayBuffer value);
  getRemoteResource c resourceId := remoteResources c !! resourceId;
  decodeString := decode;
  websg_allocate := bump;
  websg_deallocate next _ := next;
|}.

Definition emptyCtx : GameCtx :=
  {| resourceIdCounter := 1; refCounts := ∅; remoteResources := ∅ |}.

Definition emptyFlags : TripleBuffer.Flags :=
  {| TripleBuffer.readBufferIndex := TripleBuffer.I0;
     TripleBuffer.writeBufferIndex := TripleBuffer.I1 |}.

Definition zeros (n : nat) : list byte := replicate n x00.

Definition emptyTripleBuffer (n : nat) : TripleBuffer.t :=
  {| TripleBuffer.byteView0 := zeros n; TripleBuffer.byteView1 := zeros n;
     TripleBuffer.byteView2 := zeros n; TripleBuffer.flags := emptyFlags |}.

(** A definition with one reference field, [material], at offset 0. *)
Definition meshDef : Schema.ResourceDefinition :=
  {| Schema.name := "mesh";
     Schema.schema :=
       [("material",
         {| Schema.type := Schema.PRef; Schema.backRef := false; Schema.size := 1;
            Schema.byteOffset := 0; Schema.bytesPerElement := 4 |})];
     Schema.byteLength := 4 |}.

Definition resourceOf (def : Schema.ResourceDefinition) (resourceId p : N)
    (bytes : list byte) (pr : gmap string (list N)) (init : bool) : RemoteResource :=
  {| resourceId := resourceId; ptr := p; resourceType := Schema.name def;
     resourceName := ""; resourceDef := def; byteView := bytes; props := pr;
     tripleBuffer := emptyTripleBuffer (length bytes); initialized := init |}.

End ReferenceCounts.

(** ** Example states *)

Module Examples.
Import ReferenceCounts.

(** A script manager whose instance is set, with a zeroed heap of 64 bytes
    and the transform data of [meshDef]. *)
Definition scriptManager : Script.ScriptResourceManager GameCtx N :=
  {| Script.ctx := emptyCtx; Script.U8Heap := zeros 64; Script.instance := Some 16;
     Script.ptrToResourceId := ∅; Script.resourceStorage := ∅;
     Script.resources := [];
     Script.resourceTransformData :=
       {[ "mesh" := {| Script.writeView := zeros 4; Script.refOffsets := [0];
                       Script.refIsString := [false] |} ]} |}.

Definition gameManager : Game.GameResourceManager GameCtx :=
  {| Game.ctx := emptyCtx; Game.resources := [] |}.

(** A material with id 5 that lives at pointer 32 of the script heap. *)
Definition material : RemoteResource :=
  resourceOf meshDef 5 32 (zeros 4) {[ "material" := [0] ]} false.

(** A game context in which [material] is registered and referenced once. *)
Definition materialCtx : GameCtx :=
  {| resourceIdCounter := 6; refCounts := {[ 5 := 1 ]};
     remoteResources := {[ 5 := RResource material ]} |}.

(** A script manager that knows [material] by its pointer. *)
Definition materialScriptManager : Script.ScriptResourceManager GameCtx N :=
  {| Script.ctx := materialCtx; Script.U8Heap := zeros 64; Script.instance := Some 36;
     Script.ptrToResourceId := {[ 32 := 5 ]};
     Script.resourceStorage :=
       {[ 5 := {| Script.refViewOffset := 32; Script.refViewLength := 4;
                  Script.prevRefs := ∅ |} ]};
     Script.resources := [material];
     Script.resourceTransformData := Script.resourceTransformData scriptManager |}.

Definition materialGameManager : Game.GameResourceManager GameCtx :=
  {| Game.ctx := materialCtx; Game.resources := [material] |}.

(** A script manager whose field at pointer 40 holds the string "hello",
    resource 7. *)
Definition greetingManager : Script.ScriptResourceManager GameCtx N :=
  {| Script.ctx :=
       {| resourceIdCounter := 8; refCounts := {[ 7 := 1 ]};
          remoteResources := {[ 7 := RString "hello" ]} |};
     Script.U8Heap := zeros 64; Script.instance := Some 48;
     Script.ptrToResourceId := {[ 40 := 7 ]}; Script.resourceStorage := ∅;
     Script.resources := []; Script.resourceTransformData := ∅ |}.

(** A game manager with one resource that has not been committed yet. *)
Definition light : RemoteResource :=
  resourceOf meshDef 6 40 [x01; x02; x03; x04] {[ "material" := [0] ]} false.

Definition lightGameManager : Game.GameResourceManager GameCtx :=
  {| Game.ctx := materialCtx; Game.resources := [light] |}.

(** A definition with one string field, [text], at offset 0. *)
Definition labelDef : Schema.ResourceDefinition :=
  {| Schema.name := "label";
     Schema.schema :=
       [("text",
         {| Schema.type := Schema.PString; Schema.backRef := false; Schema.size := 1;
            Schema.byteOffset := 0; Schema.bytesPerElement := 4 |})];
     Schema.byteLength := 4 |}.

(** A script heap in which the resource at pointer 32 stores the pointer 48
    in its first word, and the bytes at 48 spell "hi". *)
Definition labelHeap : list byte :=
  zeros 32 ++ [x30; x00; x00; x00] ++ zeros 12 ++ [x68; x69; x00] ++ zeros 13.

Definition label : RemoteResource :=
  resourceOf labelDef 5 32 [x30; x00; x00; x00] ∅ false.

Definition labelStore : Script.ScriptResourceStore :=
  {| Script.refViewOffset := 32; Script.refViewLength := 4; Script.prevRefs := ∅ |}.

Definition labelTransform : Script.ResourceTransformData :=
  {| Script.writeView := zeros 4; Script.refOffsets := [0];
     Script.refIsString := [true] |}.

(** The script wrote the string pointer itself: the pointer table knows the
    resource (pointer 32) but not the string (pointer 48). *)
Definition labelManager : Script.ScriptResourceManager GameCtx N :=
  {| Script.ctx := materialCtx; Script.U8Heap := labelHeap; Script.instance := Some 52;
     Script.ptrToResourceId := {[ 32 := 5 ]};
     Script.resourceStorage := {[ 5 := labelStore ]};
     Script.resources := [label];
     Script.resourceTransformData := {[ "label" := labelTransform ]} |}.

(** A field of two words at pointer 40 of the script heap. *)
Definition field : HeapField.Store :=
  {| HeapField.storeOffset := 40; HeapField.storeLength := 2 |}.

(** [materialScriptManager] before [setInstance] was called. *)
Definition detachedManager : Script.ScriptResourceManager GameCtx N :=
  Script.withInstance materialScriptManager None.

(** A game context in which [holder], resource 6, holds [material] in its
    reference field. *)
Definition holder : RemoteResource :=
  resourceOf meshDef 6 40 (zeros 4) {[ "material" := [5] ]} false.

Definition holderGameManager : Game.GameResourceManager GameCtx :=
  {| Game.ctx :=
       {| resourceIdCounter := 7; refCounts := {[ 5 := 1; 6 := 1 ]};
          remoteResources := {[ 5 := RResource material; 6 := RResource holder ]} |};
     Game.resources := [material; holder] |}.

(** A resource whose four bytes do not fit its slots of two bytes. *)
Definition oversized : RemoteResource :=
  Remote.withPublished (resourceOf meshDef 7 48 [x01; x02; x03; x04] ∅ false)
    (emptyTripleBuffer 2) false.

Definition oversizedGameManager : Game.GameResourceManager GameCtx :=
  {| Game.ctx := materialCtx; Game.resources := [light; oversized; material] |}.

(** A network state of peer 7 that has handed out the local ids below 3. *)
Definition network : Network.NetworkState :=
  {| Network.removedLocalIds := []; Network.localIdCount := 3; Network.peerId := 7 |}.

(** *** A dependency chain on a consuming thread: A depends on B, B on C *)

Definition tripleBufferOf (bytes : list byte) : TripleBuffer.t :=
  {| TripleBuffer.byteView0 := bytes; TripleBuffer.byteView1 := bytes;
     TripleBuffer.byteView2 := bytes; TripleBuffer.flags := emptyFlags |}.

(** The creation record of a mesh whose [material] word holds [dependency]. *)
Definition meshMessage (resourceId : N) (dependency : byte) : Local.CreateResourceMessage :=
  {| Local.msgResourceType := "mesh"; Local.msgId := resourceId; Local.msgName := "";
     Local.msgProps := Local.PropsTripleBuffer (tripleBufferOf [dependency; x00; x00; x00]);
     Local.msgStatusBuffer := emptyTripleBuffer 1 |}.

Definition messageA : Local.CreateResourceMessage := meshMessage 3 x02.
Definition messageB : Local.CreateResourceMessage := meshMessage 2 x01.
Definition messageC : Local.CreateResourceMessage := meshMessage 1 x00.

(** A is announced first and waits; B and C follow; C loads, then B. *)
Definition chainEvents : list Local.Event :=
  [ Local.LoadResources [messageA];
    Local.LoadResources [messageB; messageC];
    Local.DependenciesSettled 2 0; Local.LoadSettled 2 (Local.LOther 0) None;
    Local.DependenciesSettled 1 0; Local.LoadSettled 1 (Local.LOther 0) None ].

Definition chainState : Local.State := Local.run [meshDef] chainEvents.

(** The status buffer of a disposed resource: its byte is non-zero. *)
Definition disposedStatus : TripleBuffer.t := tripleBufferOf [x01].

(** B is announced and then disposed while A still waits for it. *)
Definition disposedEvents : list Local.Event :=
  [ Local.LoadResources [messageA; messageB];
    Local.StatusWritten 1 disposedStatus ].

Definition disposedState : Local.State := Local.run [meshDef] disposedEvents.

(** *** A cursor view for the examples *)

(** The numbers written, one cell per number, and the cursor.  A [space]
    function reserves the cell at the cursor; the function it returns stores
    the number in that cell, cut to the width of the cell. *)
Record Cells : Type := { cells : list Z; cursor : nat }.

Definition spaceCell (width : Z) (v : Cells) : Cells * (Z → Cells → Cells) :=
  ({| cells := cells v ++ [0%Z]; cursor := S (cursor v) |},
   λ number v', {| cells := <[cursor v := (number mod 2 ^ width)%Z]> (cells v');
                   cursor := cursor v' |}).

Definition readCell (v : Cells) : Cells * Z :=
  ({| cells := cells v; cursor := S (cursor v) |}, default 0%Z (cells v !! cursor v)).

#[global] Instance cells_view : Network.CursorView Cells :=
  {| Network.spaceUint8 := spaceCell 8; Network.spaceUint16 := spaceCell 16;
     Network.spaceUint32 := spaceCell 32; Network.readUint8 := readCell |}.

(** A field writer that writes [number] when [changed] is set. *)
Definition writeCell (changed : bool) (number : Z) (v : Cells) (eid : Z)
  : Cells * bool :=
  if changed
  then ({| cells := cells v ++ [number]; cursor := S (cursor v) |}, true)
  else (v, false).

(** A field reader: it moves the cursor past one cell. *)
Definition skipCell (v : Cells) (eid : Z) : Cells := (readCell v).1.

Definition emptyCells : Cells := {| cells := []; cursor := 0 |}.

(** What a serializer of three fields, the second of which has not changed,
    leaves in an empty view, with the cursor back at the start. *)
Definition sentCells : Cells := {| cells := [5; 10; 30]%Z; cursor := 0 |}.


End Examples.

(** ** Notions used in the statements *)

Module Statements.

(** The schema without its back-reference properties. *)
Definition withoutBackRefs (def : Schema.ResourceDefinition) : Schema.ResourceDefinition :=
  {| Schema.name := Schema.name def;
     Schema.schema := filter (λ p, Schema.backRef p.2 = false) (Schema.schema def);
     Schema.byteLength := Schema.byteLength def |}.

(** The byte offsets of the reference words of one property. *)
Definition referenceOffsets (prop : Schema.PropDef) : list N :=
  if Schema.isRefLike (Schema.type prop) then
    map (λ i, Schema.byteOffset prop + N.of_nat i * Schema.bytesPerElement prop)
        (seq 0 (Schema.size prop))
  else if bool_decide (Schema.type prop = Schema.PArrayBuffer) then
    [Schema.byteOffset prop + 4]
  else [].

(** [view] has been copied into slot [k]: [tb'.byteViews[k]] is the result
    of [tb.byteViews[k].set(view)]. *)
Definition CopiedInto (tb tb' : TripleBuffer.t) (k : TripleBuffer.Index)
    (view : list byte) : Prop :=
  typedArraySet (TripleBuffer.byteViews tb k) view = Some (TripleBuffer.byteViews tb' k).

(** What a commit does to one resource, given the bytes [view] it
    publishes: the resource ends up initialized; one that was not gets
    [view] in its three slots, one that was gets it in the write slot and
    keeps its other two slots. *)
Definition Published (r r' : RemoteResource) (view : list byte) : Prop :=
  initialized r' = true
  ∧ resourceId r' = resourceId r
  ∧ byteView r' = byteView r
  ∧ if initialized r then
      let w := TripleBuffer.writeBufferIndex (TripleBuffer.flags (tripleBuffer r)) in
      CopiedInto (tripleBuffer r) (tripleBuffer r') w view
      ∧ ∀ k, k ≠ w →
             TripleBuffer.byteViews (tripleBuffer r') k
             = TripleBuffer.byteViews (tripleBuffer r) k
    else
      ∀ k, CopiedInto (tripleBuffer r) (tripleBuffer r') k view.

Section ScriptCommit.
Context {Ctx Inst : Type} `{!ResourceGame Ctx Inst}.

(** The bytes [view] that the script manager publishes for [r] have the
    size of the scratch view of its type and, outside the reference words
    of that type, are the bytes of [resource.byteView]. *)
Definition PublishedBytes (m : Script.ScriptResourceManager Ctx Inst)
    (r : RemoteResource) (view : list byte) : Prop :=
  ∃ transform,
    Script.resourceTransformData m !! resourceType r = Some transform
    ∧ length view = length (Script.writeView transform)
    ∧ ∀ b, (b < length (byteView r))%nat →
           (∀ byteOff k, byteOff ∈ Script.refOffsets transform →
                         wordIndex byteOff = Some k → (b < 4 * k ∨ 4 * k + 4 ≤ b)%nat) →
           view !! b = byteView r !! b.

(** What a commit needs of a resource in order to return: transform data
    for its type with a scratch view that takes its bytes, a store if the
    type has references, and slots that take the scratch view. *)
Definition Committable (m : Script.ScriptResourceManager Ctx Inst)
    (r : RemoteResource) : Prop :=
  ∃ transform,
    Script.resourceTransformData m !! resourceType r = Some transform
    ∧ (length (byteView r) ≤ length (Script.writeView transform))%nat
    ∧ (Script.refOffsets transform = []
       ∨ is_Some (Script.resourceStorage m !! resourceId r))
    ∧ ∀ k, (length (Script.writeView transform)
            ≤ length (TripleBuffer.byteViews (tripleBuffer r) k))%nat.

(** The part of the transform data and of a store that a commit leaves
    alone. *)
Definition layout (t : Script.ResourceTransformData) : nat * list N * list bool :=
  (length (Script.writeView t), Script.refOffsets t, Script.refIsString t).

Definition window (st : Script.ScriptResourceStore) : N * nat :=
  (Script.refViewOffset st, Script.refViewLength st).

Definition SameLayout (m m' : Script.ScriptResourceManager Ctx Inst) : Prop :=
  Script.U8Heap m' = Script.U8Heap m
  ∧ Script.ptrToResourceId m' = Script.ptrToResourceId m
  ∧ layout <$> Script.resourceTransformData m' = layout <$> Script.resourceTransformData m
  ∧ window <$> Script.resourceStorage m' = window <$> Script.resourceStorage m.

End ScriptCommit.

Section PublishedReference.
Context {Ctx Inst : Type} `{!ResourceGame Ctx Inst}.

(** What the script manager may publish in the reference word [k] of a
    resource whose store is [store]: zero; or the resource id that the
    pointer table gives for the pointer that the WASM heap holds in that
    word; or, when the table gives no id for that pointer, the id of a
    string resource made by [createStringResource]. *)
Definition PublishedReference (m : Script.ScriptResourceManager Ctx Inst)
    (store : Script.ScriptResourceStore) (k : nat) (v : N) : Prop :=
  v = 0
  ∨ (∃ p resourceId,
       Script.refViewGet (Script.U8Heap m) store (Some k) = Some p
       ∧ Script.ptrToResourceId m !! p = Some resourceId
       ∧ v = toUint32 resourceId)
  ∨ (∃ c value,
       truthy (mapGet (Script.ptrToResourceId m)
                 (Script.refViewGet (Script.U8Heap m) store (Some k))) = false
       ∧ v = toUint32 (createStringResource c value None).2).

End PublishedReference.

Section PublishedReferences.
Context {Ctx Inst : Type} `{!ResourceGame Ctx Inst}.

(** Every reference word of the type of [r] that lies within the scratch
    view holds a publishable reference in [view]. *)
Definition PublishedReferences (m : Script.ScriptResourceManager Ctx Inst)
    (r : RemoteResource) (view : list byte) : Prop :=
  ∀ transform store byteOff k,
    Script.resourceTransformData m !! resourceType r = Some transform →
    Script.resourceStorage m !! resourceId r = Some store →
    byteOff ∈ Script.refOffsets transform → wordIndex byteOff = Some k →
    (4 * k + 4 ≤ length (Script.writeView transform))%nat →
    ∃ v, wordGet view k = Some v ∧ PublishedReference m store k v.

End PublishedReferences.

Section ExactReferences.
Context {Ctx Inst : Type} `{!ResourceGame Ctx Inst}.




End ExactReferences.

(** *** The consuming thread *)

(** The deferred [h] is fulfilled. *)
Definition resolved (s : Local.State) (h : nat) : Prop :=
  ∃ d, Local.deferredHeap s !! h = Some d
       ∧ Deferred.settlement d = Deferred.Resolved.

(** The loader of the type of the task has been called. *)
Definition loaderInvoked (t : Local.LoadTask) : Prop :=
  Local.phase t = Local.AwaitLoad ∨ Local.phase t = Local.Loaded.

(** [h] is the deferred of a dependency among [ps], or of a dependency of a
    loaded resource whose deferred is reached already. *)
Inductive Reaches (s : Local.State) (ps : list Local.Promise) : nat → Prop :=
| reaches_direct h :
    Local.OfDeferred h ∈ ps → Reaches s ps h
| reaches_through h h' k t :
    Reaches s ps h →
    Local.tasks s !! k = Some t → Local.taskDeferred t = h →
    Local.phase t = Local.Loaded →
    Local.OfDeferred h' ∈ Local.promises t →
    Reaches s ps h'.

(** The non-zero words that a snapshot holds at the dependency offsets, in
    the order of the offsets. *)
Definition dependencyIds (view : list byte) (offsets : list N) : list N :=
  omap (λ byteOff,
          match wordIndex byteOff ≫= wordGet view with
          | Some resourceId => if resourceId =? 0 then None else Some resourceId
          | None => None
          end) offsets.

(** The elementary changes that the functions of the module make to the
    deferred objects and to the load tasks. *)
Inductive Move (s s' : Local.State) : Prop :=
| move_none :
    Local.deferredHeap s' = Local.deferredHeap s → Local.tasks s' = Local.tasks s →
    Move s s'
| move_create d :
    Local.deferredHeap s' = Local.deferredHeap s ++ [d] →
    Deferred.settlement d = Deferred.Pending → Deferred.timeout d = 30000 →
    Local.tasks s' = Local.tasks s →
    Move s s'
| move_reject h f :
    (∀ d, ∃ e, f d = Deferred.reject d e) →
    Local.deferredHeap s' = alter f h (Local.deferredHeap s) →
    Local.tasks s' = Local.tasks s →
    Move s s'
| move_spawn t :
    Local.deferredHeap s' = Local.deferredHeap s →
    Local.tasks s' = Local.tasks s ++ [t] →
    Local.phase t ≠ Local.Loaded →
    (Local.phase t = Local.AwaitLoad → Local.promises t = []) →
    Move s s'
| move_fail k :
    Local.deferredHeap s' = Local.deferredHeap s →
    Local.tasks s' = alter (λ t, Local.withPhase t Local.Failed) k (Local.tasks s) →
    (∀ t, Local.tasks s !! k = Some t → Local.phase t ≠ Local.Loaded) →
    Move s s'
| move_invoke k t :
    Local.tasks s !! k = Some t → Local.phase t = Local.AwaitDependencies →
    Local.allResolved s (Local.promises t) = true →
    Local.deferredHeap s' = Local.deferredHeap s →
    Local.tasks s' = alter (λ t, Local.withPhase t Local.AwaitLoad) k (Local.tasks s) →
    Move s s'
| move_load k t :
    Local.tasks s !! k = Some t → Local.phase t = Local.AwaitLoad →
    Local.deferredHeap s'
    = alter Deferred.resolve (Local.taskDeferred t) (Local.deferredHeap s) →
    Local.tasks s' = alter (λ t, Local.withPhase t Local.Loaded) k (Local.tasks s) →
    Move s s'
| move_abandon k :
    Local.deferredHeap s' = Local.deferredHeap s →
    Local.tasks s' = alter (λ t, Local.withPhase t Local.Abandoned) k (Local.tasks s) →
    (∀ t, Local.tasks s !! k = Some t → Local.phase t ≠ Local.Loaded) →
    Move s s'.

(** What holds of the deferreds and tasks in every state of a run. *)
Record Invariant (s : Local.State) : Prop := {
  invoked_after_dependencies :
    ∀ k t, Local.tasks s !! k = Some t → loaderInvoked t →
           Local.allResolved s (Local.promises t) = true;
  resolved_by_load :
    ∀ h, resolved s h →
         ∃ k t, Local.tasks s !! k = Some t ∧ Local.taskDeferred t = h
                ∧ Local.phase t = Local.Loaded;
  timeouts :
    Forall (λ d, Deferred.timeout d = 30000) (Local.deferredHeap s);
}.

(** The error with which the disposal system rejects. *)
Definition disposedError : Deferred.LoadError :=
  Deferred.ResourceDisposedError "Resource disposed".

(** From [s] to [s'] every deferred object is kept as it was or, if it was
    pending, has been rejected with the disposal error. *)
Definition SweptTo (s s' : Local.State) : Prop :=
  ∀ h d, Local.deferredHeap s !! h = Some d →
         ∃ d', Local.deferredHeap s' !! h = Some d'
               ∧ (d' = d
                  ∨ Deferred.settlement d = Deferred.Pending
                    ∧ Deferred.settlement d' = Deferred.Rejected disposedError).

(** *** Bookkeeping of the consuming thread *)

(** The pairs that the loop of [registerResource] pushes for a schema: each
    dependency offset with the name of the property it belongs to. *)
Definition dependencyEntries (schema : list (string * Schema.PropDef)) : list (N * string) :=
  concat (map (λ p, if Schema.backRef p.2 then []
                    else (λ off, (off, p.1)) <$> referenceOffsets p.2) schema).

(** The call of [loadResource] behind the task has run to its last
    statement, the [ctx.sendMessage]. *)
Definition finished (t : Local.LoadTask) : bool :=
  bool_decide (Local.phase t = Local.Loaded ∨ Local.phase t = Local.Failed).

(** A reply says either that the resource is loaded, and carries no error,
    or that it is not, and carries a non-empty error text. *)
Definition ConsistentReply (m : Local.ResourceLoadedMessage) : Prop :=
  (Local.loadedFlag m = true ∧ Local.loadedError m = None)
  ∨ (Local.loadedFlag m = false ∧ ∃ e, Local.loadedError m = Some e ∧ e ≠ "").

(** What holds of the info objects, the tasks, the replies and the lists of
    loaded resources in every state of a run: the [k]-th call of
    [loadResource] owns the [k]-th info object, which is untouched until the
    call ends. *)
Record Bookkeeping (s : Local.State) : Prop := {
  one_info_per_task : length (Local.infoHeap s) = length (Local.tasks s);
  task_owns_info : ∀ k t, Local.tasks s !! k = Some t → Local.taskInfo t = k;
  unfinished_info :
    ∀ k t i, Local.tasks s !! k = Some t → Local.infoHeap s !! k = Some i →
             finished t = false → Local.loaded i = false ∧ Local.error i = None;
  loaded_info :
    ∀ k t i, Local.tasks s !! k = Some t → Local.infoHeap s !! k = Some i →
             Local.phase t = Local.Loaded →
             Local.loaded i = true ∧ is_Some (Local.resource i);
  replies_consistent : Forall ConsistentReply (Local.outbox s);
  replies_finished :
    Local.loadedId <$> Local.outbox s
    ≡ₚ Local.taskId <$> filter (λ t, finished t = true) (Local.tasks s);
  listed_loaded :
    ∀ type v, v ∈ default [] (Local.resourcesByType s !! type) →
              ∃ k t i, Local.tasks s !! k = Some t ∧ Local.phase t = Local.Loaded
                       ∧ Local.taskType t = type
                       ∧ Local.infoHeap s !! k = Some i ∧ Local.resource i = Some v;
}.

(** The ids of [resourceIds] that [getResourceDisposed] does not report. *)
Definition keptIds (s : Local.State) : list N :=
  filter (λ resourceId, Local.getResourceDisposed s resourceId = false) (Local.resourceIds s).

(** The info object that [loadResource] builds for a creation record. *)
Definition announcedInfo (msg : Local.CreateResourceMessage) : Local.LocalResourceInfo :=
  {| Local.id := Local.msgId msg; Local.name := Local.msgName msg;
     Local.loaded := false; Local.error := None;
     Local.resourceType := Local.msgResourceType msg; Local.props := Local.msgProps msg;
     Local.resource := None; Local.statusBuffer := Local.msgStatusBuffer msg |}.

(** The reply that ends a call of [loadResource] that failed. *)
Definition failureReply (resourceId : N) (e : Deferred.LoadError)
  : Local.ResourceLoadedMessage :=
  {| Local.loadedId := resourceId; Local.loadedFlag := false;
     Local.loadedError := Some (Deferred.messageOf e) |}.

(** The part of the state that waiting for a resource leaves alone:
    everything but the deferreds. *)
Definition books (s : Local.State) :=
  (Local.resourceIds s, Local.resourceInfos s, Local.infoHeap s, Local.resourcesByType s,
   Local.resourceLoaders s, Local.tasks s, Local.outbox s, Local.disposedLocals s).

Section SeenByCommit.
Context {Ctx Inst : Type} `{!ResourceGame Ctx Inst}.

(** The string references of the resource [rid] of type [type] are as the
    last commit saw them: for each of them [prevRefs] holds the pointer that
    the heap holds now. *)
Definition SeenByCommit (m : Script.ScriptResourceManager Ctx Inst)
    (rid : N) (type : string) : Prop :=
  ∀ transform store j byteOff,
    Script.resourceTransformData m !! type = Some transform →
    Script.resourceStorage m !! rid = Some store →
    Script.refOffsets transform !! j = Some byteOff →
    Script.refIsString transform !! j = Some true →
    Script.prevRefs store !! j
    = Script.refViewGet (Script.U8Heap m) store (wordIndex byteOff).

End SeenByCommit.

(** The resource ids that a resource of the game manager holds, in the
    order in which [disposeResource] visits them: the non-zero words of each
    reference-like property and the non-zero word [1] of each array-buffer
    property. *)
Definition heldIds (props : gmap string (list N))
    (schema : list (string * Schema.PropDef)) : list N :=
  concat (map (λ p,
                 if Schema.isRefLike (Schema.type p.2) then
                   filter (λ id, id ≠ 0) (default [] (props !! p.1))
                 else if bool_decide (Schema.type p.2 = Schema.PArrayBuffer) then
                   match props !! p.1 ≫= (λ store, store !! 1%nat) with
                   | Some id => if id =? 0 then [] else [id]
                   | None => []
                   end
                 else []) schema).

Section TableReferences.
Context {Ctx Inst : Type} `{!ResourceGame Ctx Inst}.

(** What the pointer table alone gives for the reference word [k] of a
    resource whose store is [store]: the resource id of the pointer that the
    heap holds in that word, or zero when the table has no id for it. *)
Definition tableId (m : Script.ScriptResourceManager Ctx Inst)
    (store : Script.ScriptResourceStore) (k : nat) : N :=
  let resourceId :=
    mapGet (Script.ptrToResourceId m)
      (Script.refViewGet (Script.U8Heap m) store (Some k)) in
  if truthy resourceId then default 0 resourceId else 0.

(** Every reference word of the type of [r] that lies within the scratch
    view holds in [view] what the pointer table gives for it. *)
Definition TableReferences (m : Script.ScriptResourceManager Ctx Inst)
    (r : RemoteResource) (view : list byte) : Prop :=
  ∀ transform store byteOff k,
    Script.resourceTransformData m !! resourceType r = Some transform →
    Script.resourceStorage m !! resourceId r = Some store →
    byteOff ∈ Script.refOffsets transform → wordIndex byteOff = Some k →
    (4 * k + 4 ≤ length (Script.writeView transform))%nat →
    wordGet view k = Some (toUint32 (tableId m store k)).

End TableReferences.

Section ChangeMask.
Context {W : Type}.

(** What the functions of a serializer answer when they are run one after
    the other from the state [w]. *)
Fixpoint answers (fns : list (W → Z → W * bool)) (w : W) (eid : Z) : list bool :=
  match fns with
  | [] => []
  | fn :: rest => (fn w eid).2 :: answers rest (fn w eid).1 eid
  end.

(** The state that they leave. *)
Definition written (fns : list (W → Z → W * bool)) (w : W) (eid : Z) : W :=
  foldl (λ w fn, (fn w eid).1) w fns.

(** The elements of [xs] whose flag is set. *)
Fixpoint chosen {A : Type} (flags : list bool) (xs : list A) : list A :=
  match flags, xs with
  | flag :: flags', x :: xs' =>
      if flag then x :: chosen flags' xs' else chosen flags' xs'
  | _, _ => []
  end.

End ChangeMask.


(** *** Network ids *)

(** [n] calls of [createNetworkId], one after the other: the state that
    they leave and the ids that they return, in order. *)
Fixpoint createNetworkIds (network : Network.NetworkState) (n : nat)
  : Network.NetworkState * list Z :=
  match n with
  | O => (network, [])
  | S n' =>
      let '(network1, nid) := Network.createNetworkId network in
      let '(network2, nids) := createNetworkIds network1 n' in
      (network2, nid :: nids)
  end.

(** The network id that [createNetworkId] makes of a local id:
    [((localId << 16) | network.peerId) >>> 0]. *)
Definition networkIdOf (peerId localId : Z) : Z :=
  Network.ushr (Network.or (Network.shl localId 16) peerId) 0.

(** The network state with the given queue of removed local ids. *)
Definition withRemoved (network : Network.NetworkState) (queue : list Z)
  : Network.NetworkState :=
  {| Network.removedLocalIds := queue;
     Network.localIdCount := Network.localIdCount network;
     Network.peerId := Network.peerId network |}.

End Statements.

(** * Properties *)

(** ** Typed arrays *)

Section TypedArrays.

Lemma toUint32_lt (v : N) : toUint32 v < 2 ^ 32.
Proof. unfold toUint32. apply N.mod_lt. discriminate. Qed.

Lemma toUint32_small (v : N) : v < 2 ^ 32 → toUint32 v = v.
Proof. unfold toUint32. intros. by apply N.mod_small. Qed.

Lemma byteOfN_to_N (n : N) : Byte.to_N (byteOfN n) = n mod 256.
Proof.
  unfold byteOfN.
  destruct (Byte.of_N (n mod 256)) as [b|] eqn:E.
  - by apply Byte.to_of_N.
  - apply Byte.of_N_None_iff in E.
    pose proof (N.mod_lt n 256 ltac:(discriminate)). lia.
Qed.

Lemma u32OfBytes_bytesOfU32 (v : N) :
  v < 2 ^ 32 →
  u32OfBytes (byteOfN v) (byteOfN (v / 256)) (byteOfN (v / 65536))
    (byteOfN (v / 16777216)) = v.
Proof.
  intros Hv. unfold u32OfBytes. rewrite !byteOfN_to_N.
  change (2 ^ 32) with 4294967296 in Hv.
  assert (v / 16777216 < 256) by (apply N.Div0.div_lt_upper_bound; lia).
  rewrite (N.mod_small (v / 16777216)) by done.
  pose proof (N.div_mod v 256 ltac:(discriminate)) as E1.
  pose proof (N.div_mod (v / 256) 256 ltac:(discriminate)) as E2.
  pose proof (N.div_mod (v / 65536) 256 ltac:(discriminate)) as E3.
  rewrite N.Div0.div_div in E2. rewrite N.Div0.div_div in E3.
  change (256 * 256) with 65536 in *. change (65536 * 256) with 16777216 in *.
  lia.
Qed.

Lemma wordSet_length (buffer : list byte) (i : nat) (v : N) :
  length (wordSet buffer i v) = length buffer.
Proof.
  unfold wordSet. case_decide; [|done].
  rewrite !length_app, length_take, length_drop. simpl. lia.
Qed.

Lemma wordGet_wordSet_eq (buffer : list byte) (i : nat) (v : N) :
  (4 * i + 4 ≤ length buffer)%nat →
  wordGet (wordSet buffer i v) i = Some (toUint32 v).
Proof.
  intros Hi. unfold wordSet, wordGet. rewrite decide_True by done.
  rewrite drop_app_length'; last (rewrite length_take; lia).
  simpl. f_equal. apply u32OfBytes_bytesOfU32, toUint32_lt.
Qed.

Lemma wordGet_eq_lookups (buffer : list byte) (i : nat) :
  wordGet buffer i =
    match buffer !! (4 * i)%nat, buffer !! (4 * i + 1)%nat,
          buffer !! (4 * i + 2)%nat, buffer !! (4 * i + 3)%nat with
    | Some b0, Some b1, Some b2, Some b3 => Some (u32OfBytes b0 b1 b2 b3)
    | _, _, _, _ => None
    end.
Proof.
  unfold wordGet.
  rewrite <- (Nat.add_0_r (4 * i)) at 2.
  rewrite <- !(lookup_drop buffer (4 * i)).
  destruct (drop (4 * i) buffer) as [|b0 [|b1 [|b2 [|b3 rest]]]]; simpl; try done.
Qed.

Lemma wordSet_lookup_ne (buffer : list byte) (i : nat) (v : N) (b : nat) :
  (b < 4 * i ∨ 4 * i + 4 ≤ b)%nat →
  wordSet buffer i v !! b = buffer !! b.
Proof.
  intros Hb. unfold wordSet. case_decide as Hlen; [|done].
  destruct Hb as [Hb|Hb].
  - rewrite lookup_app_l by (rewrite length_take; lia).
    by rewrite lookup_take_lt.
  - rewrite lookup_app_r by (rewrite length_take; lia).
    rewrite length_take, Nat.min_l by lia.
    rewrite lookup_app_r by (simpl; lia).
    rewrite lookup_drop. simpl. f_equal. lia.
Qed.

Lemma wordGet_wordSet_ne (buffer : list byte) (i j : nat) (v : N) :
  i ≠ j → wordGet (wordSet buffer i v) j = wordGet buffer j.
Proof.
  intros Hij. rewrite !wordGet_eq_lookups.
  rewrite !wordSet_lookup_ne by lia. done.
Qed.

Lemma typedArraySet_same_length (target source : list byte) :
  length source = length target → typedArraySet target source = Some source.
Proof.
  intros Hlen. unfold typedArraySet. rewrite decide_True by lia.
  rewrite Hlen, drop_all. by rewrite app_nil_r.
Qed.

Lemma typedArraySet_Some (target source view : list byte) :
  typedArraySet target source = Some view →
  view = source ++ drop (length source) target ∧ length view = length target.
Proof.
  unfold typedArraySet. case_decide; [|done]. intros [= <-]. split; [done|].
  rewrite length_app, length_drop. lia.
Qed.

End TypedArrays.

(** ** [setArrayBuffer] *)

Section SetArrayBuffer.
Context {Ctx Inst : Type} `{!ResourceGame Ctx Inst}.

Lemma u32Set_lookup_eq (store : list N) (i : nat) (v : N) :
  (i < length store)%nat → u32Get (u32Set store i v) i = Some (toUint32 v).
Proof. intros. unfold u32Get, u32Set. by apply list_lookup_insert_eq. Qed.

Lemma u32Set_length (store : list N) (i : nat) (v : N) :
  length (u32Set store i v) = length store.
Proof. apply length_insert. Qed.

Lemma truthy_Some (v : N) : v ≠ 0 → truthy (Some v) = true.
Proof. intros. simpl. by destruct (N.eqb_spec v 0). Qed.

Lemma script_setArrayBuffer_throws (m : Script.ScriptResourceManager Ctx Inst)
    (value : list byte) (store : list N) :
  truthy (u32Get store 1) = true →
  Script.setArrayBuffer m value store
  = Thrown (m, store) "You cannot mutate an existing arrayBuffer field.".
Proof. intros H. unfold Script.setArrayBuffer. by rewrite H. Qed.

Lemma game_setArrayBuffer_throws (m : Game.GameResourceManager Ctx)
    (value : list byte) (store : list N) :
  truthy (u32Get store 1) = true →
  Game.setArrayBuffer m value store
  = Thrown (m, store) "You cannot mutate an existing arrayBuffer field.".
Proof. intros H. unfold Game.setArrayBuffer. by rewrite H. Qed.

(** C10.  In both managers, [setArrayBuffer] on a store whose second word is
    non-zero throws, and the exception leaves the manager (hence the game
    context with its reference counts) and the store as they were.  A field
    is therefore assigned at most once: when a first call on a two-word
    store returns after writing a non-zero pointer (script side) or resource
    id (game side), every later call on the resulting store throws. *)
Theorem setArrayBuffer_assigned_once
    (sm : Script.ScriptResourceManager Ctx Inst) (gm : Game.GameResourceManager Ctx)
    (value : list byte) (store : list N) :
  (truthy (u32Get store 1) = true →
     Script.setArrayBuffer sm value store
       = Thrown (sm, store) "You cannot mutate an existing arrayBuffer field."
     ∧ Game.setArrayBuffer gm value store
       = Thrown (gm, store) "You cannot mutate an existing arrayBuffer field.")
  ∧ (∀ sm' store',
       (2 ≤ length store)%nat →
       Script.setArrayBuffer sm value store = Returned (sm', store') tt →
       ∃ i, Script.instance sm = Some i
            ∧ u32Get store' 1 = Some (toUint32 (websg_allocate i (N.of_nat (length value))).2)
            ∧ (toUint32 (websg_allocate i (N.of_nat (length value))).2 ≠ 0 →
               ∀ sm2 value2,
                 Script.setArrayBuffer sm2 value2 store'
                 = Thrown (sm2, store') "You cannot mutate an existing arrayBuffer field."))
  ∧ (∀ gm' store',
       (2 ≤ length store)%nat →
       Game.setArrayBuffer gm value store = Returned (gm', store') tt →
       u32Get store' 1 = Some (toUint32 (createArrayBufferResource (Game.ctx gm) value).2)
       ∧ (toUint32 (createArrayBufferResource (Game.ctx gm) value).2 ≠ 0 →
          ∀ gm2 value2,
            Game.setArrayBuffer gm2 value2 store'
            = Thrown (gm2, store') "You cannot mutate an existing arrayBuffer field.")).
Proof.
  split; [|split].
  - intros H. split.
    + by apply script_setArrayBuffer_throws.
    + by apply game_setArrayBuffer_throws.
  - intros sm' store' Hlen Hret.
    unfold Script.setArrayBuffer, Script.allocate in Hret.
    destruct (truthy (u32Get store 1)); [done|].
    destruct (Script.instance sm) as [i|]; [|done].
    exists i. split; [done|].
    destruct (websg_allocate i (N.of_nat (length value))) as [i' p].
    destruct (typedArraySetAt _ _ _); [|done].
    destruct (createArrayBufferResource _ _) as [c rid].
    injection Hret as _ <-. simpl.
    assert (u32Get (u32Set (u32Set store 0 (N.of_nat (length value))) 1 p) 1
            = Some (toUint32 p)) as Hw.
    { apply u32Set_lookup_eq. rewrite u32Set_length. lia. }
    split; [done|]. intros Hp sm2 value2.
    apply script_setArrayBuffer_throws. rewrite Hw. by apply truthy_Some.
  - intros gm' store' Hlen Hret. unfold Game.setArrayBuffer in Hret.
    destruct (truthy (u32Get store 1)); [done|].
    destruct (createArrayBufferResource _ _) as [c rid].
    injection Hret as _ <-. simpl.
    assert (u32Get (u32Set (u32Set store 0 (N.of_nat (length value))) 1 rid) 1
            = Some (toUint32 rid)) as Hw.
    { apply u32Set_lookup_eq. rewrite u32Set_length. lia. }
    split; [done|]. intros Hp gm2 value2.
    apply game_setArrayBuffer_throws. rewrite Hw. by apply truthy_Some.
Qed.

End SetArrayBuffer.

Lemma setArrayBuffer_assigned_once_witness :
  (Script.setArrayBuffer Examples.scriptManager [x01; x02] [2; 16]
     = Thrown (Examples.scriptManager, [2; 16])
         "You cannot mutate an existing arrayBuffer field."
   ∧ Game.setArrayBuffer Examples.gameManager [x01; x02] [2; 16]
     = Thrown (Examples.gameManager, [2; 16])
         "You cannot mutate an existing arrayBuffer field.")
  ∧ (∀ sm2 value2,
       Script.setArrayBuffer (Inst := N) sm2 value2 [2; 16]
       = Thrown (sm2, [2; 16]) "You cannot mutate an existing arrayBuffer field.")
  ∧ (∀ gm2 value2,
       Game.setArrayBuffer (Inst := N) gm2 value2 [2; 1]
       = Thrown (gm2, [2; 1]) "You cannot mutate an existing arrayBuffer field.").
Proof.
  destruct (setArrayBuffer_assigned_once Examples.scriptManager Examples.gameManager
              [x01; x02] [2; 16]) as [Hthrow _].
  destruct (setArrayBuffer_assigned_once Examples.scriptManager Examples.gameManager
              [x01; x02] [0; 0]) as (_ & Hscript & Hgame).
  split; [apply Hthrow; reflexivity|]. split.
  - edestruct Hscript as (i & Hi & _ & Hnext).
    + simpl. lia.
    + vm_compute. reflexivity.
    + injection Hi as <-. apply Hnext. vm_compute. discriminate.
  - edestruct Hgame as (_ & Hnext).
    + simpl. lia.
    + vm_compute. reflexivity.
    + apply Hnext. vm_compute. discriminate.
Defined.

(** ** Back-references *)

Section BackReferences.
Context {Ctx Inst : Type} `{!ResourceGame Ctx Inst}.
Import Statements.

Lemma pushDependencies_app (acc : list N * list string) (propName : string)
    (prop : Schema.PropDef) :
  (Local.pushDependencies acc propName prop).1
  = acc.1 ++ (if Schema.backRef prop then [] else referenceOffsets prop).
Proof.
  unfold Local.pushDependencies, referenceOffsets.
  destruct (Schema.backRef prop); [by rewrite app_nil_r|].
  destruct (Schema.isRefLike _); [done|].
  case_bool_decide; [done|]. by rewrite app_nil_r.
Qed.

Lemma collectDependencies_offsets (schema : list (string * Schema.PropDef))
    (acc : list N * list string) :
  (Local.collectDependencies acc schema).1
  = acc.1 ++ concat (map (λ p, if Schema.backRef p.2 then []
                               else referenceOffsets p.2) schema).
Proof.
  revert acc. induction schema as [|[propName prop] rest IH]; intros acc; simpl.
  - by rewrite app_nil_r.
  - rewrite IH, pushDependencies_app. by rewrite <- app_assoc.
Qed.

Lemma dependencyByteOffsets_concat (def : Schema.ResourceDefinition) :
  Local.dependencyByteOffsets def
  = concat (map (λ p, if Schema.backRef p.2 then [] else referenceOffsets p.2)
                (Schema.schema def)).
Proof. unfold Local.dependencyByteOffsets. by rewrite collectDependencies_offsets. Qed.

Lemma concat_skip_backRefs (schema : list (string * Schema.PropDef)) :
  concat (map (λ p, if Schema.backRef p.2 then [] else referenceOffsets p.2) schema)
  = concat (map (λ p, if Schema.backRef p.2 then [] else referenceOffsets p.2)
                (filter (λ p, Schema.backRef p.2 = false) schema)).
Proof.
  induction schema as [|[propName prop] rest IH]; [done|].
  rewrite filter_cons. simpl. destruct (Schema.backRef prop) eqn:E; simpl.
  - exact IH.
  - rewrite E. by rewrite IH.
Qed.

Lemma elem_of_concat_map {A B : Type} (f : A → list B) (l : list A) (y : B) :
  y ∈ concat (map f l) → ∃ x, x ∈ l ∧ y ∈ f x.
Proof.
  induction l as [|x l IH]; simpl.
  - intros Hy. by apply elem_of_nil in Hy.
  - intros Hy. apply elem_of_app in Hy as [Hy|Hy].
    + exists x. split; [left|done].
    + destruct (IH Hy) as (x' & Hx' & Hy'). exists x'. split; [by right|done].
Qed.

(** C7.  The dependency offsets that [registerResource] computes are those
    of the schema with its back-reference properties removed, every one of
    them lies in a property that is not a back-reference, a schema made of
    back-references only has none (so nothing is waited on for them), and
    [setRef] with [backRef] set leaves the manager, hence every reference
    count, as it was and only writes the field. *)
Theorem back_references_are_not_dependencies :
  (∀ def, Local.dependencyByteOffsets def
          = Local.dependencyByteOffsets (withoutBackRefs def))
  ∧ (∀ def off, off ∈ Local.dependencyByteOffsets def →
       ∃ propName prop, (propName, prop) ∈ Schema.schema def
                        ∧ Schema.backRef prop = false
                        ∧ off ∈ referenceOffsets prop)
  ∧ (∀ def, Forall (λ p, Schema.backRef p.2 = true) (Schema.schema def) →
       Local.dependencyByteOffsets def = [])
  ∧ (∀ (m : Script.ScriptResourceManager Ctx Inst) value store,
       Script.setRef m value store true = (m, u32Set store 0 (Script.ptrOf value))).
Proof.
  split; [|split; [|split]].
  - intros def. rewrite !dependencyByteOffsets_concat. simpl.
    apply concat_skip_backRefs.
  - intros def off. rewrite dependencyByteOffsets_concat.
    intros Hin. apply elem_of_concat_map in Hin as ([propName prop] & Hp & Hoff).
    simpl in Hoff.
    destruct (Schema.backRef prop) eqn:E; [by apply elem_of_nil in Hoff|].
    by exists propName, prop.
  - intros def Hall. rewrite dependencyByteOffsets_concat.
    induction Hall as [|[propName prop] rest Hb _ IH]; [done|].
    simpl in *. by rewrite Hb.
  - done.
Qed.

End BackReferences.

Lemma back_references_are_not_dependencies_witness :
  (∃ propName prop,
     (propName, prop) ∈ Schema.schema ReferenceCounts.meshDef
     ∧ Schema.backRef prop = false
     ∧ 0 ∈ Statements.referenceOffsets prop)
  ∧ Local.dependencyByteOffsets (Statements.withoutBackRefs ReferenceCounts.meshDef) = [0].
Proof.
  destruct (back_references_are_not_dependencies (Ctx := ReferenceCounts.GameCtx)
              (Inst := N)) as (Hfilter & Hin & _ & _).
  split.
  - apply (Hin ReferenceCounts.meshDef 0). vm_compute. left.
  - rewrite <- Hfilter. reflexivity.
Defined.


(** ** Setting a field to what it already holds *)

Section SameTarget.
Context {Ctx Inst : Type} `{!ResourceGame Ctx Inst}.

Lemma u32Set_same (store : list N) (i : nat) (v : N) :
  u32Get store i = Some v → v < 2 ^ 32 → u32Set store i v = store.
Proof.
  unfold u32Get, u32Set. intros Hget Hv.
  rewrite toUint32_small by done. by apply list_insert_id.
Qed.

(** The calls that the managers make when a field is set to the target it
    already holds.  [ScriptResourceManager.setString] with the string the
    field holds is the only setter that keeps to the rule of same value, no
    call.  [GameResourceManager.setRef] with the resource whose id the field
    holds calls [disposeResource] and then [addResourceRef] for that id;
    [GameResourceManager.setRefArrayItem] calls [addResourceRef] for the new
    resource whatever the slot holds, and never releases the old one. *)
Lemma same_target_reference_counting :
  (∀ (m : Script.ScriptResourceManager Ctx Inst) value store,
     Script.sameValue (Script.currentString m store) value = true →
     Script.setString m value store = Returned (m, store) tt)
  ∧ (∀ (m : Game.GameResourceManager Ctx) v store,
       u32Get store 0 = Some (resourceId v) → resourceId v ≠ 0 →
       resourceId v < 2 ^ 32 →
       Game.setRef m (Some v) store
       = (Game.withCtx m
            (addResourceRef (Remote.disposeResource (Game.ctx m) (resourceId v))
               (resourceId v)),
          store))
  ∧ (∀ (m : Game.GameResourceManager Ctx) index v store,
       u32Get store index = Some (resourceId v) → resourceId v < 2 ^ 32 →
       Game.setRefArrayItem m index (Some v) store
       = (Game.withCtx m (addResourceRef (Game.ctx m) (resourceId v)), store)).
Proof.
  split; [|split].
  - intros m value store Hsame. unfold Script.setString. by rewrite Hsame.
  - intros m v store Hget Hnz Hlt. unfold Game.setRef.
    rewrite Hget, truthy_Some by done. simpl.
    rewrite (u32Set_same store 0 (resourceId v)) by done.
    by rewrite Hget.
  - intros m index v store Hget Hlt. unfold Game.setRefArrayItem.
    by rewrite (u32Set_same store index (resourceId v)).
Qed.

End SameTarget.

Lemma same_target_reference_counting_witness :
  Script.setString Examples.greetingManager "hello" [40] =
    Returned (Examples.greetingManager, [40]) tt
  ∧ Game.setRef Examples.materialGameManager (Some Examples.material) [5]
    = (Game.withCtx Examples.materialGameManager
         (ReferenceCounts.acquire (ReferenceCounts.release Examples.materialCtx 5) 5),
       [5])
  ∧ Game.setRefArrayItem Examples.materialGameManager 1 (Some Examples.material) [0; 5]
    = (Game.withCtx Examples.materialGameManager
         (ReferenceCounts.acquire Examples.materialCtx 5),
       [0; 5]).
Proof.
  destruct (same_target_reference_counting (Ctx := ReferenceCounts.GameCtx) (Inst := N))
    as (Hstring & Href & Hitem).
  split; [|split].
  - apply Hstring. reflexivity.
  - apply (Href Examples.materialGameManager Examples.material [5]).
    + reflexivity.
    + discriminate.
    + reflexivity.
  - apply (Hitem Examples.materialGameManager 1%nat Examples.material [0; 5]).
    + reflexivity.
    + reflexivity.
Defined.

(** C3.  The code departs from the claim; the inputs below are the
    failing ones.  The reference field of the script manager holds
    [material] (its pointer 32 is stored, and [getRef] returns it).
    [ScriptResourceManager.setRef] with [material] again has the same-value
    guard of the claim, but compares the resource id 5 with the stored
    pointer 32: it acquires 5 once more, and the count of [material] goes
    from 1 to 2, the field being left as it was.
    [GameResourceManager.setRefArrayItem] on a slot that already holds 5
    takes the count from 1 to 2 as well, and [GameResourceManager.setRef] on
    a field that already holds 5 releases the resource before it acquires
    it: [material], held once, is gone afterwards. *)
Theorem setRef_same_resource_counts_again :
  Script.getRef Examples.materialScriptManager [32] = Some (RResource Examples.material)
  ∧ ReferenceCounts.refCounts (Script.ctx Examples.materialScriptManager) !! 5 = Some 1
  ∧ ReferenceCounts.refCounts
      (Script.ctx (Script.setRef Examples.materialScriptManager
                     (Some Examples.material) [32] false).1) !! 5 = Some 2
  ∧ (Script.setRef Examples.materialScriptManager (Some Examples.material) [32] false).2
    = [32]
  ∧ ReferenceCounts.refCounts
      (Game.ctx (Game.setRefArrayItem Examples.materialGameManager 0
                   (Some Examples.material) [5]).1) !! 5 = Some 2
  ∧ Game.getRef Examples.materialGameManager [5] = Some (RResource Examples.material)
  ∧ (Game.setRef Examples.materialGameManager (Some Examples.material) [5]).2 = [5]
  ∧ Game.getRef (Game.setRef Examples.materialGameManager (Some Examples.material) [5]).1
      [5] = None.
Proof. vm_compute. repeat split. Qed.

(** ** Disposing an unknown or already disposed resource *)

Section DisposeTwice.
Context {Ctx Inst : Type} `{!ResourceGame Ctx Inst}.

Lemma releaseRefs_only_ctx (m : Script.ScriptResourceManager Ctx Inst)
    (store : Script.ScriptResourceStore) (offsets : list N) :
  ∃ c, Script.releaseRefs m store offsets = Script.withCtx m c.
Proof.
  revert m. induction offsets as [|off rest IH]; intros m; simpl.
  - exists (Script.ctx m). by destruct m.
  - destruct (truthy _); [|apply IH].
    destruct (mapGet _ _) as [rid|]; [|apply IH].
    destruct (negb _); [|apply IH].
    destruct (IH (Script.removeRef m rid)) as [c Hc]. exists c.
    rewrite Hc. done.
Qed.

Lemma script_dispose_absent (m : Script.ScriptResourceManager Ctx Inst) (rid : N) :
  Forall (λ r, resourceId r ≠ rid) (Script.resources m) →
  Script.disposeResource m rid = Returned m false.
Proof.
  intros Hall. unfold Script.disposeResource.
  apply (list_find_None (λ r, resourceId r = rid)) in Hall. by rewrite Hall.
Qed.

Lemma script_dispose_removes (m m' : Script.ScriptResourceManager Ctx Inst) (rid : N) :
  NoDup (resourceId <$> Script.resources m) →
  Script.disposeResource m rid = Returned m' true →
  Forall (λ r, resourceId r ≠ rid) (Script.resources m').
Proof.
  intros Hnd. unfold Script.disposeResource.
  destruct (list_find _ _) as [[index resource]|] eqn:Hfind; [|done].
  apply list_find_Some in Hfind as (Hlook & Hid & _).
  destruct (Script.resourceTransformData m !! _) as [transform|]; [|done].
  assert (∀ m1, (∃ c, m1 = Script.withCtx m c) →
            match Script.deallocate m1 (ptr resource) with
            | Thrown m2 msg => Thrown m2 msg
            | Returned m2 _ =>
                Returned
                  (Script.withResourceStorage
                     (Script.withResources
                        (Script.withPtrToResourceId m2
                           (delete (ptr resource) (Script.ptrToResourceId m2)))
                        (delete index (Script.resources m2)))
                     (delete rid (Script.resourceStorage m2)))
                  true
            end = Returned m' true →
            Script.resources m' = delete index (Script.resources m)) as Hres.
  { intros m1 [c ->]. unfold Script.deallocate. simpl.
    destruct (Script.instance m); [|done]. by intros [= <-]. }
  intros Hret.
  assert (Script.resources m' = delete index (Script.resources m)) as ->.
  { destruct (Script.resourceStorage m !! resourceId resource) as [store|] eqn:Hst.
    - apply (Hres (Script.releaseRefs m store (Script.refOffsets transform)));
        [apply releaseRefs_only_ctx|].
      by destruct (Script.refOffsets transform).
    - destruct (Script.refOffsets transform); [|done].
      apply (Hres m); [|done]. exists (Script.ctx m). by destruct m. }
  rewrite delete_take_drop.
  rewrite <- (take_drop_middle _ _ _ Hlook) in Hnd.
  simpl in Hid. rewrite fmap_app, fmap_cons, Hid in Hnd.
  apply NoDup_app in Hnd as (_ & Hl & Hr). apply NoDup_cons in Hr as [Hr _].
  apply Forall_app. split; apply Forall_forall; intros r Hr' Heq; subst rid.
  - apply (Hl (resourceId r)); [by apply list_elem_of_fmap_2|]. rewrite Heq. left.
  - apply Hr. rewrite <- Heq. by apply list_elem_of_fmap_2.
Qed.

(** C2 (amended).  [ScriptResourceManager.disposeResource] returns [false]
    and leaves the whole manager (resource list, pointer table, storage, game
    context) as it was for an id that no resource of its list carries: an id
    that was never created, or, ids being distinct, an id whose disposal has
    already returned [true].  [GameResourceManager.disposeResource] returns
    no value; for an id that has no remote resource it leaves the manager as
    it was. *)
Theorem disposeResource_absent_id :
  (∀ (m : Script.ScriptResourceManager Ctx Inst) rid,
     Forall (λ r, resourceId r ≠ rid) (Script.resources m) →
     Script.disposeResource m rid = Returned m false)
  ∧ (∀ (m m' : Script.ScriptResourceManager Ctx Inst) rid,
       NoDup (resourceId <$> Script.resources m) →
       Script.disposeResource m rid = Returned m' true →
       Script.disposeResource m' rid = Returned m' false)
  ∧ (∀ (m : Game.GameResourceManager Ctx) rid,
       getRemoteResource (Game.ctx m) rid = None →
       Game.disposeResource m rid = Returned m None).
Proof.
  split; [|split].
  - apply script_dispose_absent.
  - intros m m' rid Hnd Hret. apply script_dispose_absent.
    by apply (script_dispose_removes m).
  - intros m rid Hnone. unfold Game.disposeResource. by rewrite Hnone.
Qed.

End DisposeTwice.

Lemma disposeResource_absent_id_witness :
  Script.disposeResource Examples.materialScriptManager 9
    = Returned Examples.materialScriptManager false
  ∧ (∃ m', Script.disposeResource Examples.materialScriptManager 5 = Returned m' true
           ∧ Script.disposeResource m' 5 = Returned m' false)
  ∧ Game.disposeResource Examples.materialGameManager 9
    = Returned Examples.materialGameManager None.
Proof.
  destruct (disposeResource_absent_id (Ctx := ReferenceCounts.GameCtx) (Inst := N))
    as (Habsent & Htwice & Hgame).
  split; [|split].
  - apply Habsent. repeat constructor. discriminate.
  - eexists. split.
    + vm_compute. reflexivity.
    + eapply (Htwice Examples.materialScriptManager).
      * apply NoDup_singleton.
      * vm_compute. reflexivity.
  - apply Hgame. reflexivity.
Defined.

(** C2, as stated, fails on the game side: for an id that was never created
    [GameResourceManager.disposeResource] returns nothing, not [false]. *)
Lemma game_disposeResource_returns_nothing :
  Game.disposeResource Examples.gameManager 7 = Returned Examples.gameManager None
  ∧ Game.disposeResource Examples.gameManager 7
    ≠ Returned Examples.gameManager (Some false).
Proof. split; [reflexivity|discriminate]. Qed.

(** ** Committing resources to their triple buffers *)

Section Commit.
Context {Ctx Inst : Type} `{!ResourceGame Ctx Inst}.
Import Statements.

Lemma setSlot_views (tb tb' : TripleBuffer.t) (k : TripleBuffer.Index) (view : list byte) :
  TripleBuffer.setSlot tb k view = Some tb' →
  CopiedInto tb tb' k view
  ∧ (∀ j, j ≠ k → TripleBuffer.byteViews tb' j = TripleBuffer.byteViews tb j)
  ∧ TripleBuffer.flags tb' = TripleBuffer.flags tb.
Proof.
  unfold TripleBuffer.setSlot, CopiedInto.
  destruct (typedArraySet _ _) as [slot|]; [|done]. simpl. intros [= <-].
  split; [|split].
  - by destruct k.
  - intros j Hj. by destruct k, j.
  - by destruct k.
Qed.

Lemma publish_Published (r r' : RemoteResource) (view : list byte) :
  publish r view = Returned r' tt → Published r r' view.
Proof.
  unfold publish, Published, TripleBuffer.copyToWriteBuffer.
  destruct (initialized r).
  - destruct (TripleBuffer.setSlot _ _ _) as [tb'|] eqn:E; [|done].
    intros [= <-]. simpl. apply setSlot_views in E as (Hc & Ho & _). done.
  - destruct (TripleBuffer.setSlot _ _ _) as [tb0|] eqn:E0; [|done].
    destruct (TripleBuffer.setSlot tb0 _ _) as [tb1|] eqn:E1; [|done].
    destruct (TripleBuffer.setSlot tb1 _ _) as [tb2|] eqn:E2; [|done].
    intros [= <-]. simpl.
    apply setSlot_views in E0 as (Hc0 & Ho0 & _).
    apply setSlot_views in E1 as (Hc1 & Ho1 & _).
    apply setSlot_views in E2 as (Hc2 & Ho2 & _).
    repeat split; try done. unfold CopiedInto in *.
    intros [| |].
    + rewrite Ho2, Ho1 by done. done.
    + rewrite Ho2 by done. rewrite <- Ho0 by done. done.
    + rewrite <- Ho0, <- Ho1 by done. done.
Qed.

(** A resource whose slots have the size of the view: the slots touched by
    the commit are the view itself. *)
Lemma CopiedInto_same_length (tb tb' : TripleBuffer.t) (k : TripleBuffer.Index)
    (view : list byte) :
  length (TripleBuffer.byteViews tb k) = length view →
  CopiedInto tb tb' k view → TripleBuffer.byteViews tb' k = view.
Proof.
  unfold CopiedInto. intros Hlen. rewrite typedArraySet_same_length by done.
  by intros [= <-].
Qed.

Lemma setSlot_returns (tb : TripleBuffer.t) (k : TripleBuffer.Index) (view : list byte) :
  (length view ≤ length (TripleBuffer.byteViews tb k))%nat →
  ∃ tb', TripleBuffer.setSlot tb k view = Some tb'.
Proof.
  intros Hfit. unfold TripleBuffer.setSlot, typedArraySet.
  rewrite decide_True by done. simpl. by eexists.
Qed.

Lemma publish_returns (r : RemoteResource) (view : list byte) :
  (∀ k, (length view ≤ length (TripleBuffer.byteViews (tripleBuffer r) k))%nat) →
  ∃ r', publish r view = Returned r' tt.
Proof.
  intros Hfit. unfold publish, TripleBuffer.copyToWriteBuffer.
  destruct (initialized r).
  - destruct (setSlot_returns (tripleBuffer r)
                (TripleBuffer.writeBufferIndex (TripleBuffer.flags (tripleBuffer r))) view)
      as [tb' ->]; [done|]. by eexists.
  - destruct (setSlot_returns (tripleBuffer r) TripleBuffer.I0 view) as [tb0 E0]; [done|].
    rewrite E0. apply setSlot_views in E0 as (_ & Ho0 & _).
    destruct (setSlot_returns tb0 TripleBuffer.I1 view) as [tb1 E1];
      [by rewrite Ho0|].
    rewrite E1. apply setSlot_views in E1 as (_ & Ho1 & _).
    destruct (setSlot_returns tb1 TripleBuffer.I2 view) as [tb2 E2];
      [by rewrite Ho1, Ho0|].
    rewrite E2. by eexists.
Qed.

Lemma game_commitLoop_Published (todo done : list RemoteResource)
    (rs : list RemoteResource) :
  Game.commitLoop done todo = Returned rs tt →
  ∃ todo', rs = done ++ todo'
           ∧ Forall2 (λ r r', Published r r' (byteView r)) todo todo'.
Proof.
  revert done. induction todo as [|r rest IH]; intros done; simpl.
  - intros [= <-]. exists []. by rewrite app_nil_r.
  - destruct (publish r (byteView r)) as [r' []|] eqn:Hp; [|done].
    intros Hret. apply IH in Hret as (todo' & -> & Hall).
    exists (r' :: todo'). rewrite <- app_assoc. split; [done|].
    constructor; [by apply publish_Published|done].
Qed.

Lemma game_commitLoop_returns (todo done : list RemoteResource) :
  Forall (λ r, ∀ k, (length (byteView r)
                     ≤ length (TripleBuffer.byteViews (tripleBuffer r) k))%nat) todo →
  ∃ rs, Game.commitLoop done todo = Returned rs tt.
Proof.
  revert done. induction todo as [|r rest IH]; intros done Hall; simpl.
  - by eexists.
  - apply Forall_cons in Hall as [Hr Hall].
    destruct (publish_returns r (byteView r) Hr) as [r' ->]. by apply IH.
Qed.

(** The value that one iteration writes is a publishable reference. *)
Lemma commitRef_view (m : Script.ScriptResourceManager Ctx Inst)
    (store : Script.ScriptResourceStore) (c : Ctx) (prev : gmap nat N)
    (view : list byte) (j : nat) (byteOff : N) (isString : bool) :
  ∃ c' prev' pv,
    Script.commitRef (Script.U8Heap m) (Script.ptrToResourceId m) store
      (c, prev, view) j byteOff isString
    = (c', prev',
       match wordIndex byteOff with
       | Some k => wordSet view k pv
       | None => view
       end)
    ∧ ∀ k, wordIndex byteOff = Some k → PublishedReference m store k (toUint32 pv).
Proof.
  unfold Script.commitRef.
  set (nextRefPtr := Script.refViewGet (Script.U8Heap m) store (wordIndex byteOff)).
  set (nextResourceId := mapGet (Script.ptrToResourceId m) nextRefPtr).
  assert (∀ k, wordIndex byteOff = Some k → truthy nextResourceId = true →
            PublishedReference m store k (toUint32 (default 0 nextResourceId))) as Htable.
  { intros k Hk Ht. right. left. subst nextResourceId nextRefPtr. rewrite Hk in *.
    destruct (Script.refViewGet _ _ _) as [p|]; [|done]. simpl in *.
    destruct (Script.ptrToResourceId m !! p) as [rid|] eqn:E; [|done].
    by exists p, rid. }
  assert (∀ k, PublishedReference m store k (toUint32 0)) as Hzero by (intros; by left).
  destruct (bool_decide (nextRefPtr ≠ prev !! j) && isString).
  - destruct (truthy nextResourceId) eqn:Ht; simpl; rewrite ?Ht.
    + eexists _, _, (default 0 nextResourceId). split; [reflexivity|].
      intros k Hk. by apply Htable.
    + destruct (createStringResource _ _ _) as [c2 rid] eqn:Ec. simpl.
      eexists _, _, (if negb (rid =? 0) then rid else 0). split; [reflexivity|].
      intros k Hk.
      destruct (negb (rid =? 0)); [|apply Hzero].
      right. right. eexists _, _. split.
      * subst nextResourceId nextRefPtr. rewrite Hk in Ht. exact Ht.
      * by rewrite Ec.
  - destruct (truthy nextResourceId) eqn:Ht; simpl; rewrite ?Ht.
    + eexists _, _, (default 0 nextResourceId). split; [reflexivity|].
      intros k Hk. by apply Htable.
    + eexists _, _, 0. split; [reflexivity|]. intros k Hk. apply Hzero.
Qed.

Lemma commitRefs_view (m : Script.ScriptResourceManager Ctx Inst)
    (store : Script.ScriptResourceStore) (isStrings : list bool) (offsets : list N) :
  ∀ c prev view j c' prev' view',
    Script.commitRefs (Script.U8Heap m) (Script.ptrToResourceId m) store isStrings
      (c, prev, view) j offsets = (c', prev', view') →
    length view' = length view
    ∧ (∀ k, Forall (λ off, wordIndex off ≠ Some k) offsets →
            wordGet view' k = wordGet view k)
    ∧ (∀ off k, off ∈ offsets → wordIndex off = Some k →
                (4 * k + 4 ≤ length view)%nat →
                ∃ v, wordGet view' k = Some v ∧ PublishedReference m store k v)
    ∧ (∀ b, (∀ off k, off ∈ offsets → wordIndex off = Some k →
                      (b < 4 * k ∨ 4 * k + 4 ≤ b)%nat) →
            view' !! b = view !! b).
Proof.
  induction offsets as [|byteOff rest IH]; intros c prev view j c' prev' view';
    cbn [Script.commitRefs].
  - intros [= <- <- <-]. split; [done|]. split; [done|]. split; [|done].
    intros off k Hin. by apply elem_of_nil in Hin.
  - destruct (commitRef_view m store c prev view j byteOff
                (default false (isStrings !! j))) as (c1 & prev1 & pv & -> & Hpv).
    intros Hrest. apply IH in Hrest as (Hlen & Hother & Hrefs & Hbytes).
    assert (length (match wordIndex byteOff with
                    | Some k => wordSet view k pv
                    | None => view
                    end) = length view) as Hlen1.
    { destruct (wordIndex byteOff); [apply wordSet_length|done]. }
    split; [by rewrite Hlen, Hlen1|]. split; [|split].
    + intros k Hall. apply Forall_cons in Hall as [Hk Hall].
      rewrite Hother by done.
      destruct (wordIndex byteOff) as [k0|]; [|done].
      apply wordGet_wordSet_ne. congruence.
    + intros off k Hin Hk Hrange.
      destruct (decide (Exists (λ off', wordIndex off' = Some k) rest)) as [Hex|Hnex].
      * apply Exists_exists in Hex as (off' & Hin' & Hk').
        apply (Hrefs off' k); [done|done|]. by rewrite Hlen1.
      * apply not_Exists_Forall in Hnex; [|intros; apply _].
        apply elem_of_cons in Hin as [->|Hin].
        -- rewrite Hother by (eapply Forall_impl; [exact Hnex|done]).
           rewrite Hk. rewrite wordGet_wordSet_eq by done.
           eexists. split; [done|]. by apply Hpv.
        -- exfalso. rewrite Forall_forall in Hnex. by apply (Hnex off).
    + intros b Hb. rewrite Hbytes.
      * destruct (wordIndex byteOff) as [k0|] eqn:Ek; [|done].
        apply wordSet_lookup_ne. apply (Hb byteOff k0); [left|done].
      * intros off k Hin. apply Hb. by right.
Qed.

Lemma layout_insert (table : gmap string Script.ResourceTransformData) (type : string)
    (t t' : Script.ResourceTransformData) :
  table !! type = Some t → layout t' = layout t →
  layout <$> <[type := t']> table = layout <$> table.
Proof.
  intros Ht Hl. rewrite fmap_insert, Hl. apply insert_id. by rewrite lookup_fmap, Ht.
Qed.

Lemma window_insert (storage : gmap N Script.ScriptResourceStore) (rid : N)
    (st st' : Script.ScriptResourceStore) :
  storage !! rid = Some st → window st' = window st →
  window <$> <[rid := st']> storage = window <$> storage.
Proof.
  intros Ht Hl. rewrite fmap_insert, Hl. apply insert_id. by rewrite lookup_fmap, Ht.
Qed.

Lemma SameLayout_refl (m : Script.ScriptResourceManager Ctx Inst) : SameLayout m m.
Proof. done. Qed.

Lemma SameLayout_trans (m1 m2 m3 : Script.ScriptResourceManager Ctx Inst) :
  SameLayout m1 m2 → SameLayout m2 m3 → SameLayout m1 m3.
Proof.
  intros (H1 & H2 & H3 & H4) (H1' & H2' & H3' & H4').
  repeat split; congruence.
Qed.

Lemma SameLayout_transform (m m' : Script.ScriptResourceManager Ctx Inst) (type : string)
    (t : Script.ResourceTransformData) :
  SameLayout m m' → Script.resourceTransformData m !! type = Some t →
  ∃ t', Script.resourceTransformData m' !! type = Some t' ∧ layout t' = layout t.
Proof.
  intros (_ & _ & Hl & _) Ht.
  assert ((layout <$> Script.resourceTransformData m') !! type = Some (layout t)) as H'.
  { by rewrite Hl, lookup_fmap, Ht. }
  rewrite lookup_fmap in H'. apply fmap_Some in H' as (t' & Ht' & Hlt). by exists t'.
Qed.

Lemma SameLayout_store (m m' : Script.ScriptResourceManager Ctx Inst) (rid : N)
    (st : Script.ScriptResourceStore) :
  SameLayout m m' → Script.resourceStorage m !! rid = Some st →
  ∃ st', Script.resourceStorage m' !! rid = Some st' ∧ window st' = window st.
Proof.
  intros (_ & _ & _ & Hw) Ht.
  assert ((window <$> Script.resourceStorage m') !! rid = Some (window st)) as H'.
  { by rewrite Hw, lookup_fmap, Ht. }
  rewrite lookup_fmap in H'. apply fmap_Some in H' as (st' & Ht' & Hlt). by exists st'.
Qed.

Lemma SameLayout_sym (m m' : Script.ScriptResourceManager Ctx Inst) :
  SameLayout m m' → SameLayout m' m.
Proof. intros (H1 & H2 & H3 & H4). done. Qed.

Lemma translate_spec (m m1 : Script.ScriptResourceManager Ctx Inst) (r : RemoteResource)
    (transform : Script.ResourceTransformData) (view0 view : list byte) :
  Script.resourceTransformData m !! resourceType r = Some transform →
  length view0 = length (Script.writeView transform) →
  Script.translate m r transform view0 = Returned m1 view →
  length view = length view0
  ∧ SameLayout m m1
  ∧ (∀ b, (∀ off k, off ∈ Script.refOffsets transform → wordIndex off = Some k →
                    (b < 4 * k ∨ 4 * k + 4 ≤ b)%nat) →
          view !! b = view0 !! b)
  ∧ (∀ store off k,
       Script.resourceStorage m !! resourceId r = Some store →
       off ∈ Script.refOffsets transform → wordIndex off = Some k →
       (4 * k + 4 ≤ length view0)%nat →
       ∃ v, wordGet view k = Some v ∧ PublishedReference m store k v).
Proof.
  intros Ht Hlen0. unfold Script.translate.
  destruct (Script.resourceStorage m !! resourceId r) as [store|] eqn:Hst.
  - destruct (Script.commitRefs _ _ _ _ _ _ _) as [[c prev] view'] eqn:Hrefs.
    intros [= <- <-].
    apply commitRefs_view in Hrefs as (Hlen & _ & Hpub & Hbytes).
    split; [done|]. split; [|split; [done|]].
    + unfold SameLayout, Script.withScratch, Script.withPrevRefs. simpl. rewrite Hst. simpl.
      repeat split; try done.
      * apply (layout_insert _ _ transform); [done|]. unfold layout. simpl. congruence.
      * by apply (window_insert _ _ store).
    + intros store' off k [= <-]. apply Hpub.
  - destruct (Script.refOffsets transform) eqn:Eo; [|done].
    intros [= <- <-]. split; [done|]. split; [|split; [done|]].
    + unfold SameLayout, Script.withScratch. simpl. repeat split; try done.
      apply (layout_insert _ _ transform); [done|]. unfold layout. simpl. congruence.
    + intros store off k _ Hin. by apply elem_of_nil in Hin.
Qed.

Lemma commitResource_spec (m m' : Script.ScriptResourceManager Ctx Inst)
    (r r' : RemoteResource) :
  Script.commitResource m r = Returned (m', r') tt →
  SameLayout m m'
  ∧ ∃ view, Published r r' view ∧ PublishedBytes m r view ∧ PublishedReferences m r view.
Proof.
  unfold Script.commitResource.
  destruct (Script.resourceTransformData m !! _) as [transform|] eqn:Ht; [|done].
  destruct (typedArraySet _ _) as [view0|] eqn:Hv; [|done].
  apply typedArraySet_Some in Hv as [Hv0 Hlen0].
  destruct (Script.translate _ _ _ _) as [m1 view|] eqn:Htr; [|done].
  apply (translate_spec m m1 r transform view0 view Ht Hlen0) in Htr
    as (Hlen & Hsame & Hbytes & Hrefs).
  destruct (publish r view) as [r1 []|] eqn:Hp; [|done].
  intros [= <- <-]. split; [done|]. exists view.
  split; [by apply publish_Published|]. split.
  - exists transform. split; [done|]. split; [congruence|].
    intros b Hb Hout. rewrite Hbytes by done. rewrite Hv0. by apply lookup_app_l.
  - intros transform' store byteOff k Ht' Hst Hin Hk Hrange.
    rewrite Ht in Ht'. injection Ht' as <-.
    apply (Hrefs store byteOff k); [done|done|done|]. by rewrite Hlen0.
Qed.

Lemma translate_returns (m : Script.ScriptResourceManager Ctx Inst) (r : RemoteResource)
    (transform : Script.ResourceTransformData) (view0 : list byte) :
  Script.refOffsets transform = []
  ∨ is_Some (Script.resourceStorage m !! resourceId r) →
  ∃ m1 view, Script.translate m r transform view0 = Returned m1 view.
Proof.
  intros Hst. unfold Script.translate.
  destruct (Script.resourceStorage m !! resourceId r) as [store|] eqn:E.
  - destruct (Script.commitRefs _ _ _ _ _ _ _) as [[c prev] view]. by eexists _, _.
  - destruct Hst as [->|[? ?]]; [|done]. by eexists _, _.
Qed.

Lemma commitResource_returns (m : Script.ScriptResourceManager Ctx Inst)
    (r : RemoteResource) :
  Committable m r → ∃ m' r', Script.commitResource m r = Returned (m', r') tt.
Proof.
  intros (transform & Ht & Hfit & Hst & Hslots). unfold Script.commitResource.
  rewrite Ht. unfold typedArraySet at 1. rewrite decide_True by done.
  set (view0 := byteView r ++ _).
  assert (length view0 = length (Script.writeView transform)) as Hlen0.
  { subst view0. rewrite length_app, length_drop. lia. }
  destruct (translate_returns m r transform view0 Hst) as (m1 & view & Htr).
  rewrite Htr.
  apply (translate_spec m m1 r transform view0 view Ht Hlen0) in Htr as (Hlen & _).
  destruct (publish_returns r view) as [r' ->]; [|by eexists _, _].
  intros k. rewrite Hlen, Hlen0. apply Hslots.
Qed.

Lemma SameLayout_Committable (m m' : Script.ScriptResourceManager Ctx Inst)
    (r : RemoteResource) :
  SameLayout m m' → Committable m r → Committable m' r.
Proof.
  intros Hsame (transform & Ht & Hfit & Hst & Hslots).
  destruct (SameLayout_transform m m' _ transform Hsame Ht) as (t' & Ht' & Hl).
  injection Hl as Hl1 Hl2 Hl3.
  exists t'. split; [done|]. split; [lia|]. split.
  - destruct Hst as [Hst|[st Hst]]; [left; congruence|right].
    destruct (SameLayout_store m m' _ st Hsame Hst) as (st' & -> & _). by eexists.
  - intros k. rewrite Hl1. apply Hslots.
Qed.

Lemma refViewGet_window (heap : list byte) (st st' : Script.ScriptResourceStore)
    (k : option nat) :
  window st' = window st → Script.refViewGet heap st' k = Script.refViewGet heap st k.
Proof. intros [= Ho Hn]. unfold Script.refViewGet. by rewrite Ho, Hn. Qed.

Lemma SameLayout_PublishedBytes (m m' : Script.ScriptResourceManager Ctx Inst)
    (r : RemoteResource) (view : list byte) :
  SameLayout m m' → PublishedBytes m' r view → PublishedBytes m r view.
Proof.
  intros Hsame (t' & Ht' & Hlen & Hbytes).
  destruct (SameLayout_transform m' m _ t' (SameLayout_sym _ _ Hsame) Ht')
    as (t & Ht & Hl).
  injection Hl as Hl1 Hl2 Hl3.
  exists t. split; [done|]. split; [lia|].
  intros b Hb Hout. apply Hbytes; [done|]. intros off k Hin. apply Hout. congruence.
Qed.

Lemma SameLayout_PublishedReferences (m m' : Script.ScriptResourceManager Ctx Inst)
    (r : RemoteResource) (view : list byte) :
  SameLayout m m' → PublishedReferences m' r view → PublishedReferences m r view.
Proof.
  intros Hsame Hrefs transform store byteOff k Ht Hst Hin Hk Hrange.
  destruct (SameLayout_transform m m' _ transform Hsame Ht) as (t' & Ht' & Hl).
  destruct (SameLayout_store m m' _ store Hsame Hst) as (st' & Hst' & Hw).
  injection Hl as Hl1 Hl2 Hl3.
  destruct (Hrefs t' st' byteOff k Ht' Hst') as (v & Hv & Hpub);
    [congruence|done|lia|].
  exists v. split; [done|].
  destruct Hsame as (Hheap & Htable & _ & _).
  unfold PublishedReference in *. rewrite Hheap, Htable in Hpub.
  by rewrite (refViewGet_window _ store st' (Some k) Hw) in Hpub.
Qed.

Lemma script_commitLoop_spec (m0 : Script.ScriptResourceManager Ctx Inst)
    (todo : list RemoteResource) :
  ∀ (m m' : Script.ScriptResourceManager Ctx Inst) done,
    SameLayout m0 m →
    Script.commitLoop m done todo = Returned m' tt →
    ∃ todo', Script.resources m' = done ++ todo'
             ∧ Forall2 (λ r r', ∃ view, Published r r' view
                                        ∧ PublishedBytes m0 r view
                                        ∧ PublishedReferences m0 r view)
                 todo todo'.
Proof.
  induction todo as [|r rest IH]; intros m m' done Hsame; simpl.
  - intros [= <-]. exists []. by rewrite app_nil_r.
  - destruct (Script.commitResource m r) as [[m1 r'] []|[m1 r'] msg] eqn:Hc; [|done].
    apply commitResource_spec in Hc as (Hsame1 & view & Hp & Hb & Hr).
    intros Hret. apply IH in Hret as (todo' & -> & Hall);
      [|by apply (SameLayout_trans m0 m m1)].
    exists (r' :: todo'). rewrite <- app_assoc. split; [done|].
    constructor; [|done]. exists view. split; [done|]. split.
    + by apply (SameLayout_PublishedBytes m0 m).
    + by apply (SameLayout_PublishedReferences m0 m).
Qed.

Lemma script_commitLoop_returns (m0 : Script.ScriptResourceManager Ctx Inst)
    (todo : list RemoteResource) :
  ∀ (m : Script.ScriptResourceManager Ctx Inst) done,
    SameLayout m0 m → Forall (Committable m0) todo →
    ∃ m', Script.commitLoop m done todo = Returned m' tt.
Proof.
  induction todo as [|r rest IH]; intros m done Hsame Hall; simpl.
  - by eexists.
  - apply Forall_cons in Hall as [Hr Hall].
    destruct (commitResource_returns m r) as (m1 & r' & Hc);
      [by apply (SameLayout_Committable m0 m)|].
    rewrite Hc. apply commitResource_spec in Hc as [Hsame1 _].
    apply IH; [by apply (SameLayout_trans m0 m m1)|done].
Qed.

(** C5.  [commitResources] returns whenever the views fit (on the script
    side: whenever every resource is committable), and when it returns every
    resource of the list has been published and is marked initialized.  A
    resource that was not initialized has had the published bytes copied
    into each of its three slots; one that was has had them copied into its
    write slot, and its other two slots are untouched.  The game manager
    publishes [resource.byteView]; the script manager publishes bytes that
    are those of [resource.byteView] outside the reference words (C6 says
    what the reference words hold).  With slots of the size of the view,
    each slot written is the view. *)
Theorem commitResources_publishes :
  (∀ (m : Game.GameResourceManager Ctx),
     Forall (λ r, ∀ k, (length (byteView r)
                        ≤ length (TripleBuffer.byteViews (tripleBuffer r) k))%nat)
       (Game.resources m) →
     ∃ m', Game.commitResources m = Returned m' tt)
  ∧ (∀ (m m' : Game.GameResourceManager Ctx),
       Game.commitResources m = Returned m' tt →
       Forall2 (λ r r', Published r r' (byteView r))
         (Game.resources m) (Game.resources m'))
  ∧ (∀ (m : Script.ScriptResourceManager Ctx Inst),
       Forall (Committable m) (Script.resources m) →
       ∃ m', Script.commitResources m = Returned m' tt)
  ∧ (∀ (m m' : Script.ScriptResourceManager Ctx Inst),
       Script.commitResources m = Returned m' tt →
       Forall2 (λ r r', ∃ view, Published r r' view ∧ PublishedBytes m r view)
         (Script.resources m) (Script.resources m'))
  ∧ (∀ r r' view k,
       Published r r' view →
       length (TripleBuffer.byteViews (tripleBuffer r) k) = length view →
       initialized r = false
       ∨ k = TripleBuffer.writeBufferIndex (TripleBuffer.flags (tripleBuffer r)) →
       TripleBuffer.byteViews (tripleBuffer r') k = view).
Proof.
  split; [|split; [|split; [|split]]].
  - intros m Hall. unfold Game.commitResources.
    destruct (game_commitLoop_returns (Game.resources m) [] Hall) as [rs ->].
    by eexists.
  - intros m m'. unfold Game.commitResources.
    destruct (Game.commitLoop _ _) as [rs []|] eqn:Hl; [|done].
    intros [= <-]. apply game_commitLoop_Published in Hl as (todo' & -> & Hall).
    done.
  - intros m Hall. unfold Script.commitResources.
    by apply (script_commitLoop_returns m); [apply SameLayout_refl|].
  - intros m m' Hret. unfold Script.commitResources in Hret.
    apply (script_commitLoop_spec m) in Hret as (todo' & -> & Hall);
      [|apply SameLayout_refl].
    simpl. eapply Forall2_impl; [exact Hall|].
    intros r r' (view & Hp & Hb & _). by exists view.
  - intros r r' view k (_ & _ & _ & Hp) Hlen Hk.
    destruct (initialized r).
    + destruct Hk as [Hk|Hk]; [done|subst k]. destruct Hp as [Hp _].
      by apply (CopiedInto_same_length (tripleBuffer r)).
    + by apply (CopiedInto_same_length (tripleBuffer r)).
Qed.






End Commit.

Lemma commitResources_publishes_witness :
  (∃ m', Game.commitResources Examples.lightGameManager = Returned m' tt
         ∧ Forall2 (λ r r', Statements.Published r r' (byteView r))
             (Game.resources Examples.lightGameManager) (Game.resources m'))
  ∧ (∃ m', Script.commitResources Examples.labelManager = Returned m' tt
           ∧ Forall2 (λ r r', ∃ view, Statements.Published r r' view
                                      ∧ Statements.PublishedBytes Examples.labelManager
                                          r view)
               (Script.resources Examples.labelManager) (Script.resources m')).
Proof.
  destruct (commitResources_publishes (Ctx := ReferenceCounts.GameCtx) (Inst := N))
    as (Hgame_returns & Hgame & Hscript_returns & Hscript & _).
  split.
  - destruct (Hgame_returns Examples.lightGameManager) as [m' Hm'].
    + repeat constructor; intros [| |]; vm_compute; done.
    + exists m'. split; [exact Hm'|]. by apply Hgame.
  - destruct (Hscript_returns Examples.labelManager) as [m' Hm'].
    + repeat constructor. exists Examples.labelTransform.
      split; [reflexivity|]. split; [vm_compute; lia|]. split.
      * right. by eexists.
      * intros [| |]; vm_compute; lia.
    + exists m'. split; [exact Hm'|]. by apply Hscript.
Defined.



(** ** The resource module of a consuming thread *)

Section ConsumingThread.
Import Statements.

Lemma promise_resolved (s : Local.State) (p : Local.Promise) :
  Local.promiseSettlement s p = Deferred.Resolved ↔
  ∃ h, p = Local.OfDeferred h ∧ resolved s h.
Proof.
  unfold resolved. destruct p as [h|e]; simpl.
  - destruct (Local.deferredHeap s !! h) as [d|] eqn:E.
    + split.
      * intros Hd. exists h. split; [done|]. by exists d.
      * intros (h' & [= <-] & d' & Hd' & Hs). rewrite E in Hd'. by injection Hd' as ->.
    + split; [done|]. intros (h' & [= <-] & d' & Hd' & _). by rewrite E in Hd'.
  - split; [done|]. by intros (h & ? & _).
Qed.

Lemma allResolved_Forall (s : Local.State) (ps : list Local.Promise) :
  Local.allResolved s ps = true ↔
  Forall (λ p, ∃ h, p = Local.OfDeferred h ∧ resolved s h) ps.
Proof.
  unfold Local.allResolved. induction ps as [|p ps IH]; simpl.
  - split; [constructor|done].
  - rewrite andb_true_iff, bool_decide_eq_true, promise_resolved, IH.
    split.
    + intros [Hp Hps]. by constructor.
    + intros Hall. by apply Forall_cons in Hall.
Qed.

Lemma allResolved_mono (s s' : Local.State) (ps : list Local.Promise) :
  (∀ h, resolved s h → resolved s' h) →
  Local.allResolved s ps = true → Local.allResolved s' ps = true.
Proof.
  intros Hmono. rewrite !allResolved_Forall. intros Hall.
  eapply Forall_impl; [exact Hall|].
  intros p (h & -> & Hr). exists h. split; [done|]. by apply Hmono.
Qed.

Lemma settle_settlement (d : Deferred.t) (st : Deferred.Settlement) :
  Deferred.settlement (Deferred.settle d st)
  = match Deferred.settlement d with
    | Deferred.Pending => st
    | other => other
    end.
Proof.
  unfold Deferred.settle. by destruct (Deferred.settlement d) eqn:E; simpl; rewrite ?E.
Qed.

Lemma settle_timeout (d : Deferred.t) (st : Deferred.Settlement) :
  Deferred.timeout (Deferred.settle d st) = Deferred.timeout d.
Proof. unfold Deferred.settle. by destruct (Deferred.settlement d). Qed.

Lemma resolved_same (s s' : Local.State) (h : nat) :
  Local.deferredHeap s' = Local.deferredHeap s → resolved s' h ↔ resolved s h.
Proof. unfold resolved. by intros ->. Qed.

Lemma resolved_create (s s' : Local.State) (d : Deferred.t) (h : nat) :
  Local.deferredHeap s' = Local.deferredHeap s ++ [d] →
  Deferred.settlement d = Deferred.Pending →
  resolved s' h ↔ resolved s h.
Proof.
  unfold resolved. intros -> Hd. split; intros (d' & Hl & Hs).
  - apply lookup_app_Some in Hl as [Hl|[_ Hl]]; [by exists d'|].
    apply list_lookup_singleton_Some in Hl as [_ <-]. congruence.
  - exists d'. split; [|done]. by apply lookup_app_l_Some.
Qed.

Lemma resolved_reject (s s' : Local.State) (h0 : nat)
    (f : Deferred.t → Deferred.t) (h : nat) :
  (∀ d, ∃ e, f d = Deferred.reject d e) →
  Local.deferredHeap s' = alter f h0 (Local.deferredHeap s) →
  resolved s' h ↔ resolved s h.
Proof.
  unfold resolved. intros Hf ->. rewrite list_lookup_alter.
  destruct (decide (h0 = h)) as [->|]; [|done].
  destruct (Local.deferredHeap s !! h) as [d|]; simpl; [|by split; intros (? & ? & ?)].
  destruct (Hf d) as [e He]. rewrite He.
  split.
  - intros (d' & [= <-] & Hs). exists d. split; [done|].
    unfold Deferred.reject in Hs. rewrite settle_settlement in Hs.
    by destruct (Deferred.settlement d).
  - intros (d' & [= <-] & Hs). eexists. split; [done|].
    unfold Deferred.reject. rewrite settle_settlement. by rewrite Hs.
Qed.

Lemma resolved_resolve (s s' : Local.State) (h0 h : nat) :
  Local.deferredHeap s' = alter Deferred.resolve h0 (Local.deferredHeap s) →
  (resolved s h → resolved s' h) ∧ (resolved s' h → resolved s h ∨ h = h0).
Proof.
  unfold resolved. intros ->. rewrite list_lookup_alter.
  destruct (decide (h0 = h)) as [->|]; [|by split; [|left]].
  split; [|by right].
  intros (d & -> & Hs). eexists. split; [done|].
  unfold Deferred.resolve. rewrite settle_settlement. by rewrite Hs.
Qed.

Lemma task_alter_phase (tasks : list Local.LoadTask) (k k' : nat) (ph : Local.Phase)
    (t' : Local.LoadTask) :
  alter (λ t, Local.withPhase t ph) k tasks !! k' = Some t' →
  ∃ t, tasks !! k' = Some t
       ∧ Local.promises t' = Local.promises t
       ∧ Local.taskDeferred t' = Local.taskDeferred t
       ∧ (k' = k ∧ Local.phase t' = ph ∨ k' ≠ k ∧ t' = t).
Proof.
  rewrite list_lookup_alter. destruct (decide (k = k')) as [->|Hne].
  - destruct (tasks !! k') as [t|]; [|done]. intros [= <-].
    exists t. repeat split; try done. by left.
  - intros Ht. exists t'. repeat split; try done. right. by split.
Qed.

Lemma task_alter_phase_keeps (tasks : list Local.LoadTask) (k k' : nat)
    (ph : Local.Phase) (t : Local.LoadTask) :
  tasks !! k' = Some t →
  ∃ t', alter (λ t, Local.withPhase t ph) k tasks !! k' = Some t'
        ∧ Local.taskDeferred t' = Local.taskDeferred t
        ∧ (k' ≠ k → t' = t) ∧ (k' = k → Local.phase t' = ph).
Proof.
  intros Ht. rewrite list_lookup_alter. destruct (decide (k = k')) as [->|Hne].
  - rewrite Ht. simpl. eexists. repeat split; try done.
  - exists t. repeat split; try done.
Qed.

Lemma Move_Invariant (s s' : Local.State) :
  Move s s' → Invariant s → Invariant s'.
Proof.
  intros Hmove [Hinv Hload Htime].
  destruct Hmove as [Hh Ht|d Hh Hd Hto Ht|h0 f Hf Hh Ht|t0 Hh Ht Hph Hps
                     |k0 Hh Ht Hnl|k0 t0 Hk0 Hph Hall Hh Ht|k0 t0 Hk0 Hph Hh Ht
                     |k0 Hh Ht Hnl].
  - (* nothing *)
    split.
    + rewrite Ht. intros k t Hk Hi.
      apply (allResolved_mono s); [intros h; by apply resolved_same|by eapply Hinv].
    + intros h Hr. rewrite Ht. apply Hload. by apply (resolved_same s s').
    + by rewrite Hh.
  - (* a new deferred *)
    split.
    + rewrite Ht. intros k t Hk Hi.
      apply (allResolved_mono s); [intros h; by apply (resolved_create s s' d)|].
      by eapply Hinv.
    + intros h Hr. rewrite Ht. apply Hload. by apply (resolved_create s s' d).
    + rewrite Hh. apply Forall_app. split; [done|]. by constructor.
  - (* a rejection *)
    split.
    + rewrite Ht. intros k t Hk Hi.
      apply (allResolved_mono s); [intros h; by apply (resolved_reject s s' h0 f)|].
      by eapply Hinv.
    + intros h Hr. rewrite Ht. apply Hload. by apply (resolved_reject s s' h0 f).
    + rewrite Hh. apply Forall_alter; [done|]. intros d _ Hd.
      destruct (Hf d) as [e ->]. unfold Deferred.reject. by rewrite settle_timeout.
  - (* a new task *)
    split.
    + rewrite Ht. intros k t Hk Hi.
      apply lookup_app_Some in Hk as [Hk|[_ Hk]].
      * apply (allResolved_mono s); [intros h; by apply resolved_same|by eapply Hinv].
      * apply list_lookup_singleton_Some in Hk as [_ <-].
        destruct Hi as [Hi|Hi]; [|done]. by rewrite Hps.
    + intros h Hr. apply (resolved_same s s') in Hr; [|done].
      destruct (Hload h Hr) as (k & t & Hk & Hd & Hl).
      exists k, t. rewrite Ht. split; [by apply lookup_app_l_Some|done].
    + by rewrite Hh.
  - (* a failure *)
    split.
    + rewrite Ht. intros k t Hk Hi.
      apply task_alter_phase in Hk as (t1 & Hk & Hps & _ & [[-> Hf]|[_ ->]]).
      * destruct Hi as [Hi|Hi]; congruence.
      * apply (allResolved_mono s); [intros h; by apply resolved_same|by eapply Hinv].
    + intros h Hr. apply (resolved_same s s') in Hr; [|done].
      destruct (Hload h Hr) as (k & t & Hk & Hd & Hl).
      destruct (task_alter_phase_keeps (Local.tasks s) k0 k Local.Failed t Hk)
        as (t' & Hk' & Hd' & Hsame & _).
      exists k, t'. rewrite Ht. split; [done|].
      rewrite Hsame; [done|]. intros ->. by apply (Hnl t).
    + by rewrite Hh.
  - (* the loader is called *)
    split.
    + rewrite Ht. intros k t Hk Hi.
      apply task_alter_phase in Hk as (t1 & Hk & Hps & _ & [[-> _]|[_ ->]]).
      * rewrite Hps. rewrite Hk0 in Hk. injection Hk as <-.
        apply (allResolved_mono s); [intros h; by apply resolved_same|done].
      * apply (allResolved_mono s); [intros h; by apply resolved_same|by eapply Hinv].
    + intros h Hr. apply (resolved_same s s') in Hr; [|done].
      destruct (Hload h Hr) as (k & t & Hk & Hd & Hl).
      destruct (task_alter_phase_keeps (Local.tasks s) k0 k Local.AwaitLoad t Hk)
        as (t' & Hk' & Hd' & Hsame & _).
      exists k, t'. rewrite Ht. split; [done|].
      rewrite Hsame; [done|]. intros ->. congruence.
    + by rewrite Hh.
  - (* the load is over *)
    split.
    + rewrite Ht. intros k t Hk Hi.
      apply task_alter_phase in Hk as (t1 & Hk & Hps & _ & [[-> _]|[_ ->]]).
      * rewrite Hps. rewrite Hk0 in Hk. injection Hk as <-.
        apply (allResolved_mono s);
          [intros h; by apply (resolved_resolve s s' (Local.taskDeferred t0))|].
        eapply Hinv; [done|by left].
      * apply (allResolved_mono s);
          [intros h; by apply (resolved_resolve s s' (Local.taskDeferred t0))|].
        by eapply Hinv.
    + intros h Hr.
      destruct (resolved_resolve s s' (Local.taskDeferred t0) h Hh) as [_ Hback].
      destruct (Hback Hr) as [Hr'| ->].
      * destruct (Hload h Hr') as (k & t & Hk & Hd & Hl).
        destruct (task_alter_phase_keeps (Local.tasks s) k0 k Local.Loaded t Hk)
          as (t' & Hk' & Hd' & Hsame & Hnew).
        exists k, t'. rewrite Ht. split; [done|]. split; [congruence|].
        destruct (decide (k = k0)) as [->|Hne]; [by apply Hnew|by rewrite Hsame].
      * destruct (task_alter_phase_keeps (Local.tasks s) k0 k0 Local.Loaded t0 Hk0)
          as (t' & Hk' & Hd' & _ & Hnew).
        exists k0, t'. rewrite Ht. split; [done|]. split; [done|by apply Hnew].
    + rewrite Hh. apply Forall_alter; [done|]. intros d _ Hd.
      unfold Deferred.resolve. by rewrite settle_timeout.
  - (* the catch block throws *)
    split.
    + rewrite Ht. intros k t Hk Hi.
      apply task_alter_phase in Hk as (t1 & Hk & Hps & _ & [[-> Hf]|[_ ->]]).
      * destruct Hi as [Hi|Hi]; congruence.
      * apply (allResolved_mono s); [intros h; by apply resolved_same|by eapply Hinv].
    + intros h Hr. apply (resolved_same s s') in Hr; [|done].
      destruct (Hload h Hr) as (k & t & Hk & Hd & Hl).
      destruct (task_alter_phase_keeps (Local.tasks s) k0 k Local.Abandoned t Hk)
        as (t' & Hk' & Hd' & Hsame & _).
      exists k, t'. rewrite Ht. split; [done|].
      rewrite Hsame; [done|]. intros ->. by apply (Hnl t).
    + by rewrite Hh.
Qed.

Lemma Moves_Invariant (s s' : Local.State) :
  rtc Move s s' → Invariant s → Invariant s'.
Proof. induction 1; [done|]. intros. eauto using Move_Invariant. Qed.

(** Every function of the module is a sequence of elementary moves. *)

Lemma Moves_none (s s' : Local.State) :
  Local.deferredHeap s' = Local.deferredHeap s → Local.tasks s' = Local.tasks s →
  rtc Move s s'.
Proof. intros. by apply rtc_once, move_none. Qed.

Lemma sendLoaded_Moves (s : Local.State) (t : Local.LoadTask) :
  rtc Move s (Local.sendLoaded s t).
Proof.
  unfold Local.sendLoaded. destruct (Local.infoHeap s !! _); [|done].
  by apply Moves_none.
Qed.

Lemma waitForLocalResource_Moves (s : Local.State) (resourceId : N) (description : string) :
  rtc Move s (Local.waitForLocalResource s resourceId description).1.
Proof.
  unfold Local.waitForLocalResource.
  destruct (resourceId =? Local.NOOP); [done|].
  destruct (Local.deferredResources s !! resourceId); [done|].
  simpl. eapply rtc_once, move_create; done.
Qed.

Lemma waitForDependenciesFrom_Moves (view : list byte) (names : list string)
    (offsets : list N) :
  ∀ s i, rtc Move s (Local.waitForDependenciesFrom s view names i offsets).1.
Proof.
  induction offsets as [|byteOff rest IH]; intros s i; simpl; [done|].
  destruct (truthy _); [|apply IH].
  destruct (Local.waitForLocalResource s _ _) as [s1 p] eqn:E1.
  destruct (Local.waitForDependenciesFrom s1 _ _ _ _) as [s2 ps] eqn:E2.
  simpl. etrans.
  - pose proof (waitForLocalResource_Moves s
                  (default 0
                     match wordIndex byteOff with
                     | Some index => wordGet view index
                     | None => None
                     end)
                  (default "undefined" (names !! i))) as Hm.
    rewrite E1 in Hm. exact Hm.
  - pose proof (IH s1 (S i)) as Hm. rewrite E2 in Hm. exact Hm.
Qed.

Lemma failLoad_Moves (s : Local.State) (k : nat) (t : Local.LoadTask)
    (e : Deferred.LoadError) :
  (∀ t', Local.tasks s !! k = Some t' → Local.phase t' ≠ Local.Loaded) →
  rtc Move s (Local.failLoad s k t e).
Proof.
  intros Hnl. unfold Local.failLoad.
  set (s1 := Local.updateInfo s _ _).
  set (s2 := Local.updateDeferred s1 _ _).
  etrans; [apply (Moves_none s s1); done|].
  etrans; [apply rtc_once;
           apply (move_reject s1 s2 (Local.taskDeferred t)
                    (λ d, Deferred.reject d e)); [by eexists|done|done]|].
  etrans; [|apply sendLoaded_Moves].
  apply rtc_once. by apply (move_fail s2 _ k).
Qed.

Lemma finishLoad_Moves (s : Local.State) (k : nat) (t : Local.LoadTask)
    (v : Local.LocalValue) :
  Local.tasks s !! k = Some t → Local.phase t = Local.AwaitLoad →
  rtc Move s (Local.finishLoad s k t v).
Proof.
  intros Hk Hph. unfold Local.finishLoad.
  set (s1 := Local.updateInfo s _ _).
  set (s2 := Local.withResourcesByType s1 _).
  etrans; [apply (Moves_none s s2); done|].
  etrans; [|apply sendLoaded_Moves].
  apply rtc_once. by apply (move_load s2 _ k t).
Qed.

Lemma announce_Moves (s : Local.State) (msg : Local.CreateResourceMessage) :
  rtc Move s (Local.announce s msg).1.
Proof.
  unfold Local.announce.
  set (s2 := Local.withResourceInfos _ _).
  assert (rtc Move s s2) as H2 by (by apply Moves_none).
  destruct (Local.deferredResources s2 !! Local.msgId msg) as [h|]; [done|].
  simpl. etrans; [exact H2|]. apply rtc_once. eapply move_create; done.
Qed.

Lemma announce_frame (s : Local.State) (msg : Local.CreateResourceMessage) :
  Local.tasks (Local.announce s msg).1 = Local.tasks s
  ∧ Local.resourceLoaders (Local.announce s msg).1 = Local.resourceLoaders s.
Proof.
  unfold Local.announce.
  by destruct (Local.deferredResources _ !! Local.msgId msg).
Qed.

Lemma spawn_Moves (s : Local.State) (t : Local.LoadTask) :
  Local.phase t ≠ Local.Loaded →
  (Local.phase t = Local.AwaitLoad → Local.promises t = []) →
  rtc Move s (Local.spawn s t).
Proof. intros. apply rtc_once. by eapply move_spawn. Qed.

Lemma spawn_failLoad_Moves (s : Local.State) (t : Local.LoadTask)
    (e : Deferred.LoadError) :
  Local.phase t = Local.Failed →
  rtc Move s (Local.failLoad (Local.spawn s t) (length (Local.tasks s)) t e).
Proof.
  intros Hph. etrans; [apply (spawn_Moves s t); congruence|].
  apply failLoad_Moves. unfold Local.spawn. simpl. intros t'.
  rewrite lookup_app_r by done. rewrite Nat.sub_diag. intros [= <-]. congruence.
Qed.

Lemma loadResource_Moves (s : Local.State) (msg : Local.CreateResourceMessage) :
  rtc Move s (Local.loadResource s msg).
Proof.
  unfold Local.loadResource.
  pose proof (announce_Moves s msg) as H3.
  destruct (Local.announce s msg) as [s3 h]. simpl in H3.
  etrans; [exact H3|].
  destruct (Local.resourceLoaders s3 !! Local.msgResourceType msg)
    as [[offsets names| |handle]|].
  - destruct (Local.msgProps msg) as [| |tb|]; try by apply spawn_failLoad_Moves.
    case_bool_decide; [|by apply spawn_failLoad_Moves].
    pose proof (waitForDependenciesFrom_Moves
                  (TripleBuffer.byteViews tb (TripleBuffer.getReadBufferIndex tb))
                  names offsets s3 0%nat) as Hm.
    unfold Local.waitForLocalResourceDependencies.
    destruct (Local.waitForDependenciesFrom s3 _ _ _ _) as [s4 ps]. simpl in Hm.
    etrans; [exact Hm|]. by apply spawn_Moves.
  - by apply spawn_Moves.
  - by apply spawn_Moves.
  - by apply spawn_failLoad_Moves.
Qed.

Lemma onLoadResources_Moves (resources : list Local.CreateResourceMessage) :
  ∀ s, rtc Move s (Local.onLoadResources s resources).
Proof.
  unfold Local.onLoadResources.
  induction resources as [|msg rest IH]; intros s; simpl; [done|].
  etrans; [apply loadResource_Moves|apply IH].
Qed.

Lemma resumeAfterDependencies_Moves (s : Local.State) (k j : nat) :
  rtc Move s (Local.resumeAfterDependencies s k j).
Proof.
  unfold Local.resumeAfterDependencies.
  destruct (Local.tasks s !! k) as [t|] eqn:Hk; [|done].
  case_bool_decide as Hph; [|done].
  destruct (Local.allResolved s (Local.promises t)) eqn:Hall.
  - apply rtc_once. by apply (move_invoke s _ k t).
  - destruct (Local.promises t !! j) as [p|]; [|done].
    destruct (Local.promiseSettlement s p); try done.
    apply failLoad_Moves. intros t'. rewrite Hk. intros [= <-]. congruence.
Qed.

Lemma abandonLoad_Moves (s : Local.State) (k : nat) :
  (∀ t', Local.tasks s !! k = Some t' → Local.phase t' ≠ Local.Loaded) →
  rtc Move s (Local.abandonLoad s k).
Proof. intros Hnl. apply rtc_once. by apply (move_abandon s _ k). Qed.

Lemma resumeAfterLoad_Moves (s : Local.State) (k : nat) (v : Local.LocalValue)
    (failure : option Local.Rejection) :
  rtc Move s (Local.resumeAfterLoad s k v failure).
Proof.
  unfold Local.resumeAfterLoad.
  destruct (Local.tasks s !! k) as [t|] eqn:Hk; [|done].
  case_bool_decide as Hph; [|done].
  assert (∀ t', Local.tasks s !! k = Some t' → Local.phase t' ≠ Local.Loaded) as Hnl.
  { intros t'. rewrite Hk. intros [= <-]. congruence. }
  destruct (Local.taskLoader t) as [[offsets names| |handle]|], failure as [[|e]|];
    try done; first [by apply failLoad_Moves|by apply abandonLoad_Moves
                    |by apply finishLoad_Moves].
Qed.

Lemma disposeAt_Moves (s : Local.State) (i : nat) :
  rtc Move s (Local.disposeAt s i).
Proof.
  unfold Local.disposeAt.
  destruct (Local.resourceIds s !! i) as [resourceId|]; [|done].
  destruct (Local.getResourceDisposed s resourceId); [|done].
  destruct (Local.resourceInfos s !! resourceId ≫= _) as [resourceInfo|]; [|done].
  set (s1 := match Local.deferredResources s !! resourceId with
             | Some h => _
             | None => s
             end).
  assert (rtc Move s s1) as H1.
  { subst s1. destruct (Local.deferredResources s !! resourceId) as [h|]; [|done].
    apply rtc_once. eapply (move_reject s _ h); [|done|done]. by eexists. }
  etrans; [exact H1|]. apply Moves_none; simpl.
  - destruct (Local.resource resourceInfo) as [v|]; [|done].
    destruct (Local.valueTruthy v); [|done].
    destruct (Local.resourcesByType s1 !! _), (Local.hasDispose v); done.
  - destruct (Local.resource resourceInfo) as [v|]; [|done].
    destruct (Local.valueTruthy v); [|done].
    destruct (Local.resourcesByType s1 !! _), (Local.hasDispose v); done.
Qed.

Lemma disposeBelow_Moves (n : nat) :
  ∀ s, rtc Move s (Local.disposeBelow s n).
Proof.
  induction n as [|i IH]; intros s; simpl; [done|].
  etrans; [apply disposeAt_Moves|apply IH].
Qed.

Lemma step_Moves (s : Local.State) (e : Local.Event) :
  rtc Move s (Local.step s e).
Proof.
  destruct e; simpl.
  - apply onLoadResources_Moves.
  - by apply Moves_none.
  - by apply Moves_none.
  - by apply Moves_none.
  - apply resumeAfterDependencies_Moves.
  - apply resumeAfterLoad_Moves.
  - apply rtc_once. eapply (move_reject s _ h Deferred.expire); [|done|done].
    intros d. by eexists.
  - by apply Moves_none.
  - apply disposeBelow_Moves.
Qed.

Lemma foldl_registerResource (defs : list Schema.ResourceDefinition) :
  ∀ s, Local.deferredHeap (foldl Local.registerResource s defs) = Local.deferredHeap s
       ∧ Local.tasks (foldl Local.registerResource s defs) = Local.tasks s.
Proof.
  induction defs as [|def rest IH]; intros s; simpl; [done|].
  destruct (IH (Local.registerResource s def)) as [-> ->]. done.
Qed.

Lemma init_Invariant (defs : list Schema.ResourceDefinition) :
  Invariant (Local.init defs).
Proof.
  assert (Local.deferredHeap (Local.init defs) = [] ∧ Local.tasks (Local.init defs) = [])
    as [Hh Ht].
  { unfold Local.init. simpl.
    destruct (foldl_registerResource defs Local.create) as [-> ->]. done. }
  split.
  - intros k t. by rewrite Ht.
  - intros h (d & Hd & _). by rewrite Hh in Hd.
  - by rewrite Hh.
Qed.

Lemma run_Invariant (defs : list Schema.ResourceDefinition) (events : list Local.Event) :
  Invariant (Local.run defs events).
Proof.
  unfold Local.run. induction events as [|e events IH] using rev_ind; simpl.
  - apply init_Invariant.
  - rewrite foldl_snoc. eapply Moves_Invariant; [apply step_Moves|exact IH].
Qed.

End ConsumingThread.

(** ** Time-outs *)

(** C8.  In every run of a consuming thread, every deferred object — those
    that [loadResource] creates for an announced resource and those that
    [waitForLocalResource] creates for a dependency — has a time-out of
    30000 ms, and when its timer fires while it is pending it is rejected
    with a time-out error. *)
Theorem deferreds_time_out_after_30s
    (defs : list Schema.ResourceDefinition) (events : list Local.Event)
    (h : nat) (d : Deferred.t) :
  Local.deferredHeap (Local.run defs events) !! h = Some d →
  Deferred.timeout d = 30000
  ∧ (Deferred.settlement d = Deferred.Pending →
     ∃ d', Local.deferredHeap (Local.step (Local.run defs events) (Local.TimerFired h)) !! h
           = Some d'
           ∧ Deferred.settlement d'
             = Deferred.Rejected (Deferred.TimeoutError (Deferred.timeoutMessage d))).
Proof.
  intros Hd. split.
  - destruct (run_Invariant defs events) as [_ _ Htime].
    rewrite Forall_forall in Htime. apply Htime. by eapply list_elem_of_lookup_2.
  - intros Hp. simpl. unfold Local.updateDeferred. simpl.
    rewrite list_lookup_alter_eq, Hd. simpl. eexists. split; [done|].
    unfold Deferred.expire, Deferred.reject. rewrite settle_settlement. by rewrite Hp.
Qed.

Lemma deferreds_time_out_after_30s_witness :
  ∃ d, Local.deferredHeap (Local.run [ReferenceCounts.meshDef]
                             [Local.LoadResources [Examples.messageA]]) !! 1%nat = Some d
       ∧ Deferred.timeout d = 30000
       ∧ ∃ d', Local.deferredHeap
                 (Local.step (Local.run [ReferenceCounts.meshDef]
                                [Local.LoadResources [Examples.messageA]])
                    (Local.TimerFired 1)) !! 1%nat = Some d'
               ∧ Deferred.settlement d'
                 = Deferred.Rejected (Deferred.TimeoutError (Deferred.timeoutMessage d)).
Proof.
  eexists. split; [vm_compute; reflexivity|].
  edestruct (deferreds_time_out_after_30s [ReferenceCounts.meshDef]
               [Local.LoadResources [Examples.messageA]] 1%nat) as [Ht Hfire].
  - vm_compute. reflexivity.
  - split; [exact Ht|]. apply Hfire. reflexivity.
Defined.

(** ** The disposal system *)

Section DisposalSystem.
Import Statements.

Lemma getResourceDisposed_info (s : Local.State) (resourceId : N) :
  Local.getResourceDisposed s resourceId = true →
  ∃ info, Local.resourceInfos s !! resourceId ≫= (λ ih, Local.infoHeap s !! ih) = Some info.
Proof.
  unfold Local.getResourceDisposed.
  destruct (Local.resourceInfos s !! resourceId) as [ih|]; [|done]. simpl.
  destruct (Local.infoHeap s !! ih) as [info|]; [|done]. by exists info.
Qed.

(** The fields that matter after the body of the loop ran at an index
    whose resource is observed disposed. *)
Lemma disposeAt_disposed (s : Local.State) (i : nat) (resourceId : N) :
  Local.resourceIds s !! i = Some resourceId →
  Local.getResourceDisposed s resourceId = true →
  Local.resourceInfos (Local.disposeAt s i) = delete resourceId (Local.resourceInfos s)
  ∧ Local.infoHeap (Local.disposeAt s i) = Local.infoHeap s
  ∧ Local.resourceIds (Local.disposeAt s i) = delete i (Local.resourceIds s)
  ∧ Local.deferredResources (Local.disposeAt s i)
    = delete resourceId (Local.deferredResources s)
  ∧ Local.deferredHeap (Local.disposeAt s i)
    = match Local.deferredResources s !! resourceId with
      | Some h => alter (λ d, Deferred.reject d disposedError) h (Local.deferredHeap s)
      | None => Local.deferredHeap s
      end.
Proof.
  intros Hi Hd. unfold Local.disposeAt. rewrite Hi, Hd.
  destruct (getResourceDisposed_info s resourceId Hd) as [info ->].
  destruct (Local.deferredResources s !! resourceId) as [h|] eqn:Eh.
  - destruct (Local.resource info) as [v|]; [destruct (Local.valueTruthy v)|];
      [destruct (Local.resourcesByType _ !! _), (Local.hasDispose v)| |]; done.
  - rewrite (delete_id (Local.deferredResources s)) by done.
    destruct (Local.resource info) as [v|]; [destruct (Local.valueTruthy v)|];
      [destruct (Local.resourcesByType _ !! _), (Local.hasDispose v)| |]; done.
Qed.

Lemma disposeAt_skipped (s : Local.State) (i : nat) :
  (∀ resourceId, Local.resourceIds s !! i = Some resourceId →
                 Local.getResourceDisposed s resourceId = false) →
  Local.disposeAt s i = s.
Proof.
  intros Hskip. unfold Local.disposeAt.
  destruct (Local.resourceIds s !! i) as [resourceId|]; [|done].
  by rewrite Hskip.
Qed.

Lemma SweptTo_refl (s : Local.State) : SweptTo s s.
Proof. intros h d Hd. exists d. split; [done|by left]. Qed.

Lemma SweptTo_trans (s1 s2 s3 : Local.State) :
  SweptTo s1 s2 → SweptTo s2 s3 → SweptTo s1 s3.
Proof.
  intros H12 H23 h d Hd.
  destruct (H12 h d Hd) as (d2 & Hd2 & H2).
  destruct (H23 h d2 Hd2) as (d3 & Hd3 & H3).
  exists d3. split; [done|].
  destruct H2 as [->|[Hp H2]]; [done|].
  destruct H3 as [->|[Hp3 _]]; [by right|]. congruence.
Qed.

Lemma reject_disposed (d : Deferred.t) :
  Deferred.reject d disposedError = d
  ∨ Deferred.settlement d = Deferred.Pending
    ∧ Deferred.settlement (Deferred.reject d disposedError)
      = Deferred.Rejected disposedError.
Proof.
  unfold Deferred.reject, Deferred.settle.
  destruct (Deferred.settlement d) eqn:E; [by right|by left|by left].
Qed.

Lemma disposeAt_SweptTo (s : Local.State) (i : nat) : SweptTo s (Local.disposeAt s i).
Proof.
  destruct (Local.resourceIds s !! i) as [resourceId|] eqn:Hi;
    [|rewrite disposeAt_skipped; [apply SweptTo_refl|by rewrite Hi]].
  destruct (Local.getResourceDisposed s resourceId) eqn:Hd;
    [|rewrite disposeAt_skipped; [apply SweptTo_refl|rewrite Hi; by intros ? [= <-]]].
  destruct (disposeAt_disposed s i resourceId Hi Hd) as (_ & _ & _ & _ & Hheap).
  intros h d Hh. rewrite Hheap.
  destruct (Local.deferredResources s !! resourceId) as [h0|]; [|by exists d; split; [|left]].
  rewrite list_lookup_alter. destruct (decide (h0 = h)) as [->|]; [|by exists d; split; [|left]].
  rewrite Hh. simpl. eexists. split; [done|]. apply reject_disposed.
Qed.

Lemma disposeBelow_SweptTo (n : nat) : ∀ s, SweptTo s (Local.disposeBelow s n).
Proof.
  induction n as [|i IH]; intros s; simpl; [apply SweptTo_refl|].
  eapply SweptTo_trans; [apply disposeAt_SweptTo|apply IH].
Qed.

Lemma disposeAt_deferredResources (s : Local.State) (i : nat) (resourceId : N) :
  Local.deferredResources (Local.disposeAt s i) !! resourceId = None
  ∨ Local.deferredResources (Local.disposeAt s i) !! resourceId
    = Local.deferredResources s !! resourceId.
Proof.
  destruct (Local.resourceIds s !! i) as [rid|] eqn:Hi;
    [|rewrite disposeAt_skipped; [by right|by rewrite Hi]].
  destruct (Local.getResourceDisposed s rid) eqn:Hd;
    [|rewrite disposeAt_skipped; [by right|rewrite Hi; by intros ? [= <-]]].
  destruct (disposeAt_disposed s i rid Hi Hd) as (_ & _ & _ & -> & _).
  destruct (decide (rid = resourceId)) as [->|Hne].
  - left. apply lookup_delete_eq.
  - right. by apply lookup_delete_ne.
Qed.

Lemma disposeBelow_deferredResources_None (n : nat) (resourceId : N) :
  ∀ s, Local.deferredResources s !! resourceId = None →
       Local.deferredResources (Local.disposeBelow s n) !! resourceId = None.
Proof.
  induction n as [|i IH]; intros s Hs; simpl; [done|].
  apply IH. destruct (disposeAt_deferredResources s i resourceId) as [H|H]; congruence.
Qed.

(** What the rest of the loop finds after the body ran at index [i], for a
    resource that is still to be visited below [i]. *)
Lemma disposeAt_below (s : Local.State) (i : nat) (resourceId : N) :
  Local.resourceIds s !! i ≠ Some resourceId →
  take i (Local.resourceIds (Local.disposeAt s i)) = take i (Local.resourceIds s)
  ∧ Local.getResourceDisposed (Local.disposeAt s i) resourceId
    = Local.getResourceDisposed s resourceId
  ∧ Local.deferredResources (Local.disposeAt s i) !! resourceId
    = Local.deferredResources s !! resourceId.
Proof.
  intros Hne.
  destruct (Local.resourceIds s !! i) as [rid|] eqn:Hi;
    [|rewrite disposeAt_skipped; [done|by rewrite Hi]].
  destruct (Local.getResourceDisposed s rid) eqn:Hd;
    [|rewrite disposeAt_skipped; [done|rewrite Hi; by intros ? [= <-]]].
  destruct (disposeAt_disposed s i rid Hi Hd) as (Hinfos & Hheap & Hids & Hmap & _).
  assert (rid ≠ resourceId) as Hne' by congruence.
  split; [|split].
  - pose proof (lookup_lt_Some _ _ _ Hi) as Hlt.
    rewrite Hids, delete_take_drop. rewrite take_app_le by (rewrite length_take; lia).
    rewrite take_take. f_equal. lia.
  - unfold Local.getResourceDisposed. rewrite Hinfos, Hheap.
    by rewrite lookup_delete_ne.
  - rewrite Hmap. by apply lookup_delete_ne.
Qed.

Lemma disposeBelow_rejects (n : nat) (resourceId : N) :
  ∀ s, resourceId ∈ take n (Local.resourceIds s) →
       Local.getResourceDisposed s resourceId = true →
       Local.deferredResources (Local.disposeBelow s n) !! resourceId = None
       ∧ ∀ h d, Local.deferredResources s !! resourceId = Some h →
                Local.deferredHeap s !! h = Some d →
                ∃ d', Local.deferredHeap (Local.disposeBelow s n) !! h = Some d'
                      ∧ (Deferred.settlement d ≠ Deferred.Pending → d' = d)
                      ∧ (Deferred.settlement d = Deferred.Pending →
                         Deferred.settlement d' = Deferred.Rejected disposedError).
Proof.
  induction n as [|i IH]; intros s Hin Hd; simpl.
  - rewrite take_0 in Hin. by apply elem_of_nil in Hin.
  - destruct (decide (Local.resourceIds s !! i = Some resourceId)) as [Hi|Hi].
    + (* the resource is visited now *)
      destruct (disposeAt_disposed s i resourceId Hi Hd) as (_ & _ & _ & Hmap & Hheap).
      split.
      * apply disposeBelow_deferredResources_None. rewrite Hmap. apply lookup_delete_eq.
      * intros h d Hh Hdh. rewrite Hh in Hheap.
        assert (Local.deferredHeap (Local.disposeAt s i) !! h
                = Some (Deferred.reject d disposedError)) as H1.
        { rewrite Hheap, list_lookup_alter_eq, Hdh. done. }
        destruct (disposeBelow_SweptTo i (Local.disposeAt s i) h _ H1) as (d' & Hd' & Hsw).
        exists d'. split; [done|].
        assert (d' = Deferred.reject d disposedError) as ->.
        { destruct Hsw as [->|[Hp _]]; [done|].
          unfold Deferred.reject in Hp. rewrite settle_settlement in Hp.
          by destruct (Deferred.settlement d). }
        unfold Deferred.reject. split.
        -- intros Hnp. unfold Deferred.settle. by destruct (Deferred.settlement d).
        -- intros Hp. rewrite settle_settlement. by rewrite Hp.
    + (* the resource is visited later *)
      destruct (disposeAt_below s i resourceId Hi) as (Hids & Hdisp & Hmap).
      assert (resourceId ∈ take i (Local.resourceIds s)) as Hin'.
      { destruct (Local.resourceIds s !! i) as [rid|] eqn:Ei.
        - rewrite (take_S_r _ _ rid) in Hin by done.
          apply elem_of_app in Hin as [Hin|Hin]; [done|].
          apply list_elem_of_singleton in Hin. congruence.
        - apply lookup_ge_None in Ei. rewrite take_ge in Hin by lia.
          by rewrite take_ge by lia. }
      destruct (IH (Local.disposeAt s i)) as [Hnone Hrej].
      { by rewrite Hids. }
      { by rewrite Hdisp. }
      split; [done|]. intros h d Hh Hdh.
      destruct (disposeAt_SweptTo s i h d Hdh) as (d1 & Hd1 & Hsw).
      destruct (Hrej h d1) as (d' & Hd' & Hkeep & Hpend); [by rewrite Hmap|done|].
      exists d'. split; [done|].
      destruct Hsw as [->|[Hp Hr]]; [done|].
      split; [congruence|]. intros _. rewrite Hkeep; [done|congruence].
Qed.

(** C4.  Let the disposal system run in a state in which a resource of
    [resourceIds] is observed disposed ([getResourceDisposed] holds: its
    info is there and the byte of the readable slot of its status buffer is
    non-zero) and has a deferred.  After the sweep the deferred map has no
    entry for the resource, and the deferred object is settled: if it was
    pending it is rejected with the [ResourceDisposedError] "Resource
    disposed", which is neither a time-out nor a generic error; if it was
    settled it is as it was. *)
Theorem disposal_rejects_pending_deferred
    (s : Local.State) (resourceId : N) (h : nat) (d : Deferred.t) :
  resourceId ∈ Local.resourceIds s →
  Local.getResourceDisposed s resourceId = true →
  Local.deferredResources s !! resourceId = Some h →
  Local.deferredHeap s !! h = Some d →
  Local.deferredResources (Local.ResourceDisposalSystem s) !! resourceId = None
  ∧ ∃ d', Local.deferredHeap (Local.ResourceDisposalSystem s) !! h = Some d'
          ∧ Deferred.isSettled d' = true
          ∧ (Deferred.settlement d ≠ Deferred.Pending → d' = d)
          ∧ (Deferred.settlement d = Deferred.Pending →
             Deferred.settlement d'
             = Deferred.Rejected (Deferred.ResourceDisposedError "Resource disposed")
             ∧ (∀ m, Deferred.settlement d' ≠ Deferred.Rejected (Deferred.TimeoutError m))
             ∧ (∀ m, Deferred.settlement d' ≠ Deferred.Rejected (Deferred.Error m))).
Proof.
  intros Hin Hd Hh Hdh. unfold Local.ResourceDisposalSystem.
  destruct (disposeBelow_rejects (length (Local.resourceIds s)) resourceId s)
    as [Hnone Hrej]; [by rewrite take_ge|done|].
  split; [done|].
  destruct (Hrej h d Hh Hdh) as (d' & Hd' & Hkeep & Hpend).
  exists d'. split; [done|]. split; [|split; [done|]].
  - unfold Deferred.isSettled.
    destruct (Deferred.settlement d) eqn:E.
    + by rewrite Hpend.
    + rewrite Hkeep by done. by rewrite E.
    + rewrite Hkeep by done. by rewrite E.
  - intros Hp. rewrite (Hpend Hp). done.
Qed.

End DisposalSystem.

Lemma disposal_rejects_pending_deferred_witness :
  Local.deferredResources (Local.ResourceDisposalSystem Examples.disposedState) !! 2 = None
  ∧ ∃ d', Local.deferredHeap (Local.ResourceDisposalSystem Examples.disposedState) !! 1%nat
          = Some d'
          ∧ Deferred.settlement d'
            = Deferred.Rejected (Deferred.ResourceDisposedError "Resource disposed").
Proof.
  edestruct (disposal_rejects_pending_deferred Examples.disposedState 2 1%nat)
    as (Hnone & d' & Hd' & _ & _ & Hpend).
  - vm_compute. right. left.
  - reflexivity.
  - reflexivity.
  - vm_compute. reflexivity.
  - split; [exact Hnone|]. exists d'. split; [exact Hd'|].
    apply Hpend. reflexivity.
Defined.

(** ** Waiting for dependencies *)

Section Dependencies.
Import Statements.

Lemma waitForLocalResource_deferred (s : Local.State) (resourceId : N)
    (description : string) :
  resourceId ≠ 0 →
  (∃ h, (Local.waitForLocalResource s resourceId description).2 = Local.OfDeferred h
        ∧ Local.deferredResources (Local.waitForLocalResource s resourceId description).1
            !! resourceId = Some h)
  ∧ (∀ id h, Local.deferredResources s !! id = Some h →
             Local.deferredResources (Local.waitForLocalResource s resourceId description).1
               !! id = Some h)
  ∧ (∀ id, id ≠ resourceId →
           Local.deferredResources (Local.waitForLocalResource s resourceId description).1
             !! id = Local.deferredResources s !! id).
Proof.
  intros Hnz. unfold Local.waitForLocalResource, Local.NOOP.
  destruct (N.eqb_spec resourceId 0) as [|_]; [done|].
  destruct (Local.deferredResources s !! resourceId) as [h|] eqn:Eh; simpl.
  - split; [by exists h|]. done.
  - split; [|split].
    + eexists. split; [done|]. apply lookup_insert_eq.
    + intros id h Hid. rewrite lookup_insert_ne; [done|]. intros ->. congruence.
    + intros id Hne. by rewrite lookup_insert_ne.
Qed.

Lemma dependencyIds_cons (view : list byte) (byteOff : N) (rest : list N) :
  let resourceId := match wordIndex byteOff with
                    | Some index => wordGet view index
                    | None => None
                    end in
  dependencyIds view (byteOff :: rest)
  = if truthy resourceId
    then default 0 resourceId :: dependencyIds view rest
    else dependencyIds view rest.
Proof.
  unfold dependencyIds. simpl.
  destruct (wordIndex byteOff) as [index|]; simpl; [|done].
  destruct (wordGet view index) as [id|]; simpl; [|done].
  by destruct (id =? 0).
Qed.

Lemma truthy_nonzero (v : option N) : truthy v = true → default 0 v ≠ 0.
Proof.
  destruct v as [n|]; simpl; [|done]. by destruct (N.eqb_spec n 0).
Qed.

Lemma waitForDependenciesFrom_promises (view : list byte) (names : list string)
    (offsets : list N) :
  ∀ s i,
    Forall2 (λ id p,
               id ≠ 0
               ∧ ∃ h, p = Local.OfDeferred h
                      ∧ Local.deferredResources
                          (Local.waitForDependenciesFrom s view names i offsets).1
                          !! id = Some h)
      (dependencyIds view offsets)
      (Local.waitForDependenciesFrom s view names i offsets).2
    ∧ (∀ id h, Local.deferredResources s !! id = Some h →
               Local.deferredResources
                 (Local.waitForDependenciesFrom s view names i offsets).1 !! id = Some h)
    ∧ (∀ id, id ∉ dependencyIds view offsets →
             Local.deferredResources
               (Local.waitForDependenciesFrom s view names i offsets).1 !! id
             = Local.deferredResources s !! id).
Proof.
  induction offsets as [|byteOff rest IH]; intros s i.
  - simpl. split; [constructor|done].
  - rewrite dependencyIds_cons. cbn [Local.waitForDependenciesFrom].
    destruct (truthy _) eqn:Ht; [|apply IH].
    apply truthy_nonzero in Ht.
    set (rid := default 0 _) in *.
    destruct (waitForLocalResource_deferred s rid (default "undefined" (names !! i)) Ht)
      as ((h & Hp & Hh) & Hmono1 & Hother1).
    destruct (Local.waitForLocalResource s rid _) as [s1 p]. simpl in *.
    destruct (IH s1 (S i)) as (Hall & Hmono & Hother).
    destruct (Local.waitForDependenciesFrom s1 view names (S i) rest) as [s2 ps].
    simpl in *. split; [|split].
    + constructor; [|done]. split; [done|]. exists h. split; [done|]. by apply Hmono.
    + intros id h' Hid. by apply Hmono, Hmono1.
    + intros id Hnin. apply not_elem_of_cons in Hnin as [Hne Hnin].
      rewrite Hother by done. by apply Hother1.
Qed.

Lemma dependencyIds_nonzero (view : list byte) (offsets : list N) :
  0 ∉ dependencyIds view offsets.
Proof.
  unfold dependencyIds. intros Hin. apply list_elem_of_omap in Hin as (off & _ & Hf).
  destruct (wordIndex off ≫= wordGet view) as [id|]; [|done].
  destruct (N.eqb_spec id 0); [done|]. by injection Hf as ->.
Qed.

Lemma waitForLocalResource_tasks (s : Local.State) (resourceId : N) (description : string) :
  Local.tasks (Local.waitForLocalResource s resourceId description).1 = Local.tasks s.
Proof.
  unfold Local.waitForLocalResource.
  destruct (resourceId =? Local.NOOP); [done|].
  by destruct (Local.deferredResources s !! resourceId).
Qed.

Lemma waitForDependenciesFrom_tasks (view : list byte) (names : list string)
    (offsets : list N) :
  ∀ s i, Local.tasks (Local.waitForDependenciesFrom s view names i offsets).1
         = Local.tasks s.
Proof.
  induction offsets as [|byteOff rest IH]; intros s i; simpl; [done|].
  destruct (truthy _); [|apply IH].
  pose proof (waitForLocalResource_tasks s
                (default 0
                   match wordIndex byteOff with
                   | Some index => wordGet view index
                   | None => None
                   end)
                (default "undefined" (names !! i))) as H1.
  destruct (Local.waitForLocalResource s _ _) as [s1 p].
  pose proof (IH s1 (S i)) as H2.
  destruct (Local.waitForDependenciesFrom s1 _ _ _ _) as [s2 ps].
  simpl in *. congruence.
Qed.

Lemma loadResource_awaits (s : Local.State) (msg : Local.CreateResourceMessage)
    (offsets : list N) (names : list string) (tb : TripleBuffer.t) :
  Local.resourceLoaders s !! Local.msgResourceType msg
    = Some (Local.LoadLocalResource offsets names) →
  Local.msgProps msg = Local.PropsTripleBuffer tb →
  (length (TripleBuffer.byteViews tb (TripleBuffer.getReadBufferIndex tb)) `mod` 4 = 0)%nat →
  ∃ t, Local.tasks (Local.loadResource s msg) = Local.tasks s ++ [t]
       ∧ Local.taskId t = Local.msgId msg
       ∧ Local.phase t = Local.AwaitDependencies
       ∧ Forall2 (λ id p,
                    id ≠ 0
                    ∧ ∃ h, p = Local.OfDeferred h
                           ∧ Local.deferredResources (Local.loadResource s msg) !! id
                             = Some h)
           (dependencyIds (TripleBuffer.byteViews tb (TripleBuffer.getReadBufferIndex tb))
              offsets)
           (Local.promises t).
Proof.
  intros Hloader Hprops Hlen. unfold Local.loadResource.
  destruct (announce_frame s msg) as [Htasks Hloaders].
  destruct (Local.announce s msg) as [s3 h]. simpl in *.
  rewrite Hloaders, Hloader, Hprops. rewrite bool_decide_eq_true_2 by done.
  unfold Local.waitForLocalResourceDependencies.
  pose proof (waitForDependenciesFrom_promises
                (TripleBuffer.byteViews tb (TripleBuffer.getReadBufferIndex tb))
                names offsets s3 0%nat) as (Hall & _ & _).
  pose proof (waitForDependenciesFrom_tasks
                (TripleBuffer.byteViews tb (TripleBuffer.getReadBufferIndex tb))
                names offsets s3 0%nat) as Ht4.
  destruct (Local.waitForDependenciesFrom s3 _ _ _ _) as [s4 ps].
  cbn [fst snd] in *.
  exists (Local.taskOf s msg h ps Local.AwaitDependencies).
  split; [|split; [|split]]; [|done|done|exact Hall].
  unfold Local.spawn. simpl. by rewrite Ht4, Htasks.
Qed.

Lemma Reaches_resolved (s : Local.State) (t : Local.LoadTask) (k h : nat) :
  Invariant s → Local.tasks s !! k = Some t → loaderInvoked t →
  Reaches s (Local.promises t) h → resolved s h.
Proof.
  intros [Hinv _ _] Hk Hi Hreach.
  induction Hreach as [h Hin|h h' k' t' _ _ Hk' Hd Hph Hin].
  - apply Hinv in Hk; [|done]. rewrite allResolved_Forall, Forall_forall in Hk.
    destruct (Hk _ Hin) as (h0 & [= <-] & Hr). done.
  - apply Hinv in Hk'; [|by right]. rewrite allResolved_Forall, Forall_forall in Hk'.
    destruct (Hk' _ Hin) as (h0 & [= <-] & Hr). done.
Qed.

(** How each function changes the list of tasks. *)

Lemma sendLoaded_tasks (s : Local.State) (t : Local.LoadTask) :
  Local.tasks (Local.sendLoaded s t) = Local.tasks s.
Proof. unfold Local.sendLoaded. by destruct (Local.infoHeap s !! _). Qed.

Lemma failLoad_tasks (s : Local.State) (k : nat) (t : Local.LoadTask)
    (e : Deferred.LoadError) :
  Local.tasks (Local.failLoad s k t e)
  = alter (λ t, Local.withPhase t Local.Failed) k (Local.tasks s).
Proof. unfold Local.failLoad. by rewrite sendLoaded_tasks. Qed.

Lemma finishLoad_tasks (s : Local.State) (k : nat) (t : Local.LoadTask)
    (v : Local.LocalValue) :
  Local.tasks (Local.finishLoad s k t v)
  = alter (λ t, Local.withPhase t Local.Loaded) k (Local.tasks s).
Proof. unfold Local.finishLoad. by rewrite sendLoaded_tasks. Qed.

Lemma loadResource_keeps_tasks (s : Local.State) (msg : Local.CreateResourceMessage)
    (k : nat) (t : Local.LoadTask) :
  Local.tasks s !! k = Some t → Local.tasks (Local.loadResource s msg) !! k = Some t.
Proof.
  intros Hk. unfold Local.loadResource.
  destruct (announce_frame s msg) as [Htasks _].
  destruct (Local.announce s msg) as [s3 h]. simpl in Htasks.
  assert (∀ t0 e,
            Local.tasks (Local.failLoad (Local.spawn s3 t0) (length (Local.tasks s3)) t0 e)
              !! k = Some t) as Hfail.
  { intros t0 e. rewrite failLoad_tasks. unfold Local.spawn. simpl.
    pose proof (lookup_lt_Some _ _ _ Hk) as Hlt.
    rewrite list_lookup_alter_ne by (rewrite Htasks; lia).
    rewrite Htasks. by apply lookup_app_l_Some. }
  assert (∀ s4 t0, Local.tasks s4 = Local.tasks s →
                   Local.tasks (Local.spawn s4 t0) !! k = Some t) as Hspawn.
  { intros s4 t0 H4. unfold Local.spawn. simpl. rewrite H4. by apply lookup_app_l_Some. }
  destruct (Local.resourceLoaders s3 !! Local.msgResourceType msg)
    as [[offsets names| |handle]|]; try apply Hfail; try by apply Hspawn.
  destruct (Local.msgProps msg) as [| |tb|]; try apply Hfail.
  case_bool_decide; [|apply Hfail].
  unfold Local.waitForLocalResourceDependencies.
  pose proof (waitForDependenciesFrom_tasks
                (TripleBuffer.byteViews tb (TripleBuffer.getReadBufferIndex tb))
                names offsets s3 0%nat) as Ht4.
  destruct (Local.waitForDependenciesFrom s3 _ _ _ _) as [s4 ps]. simpl in Ht4.
  apply Hspawn. congruence.
Qed.

Lemma onLoadResources_keeps_tasks (resources : list Local.CreateResourceMessage)
    (k : nat) (t : Local.LoadTask) :
  ∀ s, Local.tasks s !! k = Some t →
       Local.tasks (Local.onLoadResources s resources) !! k = Some t.
Proof.
  unfold Local.onLoadResources.
  induction resources as [|msg rest IH]; intros s Hk; simpl; [done|].
  by apply IH, loadResource_keeps_tasks.
Qed.

Lemma disposeAt_tasks (s : Local.State) (i : nat) :
  Local.tasks (Local.disposeAt s i) = Local.tasks s.
Proof.
  unfold Local.disposeAt.
  destruct (Local.resourceIds s !! i) as [resourceId|]; [|done].
  destruct (Local.getResourceDisposed s resourceId); [|done].
  destruct (Local.resourceInfos s !! resourceId ≫= _) as [info|]; [|done]. simpl.
  destruct (Local.deferredResources s !! resourceId);
    (destruct (Local.resource info) as [v|]; [destruct (Local.valueTruthy v)|];
       [destruct (Local.resourcesByType _ !! _), (Local.hasDispose v)| |]; done).
Qed.

Lemma disposeBelow_tasks (n : nat) :
  ∀ s, Local.tasks (Local.disposeBelow s n) = Local.tasks s.
Proof.
  induction n as [|i IH]; intros s; simpl; [done|]. by rewrite IH, disposeAt_tasks.
Qed.

(** Only [await Promise.all] coming back fulfilled takes a task from
    waiting to loading. *)
Lemma step_invokes (s : Local.State) (e : Local.Event) (k : nat)
    (t t' : Local.LoadTask) :
  Local.tasks s !! k = Some t → Local.phase t = Local.AwaitDependencies →
  Local.tasks (Local.step s e) !! k = Some t' → Local.phase t' = Local.AwaitLoad →
  Local.allResolved s (Local.promises t) = true
  ∧ ∃ j, e = Local.DependenciesSettled k j.
Proof.
  intros Hk Hph Hk' Hph'.
  assert (∀ s', Local.tasks s' = Local.tasks s → Local.tasks s' !! k = Some t' → False)
    as Hsame.
  { intros s' -> Ht'. congruence. }
  assert (∀ k0 ph, ph ≠ Local.AwaitLoad →
            alter (λ t, Local.withPhase t ph) k0 (Local.tasks s) !! k = Some t' → False)
    as Halter.
  { intros k0 ph Hne Ht'.
    apply task_alter_phase in Ht' as (t1 & Hk1 & _ & _ & [[_ Hp]|[_ ->]]); congruence. }
  destruct e as [resources|def|resourceType handle|resourceType|k0 j|k0 v failure|h|ih tb|];
    simpl in Hk'.
  - rewrite (onLoadResources_keeps_tasks resources k t s Hk) in Hk'. congruence.
  - by destruct (Hsame _ eq_refl Hk').
  - by destruct (Hsame _ eq_refl Hk').
  - by destruct (Hsame _ eq_refl Hk').
  - unfold Local.resumeAfterDependencies in Hk'.
    destruct (Local.tasks s !! k0) as [t0|] eqn:Hk0; [|congruence].
    case_bool_decide as Hph0; [|congruence].
    destruct (Local.allResolved s (Local.promises t0)) eqn:Hall.
    + simpl in Hk'. destruct (decide (k0 = k)) as [->|Hne].
      * rewrite Hk in Hk0. injection Hk0 as <-. split; [done|by exists j].
      * rewrite list_lookup_alter_ne in Hk' by done. congruence.
    + destruct (Local.promises t0 !! j) as [p|]; [|congruence].
      destruct (Local.promiseSettlement s p); try congruence.
      rewrite failLoad_tasks in Hk'. by destruct (Halter k0 Local.Failed).
  - unfold Local.resumeAfterLoad in Hk'.
    destruct (Local.tasks s !! k0) as [t0|] eqn:Hk0; [|congruence].
    case_bool_decide as Hph0; [|congruence].
    destruct (Local.taskLoader t0) as [[offsets names| |handle]|], failure as [[|err]|];
      rewrite ?failLoad_tasks, ?finishLoad_tasks in Hk'; try congruence;
      first [by destruct (Halter k0 Local.Failed)|by destruct (Halter k0 Local.Loaded)
            |by destruct (Halter k0 Local.Abandoned)].
  - by destruct (Hsame _ eq_refl Hk').
  - by destruct (Hsame _ eq_refl Hk').
  - unfold Local.ResourceDisposalSystem in Hk'. rewrite disposeBelow_tasks in Hk'.
    congruence.
Qed.

(** C1.  On a consuming thread:
    - [registerResource] installs [loadLocalResource] with the dependency
      offsets of the schema (which leave out back-references, see C7);
    - a call of [loadResource] for such a type does not call the loader: it
      leaves a task suspended at [Promise.all], whose promises are, in
      order, the deferreds registered for the non-zero words that the
      readable slot of the triple buffer holds at the dependency offsets;
    - zero is never among the ids waited on, and the deferred map is left as
      it was for every id that is not;
    - in every state of every run, a task whose loader has been called has
      all these deferreds fulfilled, and so are, transitively, the deferreds
      that the loaded resources behind them waited on;
    - an event takes a task from waiting to loading only if it is the
      return of its [Promise.all], in a state in which they are all
      fulfilled already. *)
Theorem loader_waits_for_dependencies :
  (∀ s def,
     Local.resourceLoaders (Local.registerResource s def) !! Schema.name def
     = Some (Local.LoadLocalResource (Local.dependencyByteOffsets def)
               (Local.dependencyNames def)))
  ∧ (∀ s msg offsets names tb,
       Local.resourceLoaders s !! Local.msgResourceType msg
         = Some (Local.LoadLocalResource offsets names) →
       Local.msgProps msg = Local.PropsTripleBuffer tb →
       (length (TripleBuffer.byteViews tb (TripleBuffer.getReadBufferIndex tb)) `mod` 4
        = 0)%nat →
       ∃ t, Local.tasks (Local.loadResource s msg) = Local.tasks s ++ [t]
            ∧ Local.taskId t = Local.msgId msg
            ∧ Local.phase t = Local.AwaitDependencies
            ∧ Forall2 (λ id p,
                         id ≠ 0
                         ∧ ∃ h, p = Local.OfDeferred h
                                ∧ Local.deferredResources (Local.loadResource s msg) !! id
                                  = Some h)
                (dependencyIds
                   (TripleBuffer.byteViews tb (TripleBuffer.getReadBufferIndex tb)) offsets)
                (Local.promises t))
  ∧ (∀ s tb offsets names,
       (0 ∉ dependencyIds (TripleBuffer.byteViews tb (TripleBuffer.getReadBufferIndex tb))
              offsets)
       ∧ (∀ id,
            id ∉ dependencyIds
                   (TripleBuffer.byteViews tb (TripleBuffer.getReadBufferIndex tb)) offsets →
            Local.deferredResources
              (Local.waitForLocalResourceDependencies s tb offsets names).1 !! id
            = Local.deferredResources s !! id))
  ∧ (∀ defs events k t h,
       Local.tasks (Local.run defs events) !! k = Some t →
       loaderInvoked t →
       Reaches (Local.run defs events) (Local.promises t) h →
       resolved (Local.run defs events) h)
  ∧ (∀ defs events e k t t' h,
       Local.tasks (Local.run defs events) !! k = Some t →
       Local.phase t = Local.AwaitDependencies →
       Local.tasks (Local.step (Local.run defs events) e) !! k = Some t' →
       Local.phase t' = Local.AwaitLoad →
       (∃ j, e = Local.DependenciesSettled k j)
       ∧ (Reaches (Local.run defs events) (Local.promises t) h →
          resolved (Local.run defs events) h)).
Proof.
  split; [|split; [|split; [|split]]].
  - intros s def. unfold Local.registerResource. simpl. apply lookup_insert_eq.
  - apply loadResource_awaits.
  - intros s tb offsets names. split; [apply dependencyIds_nonzero|].
    intros id Hid. unfold Local.waitForLocalResourceDependencies.
    by apply waitForDependenciesFrom_promises.
  - intros defs events k t h Hk Hi Hreach.
    by apply (Reaches_resolved _ t k); [apply run_Invariant| | |].
  - intros defs events e k t t' h Hk Hph Hk' Hph'.
    destruct (step_invokes _ e k t t' Hk Hph Hk' Hph') as [Hall He].
    split; [done|]. intros Hreach.
    pose proof (run_Invariant defs events) as Hinv.
    induction Hreach as [h Hin|h h' k1 t1 _ _ Hk1 Hd Hph1 Hin].
    + rewrite allResolved_Forall, Forall_forall in Hall.
      destruct (Hall _ Hin) as (h0 & [= <-] & Hr). done.
    + destruct Hinv as [Hinv _ _]. apply Hinv in Hk1; [|by right].
      rewrite allResolved_Forall, Forall_forall in Hk1.
      destruct (Hk1 _ Hin) as (h0 & [= <-] & Hr). done.
Qed.

End Dependencies.

Lemma loader_waits_for_dependencies_witness :
  (∃ t, Local.tasks (Local.loadResource (Local.init [ReferenceCounts.meshDef])
                       Examples.messageA) = [t]
        ∧ Local.phase t = Local.AwaitDependencies
        ∧ Forall2 (λ id p,
                     id ≠ 0
                     ∧ ∃ h, p = Local.OfDeferred h
                            ∧ Local.deferredResources
                                (Local.loadResource (Local.init [ReferenceCounts.meshDef])
                                   Examples.messageA) !! id = Some h)
            [2] (Local.promises t))
  ∧ Statements.resolved
      (Local.run [ReferenceCounts.meshDef]
         (Examples.chainEvents ++ [Local.DependenciesSettled 0 0])) 2
  ∧ Statements.resolved Examples.chainState 2.
Proof.
  destruct loader_waits_for_dependencies as (_ & Hawait & _ & Hinvoked & Hstep).
  split; [|split].
  - destruct (Hawait (Local.init [ReferenceCounts.meshDef]) Examples.messageA
                [0] ["material"] (Examples.tripleBufferOf [x02; x00; x00; x00]))
      as (t & Ht & _ & Hph & Hps).
    + vm_compute. reflexivity.
    + reflexivity.
    + reflexivity.
    + exists t. split; [exact Ht|]. split; [exact Hph|exact Hps].
  - eapply (Hinvoked [ReferenceCounts.meshDef]
              (Examples.chainEvents ++ [Local.DependenciesSettled 0 0]) 0%nat).
    + vm_compute. reflexivity.
    + left. reflexivity.
    + eapply (Statements.reaches_through _ _ 1%nat 2%nat 1%nat).
      * apply Statements.reaches_direct. vm_compute. left.
      * vm_compute. reflexivity.
      * reflexivity.
      * reflexivity.
      * vm_compute. left.
  - eapply (Hstep [ReferenceCounts.meshDef] Examples.chainEvents
              (Local.DependenciesSettled 0 0) 0%nat).
    + vm_compute. reflexivity.
    + reflexivity.
    + vm_compute. reflexivity.
    + reflexivity.
    + eapply (Statements.reaches_through _ _ 1%nat 2%nat 1%nat).
      * apply Statements.reaches_direct. vm_compute. left.
      * vm_compute. reflexivity.
      * reflexivity.
      * reflexivity.
      * vm_compute. left.
Defined.

(** * Further properties of the code *)

(** ** Registering resource definitions *)

Section Registering.
Import Statements.

Lemma fst_pair_fmap {A B : Type} (l : list A) (b : B) : ((λ a, (a, b)) <$> l).*1 = l.
Proof. induction l as [|a l IH]; [done|]. csimpl. by rewrite IH. Qed.

Lemma snd_pair_fmap {A B : Type} (l : list A) (b : B) :
  ((λ a, (a, b)) <$> l).*2 = replicate (length l) b.
Proof. induction l as [|a l IH]; [done|]. csimpl. by rewrite IH. Qed.

Lemma length_referenceOffsets (prop : Schema.PropDef) :
  length (referenceOffsets prop)
  = if Schema.isRefLike (Schema.type prop) then Schema.size prop
    else if bool_decide (Schema.type prop = Schema.PArrayBuffer) then 1%nat else 0%nat.
Proof.
  unfold referenceOffsets. destruct (Schema.isRefLike _).
  - by rewrite length_map, length_seq.
  - by case_bool_decide.
Qed.

Lemma pushDependencies_entries (acc : list N * list string) (propName : string)
    (prop : Schema.PropDef) :
  Local.pushDependencies acc propName prop
  = (acc.1 ++ (dependencyEntries [(propName, prop)]).*1,
     acc.2 ++ (dependencyEntries [(propName, prop)]).*2).
Proof.
  unfold dependencyEntries. simpl. rewrite app_nil_r.
  unfold Local.pushDependencies.
  destruct (Schema.backRef prop); [destruct acc; simpl; by rewrite !app_nil_r|].
  rewrite fst_pair_fmap, snd_pair_fmap, length_referenceOffsets.
  unfold referenceOffsets.
  destruct (Schema.isRefLike _); [done|].
  case_bool_decide; [done|]. destruct acc; simpl; by rewrite !app_nil_r.
Qed.

Lemma dependencyEntries_cons (p : string * Schema.PropDef)
    (rest : list (string * Schema.PropDef)) :
  dependencyEntries (p :: rest) = dependencyEntries [p] ++ dependencyEntries rest.
Proof. unfold dependencyEntries. simpl. by rewrite app_nil_r. Qed.

Lemma collectDependencies_entries (schema : list (string * Schema.PropDef))
    (acc : list N * list string) :
  Local.collectDependencies acc schema
  = (acc.1 ++ (dependencyEntries schema).*1, acc.2 ++ (dependencyEntries schema).*2).
Proof.
  revert acc. induction schema as [|[propName prop] rest IH]; intros acc.
  - destruct acc; simpl. by rewrite !app_nil_r.
  - cbn [Local.collectDependencies]. rewrite IH, pushDependencies_entries.
    rewrite (dependencyEntries_cons (propName, prop) rest). simpl.
    by rewrite !fmap_app, !app_assoc.
Qed.

(** X1.  The two arrays that [registerResource] fills side by side have the
    same length, and the name at an index is the name of the property, not a
    back-reference, to which the byte offset at that index belongs: the
    description that [waitForLocalResourceDependencies] passes on is never
    [undefined]. *)
Theorem dependency_names_follow_offsets (def : Schema.ResourceDefinition) :
  length (Local.dependencyNames def) = length (Local.dependencyByteOffsets def)
  ∧ ∀ i off,
      Local.dependencyByteOffsets def !! i = Some off →
      ∃ propName prop,
        Local.dependencyNames def !! i = Some propName
        ∧ (propName, prop) ∈ Schema.schema def
        ∧ Schema.backRef prop = false
        ∧ off ∈ referenceOffsets prop.
Proof.
  unfold Local.dependencyNames, Local.dependencyByteOffsets.
  rewrite collectDependencies_entries. simpl. split.
  - by rewrite !length_fmap.
  - intros i off Hoff. rewrite list_lookup_fmap in Hoff.
    destruct (dependencyEntries (Schema.schema def) !! i) as [[off' propName]|] eqn:Hi;
      [|done].
    injection Hoff as ->.
    exists propName.
    apply list_elem_of_lookup_2 in Hi as Hin. unfold dependencyEntries in Hin.
    apply elem_of_concat_map in Hin as ([propName' prop] & Hp & Hin). simpl in Hin.
    destruct (Schema.backRef prop) eqn:Hb; [by apply elem_of_nil in Hin|].
    apply list_elem_of_fmap in Hin as (off' & [= -> ->] & Hin).
    exists prop. split; [|done].
    by rewrite list_lookup_fmap, Hi.
Qed.

Lemma foldl_registerResource_loaders (defs : list Schema.ResourceDefinition) :
  ∀ s type,
    Local.resourceLoaders (foldl Local.registerResource s defs) !! type
    = match last (filter (λ def, Schema.name def = type) defs) with
      | Some def =>
          Some (Local.LoadLocalResource (Local.dependencyByteOffsets def)
                  (Local.dependencyNames def))
      | None => Local.resourceLoaders s !! type
      end.
Proof.
  induction defs as [|def rest IH]; intros s type; [done|].
  cbn [foldl]. rewrite IH, filter_cons.
  destruct (decide (Schema.name def = type)) as [Heq|Hne].
  - destruct (filter _ rest) as [|def' rest'] eqn:Hf; simpl.
    + rewrite <- Heq. apply lookup_insert_eq.
    + destruct (last (def' :: rest')) eqn:E; [done|]. by apply last_None in E.
  - destruct (last (filter _ rest)); [done|]. simpl. by rewrite lookup_insert_ne.
Qed.

(** X2.  After [init] the types "string" and "arrayBuffer" are loaded by the
    two built-in loaders, whatever the definitions are called, and every
    other type that has a definition is loaded by the [loadLocalResource] of
    the last definition of that name; a type without a definition has no
    loader. *)
Theorem init_registers_loaders (defs : list Schema.ResourceDefinition) :
  Local.resourceLoaders (Local.init defs) !! Local.StringResourceType
  = Some Local.OnLoadValue
  ∧ Local.resourceLoaders (Local.init defs) !! Local.ArrayBufferResourceType
    = Some Local.OnLoadValue
  ∧ ∀ type,
      type ≠ Local.StringResourceType → type ≠ Local.ArrayBufferResourceType →
      Local.resourceLoaders (Local.init defs) !! type
      = (λ def, Local.LoadLocalResource (Local.dependencyByteOffsets def)
                  (Local.dependencyNames def))
        <$> last (filter (λ def, Schema.name def = type) defs).
Proof.
  unfold Local.init, Local.registerResourceLoader. simpl. split; [|split].
  - rewrite lookup_insert_ne by done. apply lookup_insert_eq.
  - apply lookup_insert_eq.
  - intros type Hs Ha. rewrite !lookup_insert_ne by done.
    rewrite foldl_registerResource_loaders.
    by destruct (last _).
Qed.

End Registering.

(** ** Waiting for a resource *)

Section Waiting.
Import Statements.

(** X3.  Waiting twice for the same resource gives the same promise: the
    first call registers a deferred for the id if there is none, the second
    one finds it and changes nothing, whatever its description. *)
Theorem waitForLocalResource_shares_deferred
    (s : Local.State) (resourceId : N) (description description' : string) :
  resourceId ≠ 0 →
  ∃ h,
    (Local.waitForLocalResource s resourceId description).2 = Local.OfDeferred h
    ∧ Local.deferredResources (Local.waitForLocalResource s resourceId description).1
        !! resourceId = Some h
    ∧ Local.waitForLocalResource
        (Local.waitForLocalResource s resourceId description).1 resourceId description'
      = ((Local.waitForLocalResource s resourceId description).1, Local.OfDeferred h)
    ∧ (∀ h0, Local.deferredResources s !! resourceId = Some h0 →
             Local.waitForLocalResource s resourceId description = (s, Local.OfDeferred h0)).
Proof.
  intros Hnz. unfold Local.waitForLocalResource, Local.NOOP.
  destruct (N.eqb_spec resourceId 0) as [|_]; [done|].
  destruct (Local.deferredResources s !! resourceId) as [h|] eqn:Eh; simpl.
  - exists h. rewrite Eh. split_and!; [done..|]. by intros h0 [= ->].
  - eexists. rewrite lookup_insert_eq. done.
Qed.

End Waiting.

Lemma waitForLocalResource_shares_deferred_witness :
  ∃ h,
    (Local.waitForLocalResource Local.create 3 "material").2 = Local.OfDeferred h
    ∧ Local.deferredResources (Local.waitForLocalResource Local.create 3 "material").1
        !! 3 = Some h
    ∧ Local.waitForLocalResource
        (Local.waitForLocalResource Local.create 3 "material").1 3 "mesh"
      = ((Local.waitForLocalResource Local.create 3 "material").1, Local.OfDeferred h)
    ∧ (∀ h0, Local.deferredResources Local.create !! 3 = Some h0 →
             Local.waitForLocalResource Local.create 3 "material"
             = (Local.create, Local.OfDeferred h0)).
Proof. apply (waitForLocalResource_shares_deferred Local.create 3); lia. Defined.

(** ** Loading resources *)

Section Loading.
Import Statements.

Lemma messageOf_nonempty (e : Deferred.LoadError) : Deferred.messageOf e ≠ "".
Proof. unfold Deferred.messageOf. by case_bool_decide. Qed.

Lemma failLoad_eq (s : Local.State) (k : nat) (t : Local.LoadTask)
    (e : Deferred.LoadError) :
  Local.failLoad s k t e
  = {| Local.resourceIds := Local.resourceIds s;
       Local.resourceInfos := Local.resourceInfos s;
       Local.infoHeap :=
         alter (λ i, Local.withError i (Deferred.messageOf e)) (Local.taskInfo t)
           (Local.infoHeap s);
       Local.resourcesByType := Local.resourcesByType s;
       Local.deferredResources := Local.deferredResources s;
       Local.deferredHeap :=
         alter (λ d, Deferred.reject d e) (Local.taskDeferred t) (Local.deferredHeap s);
       Local.resourceLoaders := Local.resourceLoaders s;
       Local.tasks := alter (λ t, Local.withPhase t Local.Failed) k (Local.tasks s);
       Local.outbox :=
         Local.outbox s
         ++ match Local.infoHeap s !! Local.taskInfo t with
            | Some i =>
                [ {| Local.loadedId := Local.taskId t; Local.loadedFlag := Local.loaded i;
                     Local.loadedError := Some (Deferred.messageOf e) |} ]
            | None => []
            end;
       Local.disposedLocals := Local.disposedLocals s |}.
Proof.
  unfold Local.failLoad, Local.sendLoaded, Local.sendMessage, Local.setTaskPhase,
    Local.updateDeferred, Local.updateInfo. simpl.
  rewrite list_lookup_alter_eq.
  destruct (Local.infoHeap s !! Local.taskInfo t); simpl; [done|].
  by rewrite app_nil_r.
Qed.

Lemma finishLoad_eq (s : Local.State) (k : nat) (t : Local.LoadTask)
    (v : Local.LocalValue) :
  Local.finishLoad s k t v
  = {| Local.resourceIds := Local.resourceIds s;
       Local.resourceInfos := Local.resourceInfos s;
       Local.infoHeap :=
         alter (λ i, Local.withResource i v) (Local.taskInfo t) (Local.infoHeap s);
       Local.resourcesByType :=
         <[Local.taskType t :=
             default [] (Local.resourcesByType s !! Local.taskType t) ++ [v]]>
           (Local.resourcesByType s);
       Local.deferredResources := Local.deferredResources s;
       Local.deferredHeap :=
         alter Deferred.resolve (Local.taskDeferred t) (Local.deferredHeap s);
       Local.resourceLoaders := Local.resourceLoaders s;
       Local.tasks := alter (λ t, Local.withPhase t Local.Loaded) k (Local.tasks s);
       Local.outbox :=
         Local.outbox s
         ++ match Local.infoHeap s !! Local.taskInfo t with
            | Some i =>
                [ {| Local.loadedId := Local.taskId t; Local.loadedFlag := true;
                     Local.loadedError := Local.error i |} ]
            | None => []
            end;
       Local.disposedLocals := Local.disposedLocals s |}.
Proof.
  unfold Local.finishLoad, Local.sendLoaded, Local.sendMessage, Local.setTaskPhase,
    Local.updateDeferred, Local.updateInfo. simpl.
  rewrite list_lookup_alter_eq.
  destruct (Local.infoHeap s !! Local.taskInfo t); simpl; [done|].
  by rewrite app_nil_r.
Qed.

Lemma announce_books (s : Local.State) (msg : Local.CreateResourceMessage) :
  books (Local.announce s msg).1
  = (Local.resourceIds s ++ [Local.msgId msg],
     <[Local.msgId msg := length (Local.infoHeap s)]> (Local.resourceInfos s),
     Local.infoHeap s ++ [announcedInfo msg], Local.resourcesByType s,
     Local.resourceLoaders s, Local.tasks s, Local.outbox s, Local.disposedLocals s).
Proof.
  unfold Local.announce. by destruct (Local.deferredResources _ !! Local.msgId msg).
Qed.

Lemma announce_deferred (s : Local.State) (msg : Local.CreateResourceMessage) :
  Local.deferredResources (Local.announce s msg).1 !! Local.msgId msg
  = Some (Local.announce s msg).2
  ∧ (∀ id h, Local.deferredResources s !! id = Some h →
             Local.deferredResources (Local.announce s msg).1 !! id = Some h)
  ∧ match Local.deferredResources s !! Local.msgId msg with
    | Some h =>
        (Local.announce s msg).2 = h
        ∧ Local.deferredHeap (Local.announce s msg).1 = Local.deferredHeap s
    | None =>
        (Local.announce s msg).2 = length (Local.deferredHeap s)
        ∧ Local.deferredHeap (Local.announce s msg).1
          = Local.deferredHeap s ++ [Deferred.createDeferred None None]
    end.
Proof.
  unfold Local.announce. simpl.
  destruct (Local.deferredResources s !! Local.msgId msg) as [h|] eqn:Eh; simpl.
  - done.
  - rewrite lookup_insert_eq. split_and!; try done.
    intros id h Hid. rewrite lookup_insert_ne; [done|]. intros Heq. congruence.
Qed.

Lemma waitForLocalResource_books (s : Local.State) (resourceId : N)
    (description : string) :
  books (Local.waitForLocalResource s resourceId description).1 = books s.
Proof.
  unfold Local.waitForLocalResource.
  destruct (resourceId =? Local.NOOP); [done|].
  by destruct (Local.deferredResources s !! resourceId).
Qed.

Lemma waitForDependenciesFrom_books (view : list byte) (names : list string)
    (offsets : list N) :
  ∀ s i, books (Local.waitForDependenciesFrom s view names i offsets).1 = books s.
Proof.
  induction offsets as [|byteOff rest IH]; intros s i; simpl; [done|].
  destruct (truthy _); [|apply IH].
  pose proof (waitForLocalResource_books s
                (default 0
                   match wordIndex byteOff with
                   | Some index => wordGet view index
                   | None => None
                   end)
                (default "undefined" (names !! i))) as H1.
  destruct (Local.waitForLocalResource s _ _) as [s1 p].
  pose proof (IH s1 (S i)) as H2.
  destruct (Local.waitForDependenciesFrom s1 _ _ _ _) as [s2 ps].
  simpl in *. congruence.
Qed.

(** How [loadResource] leaves its first turn: the call has failed already
    and has sent its reply, or it is suspended and has sent nothing. *)
Lemma loadResource_books (s : Local.State) (msg : Local.CreateResourceMessage) :
  ∃ info t,
    books (Local.loadResource s msg)
    = (Local.resourceIds s ++ [Local.msgId msg],
       <[Local.msgId msg := length (Local.infoHeap s)]> (Local.resourceInfos s),
       Local.infoHeap s ++ [info], Local.resourcesByType s,
       Local.resourceLoaders s, Local.tasks s ++ [t],
       Local.outbox (Local.loadResource s msg), Local.disposedLocals s)
    ∧ Local.taskId t = Local.msgId msg
    ∧ Local.taskType t = Local.msgResourceType msg
    ∧ Local.taskInfo t = length (Local.infoHeap s)
    ∧ Local.taskDeferred t = (Local.announce s msg).2
    ∧ Local.taskLoader t = Local.resourceLoaders s !! Local.msgResourceType msg
    ∧ ((finished t = false ∧ info = announcedInfo msg
        ∧ Local.outbox (Local.loadResource s msg) = Local.outbox s)
       ∨ (∃ e, Local.phase t = Local.Failed
               ∧ info = Local.withError (announcedInfo msg) (Deferred.messageOf e)
               ∧ Local.outbox (Local.loadResource s msg)
                 = Local.outbox s ++ [failureReply (Local.msgId msg) e]
               ∧ Local.loadResource s msg
                 = Local.failLoad
                     (Local.spawn (Local.announce s msg).1
                        (Local.taskOf s msg (Local.announce s msg).2 [] Local.Failed))
                     (length (Local.tasks s))
                     (Local.taskOf s msg (Local.announce s msg).2 [] Local.Failed) e)).
Proof.
  unfold Local.loadResource.
  pose proof (announce_books s msg) as Hbooks.
  destruct (Local.announce s msg) as [s3 h]. cbn [fst snd] in *.
  injection Hbooks as Hids Hinfos Hheap Hbytype Hloaders Htasks Houtbox Hdisposed.
  rewrite Htasks.
  assert (∀ e,
    let t0 := Local.taskOf s msg h [] Local.Failed in
    let s' := Local.failLoad (Local.spawn s3 t0) (length (Local.tasks s)) t0 e in
    ∃ info t,
      books s'
      = (Local.resourceIds s ++ [Local.msgId msg],
         <[Local.msgId msg := length (Local.infoHeap s)]> (Local.resourceInfos s),
         Local.infoHeap s ++ [info], Local.resourcesByType s,
         Local.resourceLoaders s, Local.tasks s ++ [t],
         Local.outbox s', Local.disposedLocals s)
      ∧ Local.taskId t = Local.msgId msg
      ∧ Local.taskType t = Local.msgResourceType msg
      ∧ Local.taskInfo t = length (Local.infoHeap s)
      ∧ Local.taskDeferred t = h
      ∧ Local.taskLoader t = Local.resourceLoaders s !! Local.msgResourceType msg
      ∧ ((finished t = false ∧ info = announcedInfo msg
          ∧ Local.outbox s' = Local.outbox s)
         ∨ (∃ e', Local.phase t = Local.Failed
                  ∧ info = Local.withError (announcedInfo msg) (Deferred.messageOf e')
                  ∧ Local.outbox s' = Local.outbox s ++ [failureReply (Local.msgId msg) e']
                  ∧ s' = Local.failLoad (Local.spawn s3 t0) (length (Local.tasks s)) t0 e')))
    as Hfail.
  { intros e t0 s'. subst s'. rewrite failLoad_eq. unfold books. cbn.
    rewrite Hids, Hinfos, Hheap, Hbytype, Hloaders, Htasks, Houtbox, Hdisposed.
    assert (alter (λ i, Local.withError i (Deferred.messageOf e))
              (length (Local.infoHeap s)) (Local.infoHeap s ++ [announcedInfo msg])
            = Local.infoHeap s ++ [Local.withError (announcedInfo msg) (Deferred.messageOf e)])
      as ->.
    { by rewrite alter_app_r_alt, Nat.sub_diag. }
    assert (alter (λ t, Local.withPhase t Local.Failed) (length (Local.tasks s))
              (Local.tasks s ++ [t0])
            = Local.tasks s ++ [Local.withPhase t0 Local.Failed]) as ->.
    { by rewrite alter_app_r_alt, Nat.sub_diag. }
    rewrite lookup_app_r by done. rewrite Nat.sub_diag. simpl.
    eexists _, _. split; [reflexivity|]. split_and!; try done.
    right. exists e. split_and!; try done.
    rewrite failLoad_eq. cbn.
    rewrite Hids, Hinfos, Hheap, Hbytype, Hloaders, Htasks, Houtbox, Hdisposed.
    rewrite lookup_app_r by done. rewrite Nat.sub_diag. simpl.
    by rewrite !alter_app_r_alt, !Nat.sub_diag. }
  assert (∀ s4 ps ph,
    books s4 = books s3 → ph ≠ Local.Loaded → ph ≠ Local.Failed →
    let s' := Local.spawn s4 (Local.taskOf s msg h ps ph) in
    ∃ info t,
      books s'
      = (Local.resourceIds s ++ [Local.msgId msg],
         <[Local.msgId msg := length (Local.infoHeap s)]> (Local.resourceInfos s),
         Local.infoHeap s ++ [info], Local.resourcesByType s,
         Local.resourceLoaders s, Local.tasks s ++ [t],
         Local.outbox s', Local.disposedLocals s)
      ∧ Local.taskId t = Local.msgId msg
      ∧ Local.taskType t = Local.msgResourceType msg
      ∧ Local.taskInfo t = length (Local.infoHeap s)
      ∧ Local.taskDeferred t = h
      ∧ Local.taskLoader t = Local.resourceLoaders s !! Local.msgResourceType msg
      ∧ ((finished t = false ∧ info = announcedInfo msg
          ∧ Local.outbox s' = Local.outbox s)
         ∨ (∃ e', Local.phase t = Local.Failed
                  ∧ info = Local.withError (announcedInfo msg) (Deferred.messageOf e')
                  ∧ Local.outbox s' = Local.outbox s ++ [failureReply (Local.msgId msg) e']
                  ∧ s' = Local.failLoad
                           (Local.spawn s3 (Local.taskOf s msg h [] Local.Failed))
                           (length (Local.tasks s))
                           (Local.taskOf s msg h [] Local.Failed) e')))
    as Hspawn.
  { intros s4 ps ph H4 Hnl Hnf s'. subst s'.
    injection H4 as H4ids H4infos H4heap H4bytype H4loaders H4tasks H4outbox H4disposed.
    unfold books, Local.spawn. cbn.
    rewrite H4ids, H4infos, H4heap, H4bytype, H4loaders, H4tasks, H4outbox, H4disposed.
    rewrite Hids, Hinfos, Hheap, Hbytype, Hloaders, Htasks, Houtbox, Hdisposed.
    eexists _, _. split; [reflexivity|]. split_and!; try done.
    left. split_and!; try done.
    unfold finished. rewrite bool_decide_eq_false. simpl. by intros [|]. }
  destruct (Local.resourceLoaders s3 !! Local.msgResourceType msg)
    as [[offsets names| |handle]|]; try apply Hfail; try (by apply Hspawn).
  destruct (Local.msgProps msg) as [| |tb|]; try apply Hfail.
  case_bool_decide; [|apply Hfail].
  unfold Local.waitForLocalResourceDependencies.
  pose proof (waitForDependenciesFrom_books
                (TripleBuffer.byteViews tb (TripleBuffer.getReadBufferIndex tb))
                names offsets s3 0%nat) as H4.
  destruct (Local.waitForDependenciesFrom s3 _ _ _ _) as [s4 ps]. simpl in H4.
  by apply Hspawn.
Qed.

End Loading.

(** ** Replies and loaded resources in every run *)

Section Bookkeeping.
Import Statements.

Lemma alter_phase_lookup (tasks : list Local.LoadTask) (k k' : nat) (ph : Local.Phase)
    (t' : Local.LoadTask) :
  alter (λ t, Local.withPhase t ph) k tasks !! k' = Some t' →
  ∃ t, tasks !! k' = Some t
       ∧ (k' = k ∧ t' = Local.withPhase t ph ∨ k' ≠ k ∧ t' = t).
Proof.
  rewrite list_lookup_alter. destruct (decide (k = k')) as [->|Hne].
  - destruct (tasks !! k') as [t|]; [|done]. intros [= <-]. exists t. split; [done|by left].
  - intros Ht. exists t'. split; [done|]. right. by split.
Qed.

Lemma alter_middle {A : Type} (f : A → A) (l : list A) (k : nat) (x : A) :
  l !! k = Some x → alter f k l = take k l ++ f x :: drop (S k) l.
Proof.
  intros Hk. pose proof (lookup_lt_Some _ _ _ Hk) as Hlt.
  rewrite <- (take_drop_middle l k x Hk) at 1.
  rewrite alter_app_r_alt by (rewrite length_take; lia).
  rewrite length_take, Nat.min_l, Nat.sub_diag by lia. done.
Qed.

Lemma finished_ids_settle (tasks : list Local.LoadTask) (k : nat) (t : Local.LoadTask)
    (ph : Local.Phase) :
  tasks !! k = Some t → finished t = false → finished (Local.withPhase t ph) = true →
  Local.taskId <$> filter (λ t, finished t = true)
                     (alter (λ t, Local.withPhase t ph) k tasks)
  ≡ₚ (Local.taskId <$> filter (λ t, finished t = true) tasks) ++ [Local.taskId t].
Proof.
  intros Hk Hfin Hfin'. rewrite (alter_middle _ _ _ _ Hk).
  rewrite <- (take_drop_middle tasks k t Hk) at 3.
  rewrite !filter_app, !filter_cons.
  rewrite decide_True by done. rewrite decide_False by congruence.
  rewrite !fmap_app, fmap_cons. simpl.
  rewrite <- Permutation_middle, <- app_assoc.
  rewrite (app_assoc _ _ [_]). apply Permutation_cons_append.
Qed.

Lemma finished_ids_keep (tasks : list Local.LoadTask) (k : nat) (t : Local.LoadTask)
    (ph : Local.Phase) :
  tasks !! k = Some t → finished t = false → finished (Local.withPhase t ph) = false →
  filter (λ t, finished t = true) (alter (λ t, Local.withPhase t ph) k tasks)
  = filter (λ t, finished t = true) tasks.
Proof.
  intros Hk Hfin Hfin'. rewrite (alter_middle _ _ _ _ Hk).
  rewrite <- (take_drop_middle tasks k t Hk) at 3.
  rewrite !filter_app, !filter_cons.
  by rewrite !decide_False by congruence.
Qed.

Lemma finished_Loaded (t : Local.LoadTask) :
  Local.phase t = Local.Loaded → finished t = true.
Proof. intros Hph. unfold finished. rewrite bool_decide_eq_true. by left. Qed.

Lemma Bookkeeping_failLoad (s : Local.State) (k : nat) (t : Local.LoadTask)
    (e : Deferred.LoadError) :
  Bookkeeping s → Local.tasks s !! k = Some t → finished t = false →
  Bookkeeping (Local.failLoad s k t e).
Proof.
  intros [Hlen Hown Hunf Hload Hcons Hperm Hlist] Hk Hfin.
  pose proof (Hown _ _ Hk) as Hinfo.
  destruct (lookup_lt_is_Some_2 (Local.infoHeap s) k) as [i Hi].
  { rewrite Hlen. by eapply lookup_lt_Some. }
  destruct (Hunf k t i Hk Hi Hfin) as [Hl He].
  rewrite failLoad_eq, Hinfo, Hi. split; cbn.
  - by rewrite !length_alter.
  - intros k' t' Ht'. apply alter_phase_lookup in Ht' as (t0 & Ht0 & [[-> ->]|[_ ->]]).
    + by apply (Hown k t0).
    + by apply Hown.
  - intros k' t' i' Ht' Hi' Hf'.
    apply alter_phase_lookup in Ht' as (t0 & Ht0 & [[-> ->]|[Hne ->]]); [done|].
    rewrite list_lookup_alter_ne in Hi' by done. by apply (Hunf k' t0).
  - intros k' t' i' Ht' Hi' Hph.
    apply alter_phase_lookup in Ht' as (t0 & Ht0 & [[-> ->]|[Hne ->]]); [done|].
    rewrite list_lookup_alter_ne in Hi' by done. by apply (Hload k' t0).
  - apply Forall_app. split; [done|]. constructor; [|done].
    right. simpl. split; [done|]. eexists. split; [done|]. apply messageOf_nonempty.
  - rewrite fmap_app. simpl. rewrite (finished_ids_settle _ _ t) by done.
    by rewrite Hperm.
  - intros type v Hv. destruct (Hlist type v Hv) as (k' & t' & i' & Hk' & Hph & Hty & Hi' & Hr).
    assert (k' ≠ k) as Hne.
    { intros ->. rewrite Hk in Hk'. injection Hk' as <-.
      apply finished_Loaded in Hph. congruence. }
    exists k', t', i'. split_and!; try done.
    + by rewrite list_lookup_alter_ne.
    + by rewrite list_lookup_alter_ne.
Qed.

Lemma Bookkeeping_finishLoad (s : Local.State) (k : nat) (t : Local.LoadTask)
    (v : Local.LocalValue) :
  Bookkeeping s → Local.tasks s !! k = Some t → finished t = false →
  Bookkeeping (Local.finishLoad s k t v).
Proof.
  intros [Hlen Hown Hunf Hload Hcons Hperm Hlist] Hk Hfin.
  pose proof (Hown _ _ Hk) as Hinfo.
  destruct (lookup_lt_is_Some_2 (Local.infoHeap s) k) as [i Hi].
  { rewrite Hlen. by eapply lookup_lt_Some. }
  destruct (Hunf k t i Hk Hi Hfin) as [Hl He].
  rewrite finishLoad_eq, Hinfo, Hi. split; cbn.
  - by rewrite !length_alter.
  - intros k' t' Ht'. apply alter_phase_lookup in Ht' as (t0 & Ht0 & [[-> ->]|[_ ->]]).
    + by apply (Hown k t0).
    + by apply Hown.
  - intros k' t' i' Ht' Hi' Hf'.
    apply alter_phase_lookup in Ht' as (t0 & Ht0 & [[-> ->]|[Hne ->]]); [done|].
    rewrite list_lookup_alter_ne in Hi' by done. by apply (Hunf k' t0).
  - intros k' t' i' Ht' Hi' Hph.
    apply alter_phase_lookup in Ht' as (t0 & Ht0 & [[-> ->]|[Hne ->]]).
    + rewrite list_lookup_alter_eq, Hi in Hi'. injection Hi' as <-. simpl. by split.
    + rewrite list_lookup_alter_ne in Hi' by done. by apply (Hload k' t0).
  - apply Forall_app. split; [done|]. constructor; [|done]. left. by split.
  - rewrite fmap_app. simpl. rewrite (finished_ids_settle _ _ t) by done.
    by rewrite Hperm.
  - intros type v' Hv.
    assert (v' ∈ default [] (Local.resourcesByType s !! type)
            ∨ type = Local.taskType t ∧ v' = v) as [Hold|[-> ->]].
    { destruct (decide (type = Local.taskType t)) as [->|Hne].
      - rewrite lookup_insert_eq in Hv. simpl in Hv.
        apply elem_of_app in Hv as [Hv|Hv]; [by left|].
        apply list_elem_of_singleton in Hv. by right.
      - rewrite lookup_insert_ne in Hv by done. by left. }
    + destruct (Hlist type v' Hold) as (k' & t' & i' & Hk' & Hph & Hty & Hi' & Hr).
      assert (k' ≠ k) as Hne.
      { intros ->. rewrite Hk in Hk'. injection Hk' as <-.
        apply finished_Loaded in Hph. congruence. }
      exists k', t', i'. split_and!; try done.
      * by rewrite list_lookup_alter_ne.
      * by rewrite list_lookup_alter_ne.
    + exists k, (Local.withPhase t Local.Loaded), (Local.withResource i v).
      split_and!; try done.
      * by rewrite list_lookup_alter_eq, Hk.
      * by rewrite list_lookup_alter_eq, Hi.
Qed.

Lemma Bookkeeping_setTaskPhase (s : Local.State) (k : nat) (t : Local.LoadTask)
    (ph : Local.Phase) :
  ph ≠ Local.Loaded → ph ≠ Local.Failed →
  Bookkeeping s → Local.tasks s !! k = Some t → finished t = false →
  Bookkeeping (Local.setTaskPhase s k ph).
Proof.
  intros Hnl Hnf [Hlen Hown Hunf Hload Hcons Hperm Hlist] Hk Hfin.
  assert (finished (Local.withPhase t ph) = false) as Hfin'.
  { unfold finished. rewrite bool_decide_eq_false. simpl. by intros [|]. }
  unfold Local.setTaskPhase. split; cbn.
  - by rewrite length_alter.
  - intros k' t' Ht'. apply alter_phase_lookup in Ht' as (t0 & Ht0 & [[-> ->]|[_ ->]]).
    + by apply (Hown k t0).
    + by apply Hown.
  - intros k' t' i' Ht' Hi' Hf'.
    apply alter_phase_lookup in Ht' as (t0 & Ht0 & [[-> ->]|[Hne ->]]).
    + apply (Hunf k t0 i'); try done. congruence.
    + by apply (Hunf k' t0).
  - intros k' t' i' Ht' Hi' Hph.
    apply alter_phase_lookup in Ht' as (t0 & Ht0 & [[-> ->]|[Hne ->]]); [done|].
    by apply (Hload k' t0).
  - done.
  - by rewrite (finished_ids_keep _ _ t).
  - intros type v Hv. destruct (Hlist type v Hv) as (k' & t' & i' & Hk' & Hph & Hty & Hi' & Hr).
    assert (k' ≠ k) as Hne.
    { intros ->. rewrite Hk in Hk'. injection Hk' as <-.
      apply finished_Loaded in Hph. congruence. }
    exists k', t', i'. split_and!; try done. by rewrite list_lookup_alter_ne.
Qed.

Lemma Bookkeeping_loadResource (s : Local.State) (msg : Local.CreateResourceMessage) :
  Bookkeeping s → Bookkeeping (Local.loadResource s msg).
Proof.
  intros [Hlen Hown Hunf Hload Hcons Hperm Hlist].
  destruct (loadResource_books s msg)
    as (info & t & Hbooks & Hid & Hty & Hinfo & _ & _ & Hcase).
  injection Hbooks as _ _ Hheap Hbytype _ Htasks _.
  assert (info = announcedInfo msg
          ∨ ∃ e, info = Local.withError (announcedInfo msg) e) as Hinfo'.
  { destruct Hcase as [(_ & -> & _)|(e & _ & -> & _)]; [by left|right; by eexists]. }
  split.
  - rewrite Hheap, Htasks, !length_app. simpl. lia.
  - intros k' t'. rewrite Htasks. intros Ht'.
    apply lookup_app_Some in Ht' as [Ht'|[Hge Ht']]; [by apply Hown|].
    apply list_lookup_singleton_Some in Ht' as [Hk' <-]. lia.
  - intros k' t' i'. rewrite Htasks, Hheap. intros Ht' Hi' Hf'.
    apply lookup_app_Some in Ht' as [Ht'|[Hge Ht']].
    + rewrite lookup_app_l in Hi' by (rewrite Hlen; by eapply lookup_lt_Some).
      by apply (Hunf k' t').
    + apply list_lookup_singleton_Some in Ht' as [Hk' <-].
      rewrite lookup_app_r in Hi' by lia.
      apply list_lookup_singleton_Some in Hi' as [_ <-].
      destruct Hcase as [(_ & -> & _)|(e & Hph & _)]; [done|].
      unfold finished in Hf'. rewrite bool_decide_eq_false in Hf'. tauto.
  - intros k' t' i'. rewrite Htasks, Hheap. intros Ht' Hi' Hph.
    apply lookup_app_Some in Ht' as [Ht'|[Hge Ht']].
    + rewrite lookup_app_l in Hi' by (rewrite Hlen; by eapply lookup_lt_Some).
      by apply (Hload k' t').
    + apply list_lookup_singleton_Some in Ht' as [Hk' <-].
      destruct Hcase as [(Hf & _)|(e & Hph' & _)]; [|congruence].
      apply finished_Loaded in Hph. congruence.
  - destruct Hcase as [(_ & _ & ->)|(e & _ & _ & -> & _)]; [done|].
    apply Forall_app. split; [done|]. constructor; [|done].
    right. split; [done|]. eexists. split; [done|]. apply messageOf_nonempty.
  - rewrite Htasks, filter_app, fmap_app.
    destruct Hcase as [(Hf & _ & ->)|(e & Hph & _ & -> & _)].
    + rewrite filter_cons, decide_False by congruence. rewrite filter_nil.
      simpl. by rewrite app_nil_r.
    + rewrite filter_cons, decide_True, filter_nil.
      * rewrite fmap_app. simpl. by rewrite Hperm, Hid.
      * unfold finished. rewrite bool_decide_eq_true. by right.
  - intros type v. rewrite Hbytype. intros Hv.
    destruct (Hlist type v Hv) as (k' & t' & i' & Hk' & Hph & Hty' & Hi' & Hr).
    exists k', t', i'. rewrite Htasks, Hheap. split_and!; try done.
    + by apply lookup_app_l_Some.
    + by apply lookup_app_l_Some.
Qed.

Lemma removeFirst_subseteq (v : Local.LocalValue) (arr : list Local.LocalValue) :
  Local.removeFirst v arr ⊆ arr.
Proof.
  unfold Local.removeFirst. destruct (list_find _ arr) as [[index x]|]; [|done].
  intros y Hy. by eapply list_elem_of_delete_inv.
Qed.

Lemma disposeAt_books (s : Local.State) (i : nat) :
  Local.infoHeap (Local.disposeAt s i) = Local.infoHeap s
  ∧ Local.tasks (Local.disposeAt s i) = Local.tasks s
  ∧ Local.outbox (Local.disposeAt s i) = Local.outbox s
  ∧ Local.resourceLoaders (Local.disposeAt s i) = Local.resourceLoaders s
  ∧ ∀ type, default [] (Local.resourcesByType (Local.disposeAt s i) !! type)
            ⊆ default [] (Local.resourcesByType s !! type).
Proof.
  unfold Local.disposeAt.
  destruct (Local.resourceIds s !! i) as [resourceId|]; [|done].
  destruct (Local.getResourceDisposed s resourceId); [|done].
  destruct (Local.resourceInfos s !! resourceId ≫= _) as [info|]; [|done]. simpl.
  assert (∀ (table : gmap string (list Local.LocalValue)) v arr type,
            table !! Local.resourceType info = Some arr →
            default [] (<[Local.resourceType info := Local.removeFirst v arr]> table !! type)
            ⊆ default [] (table !! type)) as Hsub.
  { intros table v arr type Harr.
    destruct (decide (type = Local.resourceType info)) as [->|Hne].
    - rewrite lookup_insert_eq, Harr. simpl. apply removeFirst_subseteq.
    - by rewrite lookup_insert_ne. }
  destruct (Local.deferredResources s !! resourceId);
    (destruct (Local.resource info) as [v|]; [destruct (Local.valueTruthy v)|];
       [destruct (Local.resourcesByType _ !! _) eqn:Harr, (Local.hasDispose v)| |];
       simpl; split_and!; try done; intros type; by apply Hsub).
Qed.

Lemma disposeBelow_books (n : nat) :
  ∀ s, Local.infoHeap (Local.disposeBelow s n) = Local.infoHeap s
       ∧ Local.tasks (Local.disposeBelow s n) = Local.tasks s
       ∧ Local.outbox (Local.disposeBelow s n) = Local.outbox s
       ∧ Local.resourceLoaders (Local.disposeBelow s n) = Local.resourceLoaders s
       ∧ ∀ type, default [] (Local.resourcesByType (Local.disposeBelow s n) !! type)
                 ⊆ default [] (Local.resourcesByType s !! type).
Proof.
  induction n as [|i IH]; intros s; simpl; [done|].
  destruct (IH (Local.disposeAt s i)) as (-> & -> & -> & -> & Hsub).
  destruct (disposeAt_books s i) as (-> & -> & -> & -> & Hsub').
  split_and!; try done. intros type. etrans; [apply Hsub|apply Hsub'].
Qed.

Lemma Bookkeeping_frame (s s' : Local.State) :
  Local.tasks s' = Local.tasks s → Local.outbox s' = Local.outbox s →
  (∀ type, default [] (Local.resourcesByType s' !! type)
           ⊆ default [] (Local.resourcesByType s !! type)) →
  Forall2 (λ i' i, Local.loaded i' = Local.loaded i ∧ Local.error i' = Local.error i
                   ∧ Local.resource i' = Local.resource i)
    (Local.infoHeap s') (Local.infoHeap s) →
  Bookkeeping s → Bookkeeping s'.
Proof.
  intros Htasks Houtbox Hsub Hheap [Hlen Hown Hunf Hload Hcons Hperm Hlist].
  split; rewrite ?Htasks, ?Houtbox; try done.
  - by rewrite (Forall2_length _ _ _ Hheap).
  - intros k t i' Hk Hi' Hf.
    destruct (Forall2_lookup_l _ _ _ _ _ Hheap Hi') as (i & Hi & Hl & He & _).
    rewrite Hl, He. by apply (Hunf k t).
  - intros k t i' Hk Hi' Hph.
    destruct (Forall2_lookup_l _ _ _ _ _ Hheap Hi') as (i & Hi & Hl & _ & Hr).
    rewrite Hl, Hr. by apply (Hload k t).
  - intros type v Hv. apply Hsub in Hv.
    destruct (Hlist type v Hv) as (k & t & i & Hk & Hph & Hty & Hi & Hr).
    destruct (Forall2_lookup_r _ _ _ _ _ Hheap Hi) as (i' & Hi' & _ & _ & Hr').
    exists k, t, i'. split_and!; try done. congruence.
Qed.

Lemma Forall2_same_info (heap : list Local.LocalResourceInfo) :
  Forall2 (λ i' i, Local.loaded i' = Local.loaded i ∧ Local.error i' = Local.error i
                   ∧ Local.resource i' = Local.resource i) heap heap.
Proof. induction heap; constructor; done. Qed.

Lemma Bookkeeping_step (s : Local.State) (e : Local.Event) :
  Bookkeeping s → Bookkeeping (Local.step s e).
Proof.
  intros Hs. destruct e as [resources|def|type handle|type|k j|k v failure|h|ih tb|]; simpl.
  - unfold Local.onLoadResources. revert s Hs.
    induction resources as [|msg rest IH]; intros s Hs; simpl; [done|].
    by apply IH, Bookkeeping_loadResource.
  - eapply Bookkeeping_frame; [..|exact Hs]; try done. apply Forall2_same_info.
  - eapply Bookkeeping_frame; [..|exact Hs]; try done. apply Forall2_same_info.
  - eapply Bookkeeping_frame; [..|exact Hs]; try done. apply Forall2_same_info.
  - unfold Local.resumeAfterDependencies.
    destruct (Local.tasks s !! k) as [t|] eqn:Hk; [|done].
    case_bool_decide as Hph; [|done].
    assert (finished t = false) as Hf.
    { unfold finished. rewrite bool_decide_eq_false, Hph. by intros [|]. }
    destruct (Local.allResolved s _); [by apply (Bookkeeping_setTaskPhase s k t)|].
    destruct (Local.promises t !! j) as [p|]; [|done].
    destruct (Local.promiseSettlement s p); try done.
    by apply Bookkeeping_failLoad.
  - unfold Local.resumeAfterLoad.
    destruct (Local.tasks s !! k) as [t|] eqn:Hk; [|done].
    case_bool_decide as Hph; [|done].
    assert (finished t = false) as Hf.
    { unfold finished. rewrite bool_decide_eq_false, Hph. by intros [|]. }
    destruct (Local.taskLoader t) as [[offsets names| |handle]|], failure as [[|err]|];
      try done;
      first [by apply Bookkeeping_failLoad | by apply Bookkeeping_finishLoad
            |by apply (Bookkeeping_setTaskPhase s k t)].
  - eapply Bookkeeping_frame; [..|exact Hs]; try done. apply Forall2_same_info.
  - eapply Bookkeeping_frame; [..|exact Hs]; try done.
    unfold Local.updateInfo. simpl.
    apply Forall2_same_length_lookup_2; [by rewrite length_alter|].
    intros k i' i Hi' Hi. rewrite list_lookup_alter in Hi'.
    destruct (decide (ih = k)) as [->|Hne].
    + rewrite Hi in Hi'. by injection Hi' as <-.
    + rewrite Hi in Hi'. by injection Hi' as <-.
  - unfold Local.ResourceDisposalSystem.
    destruct (disposeBelow_books (length (Local.resourceIds s)) s)
      as (Hheap & Htasks & Houtbox & _ & Hsub).
    eapply Bookkeeping_frame; [..|exact Hs]; try done.
    rewrite Hheap. apply Forall2_same_info.
Qed.

Lemma foldl_registerResource_books (defs : list Schema.ResourceDefinition) :
  ∀ s, Local.outbox (foldl Local.registerResource s defs) = Local.outbox s
       ∧ Local.infoHeap (foldl Local.registerResource s defs) = Local.infoHeap s
       ∧ Local.resourcesByType (foldl Local.registerResource s defs)
         = Local.resourcesByType s
       ∧ Local.resourceIds (foldl Local.registerResource s defs) = Local.resourceIds s.
Proof.
  induction defs as [|def rest IH]; intros s; simpl; [done|].
  destruct (IH (Local.registerResource s def)) as (-> & -> & -> & ->). done.
Qed.

Lemma Bookkeeping_init (defs : list Schema.ResourceDefinition) :
  Bookkeeping (Local.init defs).
Proof.
  destruct (foldl_registerResource defs Local.create) as [_ Htasks].
  destruct (foldl_registerResource_books defs Local.create) as (Houtbox & Hheap & Hbytype & _).
  eapply (Bookkeeping_frame Local.create); unfold Local.init; simpl.
  - by rewrite Htasks.
  - by rewrite Houtbox.
  - intros type. by rewrite Hbytype.
  - rewrite Hheap. constructor.
  - split; simpl; try done. intros type v Hv. rewrite lookup_empty in Hv.
    by apply elem_of_nil in Hv.
Qed.

Lemma run_Bookkeeping (defs : list Schema.ResourceDefinition) (events : list Local.Event) :
  Bookkeeping (Local.run defs events).
Proof.
  unfold Local.run. induction events as [|e rest IH] using rev_ind.
  - apply Bookkeeping_init.
  - rewrite foldl_snoc. by apply Bookkeeping_step.
Qed.

End Bookkeeping.

Section Replies.
Import Statements.

(** X4.  In every run, each [ResourceLoaded] message that the thread has
    sent is consistent: it says [loaded] and carries no error, or it says
    not [loaded] and carries a non-empty error text ("Unknown error" when
    the error has no message). *)
Theorem replies_are_consistent
    (defs : list Schema.ResourceDefinition) (events : list Local.Event) :
  Forall ConsistentReply (Local.outbox (Local.run defs events)).
Proof. apply run_Bookkeeping. Qed.

Lemma finished_filter (tasks : list Local.LoadTask) :
  filter (λ t, finished t = true) tasks
  = filter (λ t, Local.phase t = Local.Loaded ∨ Local.phase t = Local.Failed) tasks.
Proof.
  induction tasks as [|t rest IH]; [done|]. rewrite !filter_cons, IH.
  unfold finished. destruct (decide (Local.phase t = Local.Loaded ∨ _)) as [Hp|Hp].
  - by rewrite decide_True by (by apply bool_decide_eq_true).
  - by rewrite decide_False by (by rewrite bool_decide_eq_true).
Qed.

(** X5.  In every run, the ids of the [ResourceLoaded] messages sent so far
    are, up to order, the ids of the calls of [loadResource] that have run to
    their last statement, with success or through the [catch] block: such a
    call has sent exactly one message.  A call that is still waiting has sent
    nothing, and neither has a call whose [catch] block threw at
    [error.message] because the loader rejected with [null] or [undefined]:
    that call is over without a reply, and its info object still says neither
    [loaded] nor [error]. *)
Theorem one_reply_per_finished_load
    (defs : list Schema.ResourceDefinition) (events : list Local.Event) :
  Local.loadedId <$> Local.outbox (Local.run defs events)
  ≡ₚ Local.taskId <$> filter (λ t, Local.phase t = Local.Loaded ∨ Local.phase t = Local.Failed)
                        (Local.tasks (Local.run defs events))
  ∧ ∀ k t i,
      Local.tasks (Local.run defs events) !! k = Some t →
      Local.phase t = Local.Abandoned →
      Local.infoHeap (Local.run defs events) !! k = Some i →
      Local.taskInfo t = k ∧ Local.loaded i = false ∧ Local.error i = None.
Proof.
  destruct (run_Bookkeeping defs events) as [_ Hown Hunf _ _ Hperm _]. split.
  - by rewrite Hperm, finished_filter.
  - intros k t i Hk Hph Hi. split; [by apply Hown|].
    apply (Hunf k t i Hk Hi). unfold finished. rewrite bool_decide_eq_false, Hph.
    by intros [|].
Qed.

(** X6.  In every run, [getLocalResources] lists only resources whose load
    has completed: each listed value is the [resource] of the info object of
    a call of [loadResource] for that type that has ended successfully, and
    that info object says [loaded]. *)
Theorem getLocalResources_are_loaded
    (defs : list Schema.ResourceDefinition) (events : list Local.Event)
    (def : Schema.ResourceDefinition) (v : Local.LocalValue) :
  v ∈ Local.getLocalResources (Local.run defs events) def →
  ∃ k t i,
    Local.tasks (Local.run defs events) !! k = Some t
    ∧ Local.phase t = Local.Loaded
    ∧ Local.taskType t = Schema.name def
    ∧ Local.infoHeap (Local.run defs events) !! Local.taskInfo t = Some i
    ∧ Local.resource i = Some v
    ∧ Local.loaded i = true.
Proof.
  intros Hv. destruct (run_Bookkeeping defs events) as [_ Hown _ Hload _ _ Hlist].
  destruct (Hlist _ _ Hv) as (k & t & i & Hk & Hph & Hty & Hi & Hr).
  exists k, t, i. rewrite (Hown k t Hk). split_and!; try done.
  by destruct (Hload k t i Hk Hi Hph).
Qed.

End Replies.

Lemma getLocalResources_are_loaded_witness :
  ∃ k t i,
    Local.tasks Examples.chainState !! k = Some t
    ∧ Local.phase t = Local.Loaded
    ∧ Local.taskType t = Schema.name ReferenceCounts.meshDef
    ∧ Local.infoHeap Examples.chainState !! Local.taskInfo t = Some i
    ∧ Local.resource i = Some (Local.LResource 2)
    ∧ Local.loaded i = true.
Proof.
  apply (getLocalResources_are_loaded [ReferenceCounts.meshDef] Examples.chainEvents
           ReferenceCounts.meshDef (Local.LResource 2)).
  vm_compute. left.
Defined.

Section Announcing.
Import Statements.

Lemma onLoadResources_books (resources : list Local.CreateResourceMessage) :
  ∀ s,
    Local.resourceIds (Local.onLoadResources s resources)
    = Local.resourceIds s ++ (Local.msgId <$> resources)
    ∧ length (Local.tasks (Local.onLoadResources s resources))
      = (length (Local.tasks s) + length resources)%nat
    ∧ (∀ resourceId, resourceId ∈ Local.msgId <$> resources →
                     is_Some (Local.getLocalResource (Local.onLoadResources s resources)
                                resourceId))
    ∧ (∀ resourceId, resourceId ∉ Local.msgId <$> resources →
                     Local.resourceInfos (Local.onLoadResources s resources) !! resourceId
                     = Local.resourceInfos s !! resourceId)
    ∧ (∀ ih i, Local.infoHeap s !! ih = Some i →
               Local.infoHeap (Local.onLoadResources s resources) !! ih = Some i)
    ∧ Local.resourceLoaders (Local.onLoadResources s resources) = Local.resourceLoaders s.
Proof.
  unfold Local.onLoadResources.
  induction resources as [|msg rest IH]; intros s.
  - simpl. rewrite app_nil_r. split_and!; try done; try lia. intros resourceId Hin.
    by apply elem_of_nil in Hin.
  - cbn [foldl]. rewrite fmap_cons.
    destruct (IH (Local.loadResource s msg)) as (Hids & Hlen & Hsome & Hother & Hheap & Hld).
    destruct (loadResource_books s msg) as (info & t & Hbooks & _).
    injection Hbooks as Hids1 Hinfos1 Hheap1 _ Hld1 Htasks1 _.
    rewrite Hids, Hlen, Hids1, Hld, Hld1, Htasks1, length_app, <- app_assoc. simpl.
    split_and!; try done; [lia| | |].
    + intros resourceId Hin.
      destruct (decide (resourceId ∈ Local.msgId <$> rest)) as [Hrest|Hrest];
        [by apply Hsome|].
      apply elem_of_cons in Hin as [->|Hin]; [|done].
      unfold Local.getLocalResource. rewrite Hother, Hinfos1 by done.
      rewrite lookup_insert_eq. simpl. exists info. apply Hheap.
      rewrite Hheap1. apply list_lookup_middle. done.
    + intros resourceId Hnin. apply not_elem_of_cons in Hnin as [Hne Hnin].
      rewrite Hother, Hinfos1 by done. by rewrite lookup_insert_ne.
    + intros ih i Hi. apply Hheap. rewrite Hheap1. by apply lookup_app_l_Some.
Qed.

(** X7.  [onLoadResources] enters every creation record of the message:
    the ids are appended to [resourceIds] in the order of the records,
    repeated ids included; one call of [loadResource] is started per record;
    every id of the message has an info object afterwards and the entries of
    the other ids are as they were. *)
Theorem onLoadResources_enters_every_record
    (s : Local.State) (resources : list Local.CreateResourceMessage) :
  Local.resourceIds (Local.onLoadResources s resources)
  = Local.resourceIds s ++ (Local.msgId <$> resources)
  ∧ length (Local.tasks (Local.onLoadResources s resources))
    = (length (Local.tasks s) + length resources)%nat
  ∧ (∀ resourceId, resourceId ∈ Local.msgId <$> resources →
                   is_Some (Local.getLocalResource (Local.onLoadResources s resources)
                              resourceId))
  ∧ (∀ resourceId, resourceId ∉ Local.msgId <$> resources →
                   Local.resourceInfos (Local.onLoadResources s resources) !! resourceId
                   = Local.resourceInfos s !! resourceId).
Proof.
  destruct (onLoadResources_books resources s) as (H1 & H2 & H3 & H4 & _). done.
Qed.

Lemma loadResource_deferredResources (s : Local.State) (msg : Local.CreateResourceMessage) :
  ∀ id h, Local.deferredResources (Local.announce s msg).1 !! id = Some h →
          Local.deferredResources (Local.loadResource s msg) !! id = Some h.
Proof.
  intros id h. unfold Local.loadResource.
  destruct (Local.announce s msg) as [s3 h3]. cbn [fst snd]. intros Hid.
  assert (∀ t0 e,
            Local.deferredResources
              (Local.failLoad (Local.spawn s3 t0) (length (Local.tasks s3)) t0 e) !! id
            = Some h) as Hfail.
  { intros t0 e. by rewrite failLoad_eq. }
  destruct (Local.resourceLoaders s3 !! Local.msgResourceType msg)
    as [[offsets names| |handle]|]; try apply Hfail; try done.
  destruct (Local.msgProps msg) as [| |tb|]; try apply Hfail.
  case_bool_decide; [|apply Hfail].
  unfold Local.waitForLocalResourceDependencies.
  pose proof (waitForDependenciesFrom_promises
                (TripleBuffer.byteViews tb (TripleBuffer.getReadBufferIndex tb))
                names offsets s3 0%nat) as (_ & Hmono & _).
  destruct (Local.waitForDependenciesFrom s3 _ _ _ _) as [s4 ps]. simpl in *.
  by apply Hmono.
Qed.

(** X8.  The call of [loadResource] for a resource holds the deferred that
    is registered for its id, the one that earlier calls of
    [waitForLocalResource] for the id have handed out if there were any; the
    deferred stays registered, so that a consumer that waits for the id
    afterwards gets the promise of this same deferred. *)
Theorem loadResource_shares_the_deferred_of_waiters
    (s : Local.State) (msg : Local.CreateResourceMessage) :
  ∃ t,
    Local.tasks (Local.loadResource s msg) = Local.tasks s ++ [t]
    ∧ Local.taskId t = Local.msgId msg
    ∧ Local.deferredResources (Local.loadResource s msg) !! Local.msgId msg
      = Some (Local.taskDeferred t)
    ∧ (∀ description h,
         Local.waitForLocalResource s (Local.msgId msg) description
         = (s, Local.OfDeferred h) →
         Local.taskDeferred t = h)
    ∧ (Local.msgId msg ≠ 0 →
       ∀ description,
         Local.waitForLocalResource (Local.loadResource s msg) (Local.msgId msg) description
         = (Local.loadResource s msg, Local.OfDeferred (Local.taskDeferred t))).
Proof.
  destruct (loadResource_books s msg) as (info & t & Hbooks & Hid & _ & _ & Hd & _).
  injection Hbooks as _ _ _ _ _ Htasks _.
  destruct (announce_deferred s msg) as (Hh & _ & Hold).
  pose proof (loadResource_deferredResources s msg _ _ Hh) as Hentry.
  exists t. rewrite Hd. split_and!; try done.
  - intros description h. unfold Local.waitForLocalResource, Local.NOOP.
    destruct (Local.msgId msg =? 0); [done|].
    destruct (Local.deferredResources s !! Local.msgId msg) as [h0|].
    + intros [= <-]. by destruct Hold.
    + intros [= Hs _]. exfalso.
      assert (length (Local.deferredHeap s ++ [Deferred.createDeferred (Some 30000)
                (Some ("Loading resource " +:+ pretty (Local.msgId msg) +:+ " "
                       +:+ description +:+ " timed out."))])
              = length (Local.deferredHeap s)) as Hlen.
      { f_equal. by rewrite <- Hs at 2. }
      rewrite length_app in Hlen. simpl in Hlen. lia.
  - intros Hnz description. unfold Local.waitForLocalResource, Local.NOOP.
    destruct (N.eqb_spec (Local.msgId msg) 0) as [|_]; [done|]. by rewrite Hentry.
Qed.

(** X9.  A creation record whose type has no registered loader fails in
    its first turn: the reply says not loaded with the error "No registered
    resource loader for <type>", the same text is on the info object that
    [getLocalResource] returns for the id, and the deferred of the id, with
    the consumers that wait on it, is rejected with that error. *)
Theorem loadResource_without_loader
    (s : Local.State) (msg : Local.CreateResourceMessage) :
  Local.resourceLoaders s !! Local.msgResourceType msg = None →
  let e := Deferred.Error
             ("No registered resource loader for " +:+ Local.msgResourceType msg) in
  Local.outbox (Local.loadResource s msg)
  = Local.outbox s
    ++ [ {| Local.loadedId := Local.msgId msg; Local.loadedFlag := false;
            Local.loadedError :=
              Some ("No registered resource loader for " +:+ Local.msgResourceType msg) |} ]
  ∧ Local.getLocalResource (Local.loadResource s msg) (Local.msgId msg)
    = Some (Local.withError (announcedInfo msg)
              ("No registered resource loader for " +:+ Local.msgResourceType msg))
  ∧ (∃ t, Local.tasks (Local.loadResource s msg) = Local.tasks s ++ [t]
          ∧ Local.phase t = Local.Failed)
  ∧ (∀ h d, Local.deferredResources s !! Local.msgId msg = Some h →
            Local.deferredHeap s !! h = Some d →
            Local.deferredHeap (Local.loadResource s msg) !! h
            = Some (Deferred.reject d e))
  ∧ (Local.deferredResources s !! Local.msgId msg = None →
     ∃ d, Local.deferredHeap (Local.loadResource s msg) !! length (Local.deferredHeap s)
          = Some d
          ∧ Deferred.settlement d = Deferred.Rejected e).
Proof.
  intros Hnone e.
  assert (Deferred.messageOf e
          = "No registered resource loader for " +:+ Local.msgResourceType msg) as Hmsg.
  { unfold Deferred.messageOf. by case_bool_decide. }
  unfold Local.loadResource.
  pose proof (announce_books s msg) as Hbooks.
  pose proof (announce_deferred s msg) as (_ & _ & Hold).
  destruct (Local.announce s msg) as [s3 h3]. cbn [fst snd] in *.
  injection Hbooks as Hids Hinfos Hheap Hbytype Hloaders Htasks Houtbox Hdisposed.
  rewrite Hloaders, Hnone, failLoad_eq. unfold Local.getLocalResource. cbn.
  rewrite Hinfos, Hheap, Htasks, Houtbox, lookup_insert_eq. simpl.
  rewrite lookup_app_r by done. rewrite Nat.sub_diag. simpl.
  rewrite !alter_app_r_alt, !Nat.sub_diag by done. simpl.
  fold e. rewrite Hmsg.
  split_and!.
  - done.
  - by rewrite list_lookup_middle.
  - by eexists.
  - intros h d Hh Hd. rewrite Hh in Hold. destruct Hold as [-> ->].
    by rewrite list_lookup_alter_eq, Hd.
  - intros Hfresh. rewrite Hfresh in Hold. destruct Hold as [-> ->].
    rewrite list_lookup_alter_eq, list_lookup_middle by done. simpl.
    eexists. split; [done|]. done.
Qed.

End Announcing.

Lemma loadResource_shares_the_deferred_of_waiters_witness :
  ∃ t,
    Local.tasks (Local.loadResource
                   (Local.waitForLocalResource Local.create 3 "material").1
                   Examples.messageA) = [t]
    ∧ Local.taskDeferred t = 0%nat.
Proof.
  destruct (loadResource_shares_the_deferred_of_waiters
              (Local.waitForLocalResource Local.create 3 "material").1 Examples.messageA)
    as (t & Ht & _ & _ & Hwait & _).
  exists t. split; [exact Ht|].
  apply (Hwait "mesh"). reflexivity.
Defined.

Lemma loadResource_without_loader_witness :
  Local.outbox (Local.loadResource Local.create Examples.messageA)
  = [ {| Local.loadedId := 3; Local.loadedFlag := false;
         Local.loadedError := Some "No registered resource loader for mesh" |} ].
Proof.
  destruct (loadResource_without_loader Local.create Examples.messageA) as [Hout _].
  - reflexivity.
  - exact Hout.
Defined.

(** ** What the disposal system removes and what it keeps *)

Section Sweep.
Import Statements.

Lemma disposeAt_getResourceDisposed (s : Local.State) (i : nat) (resourceId : N) :
  Local.getResourceDisposed (Local.disposeAt s i) resourceId
  = if decide (Local.resourceIds s !! i = Some resourceId) then false
    else Local.getResourceDisposed s resourceId.
Proof.
  destruct (decide (Local.resourceIds s !! i = Some resourceId)) as [Hi|Hi].
  - destruct (Local.getResourceDisposed s resourceId) eqn:Hd.
    + destruct (disposeAt_disposed s i resourceId Hi Hd) as (Hinfos & _).
      unfold Local.getResourceDisposed. by rewrite Hinfos, lookup_delete_eq.
    + rewrite disposeAt_skipped; [done|]. intros rid. rewrite Hi. by intros [= <-].
  - by destruct (disposeAt_below s i resourceId Hi) as (_ & -> & _).
Qed.

Lemma disposeAt_resourceIds (s : Local.State) (i : nat) :
  Local.resourceIds (Local.disposeAt s i)
  = match Local.resourceIds s !! i with
    | Some resourceId =>
        if Local.getResourceDisposed s resourceId then delete i (Local.resourceIds s)
        else Local.resourceIds s
    | None => Local.resourceIds s
    end.
Proof.
  destruct (Local.resourceIds s !! i) as [rid|] eqn:Hi;
    [|rewrite disposeAt_skipped; [done|by rewrite Hi]].
  destruct (Local.getResourceDisposed s rid) eqn:Hd;
    [|rewrite disposeAt_skipped; [done|rewrite Hi; by intros ? [= <-]]].
  by destruct (disposeAt_disposed s i rid Hi Hd) as (_ & _ & -> & _).
Qed.

Lemma disposeBelow_clean (n : nat) :
  ∀ s,
    (∀ j resourceId, (n ≤ j)%nat → Local.resourceIds s !! j = Some resourceId →
                     Local.getResourceDisposed s resourceId = false) →
    ∀ resourceId, resourceId ∈ Local.resourceIds (Local.disposeBelow s n) →
                  Local.getResourceDisposed (Local.disposeBelow s n) resourceId = false.
Proof.
  induction n as [|i IH]; intros s Habove; simpl.
  - intros resourceId Hin. apply list_elem_of_lookup in Hin as [j Hj].
    apply (Habove j); [lia|done].
  - apply IH. intros j resourceId Hj. rewrite disposeAt_getResourceDisposed.
    destruct (decide (Local.resourceIds s !! i = Some resourceId)) as [Hi|Hi]; [done|].
    rewrite disposeAt_resourceIds.
    destruct (Local.resourceIds s !! i) as [rid|] eqn:Ei.
    + destruct (Local.getResourceDisposed s rid) eqn:Hd.
      * rewrite list_lookup_delete_ge by done. apply Habove. lia.
      * intros Hlook. destruct (decide (j = i)) as [->|Hne].
        -- rewrite Ei in Hlook. congruence.
        -- apply (Habove j); [lia|done].
    + intros Hlook. destruct (decide (j = i)) as [->|Hne]; [congruence|].
      apply (Habove j); [lia|done].
Qed.

(** X10.  After the disposal system has run, none of the resources that
    are still in [resourceIds] is reported disposed. *)
Theorem disposal_leaves_no_disposed_resource (s : Local.State) (resourceId : N) :
  resourceId ∈ Local.resourceIds (Local.ResourceDisposalSystem s) →
  Local.getResourceDisposed (Local.ResourceDisposalSystem s) resourceId = false.
Proof.
  unfold Local.ResourceDisposalSystem. apply disposeBelow_clean.
  intros j rid Hj Hlook. apply lookup_lt_Some in Hlook. lia.
Qed.

Lemma disposeBelow_identity (n : nat) (s : Local.State) :
  (∀ resourceId, resourceId ∈ Local.resourceIds s →
                 Local.getResourceDisposed s resourceId = false) →
  Local.disposeBelow s n = s.
Proof.
  intros Hclean. induction n as [|i IH]; simpl; [done|].
  rewrite disposeAt_skipped; [done|].
  intros rid Hi. apply Hclean. by eapply list_elem_of_lookup_2.
Qed.

(** X11.  The disposal system is idempotent: a second run right after the
    first one, with no status written in between, changes nothing. *)
Theorem disposal_is_idempotent (s : Local.State) :
  Local.ResourceDisposalSystem (Local.ResourceDisposalSystem s)
  = Local.ResourceDisposalSystem s.
Proof.
  unfold Local.ResourceDisposalSystem at 1. apply disposeBelow_identity.
  unfold Local.ResourceDisposalSystem. apply disposeBelow_clean.
  intros j rid Hj Hlook. apply lookup_lt_Some in Hlook. lia.
Qed.

Lemma take_S_elem_of (ids : list N) (i : nat) (rid resourceId : N) :
  ids !! i = Some rid →
  resourceId ∈ take (S i) ids ↔ resourceId ∈ take i ids ∨ resourceId = rid.
Proof.
  intros Hi. rewrite (take_S_r _ _ rid) by done.
  rewrite elem_of_app, list_elem_of_singleton. done.
Qed.

Lemma disposeBelow_maps (n : nat) (resourceId : N) :
  ∀ s,
    let swept :=
      bool_decide (resourceId ∈ take n (Local.resourceIds s))
      && Local.getResourceDisposed s resourceId in
    Local.resourceInfos (Local.disposeBelow s n) !! resourceId
    = (if swept then None else Local.resourceInfos s !! resourceId)
    ∧ Local.deferredResources (Local.disposeBelow s n) !! resourceId
      = (if swept then None else Local.deferredResources s !! resourceId).
Proof.
  induction n as [|i IH]; intros s; cbn zeta.
  - rewrite take_0. rewrite bool_decide_eq_false_2 by apply not_elem_of_nil. done.
  - cbn [Local.disposeBelow]. specialize (IH (Local.disposeAt s i)). cbn zeta in IH.
    destruct IH as [-> ->].
    rewrite disposeAt_getResourceDisposed, disposeAt_resourceIds.
    destruct (Local.resourceIds s !! i) as [rid|] eqn:Ei.
    + pose proof (lookup_lt_Some _ _ _ Ei) as Hlt.
      rewrite (bool_decide_ext _ _ (take_S_elem_of _ _ _ resourceId Ei)).
      destruct (Local.getResourceDisposed s rid) eqn:Hd.
      * destruct (disposeAt_disposed s i rid Ei Hd) as (Hinfos & _ & _ & Hmap & _).
        rewrite Hinfos, Hmap.
        assert (take i (delete i (Local.resourceIds s)) = take i (Local.resourceIds s))
          as ->.
        { rewrite delete_take_drop. rewrite take_app_le by (rewrite length_take; lia).
          rewrite take_take. f_equal. lia. }
        destruct (decide (Some rid = Some resourceId)) as [[= ->]|Hne].
        -- rewrite andb_false_r, !lookup_delete_eq.
           rewrite bool_decide_eq_true_2 by (by right). by rewrite Hd.
        -- assert (rid ≠ resourceId) as Hne' by congruence.
           rewrite !lookup_delete_ne by done.
           rewrite (bool_decide_ext (resourceId ∈ take i (Local.resourceIds s)
                                      ∨ resourceId = rid)
                      (resourceId ∈ take i (Local.resourceIds s))); [done|].
           split; [|by left]. by intros [|].
      * rewrite disposeAt_skipped by (rewrite Ei; by intros ? [= <-]).
        destruct (decide (Some rid = Some resourceId)) as [[= ->]|Hne].
        -- by rewrite Hd, !andb_false_r.
        -- assert (rid ≠ resourceId) as Hne' by congruence.
           rewrite (bool_decide_ext (resourceId ∈ take i (Local.resourceIds s)
                                      ∨ resourceId = rid)
                      (resourceId ∈ take i (Local.resourceIds s))); [done|].
           split; [|by left]. by intros [|].
    + rewrite disposeAt_skipped by (by rewrite Ei).
      apply lookup_ge_None in Ei.
      rewrite !(take_ge (Local.resourceIds s)) by lia. done.
Qed.

(** X12.  What the disposal system does to the two maps, id by id: the
    info and the deferred of an id that is in [resourceIds] and reported
    disposed are removed, so [getLocalResource] finds nothing for it; the
    entries of every other id are left as they were, and so is what
    [getLocalResource] returns for it. *)
Theorem disposal_removes_exactly_the_disposed (s : Local.State) (resourceId : N) :
  let swept :=
    bool_decide (resourceId ∈ Local.resourceIds s)
    && Local.getResourceDisposed s resourceId in
  Local.getLocalResource (Local.ResourceDisposalSystem s) resourceId
  = (if swept then None else Local.getLocalResource s resourceId)
  ∧ Local.deferredResources (Local.ResourceDisposalSystem s) !! resourceId
    = (if swept then None else Local.deferredResources s !! resourceId).
Proof.
  cbn zeta. unfold Local.ResourceDisposalSystem, Local.getLocalResource.
  destruct (disposeBelow_maps (length (Local.resourceIds s)) resourceId s) as [Hinfos Hmap].
  cbn zeta in Hinfos, Hmap. rewrite take_ge in Hinfos, Hmap by done.
  rewrite Hinfos, Hmap.
  destruct (disposeBelow_books (length (Local.resourceIds s)) s) as (-> & _).
  by destruct (_ && _).
Qed.

Lemma filter_ext_elem_of {A : Type} (P Q : A → Prop)
    `{!∀ x, Decision (P x), !∀ x, Decision (Q x)} (l : list A) :
  (∀ x, x ∈ l → P x ↔ Q x) → filter P l = filter Q l.
Proof.
  induction l as [|a l IH]; intros Hiff; [done|].
  rewrite !filter_cons. rewrite IH by (intros x Hx; apply Hiff; by right).
  destruct (decide (P a)) as [Hp|Hp], (decide (Q a)) as [Hq|Hq]; try done.
  - destruct Hq. apply Hiff; [left|done].
  - destruct Hp. apply Hiff; [left|done].
Qed.

Lemma disposeBelow_resourceIds (n : nat) :
  ∀ s, NoDup (Local.resourceIds s) →
       Local.resourceIds (Local.disposeBelow s n)
       = filter (λ resourceId, Local.getResourceDisposed s resourceId = false)
           (take n (Local.resourceIds s))
         ++ drop n (Local.resourceIds s).
Proof.
  induction n as [|i IH]; intros s Hnd; [done|].
  cbn [Local.disposeBelow].
  destruct (Local.resourceIds s !! i) as [rid|] eqn:Ei.
  - pose proof (lookup_lt_Some _ _ _ Ei) as Hlt.
    rewrite (take_S_r _ _ rid) by done. rewrite filter_app, filter_cons, filter_nil.
    destruct (Local.getResourceDisposed s rid) eqn:Hd.
    + rewrite decide_False by done. rewrite app_nil_r.
      assert (rid ∉ take i (Local.resourceIds s)) as Hnin.
      { rewrite <- (take_drop_middle _ _ _ Ei) in Hnd.
        apply NoDup_app in Hnd as (_ & Hdisj & _). intros Hin.
        apply (Hdisj rid Hin). left. }
      rewrite IH.
      * rewrite disposeAt_resourceIds, Ei, Hd.
        rewrite delete_take_drop. rewrite take_app_le by (rewrite length_take; lia).
        rewrite take_take, Nat.min_l by lia.
        rewrite drop_app_ge by (rewrite length_take; lia).
        rewrite length_take, Nat.min_l, Nat.sub_diag by lia. simpl. f_equal.
        apply filter_ext_elem_of. intros resourceId Hin.
        rewrite disposeAt_getResourceDisposed.
        rewrite decide_False; [done|]. rewrite Ei. intros [= ->]. done.
      * rewrite disposeAt_resourceIds, Ei, Hd.
        eapply sublist_NoDup; [done|apply sublist_delete].
    + rewrite decide_True by done.
      rewrite disposeAt_skipped by (rewrite Ei; by intros ? [= <-]).
      rewrite IH by done. rewrite <- app_assoc. simpl.
      by rewrite (drop_S _ rid i).
  - rewrite disposeAt_skipped by (by rewrite Ei).
    rewrite IH by done. apply lookup_ge_None in Ei.
    rewrite !(take_ge (Local.resourceIds s)) by lia.
    by rewrite !(drop_ge (Local.resourceIds s)) by lia.
Qed.

(** X13.  When the ids of [resourceIds] are distinct, the disposal system
    leaves in [resourceIds] exactly the ids that were not reported disposed,
    in their order. *)
Theorem disposal_keeps_the_other_ids (s : Local.State) :
  NoDup (Local.resourceIds s) →
  Local.resourceIds (Local.ResourceDisposalSystem s) = keptIds s.
Proof.
  intros Hnd. unfold Local.ResourceDisposalSystem, keptIds.
  rewrite disposeBelow_resourceIds by done.
  by rewrite take_ge, drop_ge, app_nil_r.
Qed.

End Sweep.

Lemma disposal_leaves_no_disposed_resource_witness :
  Local.getResourceDisposed (Local.ResourceDisposalSystem Examples.disposedState) 3 = false.
Proof.
  apply disposal_leaves_no_disposed_resource. vm_compute. left.
Defined.

Lemma disposal_keeps_the_other_ids_witness :
  Local.resourceIds (Local.ResourceDisposalSystem Examples.disposedState) = [3].
Proof.
  rewrite disposal_keeps_the_other_ids.
  - reflexivity.
  - apply (bool_decide_unpack _). vm_compute. exact I.
Defined.

(** ** Disposing a resource of the script manager *)

Section ScriptDispose.
Context {Ctx Inst : Type} `{!ResourceGame Ctx Inst}.
Import Statements.

(** What [disposeResource] does once it has found the resource and the
    transform data of its type. *)
Lemma script_dispose_found (m : Script.ScriptResourceManager Ctx Inst) (rid : N)
    (index : nat) (resource : RemoteResource) (transform : Script.ResourceTransformData) :
  list_find (λ r, resourceId r = rid) (Script.resources m) = Some (index, resource) →
  Script.resourceTransformData m !! resourceType resource = Some transform →
  Script.disposeResource m rid = Thrown m "TypeError: resourceStore is undefined"
  ∨ ∃ c,
      Script.disposeResource m rid
      = match Script.instance m with
        | None =>
            Thrown (Script.withCtx m c) "Called deallocate before instance was set."
        | Some i =>
            Returned
              {| Script.ctx := c; Script.U8Heap := Script.U8Heap m;
                 Script.instance := Some (websg_deallocate i (ptr resource));
                 Script.ptrToResourceId :=
                   delete (ptr resource) (Script.ptrToResourceId m);
                 Script.resourceStorage := delete rid (Script.resourceStorage m);
                 Script.resources := delete index (Script.resources m);
                 Script.resourceTransformData := Script.resourceTransformData m |}
              true
        end.
Proof.
  intros Hfind Ht. unfold Script.disposeResource. rewrite Hfind, Ht.
  assert (∀ m1, (∃ c, m1 = Script.withCtx m c) →
    ∃ c,
      match Script.deallocate m1 (ptr resource) with
      | Thrown m2 msg => Thrown m2 msg
      | Returned m2 _ =>
          Returned
            (Script.withResourceStorage
               (Script.withResources
                  (Script.withPtrToResourceId m2
                     (delete (ptr resource) (Script.ptrToResourceId m2)))
                  (delete index (Script.resources m2)))
               (delete rid (Script.resourceStorage m2)))
            true
      end
      = match Script.instance m with
        | None =>
            Thrown (Script.withCtx m c) "Called deallocate before instance was set."
        | Some i =>
            Returned
              {| Script.ctx := c; Script.U8Heap := Script.U8Heap m;
                 Script.instance := Some (websg_deallocate i (ptr resource));
                 Script.ptrToResourceId :=
                   delete (ptr resource) (Script.ptrToResourceId m);
                 Script.resourceStorage := delete rid (Script.resourceStorage m);
                 Script.resources := delete index (Script.resources m);
                 Script.resourceTransformData := Script.resourceTransformData m |}
              true
        end) as Hrest.
  { intros m1 [c ->]. exists c. unfold Script.deallocate. simpl.
    by destruct (Script.instance m). }
  destruct (Script.resourceStorage m !! resourceId resource) as [store|] eqn:Hst.
  - right.
    destruct (Hrest (Script.releaseRefs m store (Script.refOffsets transform)))
      as [c Hc]; [apply releaseRefs_only_ctx|].
    exists c. rewrite <- Hc. by destruct (Script.refOffsets transform).
  - destruct (Script.refOffsets transform); [|by left].
    right. destruct (Hrest m) as [c Hc]; [exists (Script.ctx m); by destruct m|].
    by exists c.
Qed.

Lemma script_dispose_returned
    (m m' : Script.ScriptResourceManager Ctx Inst) (rid : N) :
  Script.disposeResource m rid = Returned m' true →
  ∃ index resource i,
    Script.resources m !! index = Some resource
    ∧ resourceId resource = rid
    ∧ (∀ j r, (j < index)%nat → Script.resources m !! j = Some r → resourceId r ≠ rid)
    ∧ Script.resources m' = delete index (Script.resources m)
    ∧ Script.ptrToResourceId m' = delete (ptr resource) (Script.ptrToResourceId m)
    ∧ Script.resourceStorage m' = delete rid (Script.resourceStorage m)
    ∧ Script.instance m = Some i
    ∧ Script.instance m' = Some (websg_deallocate i (ptr resource))
    ∧ Script.U8Heap m' = Script.U8Heap m
    ∧ Script.resourceTransformData m' = Script.resourceTransformData m.
Proof.
  intros Hret.
  destruct (list_find (λ r, resourceId r = rid) (Script.resources m))
    as [[index resource]|] eqn:Hfind;
    [|unfold Script.disposeResource in Hret; by rewrite Hfind in Hret].
  destruct (Script.resourceTransformData m !! resourceType resource)
    as [transform|] eqn:Ht;
    [|unfold Script.disposeResource in Hret; by rewrite Hfind, Ht in Hret].
  destruct (script_dispose_found m rid index resource transform Hfind Ht)
    as [Hthrow|[c Hc]]; [congruence|].
  rewrite Hc in Hret. destruct (Script.instance m) as [i|] eqn:Hi; [|done].
  injection Hret as <-.
  apply list_find_Some in Hfind as (Hlook & Hid & Hfirst).
  exists index, resource, i. split_and!; try done.
  intros j r Hj Hr. by apply (Hfirst j r).
Qed.

(** X14.  What a successful [disposeResource] removes and what it keeps:
    the first resource of the list that carries the id is taken out of the
    list, the pointer table loses the entry of its pointer and the storage the
    entry of the id, its memory is handed back to [websg_deallocate]; the
    other resources, the heap and the transform data are as they were. *)
Theorem script_disposeResource_removes_one_resource
    (m m' : Script.ScriptResourceManager Ctx Inst) (rid : N) :
  Script.disposeResource m rid = Returned m' true →
  ∃ index resource i,
    Script.resources m !! index = Some resource
    ∧ resourceId resource = rid
    ∧ (∀ j r, (j < index)%nat → Script.resources m !! j = Some r → resourceId r ≠ rid)
    ∧ Script.resources m' = delete index (Script.resources m)
    ∧ Script.ptrToResourceId m' = delete (ptr resource) (Script.ptrToResourceId m)
    ∧ Script.resourceStorage m' = delete rid (Script.resourceStorage m)
    ∧ Script.instance m = Some i
    ∧ Script.instance m' = Some (websg_deallocate i (ptr resource))
    ∧ Script.U8Heap m' = Script.U8Heap m
    ∧ Script.resourceTransformData m' = Script.resourceTransformData m.
Proof. apply script_dispose_returned. Qed.

(** X15.  A [disposeResource] that throws has removed nothing: the
    resource list, the pointer table, the storage, the heap and the instance
    are as they were.  Only the game context can differ, and only when the
    exception is the one of [deallocate] on a manager without instance: the
    references held by the resource have then been released already. *)
Theorem script_disposeResource_throws_before_removing
    (m m' : Script.ScriptResourceManager Ctx Inst) (rid : N) (msg : string) :
  Script.disposeResource m rid = Thrown m' msg →
  Script.resources m' = Script.resources m
  ∧ Script.ptrToResourceId m' = Script.ptrToResourceId m
  ∧ Script.resourceStorage m' = Script.resourceStorage m
  ∧ Script.U8Heap m' = Script.U8Heap m
  ∧ Script.instance m' = Script.instance m
  ∧ (m' = m
     ∨ msg = "Called deallocate before instance was set." ∧ Script.instance m = None).
Proof.
  intros Hret.
  destruct (list_find (λ r, resourceId r = rid) (Script.resources m))
    as [[index resource]|] eqn:Hfind;
    [|unfold Script.disposeResource in Hret; by rewrite Hfind in Hret].
  destruct (Script.resourceTransformData m !! resourceType resource)
    as [transform|] eqn:Ht.
  - destruct (script_dispose_found m rid index resource transform Hfind Ht)
      as [Hthrow|[c Hc]].
    + rewrite Hthrow in Hret. injection Hret as <- _. split_and!; try done. by left.
    + rewrite Hc in Hret. destruct (Script.instance m) as [i|] eqn:Hi; [done|].
      injection Hret as <- <-. split_and!; try done. by right.
  - unfold Script.disposeResource in Hret. rewrite Hfind, Ht in Hret.
    injection Hret as <- _. split_and!; try done. by left.
Qed.

(** X16.  The import [dispose_resource] answers [0] and changes nothing
    for a pointer that the table does not know; and when the resource ids of
    the list are distinct it answers [1] at most once for a pointer: after a
    call that answered [1], a second call on the same pointer answers [0] and
    changes nothing. *)
Theorem dispose_resource_answers_once
    (m : Script.ScriptResourceManager Ctx Inst) (p : N) :
  (truthy (Script.ptrToResourceId m !! p) = false →
   Script.dispose_resource m p = Returned m 0)
  ∧ (∀ m', NoDup (resourceId <$> Script.resources m) →
           Script.dispose_resource m p = Returned m' 1 →
           Script.dispose_resource m' p = Returned m' 0).
Proof.
  split.
  - intros Hf. unfold Script.dispose_resource. by rewrite Hf.
  - intros m' Hnd. unfold Script.dispose_resource at 1.
    destruct (truthy (Script.ptrToResourceId m !! p)) eqn:Hp; simpl; [|done].
    destruct (Script.ptrToResourceId m !! p) as [rid|] eqn:Hrid; [|done]. simpl.
    destruct (Script.disposeResource m rid) as [m1 [|]|m1 msg] eqn:Hd; try done.
    intros [= <-].
    pose proof (script_dispose_removes m m1 rid Hnd Hd) as Hgone.
    destruct (script_dispose_returned m m1 rid Hd)
      as (index & resource & i & _ & _ & _ & _ & Htable & _).
    unfold Script.dispose_resource.
    destruct (truthy (Script.ptrToResourceId m1 !! p)) eqn:Hp1; simpl; [|done].
    destruct (Script.ptrToResourceId m1 !! p) as [rid'|] eqn:Hrid'; [|done]. simpl.
    assert (rid' = rid) as ->.
    { rewrite Htable in Hrid'.
      apply lookup_delete_Some in Hrid' as [_ Hrid']. congruence. }
    by rewrite (script_dispose_absent m1 rid Hgone).
Qed.

End ScriptDispose.

(** ** Fields of the script manager *)

Section ScriptFields.
Context {Ctx Inst : Type} `{!ResourceGame Ctx Inst}.
Import Statements.

Lemma typedArraySetAt_Some (target source result : list byte) (offset : nat) :
  typedArraySetAt target source offset = Some result →
  (offset + length source ≤ length target)%nat
  ∧ length result = length target
  ∧ take (length source) (drop offset result) = source
  ∧ ∀ b, (b < offset ∨ offset + length source ≤ b)%nat → result !! b = target !! b.
Proof.
  unfold typedArraySetAt. case_decide as Hfit; [|done]. intros [= <-].
  split; [done|]. split; [|split].
  - rewrite !length_app, length_take, length_drop. lia.
  - rewrite drop_app_length'; [|rewrite length_take; lia].
    by rewrite take_app_length.
  - intros b [Hb|Hb].
    + rewrite lookup_app_l by (rewrite length_take; lia). by rewrite lookup_take_lt.
    + rewrite lookup_app_r by (rewrite length_take; lia).
      rewrite lookup_app_r by (rewrite length_take; lia).
      rewrite lookup_drop, length_take. f_equal. lia.
Qed.

Lemma script_getRef_found (m : Script.ScriptResourceManager Ctx Inst)
    (store : list N) (index : nat) (p resourceId : N) :
  u32Get store index = Some p →
  Script.ptrToResourceId m !! p = Some resourceId → resourceId ≠ 0 →
  Script.getRefArrayItem m index store = getRemoteResource (Script.ctx m) resourceId.
Proof.
  intros Hp Hid Hnz. unfold Script.getRefArrayItem. rewrite Hp. simpl. rewrite Hid.
  by rewrite truthy_Some.
Qed.

Lemma countRefs_only_ctx (m : Script.ScriptResourceManager Ctx Inst)
    (cur : option N) (next : N) :
  ∃ c, Script.countRefs m cur next = Script.withCtx m c.
Proof.
  unfold Script.countRefs, Script.addRef, Script.removeRef.
  destruct (_ && _), (_ && _); simpl;
    first [by eexists | exists (Script.ctx m); by destruct m].
Qed.

(** X17.  A reference field of the script manager reads back what was
    stored in it: after [setRef] (or [setRefArrayItem]) with a resource whose
    pointer the table maps to its non-zero id, [getRef] (or [getRefArrayItem]
    at that index) looks up that id; and after the field has been cleared
    [getRef] finds nothing, provided that the table has no entry for the
    pointer [0]. *)
Theorem script_getRef_after_setRef
    (m : Script.ScriptResourceManager Ctx Inst) (v : RemoteResource) (store : list N)
    (backRef : bool) (index : nat) :
  Script.ptrToResourceId m !! ptr v = Some (resourceId v) →
  resourceId v ≠ 0 → ptr v < 2 ^ 32 → (index < length store)%nat →
  Script.getRefArrayItem (Script.setRefArrayItem m index (Some v) store).1 index
    (Script.setRefArrayItem m index (Some v) store).2
  = getRemoteResource (Script.ctx (Script.setRefArrayItem m index (Some v) store).1)
      (resourceId v)
  ∧ (index = 0%nat →
     Script.getRef (Script.setRef m (Some v) store backRef).1
       (Script.setRef m (Some v) store backRef).2
     = getRemoteResource (Script.ctx (Script.setRef m (Some v) store backRef).1)
         (resourceId v))
  ∧ (index = 0%nat → Script.ptrToResourceId m !! 0 = None →
     Script.getRef (Script.setRef m None store backRef).1
       (Script.setRef m None store backRef).2 = None).
Proof.
  intros Htable Hnz Hptr Hindex.
  assert (u32Get (u32Set store index (ptr v)) index = Some (ptr v)) as Hget.
  { rewrite u32Set_lookup_eq by done. by rewrite toUint32_small. }
  split; [|split].
  - unfold Script.setRefArrayItem. cbn [fst snd].
    destruct (countRefs_only_ctx m (u32Get store index) (Script.nextResourceIdOf (Some v)))
      as [c ->].
    by apply (script_getRef_found _ _ _ (ptr v)).
  - intros ->. unfold Script.setRef. cbn [fst snd].
    assert (∃ c, (if negb backRef
                  then Script.countRefs m (u32Get store 0)
                         (Script.nextResourceIdOf (Some v))
                  else m) = Script.withCtx m c) as [c ->].
    { destruct backRef; simpl; [exists (Script.ctx m); by destruct m|].
      apply countRefs_only_ctx. }
    change (Script.getRef ?m ?s) with (Script.getRefArrayItem m 0 s).
    by apply (script_getRef_found _ _ _ (ptr v)).
  - intros -> Hzero. unfold Script.setRef. cbn [fst snd].
    assert (∃ c, (if negb backRef
                  then Script.countRefs m (u32Get store 0) (Script.nextResourceIdOf None)
                  else m) = Script.withCtx m c) as [c ->].
    { destruct backRef; simpl; [exists (Script.ctx m); by destruct m|].
      apply countRefs_only_ctx. }
    unfold Script.getRef. rewrite u32Set_lookup_eq by done. simpl.
    change (toUint32 0) with 0. by rewrite Hzero.
Qed.

Lemma heap_set_length (heap : list byte) (store : HeapField.Store) (k : nat) (v : N) :
  length (HeapField.set heap store k v) = length heap.
Proof. unfold HeapField.set. case_decide; [apply wordSet_length|done]. Qed.

Lemma heap_set_lookup_ne (heap : list byte) (store : HeapField.Store) (k : nat) (v : N)
    (b : nat) :
  (b < 4 * HeapField.heapIndex store k ∨ 4 * HeapField.heapIndex store k + 4 ≤ b)%nat →
  HeapField.set heap store k v !! b = heap !! b.
Proof. intros Hb. unfold HeapField.set. case_decide; [by apply wordSet_lookup_ne|done]. Qed.

Lemma heap_get_set_eq (heap : list byte) (store : HeapField.Store) (k : nat) (v : N) :
  (k < HeapField.storeLength store)%nat →
  (4 * HeapField.heapIndex store k + 4 ≤ length heap)%nat →
  HeapField.get (HeapField.set heap store k v) store k = Some (toUint32 v).
Proof.
  intros Hk Hfit. unfold HeapField.get, HeapField.set. rewrite !decide_True by done.
  by apply wordGet_wordSet_eq.
Qed.

Lemma heap_get_set_ne (heap : list byte) (store : HeapField.Store) (k k' : nat) (v : N) :
  k ≠ k' → HeapField.get (HeapField.set heap store k v) store k' = HeapField.get heap store k'.
Proof.
  intros Hne. unfold HeapField.get, HeapField.set.
  case_decide; [|done]. case_decide; [|done].
  apply wordGet_wordSet_ne. unfold HeapField.heapIndex. lia.
Qed.

Lemma heap_get_ext (heap heap' : list byte) (store : HeapField.Store) (k : nat) :
  (∀ b, (4 * HeapField.heapIndex store k ≤ b < 4 * HeapField.heapIndex store k + 4)%nat →
        heap' !! b = heap !! b) →
  HeapField.get heap' store k = HeapField.get heap store k.
Proof.
  intros Hext. unfold HeapField.get. case_decide; [|done].
  rewrite !wordGet_eq_lookups. by rewrite !Hext by lia.
Qed.

Lemma take_drop_lookup_ext (heap heap' : list byte) (p n : nat) :
  (∀ b, (p ≤ b < p + n)%nat → heap' !! b = heap !! b) →
  take n (drop p heap') = take n (drop p heap).
Proof.
  intros Hext. apply list_eq. intros i. destruct (decide (i < n)%nat).
  - rewrite !lookup_take_lt by done. rewrite !lookup_drop. apply Hext. lia.
  - by rewrite !lookup_take_ge by lia.
Qed.

(** A reference written with [setRef] through a store on the heap is the
    pointer that [commitResources] finds there. *)
Lemma heap_setRef_read_back (m : Script.ScriptResourceManager Ctx Inst)
    (value : option RemoteResource) (store : HeapField.Store) (backRef : bool) :
  (0 < HeapField.storeLength store)%nat →
  (4 * HeapField.heapIndex store 0 + 4 ≤ length (Script.U8Heap m))%nat →
  HeapField.get (Script.U8Heap (HeapField.setRef m value store backRef)) store 0
  = Some (toUint32 (Script.ptrOf value))
  ∧ Script.ctx (HeapField.setRef m value store backRef)
    = Script.ctx (Script.setRef m value
                    (default [] ((λ w, [w]) <$> HeapField.get (Script.U8Heap m) store 0))
                    backRef).1.
Proof.
  intros Hlen Hfit. unfold HeapField.setRef, Script.setRef.
  destruct (HeapField.get (Script.U8Heap m) store 0) as [w|] eqn:Hw.
  2:{ unfold HeapField.get in Hw. rewrite decide_True in Hw by done.
      rewrite wordGet_eq_lookups in Hw.
      destruct (lookup_lt_is_Some_2 (Script.U8Heap m) (4 * HeapField.heapIndex store 0))
        as [b0 Hb0]; [lia|].
      destruct (lookup_lt_is_Some_2 (Script.U8Heap m) (4 * HeapField.heapIndex store 0 + 1))
        as [b1 Hb1]; [lia|].
      destruct (lookup_lt_is_Some_2 (Script.U8Heap m) (4 * HeapField.heapIndex store 0 + 2))
        as [b2 Hb2]; [lia|].
      destruct (lookup_lt_is_Some_2 (Script.U8Heap m) (4 * HeapField.heapIndex store 0 + 3))
        as [b3 Hb3]; [lia|].
      by rewrite Hb0, Hb1, Hb2, Hb3 in Hw. }
  simpl. change (u32Get [w] 0) with (Some w).
  assert (∃ c, (if negb backRef
                then Script.countRefs m (Some w) (Script.nextResourceIdOf value)
                else m) = Script.withCtx m c) as [c ->].
  { destruct backRef; simpl; [exists (Script.ctx m); by destruct m|].
    apply countRefs_only_ctx. }
  simpl. split; [|done]. by apply heap_get_set_eq.
Qed.

(** What the setters call on the game context, the instance and the pointer
    table is the same for a store on the heap and for a store of its own
    that holds the same words: the two differ in the heap only. *)
Lemma heap_setString_agrees (m : Script.ScriptResourceManager Ctx Inst) (value : string)
    (store : HeapField.Store) (w : N) :
  HeapField.get (Script.U8Heap m) store 0 = Some w →
  match HeapField.setString m value store, Script.setString m value [w] with
  | Returned m1 _, Returned (m2, _) _ => Script.withHeap m1 [] = Script.withHeap m2 []
  | Thrown m1 msg1, Thrown (m2, _) msg2 =>
      Script.withHeap m1 [] = Script.withHeap m2 [] ∧ msg1 = msg2
  | _, _ => False
  end.
Proof.
  intros Hw. unfold HeapField.setString, Script.setString.
  unfold HeapField.currentString, Script.currentString. rewrite Hw.
  change (u32Get [w] 0) with (Some w).
  destruct (negb _); [|done].
  assert (∃ c, (if truthy (Some w) then Script.removeRef m (default 0 (Some w)) else m)
               = Script.withCtx m c) as [c ->].
  { destruct (truthy (Some w)); [by eexists|exists (Script.ctx m); by destruct m]. }
  case_bool_decide; [|done].
  unfold Script.allocate. cbn [Script.instance Script.withCtx].
  destruct (Script.instance m) as [i|]; [|done].
  destruct (websg_allocate i _) as [i' p].
  cbn [Script.U8Heap Script.withInstance Script.withCtx].
  destruct (typedArraySetAt _ _ _) as [heap|]; [|done].
  cbn [Script.ctx Script.withHeap Script.withInstance Script.withCtx].
  by destruct (createStringResource _ _ _).
Qed.

Lemma heap_setArrayBuffer_agrees (m : Script.ScriptResourceManager Ctx Inst)
    (value : list byte) (store : HeapField.Store) (w0 w1 : N) :
  HeapField.get (Script.U8Heap m) store 1 = Some w1 →
  match HeapField.setArrayBuffer m value store, Script.setArrayBuffer m value [w0; w1] with
  | Returned m1 _, Returned (m2, _) _ => Script.withHeap m1 [] = Script.withHeap m2 []
  | Thrown m1 msg1, Thrown (m2, _) msg2 =>
      Script.withHeap m1 [] = Script.withHeap m2 [] ∧ msg1 = msg2
  | _, _ => False
  end.
Proof.
  intros Hw. unfold HeapField.setArrayBuffer, Script.setArrayBuffer. rewrite Hw.
  change (u32Get [w0; w1] 1) with (Some w1).
  destruct (truthy (Some w1)); [done|].
  unfold Script.allocate. cbn [Script.instance Script.withHeap].
  destruct (Script.instance m) as [i|]; [|done].
  destruct (websg_allocate i _) as [i' p].
  cbn [Script.U8Heap Script.withInstance Script.withHeap].
  unfold typedArraySetAt. rewrite heap_set_length.
  case_decide; [|done].
  cbn [Script.ctx Script.withHeap Script.withInstance].
  by destruct (createArrayBufferResource _ _).
Qed.

(** X18.  A [setString] that stores a new non-empty string in a field of
    the heap writes its bytes, followed by a null byte, into the heap at the
    pointer that [allocate] returns, and then the pointer into the field;
    every byte of the heap outside the string and outside the word of the
    field is as it was.  It enters the id of the string resource that it
    creates under the pointer in the pointer table and acquires it.  When the
    allocated bytes do not overlap the field, the heap holds the string at
    the pointer, and [getString] returns the string, provided that the
    pointer fits a word, the id is not [0] and the game context gives the
    string for the id. *)
Theorem script_setString_stores_the_string
    (m m' : Script.ScriptResourceManager Ctx Inst) (value : string)
    (store : HeapField.Store) :
  value ≠ "" →
  Script.sameValue (HeapField.currentString m store) value = false →
  HeapField.setString m value store = Returned m' tt →
  let bytes := String.list_byte_of_string value in
  let old := HeapField.get (Script.U8Heap m) store 0 in
  let c0 := if truthy old then removeResourceRef (Script.ctx m) (default 0 old)
            else Script.ctx m in
  let field := (4 * HeapField.heapIndex store 0)%nat in
  ∃ m1 p,
    Script.allocate (Script.withCtx m c0) (N.of_nat (length bytes + 1)) = Returned m1 p
    ∧ let created := createStringResource c0 value (Some p) in
      let text := N.to_nat p in
      Script.instance m' = Script.instance m1
      ∧ Script.ptrToResourceId m' = <[p := created.2]> (Script.ptrToResourceId m)
      ∧ Script.ctx m' = addResourceRef created.1 created.2
      ∧ length (Script.U8Heap m') = length (Script.U8Heap m)
      ∧ (text + length bytes + 1 ≤ length (Script.U8Heap m))%nat
      ∧ (∀ b, (b < text ∨ text + length bytes + 1 ≤ b)%nat →
              (b < field ∨ field + 4 ≤ b)%nat →
              Script.U8Heap m' !! b = Script.U8Heap m !! b)
      ∧ ((0 < HeapField.storeLength store)%nat →
         (field + 4 ≤ length (Script.U8Heap m))%nat →
         HeapField.get (Script.U8Heap m') store 0 = Some (toUint32 p))
      ∧ ((field + 4 ≤ text ∨ text + length bytes + 1 ≤ field)%nat →
         take (length bytes + 1) (drop text (Script.U8Heap m')) = bytes ++ [x00])
      ∧ ((0 < HeapField.storeLength store)%nat →
         (field + 4 ≤ length (Script.U8Heap m))%nat →
         p < 2 ^ 32 → created.2 ≠ 0 →
         getRemoteResource (Script.ctx m') created.2 = Some (RString value) →
         HeapField.getString m' store = RString value).
Proof.
  intros Hvalue Hdiff Hret. cbn zeta. unfold HeapField.setString in Hret.
  rewrite Hdiff in Hret. cbn [negb] in Hret.
  rewrite bool_decide_eq_true_2 in Hret by done.
  set (old := HeapField.get (Script.U8Heap m) store 0) in *.
  set (c0 := if truthy old then removeResourceRef (Script.ctx m) (default 0 old)
             else Script.ctx m).
  assert ((if truthy old then Script.removeRef m (default 0 old) else m)
          = Script.withCtx m c0) as Hm1.
  { subst c0. destruct (truthy old); [done|by destruct m]. }
  rewrite Hm1 in Hret. rewrite length_app in Hret. simpl in Hret.
  destruct (Script.allocate (Script.withCtx m c0) _) as [m1 p|] eqn:Halloc; [|done].
  assert (Script.U8Heap m1 = Script.U8Heap m ∧ Script.ctx m1 = c0
          ∧ Script.ptrToResourceId m1 = Script.ptrToResourceId m) as (Hheap1 & Hctx1 & Htable1).
  { unfold Script.allocate in Halloc. simpl in Halloc.
    destruct (Script.instance m); [|done]. destruct (websg_allocate _ _).
    by injection Halloc as <- <-. }
  exists m1, p. split; [done|].
  destruct (typedArraySetAt _ _ _) as [heap|] eqn:Hset; [|done].
  apply typedArraySetAt_Some in Hset as (Hfit & Hlen & Htake & Hframe).
  rewrite length_app in Hfit, Htake, Hframe. simpl in Hfit, Htake, Hframe.
  rewrite Hheap1 in *. simpl in Hret. rewrite Hctx1 in Hret.
  destruct (createStringResource c0 value (Some p)) as [c rid] eqn:Hcreate.
  injection Hret as <-.
  cbn [fst snd Script.instance Script.ptrToResourceId Script.ctx Script.U8Heap
       Script.withPtrToResourceId Script.addRef Script.withCtx Script.withHeap].
  assert (HeapField.get (HeapField.set heap store 0 p) store 0 = Some (toUint32 p)
          ∨ ¬ ((0 < HeapField.storeLength store)%nat
               ∧ (4 * HeapField.heapIndex store 0 + 4 ≤ length (Script.U8Heap m))%nat))
    as Hfield.
  { destruct (decide ((0 < HeapField.storeLength store)%nat
                      ∧ (4 * HeapField.heapIndex store 0 + 4
                         ≤ length (Script.U8Heap m))%nat)) as [[H1 H2]|Hno]; [|by right].
    left. apply heap_get_set_eq; [done|]. by rewrite Hlen. }
  split_and!.
  - done.
  - by rewrite Htable1.
  - done.
  - by rewrite heap_set_length.
  - lia.
  - intros b Hb Hb'. rewrite heap_set_lookup_ne by done. apply Hframe. lia.
  - intros H1 H2. destruct Hfield as [Hfield|Hno]; [done|]. by destruct Hno.
  - intros Hapart. rewrite <- Htake.
    apply take_drop_lookup_ext. intros b Hb. apply heap_set_lookup_ne. lia.
  - intros H1 H2 Hp Hrid Hback. destruct Hfield as [Hfield|Hno]; [|by destruct Hno].
    unfold HeapField.getString, HeapField.currentString.
    cbn [Script.ptrToResourceId Script.ctx Script.U8Heap Script.withPtrToResourceId
         Script.addRef Script.withCtx Script.withHeap].
    rewrite Hfield. cbn [mapGet]. rewrite toUint32_small by done.
    rewrite lookup_insert_eq. rewrite truthy_Some by done.
    rewrite Hback. simpl. by rewrite bool_decide_eq_false_2.
Qed.

(** X19.  [setString] with the empty string never clears the field: it
    allocates nothing and cannot throw, and it leaves the field, the pointer
    table and the heap as they were.  When the field held a non-empty string
    its only effect is [removeRef] called with the word of the field, which is
    a pointer; so, when that call does not change what [getRemoteResource]
    returns, [getString] still returns the old string. *)
Theorem script_setString_empty_keeps_the_field
    (m : Script.ScriptResourceManager Ctx Inst) (store : list N) :
  ∃ m',
    Script.setString m "" store = Returned (m', store) tt
    ∧ m' = Script.withCtx m
             (if Script.sameValue (Script.currentString m store) "" then Script.ctx m
              else if truthy (u32Get store 0)
                   then removeResourceRef (Script.ctx m) (default 0 (u32Get store 0))
                   else Script.ctx m)
    ∧ ((∀ resourceId, getRemoteResource (Script.ctx m') resourceId
                      = getRemoteResource (Script.ctx m) resourceId) →
       Script.getString m' store = Script.getString m store).
Proof.
  unfold Script.setString.
  destruct (Script.sameValue (Script.currentString m store) "") eqn:Hsame; simpl.
  - exists m. split_and!; [done|by destruct m|done].
  - destruct (truthy (u32Get store 0)) eqn:Ht.
    + eexists. split_and!; [done|done|].
      intros Hread. unfold Script.getString, Script.currentString. simpl.
      destruct (truthy (mapGet _ _)); [|done].
      destruct (mapGet _ _); [|done]. by rewrite Hread.
    + exists m. split_and!; [done|by destruct m|done].
Qed.

(** X20.  A [setArrayBuffer] that returns, on a field of the heap, has
    written the byte length into word [0] of the field, then copied the
    buffer into the heap at the pointer that [allocate] returned, then written
    the pointer into word [1] of the field; every byte of the heap outside the
    copy and outside the two words of the field is as it was.  It has entered
    the id of the array-buffer resource that it created under the pointer and
    acquired it.  When the allocated bytes do not overlap the field, the heap
    holds the buffer at the pointer and the byte length in word [0], and
    [getArrayBuffer] then looks up the id that was created, provided that the
    pointer is a non-zero word. *)
Theorem script_setArrayBuffer_copies_the_buffer
    (m m' : Script.ScriptResourceManager Ctx Inst) (value : list byte)
    (store : HeapField.Store) :
  HeapField.setArrayBuffer m value store = Returned m' tt →
  let size := N.of_nat (length value) in
  let sized := HeapField.set (Script.U8Heap m) store 0 size in
  let field := (4 * HeapField.heapIndex store 0)%nat in
  ∃ m1 p,
    Script.allocate (Script.withHeap m sized) size = Returned m1 p
    ∧ let created := createArrayBufferResource (Script.ctx m) value in
      let copy := N.to_nat p in
      truthy (HeapField.get (Script.U8Heap m) store 1) = false
      ∧ Script.instance m' = Script.instance m1
      ∧ Script.ptrToResourceId m' = <[p := created.2]> (Script.ptrToResourceId m)
      ∧ Script.ctx m' = addResourceRef created.1 created.2
      ∧ length (Script.U8Heap m') = length (Script.U8Heap m)
      ∧ (copy + length value ≤ length (Script.U8Heap m))%nat
      ∧ (∀ b, (b < copy ∨ copy + length value ≤ b)%nat →
              (b < field ∨ field + 8 ≤ b)%nat →
              Script.U8Heap m' !! b = Script.U8Heap m !! b)
      ∧ ((1 < HeapField.storeLength store)%nat →
         (field + 8 ≤ length (Script.U8Heap m))%nat →
         HeapField.get (Script.U8Heap m') store 1 = Some (toUint32 p))
      ∧ ((field + 8 ≤ copy ∨ copy + length value ≤ field)%nat →
         take (length value) (drop copy (Script.U8Heap m')) = value
         ∧ ((0 < HeapField.storeLength store)%nat →
            (field + 4 ≤ length (Script.U8Heap m))%nat →
            HeapField.get (Script.U8Heap m') store 0 = Some (toUint32 size)))
      ∧ ((1 < HeapField.storeLength store)%nat →
         (field + 8 ≤ length (Script.U8Heap m))%nat →
         p < 2 ^ 32 → p ≠ 0 →
         HeapField.getArrayBuffer m' store
         = Returned m' (getRemoteResource (Script.ctx m') created.2)).
Proof.
  unfold HeapField.setArrayBuffer. cbn zeta.
  destruct (truthy (HeapField.get (Script.U8Heap m) store 1)) eqn:Hguard; [done|].
  set (sized := HeapField.set (Script.U8Heap m) store 0 (N.of_nat (length value))).
  destruct (Script.allocate (Script.withHeap m sized) _) as [m1 p|] eqn:Halloc; [|done].
  assert (Script.U8Heap m1 = sized ∧ Script.ctx m1 = Script.ctx m
          ∧ Script.ptrToResourceId m1 = Script.ptrToResourceId m) as (Hheap1 & Hctx1 & Htable1).
  { unfold Script.allocate in Halloc. simpl in Halloc.
    destruct (Script.instance m); [|done]. destruct (websg_allocate _ _).
    by injection Halloc as <- <-. }
  destruct (typedArraySetAt _ _ _) as [heap|] eqn:Hset; [|done].
  apply typedArraySetAt_Some in Hset as (Hfit & Hlen & Htake & Hframe).
  rewrite Hheap1 in Hfit, Hlen, Hframe.
  assert (length sized = length (Script.U8Heap m)) as Hsized by apply heap_set_length.
  rewrite Hsized in Hfit, Hlen.
  cbn [Script.ctx Script.withHeap]. rewrite Hctx1.
  destruct (createArrayBufferResource (Script.ctx m) value) as [c rid] eqn:Hcreate.
  intros [= <-]. exists m1, p. split; [done|].
  cbn [fst snd Script.instance Script.ptrToResourceId Script.ctx Script.U8Heap
       Script.withPtrToResourceId Script.addRef Script.withCtx Script.withHeap].
  assert (HeapField.heapIndex store 1 = S (HeapField.heapIndex store 0)) as Hindex.
  { unfold HeapField.heapIndex. lia. }
  assert ((1 < HeapField.storeLength store)%nat →
          (4 * HeapField.heapIndex store 0 + 8 ≤ length (Script.U8Heap m))%nat →
          HeapField.get (HeapField.set heap store 1 p) store 1 = Some (toUint32 p))
    as Hword1.
  { intros H1 H2. apply heap_get_set_eq; [done|]. rewrite Hlen, Hindex. lia. }
  split_and!.
  - done.
  - done.
  - by rewrite Htable1.
  - done.
  - by rewrite heap_set_length.
  - done.
  - intros b Hb Hb'. rewrite heap_set_lookup_ne by (rewrite Hindex; lia).
    rewrite Hframe by lia. apply heap_set_lookup_ne. lia.
  - done.
  - intros Hapart. split.
    + etrans; [|exact Htake]. apply take_drop_lookup_ext. intros b Hb.
      apply heap_set_lookup_ne. rewrite Hindex. lia.
    + intros H1 H2. rewrite heap_get_set_ne by done.
      rewrite (heap_get_ext sized heap).
      * apply heap_get_set_eq; [done|lia].
      * intros b Hb. apply Hframe. lia.
  - intros H1 H2 Hp Hnz. unfold HeapField.getArrayBuffer.
    cbn [Script.ptrToResourceId Script.ctx Script.U8Heap Script.withPtrToResourceId
         Script.addRef Script.withCtx Script.withHeap].
    rewrite Hword1 by done. rewrite toUint32_small by done.
    rewrite truthy_Some by done. cbn [negb mapGet]. by rewrite lookup_insert_eq.
Qed.

(** X21.  A setter of the script manager that throws, on a field of the
    heap, has registered nothing: the pointer table is as it was and no
    resource has been created.  A failed [setArrayBuffer] has not touched the
    game context; it has either left the heap alone or written the byte
    length into word [0] of the field, which it does before it allocates, and
    it has left word [1] as it was, so that the field can still be assigned.
    A failed [setString] has left the heap as it was, but has already called
    [removeRef] for the old value. *)
Theorem script_setters_throw_before_registering
    (m m' : Script.ScriptResourceManager Ctx Inst) (store : HeapField.Store)
    (msg : string) :
  (∀ value,
     HeapField.setArrayBuffer m value store = Thrown m' msg →
     Script.ctx m' = Script.ctx m
     ∧ Script.ptrToResourceId m' = Script.ptrToResourceId m
     ∧ (Script.U8Heap m' = Script.U8Heap m
        ∨ Script.U8Heap m'
          = HeapField.set (Script.U8Heap m) store 0 (N.of_nat (length value)))
     ∧ HeapField.get (Script.U8Heap m') store 1 = HeapField.get (Script.U8Heap m) store 1)
  ∧ (∀ value,
       HeapField.setString m value store = Thrown m' msg →
       Script.U8Heap m' = Script.U8Heap m
       ∧ Script.ptrToResourceId m' = Script.ptrToResourceId m
       ∧ Script.ctx m'
         = if truthy (HeapField.get (Script.U8Heap m) store 0)
           then removeResourceRef (Script.ctx m)
                  (default 0 (HeapField.get (Script.U8Heap m) store 0))
           else Script.ctx m).
Proof.
  split.
  - intros value. unfold HeapField.setArrayBuffer, Script.allocate.
    destruct (truthy (HeapField.get (Script.U8Heap m) store 1));
      [intros [= <- _]; split_and!; try done; by left|].
    cbn [Script.instance Script.withHeap].
    assert (HeapField.get (HeapField.set (Script.U8Heap m) store 0
                             (N.of_nat (length value))) store 1
            = HeapField.get (Script.U8Heap m) store 1) as Hword1
      by (by apply heap_get_set_ne).
    destruct (Script.instance m) as [i|];
      [|intros [= <- _]; split_and!; try done; by right].
    destruct (websg_allocate i _) as [i' p].
    cbn [Script.U8Heap Script.withInstance Script.withHeap].
    destruct (typedArraySetAt _ _ _) as [heap|];
      [|intros [= <- _]; split_and!; try done; by right].
    cbn [Script.ctx Script.withInstance Script.withHeap].
    by destruct (createArrayBufferResource _ _).
  - intros value. unfold HeapField.setString.
    destruct (negb _); [|done].
    case_bool_decide; [|done].
    set (old := HeapField.get (Script.U8Heap m) store 0).
    assert ((if truthy old then Script.removeRef m (default 0 old) else m)
            = Script.withCtx m
                (if truthy old then removeResourceRef (Script.ctx m) (default 0 old)
                 else Script.ctx m)) as ->.
    { destruct (truthy old); [done|by destruct m]. }
    unfold Script.allocate. cbn [Script.instance Script.withCtx].
    destruct (Script.instance m) as [i|]; [|by intros [= <- _]].
    destruct (websg_allocate i _) as [i' p].
    cbn [Script.U8Heap Script.withInstance Script.withCtx].
    destruct (typedArraySetAt _ _ _) as [heap|]; [|by intros [= <- _]].
    cbn [Script.ctx Script.withInstance Script.withCtx Script.withHeap].
    by destruct (createStringResource _ _ _).
Qed.

End ScriptFields.

Lemma script_disposeResource_removes_one_resource_witness :
  ∃ m',
    Script.disposeResource Examples.materialScriptManager 5 = Returned m' true
    ∧ ∃ index resource i,
        Script.resources Examples.materialScriptManager !! index = Some resource
        ∧ resourceId resource = 5
        ∧ (∀ j r, (j < index)%nat →
                  Script.resources Examples.materialScriptManager !! j = Some r →
                  resourceId r ≠ 5)
        ∧ Script.resources m' = delete index (Script.resources Examples.materialScriptManager)
        ∧ Script.ptrToResourceId m'
          = delete (ptr resource) (Script.ptrToResourceId Examples.materialScriptManager)
        ∧ Script.resourceStorage m'
          = delete 5 (Script.resourceStorage Examples.materialScriptManager)
        ∧ Script.instance Examples.materialScriptManager = Some i
        ∧ Script.instance m' = Some (websg_deallocate i (ptr resource))
        ∧ Script.U8Heap m' = Script.U8Heap Examples.materialScriptManager
        ∧ Script.resourceTransformData m'
          = Script.resourceTransformData Examples.materialScriptManager.
Proof.
  eexists. split.
  - vm_compute. reflexivity.
  - apply (script_disposeResource_removes_one_resource Examples.materialScriptManager).
    vm_compute. reflexivity.
Defined.

Lemma script_disposeResource_throws_before_removing_witness :
  ∃ m' msg,
    Script.disposeResource Examples.detachedManager 5 = Thrown m' msg
    ∧ Script.resources m' = Script.resources Examples.detachedManager
    ∧ Script.ptrToResourceId m' = Script.ptrToResourceId Examples.detachedManager
    ∧ Script.resourceStorage m' = Script.resourceStorage Examples.detachedManager
    ∧ Script.U8Heap m' = Script.U8Heap Examples.detachedManager
    ∧ Script.instance m' = Script.instance Examples.detachedManager
    ∧ (m' = Examples.detachedManager
       ∨ msg = "Called deallocate before instance was set."
         ∧ Script.instance Examples.detachedManager = None).
Proof.
  eexists _, _. split.
  - vm_compute. reflexivity.
  - eapply (script_disposeResource_throws_before_removing Examples.detachedManager _ 5).
    vm_compute. reflexivity.
Defined.

Lemma dispose_resource_answers_once_witness :
  Script.dispose_resource Examples.materialScriptManager 36
  = Returned Examples.materialScriptManager 0
  ∧ ∃ m', Script.dispose_resource Examples.materialScriptManager 32 = Returned m' 1
          ∧ Script.dispose_resource m' 32 = Returned m' 0.
Proof.
  destruct (dispose_resource_answers_once Examples.materialScriptManager 36) as [Hunknown _].
  destruct (dispose_resource_answers_once Examples.materialScriptManager 32) as [_ Honce].
  split.
  - apply Hunknown. reflexivity.
  - eexists. split.
    + vm_compute. reflexivity.
    + apply Honce.
      * apply NoDup_singleton.
      * vm_compute. reflexivity.
Defined.

Lemma script_getRef_after_setRef_witness :
  Script.getRef (Script.setRef Examples.materialScriptManager (Some Examples.material)
                   [0] false).1
    (Script.setRef Examples.materialScriptManager (Some Examples.material) [0] false).2
  = Some (RResource Examples.material).
Proof.
  destruct (script_getRef_after_setRef Examples.materialScriptManager Examples.material
              [0] false 0) as (_ & Hget & _).
  - reflexivity.
  - discriminate.
  - reflexivity.
  - simpl. lia.
  - rewrite Hget by reflexivity. vm_compute. reflexivity.
Defined.







Lemma script_setString_stores_the_string_witness :
  ∃ m',
    HeapField.setString Examples.scriptManager "hi" Examples.field = Returned m' tt
    ∧ take 3 (drop 16 (Script.U8Heap m')) = [x68; x69; x00]
    ∧ HeapField.get (Script.U8Heap m') Examples.field 0 = Some 16.
Proof.
  destruct (HeapField.setString Examples.scriptManager "hi" Examples.field)
    as [m' []|m' msg] eqn:Hret; [|by vm_compute in Hret].
  exists m'. split; [reflexivity|].
  destruct (script_setString_stores_the_string Examples.scriptManager m' "hi"
              Examples.field) as (m1 & p & Halloc & Hstored).
  - discriminate.
  - reflexivity.
  - exact Hret.
  - cbn zeta in Hstored.
    destruct Hstored as (_ & _ & _ & _ & _ & _ & Hfield & Hbytes & _).
    vm_compute in Halloc. injection Halloc as _ Hp. subst p. split.
    + apply Hbytes. right. vm_compute. lia.
    + apply Hfield; vm_compute; lia.
Defined.

Lemma script_setArrayBuffer_copies_the_buffer_witness :
  ∃ m',
    HeapField.setArrayBuffer Examples.scriptManager [x01; x02] Examples.field
    = Returned m' tt
    ∧ take 2 (drop 16 (Script.U8Heap m')) = [x01; x02]
    ∧ HeapField.get (Script.U8Heap m') Examples.field 0 = Some 2
    ∧ HeapField.get (Script.U8Heap m') Examples.field 1 = Some 16.
Proof.
  destruct (HeapField.setArrayBuffer Examples.scriptManager [x01; x02] Examples.field)
    as [m' []|m' msg] eqn:Hret; [|by vm_compute in Hret].
  exists m'. split; [reflexivity|].
  destruct (script_setArrayBuffer_copies_the_buffer Examples.scriptManager m'
              [x01; x02] Examples.field Hret) as (m1 & p & Halloc & Hstored).
  cbn zeta in Hstored.
  destruct Hstored as (_ & _ & _ & _ & _ & _ & _ & Hpointer & Hcopy & _).
  vm_compute in Halloc. injection Halloc as _ Hp. subst p.
  destruct Hcopy as [Hbytes Hsize]; [right; vm_compute; lia|].
  split; [exact Hbytes|]. split.
  - apply Hsize; vm_compute; lia.
  - apply Hpointer; vm_compute; lia.
Defined.

Lemma script_setters_throw_before_registering_witness :
  ∃ m' msg,
    HeapField.setArrayBuffer Examples.detachedManager [x01; x02] Examples.field
    = Thrown m' msg
    ∧ Script.ctx m' = Script.ctx Examples.detachedManager
    ∧ Script.ptrToResourceId m' = Script.ptrToResourceId Examples.detachedManager
    ∧ (Script.U8Heap m' = Script.U8Heap Examples.detachedManager
       ∨ Script.U8Heap m'
         = HeapField.set (Script.U8Heap Examples.detachedManager) Examples.field 0 2)
    ∧ HeapField.get (Script.U8Heap m') Examples.field 1
      = HeapField.get (Script.U8Heap Examples.detachedManager) Examples.field 1.
Proof.
  destruct (HeapField.setArrayBuffer Examples.detachedManager [x01; x02] Examples.field)
    as [m' []|m' msg] eqn:Hret; [by vm_compute in Hret|].
  exists m', msg. split; [reflexivity|].
  destruct (script_setters_throw_before_registering Examples.detachedManager m'
              Examples.field msg) as [Hbuffer _].
  by apply (Hbuffer [x01; x02]).
Defined.

(** ** Committing again *)

Section CommitAgain.
Context {Ctx Inst : Type} `{!ResourceGame Ctx Inst}.
Import Statements.

Lemma commitRef_prevRefs (heap : list byte) (table : gmap N N)
    (store : Script.ScriptResourceStore) (c : Ctx) (prev : gmap nat N) (view : list byte)
    (j : nat) (byteOff : N) (isString : bool) :
  let next := Script.refViewGet heap store (wordIndex byteOff) in
  let result := Script.commitRef heap table store (c, prev, view) j byteOff isString in
  (isString = true → result.1.2 !! j = next)
  ∧ (∀ j', j' ≠ j → result.1.2 !! j' = prev !! j')
  ∧ ((isString = true → prev !! j = next) → result.1 = (c, prev)).
Proof.
  cbn zeta. unfold Script.commitRef.
  set (next := Script.refViewGet heap store (wordIndex byteOff)).
  set (nextResourceId := mapGet table next).
  assert (match next with
          | Some p => <[j := p]> prev
          | None => delete j prev
          end !! j = next
          ∧ ∀ j', j' ≠ j → match next with
                           | Some p => <[j := p]> prev
                           | None => delete j prev
                           end !! j' = prev !! j') as [Hj Hother].
  { destruct next; split.
    - apply lookup_insert_eq.
    - intros j' Hj'. by apply lookup_insert_ne.
    - apply lookup_delete_eq.
    - intros j' Hj'. by apply lookup_delete_ne. }
  destruct isString; rewrite ?andb_true_r, ?andb_false_r.
  - case_bool_decide as Hne.
    + destruct (truthy nextResourceId) eqn:Ht; simpl; rewrite ?Ht.
      * split_and!; [done|done|]. intros Hsame. destruct Hne. by rewrite Hsame.
      * destruct (createStringResource _ _ _) as [c2 rid]. simpl.
        split_and!; [done|done|]. intros Hsame. destruct Hne. by rewrite Hsame.
    + simpl. split_and!; [by intros _|done|done].
  - simpl. split_and!; try done.
Qed.

Lemma commitRefs_prevRefs (heap : list byte) (table : gmap N N)
    (store : Script.ScriptResourceStore) (isStrings : list bool) (offsets : list N) :
  ∀ c prev view j,
    let result := Script.commitRefs heap table store isStrings (c, prev, view) j offsets in
    (∀ i byteOff, offsets !! i = Some byteOff → isStrings !! (j + i)%nat = Some true →
                  result.1.2 !! (j + i)%nat
                  = Script.refViewGet heap store (wordIndex byteOff))
    ∧ (∀ j', (j' < j)%nat → result.1.2 !! j' = prev !! j')
    ∧ ((∀ i byteOff, offsets !! i = Some byteOff → isStrings !! (j + i)%nat = Some true →
                     prev !! (j + i)%nat
                     = Script.refViewGet heap store (wordIndex byteOff)) →
       result.1 = (c, prev)).
Proof.
  induction offsets as [|byteOff rest IH]; intros c prev view j; cbn zeta.
  - simpl. split_and!; try done.
  - cbn [Script.commitRefs].
    pose proof (commitRef_prevRefs heap table store c prev view j byteOff
                  (default false (isStrings !! j))) as Hone.
    cbn zeta in Hone. destruct Hone as (Hj & Hother & Hquiet).
    destruct (Script.commitRef heap table store (c, prev, view) j byteOff
                (default false (isStrings !! j))) as [[c1 prev1] view1].
    simpl in Hj, Hother, Hquiet.
    specialize (IH c1 prev1 view1 (S j)). cbn zeta in IH.
    destruct IH as (Hrest & Hbelow & Hquiet').
    split_and!.
    + intros [|i] off Hoff Hstr.
      * injection Hoff as <-. rewrite Nat.add_0_r in *.
        rewrite Hbelow by lia. apply Hj. by rewrite Hstr.
      * replace (j + S i)%nat with (S j + i)%nat in * by lia. by apply Hrest.
    + intros j' Hj'. rewrite Hbelow by lia. apply Hother. lia.
    + intros Hseen.
      assert ((c1, prev1) = (c, prev)) as [= -> ->].
      { apply Hquiet. intros Hstr. specialize (Hseen 0%nat byteOff).
        rewrite Nat.add_0_r in Hseen. apply Hseen; [done|].
        by destruct (isStrings !! j) as [[|]|]. }
      apply Hquiet'. intros i off Hoff Hstr.
      replace (S j + i)%nat with (j + S i)%nat in * by lia. by apply Hseen.
Qed.

Lemma SeenByCommit_transfer (m m' : Script.ScriptResourceManager Ctx Inst)
    (rid : N) (type : string) :
  SameLayout m m' → Script.resourceStorage m' !! rid = Script.resourceStorage m !! rid →
  SeenByCommit m rid type → SeenByCommit m' rid type.
Proof.
  intros Hsame Hst Hseen transform' store j byteOff Ht' Hstore Hoff Hstr.
  destruct (SameLayout_transform m' m _ transform' (SameLayout_sym _ _ Hsame) Ht')
    as (transform & Ht & Hl).
  injection Hl as _ Ho Hs.
  destruct Hsame as (-> & _).
  apply (Hseen transform store j byteOff); congruence.
Qed.

Lemma translate_seen (m m1 : Script.ScriptResourceManager Ctx Inst) (r : RemoteResource)
    (transform : Script.ResourceTransformData) (view0 view : list byte) :
  Script.resourceTransformData m !! resourceType r = Some transform →
  Script.translate m r transform view0 = Returned m1 view →
  SeenByCommit m1 (resourceId r) (resourceType r)
  ∧ (∀ rid, rid ≠ resourceId r →
            Script.resourceStorage m1 !! rid = Script.resourceStorage m !! rid)
  ∧ (SeenByCommit m (resourceId r) (resourceType r) →
     Script.ctx m1 = Script.ctx m
     ∧ Script.resourceStorage m1 = Script.resourceStorage m).
Proof.
  intros Ht. unfold Script.translate.
  destruct (Script.resourceStorage m !! resourceId r) as [store|] eqn:Hst.
  - pose proof (commitRefs_prevRefs (Script.U8Heap m) (Script.ptrToResourceId m) store
                  (Script.refIsString transform) (Script.refOffsets transform)
                  (Script.ctx m) (Script.prevRefs store) view0 0%nat) as Hrefs.
    cbn zeta in Hrefs. destruct Hrefs as (Hseen & _ & Hquiet).
    destruct (Script.commitRefs _ _ _ _ _ _ _) as [[c prev] view'].
    simpl in Hseen, Hquiet. intros [= <- <-].
    unfold Script.withScratch, Script.withPrevRefs. simpl. rewrite Hst. simpl.
    split_and!.
    + intros transform' store' j byteOff. simpl.
      rewrite !lookup_insert_eq. intros [= <-] [= <-]. simpl.
      intros Hoff Hstr. by apply (Hseen j byteOff).
    + intros rid Hne. by rewrite lookup_insert_ne.
    + intros Hold.
      assert ((c, prev) = (Script.ctx m, Script.prevRefs store)) as [= -> ->].
      { apply Hquiet. intros i off Hoff Hstr. by apply (Hold transform store). }
      split; [done|]. apply insert_id. rewrite Hst. by destruct store.
  - destruct (Script.refOffsets transform) eqn:Eo; [|done].
    intros [= <- <-]. unfold Script.withScratch. simpl. split_and!; try done.
    intros transform' store' j byteOff. simpl. by rewrite Hst.
Qed.

Lemma publish_keeps (r r' : RemoteResource) (view : list byte) :
  publish r view = Returned r' tt →
  resourceId r' = resourceId r ∧ resourceType r' = resourceType r.
Proof.
  unfold publish. destruct (initialized r).
  - destruct (TripleBuffer.copyToWriteBuffer _ _); [|done]. by intros [= <-].
  - destruct (TripleBuffer.setSlot _ _ _) as [tb0|]; [|done].
    destruct (TripleBuffer.setSlot tb0 _ _) as [tb1|]; [|done].
    destruct (TripleBuffer.setSlot tb1 _ _) as [tb2|]; [|done]. by intros [= <-].
Qed.

Lemma commitResource_seen (m m' : Script.ScriptResourceManager Ctx Inst)
    (r r' : RemoteResource) :
  Script.commitResource m r = Returned (m', r') tt →
  resourceId r' = resourceId r ∧ resourceType r' = resourceType r
  ∧ SeenByCommit m' (resourceId r) (resourceType r)
  ∧ (∀ rid, rid ≠ resourceId r →
            Script.resourceStorage m' !! rid = Script.resourceStorage m !! rid)
  ∧ (SeenByCommit m (resourceId r) (resourceType r) →
     Script.ctx m' = Script.ctx m
     ∧ Script.resourceStorage m' = Script.resourceStorage m).
Proof.
  unfold Script.commitResource.
  destruct (Script.resourceTransformData m !! _) as [transform|] eqn:Ht; [|done].
  destruct (typedArraySet _ _) as [view0|]; [|done].
  destruct (Script.translate _ _ _ _) as [m1 view|] eqn:Htr; [|done].
  apply (translate_seen m m1 r transform view0 view Ht) in Htr as (Hseen & Hother & Hquiet).
  destruct (publish r view) as [r1 []|] eqn:Hp; [|done].
  apply publish_keeps in Hp as [Hid Hty].
  intros [= <- <-]. done.
Qed.

Lemma script_commitLoop_seen (todo : list RemoteResource) :
  ∀ (m m1 : Script.ScriptResourceManager Ctx Inst) done,
    Script.commitLoop m done todo = Returned m1 tt →
    NoDup (resourceId <$> (done ++ todo)) →
    Forall (λ r, SeenByCommit m (resourceId r) (resourceType r)) done →
    (resourceId <$> Script.resources m1) = (resourceId <$> (done ++ todo))
    ∧ Forall (λ r, SeenByCommit m1 (resourceId r) (resourceType r)) (Script.resources m1).
Proof.
  induction todo as [|r rest IH]; intros m m1 done; simpl.
  - intros [= <-] _ Hdone. simpl. by rewrite app_nil_r.
  - destruct (Script.commitResource m r) as [[m' r'] []|[m' r'] msg] eqn:Hc; [|done].
    pose proof Hc as Hlayout. apply commitResource_spec in Hlayout as [Hlayout _].
    apply commitResource_seen in Hc as (Hid & Hty & Hseen & Hother & _).
    intros Hloop Hnd Hdone.
    assert ((resourceId <$> (done ++ [r']) ++ rest) = (resourceId <$> done ++ r :: rest))
      as Hids.
    { rewrite <- app_assoc. simpl. rewrite !fmap_app, !fmap_cons. by rewrite Hid. }
    apply IH in Hloop as [Hres Hall].
    + split; [congruence|done].
    + by rewrite Hids.
    + apply Forall_app. split.
      * apply Forall_forall. intros r0 Hr0. rewrite Forall_forall in Hdone.
        apply (SeenByCommit_transfer m m'); [done| |by apply Hdone].
        apply Hother. intros Heq.
        rewrite fmap_app, fmap_cons in Hnd. apply NoDup_app in Hnd as (_ & Hdisj & _).
        apply (Hdisj (resourceId r0)); [by apply list_elem_of_fmap_2|].
        rewrite Heq. left.
      * constructor; [|done]. by rewrite Hid, Hty.
Qed.

Lemma script_commitLoop_quiet (todo : list RemoteResource) :
  ∀ (m m2 : Script.ScriptResourceManager Ctx Inst) done,
    Script.commitLoop m done todo = Returned m2 tt →
    Forall (λ r, SeenByCommit m (resourceId r) (resourceType r)) todo →
    Script.ctx m2 = Script.ctx m
    ∧ Script.resourceStorage m2 = Script.resourceStorage m.
Proof.
  induction todo as [|r rest IH]; intros m m2 done; simpl.
  - by intros [= <-] _.
  - destruct (Script.commitResource m r) as [[m' r'] []|[m' r'] msg] eqn:Hc; [|done].
    pose proof Hc as Hlayout. apply commitResource_spec in Hlayout as [Hlayout _].
    apply commitResource_seen in Hc as (_ & _ & _ & _ & Hquiet).
    intros Hloop Hall. apply Forall_cons in Hall as [Hr Hall].
    destruct (Hquiet Hr) as [Hctx Hst].
    apply IH in Hloop as [-> ->]; [done|].
    eapply Forall_impl; [exact Hall|]. intros r0 Hr0.
    apply (SeenByCommit_transfer m m'); [done|by rewrite Hst|done].
Qed.

Lemma commitLoop_SameLayout (todo : list RemoteResource) :
  ∀ (m m' : Script.ScriptResourceManager Ctx Inst) done,
    Script.commitLoop m done todo = Returned m' tt → SameLayout m m'.
Proof.
  induction todo as [|r rest IH]; intros m m' done; simpl.
  - by intros [= <-].
  - destruct (Script.commitResource m r) as [[m1 r'] []|[m1 r'] msg] eqn:Hc; [|done].
    apply commitResource_spec in Hc as [Hlayout _].
    intros Hloop. apply IH in Hloop. by apply (SameLayout_trans m m1 m').
Qed.

(** X22.  A commit that follows a commit, with nothing written to the
    heap in between, is quiet: it calls neither [removeResourceRef] nor
    [createStringResource], so the game context is as the first commit left
    it, and it leaves [prevRefs] of every resource as they were.  The
    resource ids of the list are taken to be distinct. *)
Theorem second_commit_is_quiet (m m1 m2 : Script.ScriptResourceManager Ctx Inst) :
  NoDup (resourceId <$> Script.resources m) →
  Script.commitResources m = Returned m1 tt →
  Script.commitResources m1 = Returned m2 tt →
  Script.ctx m2 = Script.ctx m1
  ∧ Script.resourceStorage m2 = Script.resourceStorage m1
  ∧ Script.U8Heap m2 = Script.U8Heap m
  ∧ Script.ptrToResourceId m2 = Script.ptrToResourceId m.
Proof.
  unfold Script.commitResources. intros Hnd H1 H2.
  pose proof H1 as Hseen.
  apply script_commitLoop_seen in Hseen as [_ Hseen]; [|done|done].
  pose proof H2 as Hquiet. apply script_commitLoop_quiet in Hquiet as [-> ->]; [|done].
  split_and!; [done|done| |].
  - apply commitLoop_SameLayout in H2 as (-> & _). by apply commitLoop_SameLayout in H1 as (-> & _).
  - apply commitLoop_SameLayout in H2 as (_ & -> & _).
    by apply commitLoop_SameLayout in H1 as (_ & -> & _).
Qed.

End CommitAgain.

Lemma second_commit_is_quiet_witness :
  ∃ m1 m2,
    Script.commitResources Examples.labelManager = Returned m1 tt
    ∧ Script.commitResources m1 = Returned m2 tt
    ∧ Script.ctx m2 = Script.ctx m1
    ∧ Script.resourceStorage m2 = Script.resourceStorage m1
    ∧ Script.U8Heap m2 = Script.U8Heap Examples.labelManager
    ∧ Script.ptrToResourceId m2 = Script.ptrToResourceId Examples.labelManager.
Proof.
  destruct (Script.commitResources Examples.labelManager) as [m1 []|m1 msg] eqn:H1;
    [|by vm_compute in H1].
  destruct (Script.commitResources m1) as [m2 []|m2 msg] eqn:H2.
  - exists m1, m2. split; [reflexivity|]. split; [exact H2|].
    apply (second_commit_is_quiet Examples.labelManager m1 m2).
    + apply NoDup_singleton.
    + exact H1.
    + exact H2.
  - exfalso. vm_compute in H1. injection H1 as <-. by vm_compute in H2.
Defined.

(** ** Fields and disposal of the game manager *)

Section GameFields.
Context {Ctx Inst : Type} `{!ResourceGame Ctx Inst}.
Import Statements.

Lemma game_releaseAll (m : Game.GameResourceManager Ctx) (resourceIds : list N) :
  Game.releaseAll m resourceIds
  = Game.withCtx m
      (foldl Remote.disposeResource (Game.ctx m) (filter (λ id, id ≠ 0) resourceIds)).
Proof.
  revert m. induction resourceIds as [|resourceId rest IH]; intros m; simpl.
  - by destruct m.
  - rewrite IH, filter_cons. destruct (N.eqb_spec resourceId 0) as [->|Hne]; simpl.
    + done.
    + by rewrite decide_True.
Qed.

Lemma heldIds_cons (props : gmap string (list N)) (p : string * Schema.PropDef)
    (rest : list (string * Schema.PropDef)) :
  heldIds props (p :: rest) = heldIds props [p] ++ heldIds props rest.
Proof. unfold heldIds. simpl. by rewrite app_nil_r. Qed.

Lemma heldIds_single (props : gmap string (list N)) (propName : string)
    (prop : Schema.PropDef) :
  heldIds props [(propName, prop)]
  = if Schema.isRefLike (Schema.type prop) then
      filter (λ id, id ≠ 0) (default [] (props !! propName))
    else if bool_decide (Schema.type prop = Schema.PArrayBuffer) then
      match props !! propName ≫= (λ store, store !! 1%nat) with
      | Some id => if id =? 0 then [] else [id]
      | None => []
      end
    else [].
Proof. unfold heldIds. simpl. by rewrite app_nil_r. Qed.

Lemma game_releaseProps (props : gmap string (list N))
    (schema : list (string * Schema.PropDef)) :
  ∀ (m m' : Game.GameResourceManager Ctx),
    Game.releaseProps m props schema = Returned m' tt →
    m' = Game.withCtx m (foldl Remote.disposeResource (Game.ctx m) (heldIds props schema)).
Proof.
  induction schema as [|[propName prop] rest IH]; intros m m'.
  - simpl. intros [= <-]. by destruct m.
  - cbn [Game.releaseProps]. rewrite heldIds_cons, foldl_app, heldIds_single.
    destruct (Schema.isRefLike (Schema.type prop)).
    + destruct (props !! propName) as [resourceIds|]; [|done]. simpl.
      intros Hrest. apply IH in Hrest as ->. by rewrite game_releaseAll.
    + case_bool_decide.
      * destruct (props !! propName) as [store|]; [|done]. simpl.
        intros Hrest. apply IH in Hrest as ->.
        unfold u32Get. destruct (store !! 1%nat) as [id|]; simpl.
        -- destruct (id =? 0); simpl; [done|done].
        -- done.
      * intros Hrest. by apply IH in Hrest as ->.
Qed.

(** X23.  A [disposeResource] of the game manager that returns for a
    known resource has taken the first resource with that id out of its list
    and has released, with [disposeResource] of the resource module, each
    non-zero id held in a reference-like property of the resource and the id
    in word [1] of each array-buffer property, once each and in the order of
    the schema; properties marked as back-references are released like the
    others. *)
Theorem game_disposeResource_releases_held_ids
    (m m' : Game.GameResourceManager Ctx) (resourceId : N) (r : RemoteResource)
    (result : option bool) :
  getRemoteResource (Game.ctx m) resourceId = Some (RResource r) →
  Game.disposeResource m resourceId = Returned m' result →
  result = None
  ∧ Game.ctx m'
    = foldl Remote.disposeResource (Game.ctx m)
        (heldIds (props r) (Schema.schema (resourceDef r)))
  ∧ Game.resources m'
    = match list_find (λ r, Remote.resourceId r = resourceId) (Game.resources m) with
      | Some (index, _) => delete index (Game.resources m)
      | None => Game.resources m
      end
  ∧ heldIds (props r) (Schema.schema (resourceDef r))
    = heldIds (props r)
        (prod_map id (λ prop, {| Schema.type := Schema.type prop; Schema.backRef := false;
                                 Schema.size := Schema.size prop;
                                 Schema.byteOffset := Schema.byteOffset prop;
                                 Schema.bytesPerElement := Schema.bytesPerElement prop |})
           <$> Schema.schema (resourceDef r)).
Proof.
  intros Hget. unfold Game.disposeResource. rewrite Hget. simpl.
  set (m1 := match list_find _ _ with Some (index, _) => _ | None => m end).
  destruct (Game.releaseProps m1 _ _) as [m2 []|m2 msg] eqn:Hrel; [|done].
  intros [= <- <-]. apply game_releaseProps in Hrel as ->.
  split_and!; [done| | |].
  - subst m1. by destruct (list_find _ _) as [[index r0]|].
  - subst m1. by destruct (list_find _ _) as [[index r0]|].
  - unfold heldIds. f_equal. rewrite <- list_fmap_compose.
    apply list_fmap_ext. by intros i [propName prop] _.
Qed.

(** X24.  The fields of the game manager read back what the setters
    stored: [getRef] after [setRef] looks up the id of the resource that was
    set, [getString] after [setString] the id of the string resource that was
    created, and [getArrayBuffer] after a [setArrayBuffer] that returned the id
    of the array-buffer resource that was created, with the byte length in
    word [0]; each under the condition that the id fits a word, and is not
    [0] for the array buffer. *)
Theorem game_getters_read_back
    (m : Game.GameResourceManager Ctx) (store : list N) :
  (∀ v, store ≠ [] → resourceId v < 2 ^ 32 →
        Game.getRef (Game.setRef m (Some v) store).1 (Game.setRef m (Some v) store).2
        = getRemoteResource (Game.ctx (Game.setRef m (Some v) store).1) (resourceId v))
  ∧ (∀ value, store ≠ [] →
        let c0 := if truthy (u32Get store 0)
                  then Remote.disposeResource (Game.ctx m) (default 0 (u32Get store 0))
                  else Game.ctx m in
        let created := createStringResource c0 value None in
        created.2 < 2 ^ 32 →
        Game.ctx (Game.setString m value store).1 = addResourceRef created.1 created.2
        ∧ Game.getString (Game.setString m value store).1 (Game.setString m value store).2
          = getRemoteResource (addResourceRef created.1 created.2) created.2)
  ∧ (∀ value m' store',
        (2 ≤ length store)%nat →
        Game.setArrayBuffer m value store = Returned (m', store') tt →
        let created := createArrayBufferResource (Game.ctx m) value in
        created.2 < 2 ^ 32 → created.2 ≠ 0 →
        u32Get store' 0 = Some (toUint32 (N.of_nat (length value)))
        ∧ Game.getArrayBuffer m' store'
          = Returned m' (getRemoteResource (addResourceRef created.1 created.2) created.2)).
Proof.
  split_and!.
  - intros v Hstore Hid. unfold Game.setRef.
    assert (u32Get (u32Set store 0 (resourceId v)) 0 = Some (resourceId v)) as Hget.
    { rewrite u32Set_lookup_eq by (destruct store; [done|simpl; lia]).
      by rewrite toUint32_small. }
    rewrite Hget. simpl. unfold Game.getRef. by rewrite Hget.
  - intros value Hstore c0 created Hid. unfold Game.setString.
    assert ((if truthy (u32Get store 0)
             then Game.withCtx m
                    (Remote.disposeResource (Game.ctx m) (default 0 (u32Get store 0)))
             else m) = Game.withCtx m c0) as ->.
    { subst c0. destruct (truthy _); [done|by destruct m]. }
    simpl. subst created. destruct (createStringResource c0 value None) as [c rid].
    simpl in *. split; [done|]. unfold Game.getString.
    rewrite u32Set_lookup_eq by (destruct store; [done|simpl; lia]).
    simpl. by rewrite toUint32_small.
  - intros value m' store' Hstore. unfold Game.setArrayBuffer.
    destruct (truthy (u32Get store 1)); [done|].
    destruct (createArrayBufferResource (Game.ctx m) value) as [c rid].
    intros [= <- <-] Hid Hnz. simpl in *. split.
    + unfold u32Get, u32Set. rewrite list_lookup_insert_ne by done.
      apply list_lookup_insert_eq. lia.
    + unfold Game.getArrayBuffer.
      rewrite u32Set_lookup_eq by (rewrite u32Set_length; lia).
      rewrite toUint32_small by done. by rewrite truthy_Some.
Qed.

Lemma publish_throws (r r' : RemoteResource) (view : list byte) (msg : string) :
  publish r view = Thrown r' msg →
  resourceId r' = resourceId r ∧ byteView r' = byteView r
  ∧ initialized r' = initialized r.
Proof.
  unfold publish. destruct (initialized r) eqn:Hinit.
  - destruct (TripleBuffer.copyToWriteBuffer _ _); [done|]. by intros [= <- _].
  - destruct (TripleBuffer.setSlot _ _ _) as [tb0|]; [|by intros [= <- _]].
    destruct (TripleBuffer.setSlot tb0 _ _) as [tb1|]; [|by intros [= <- _]].
    destruct (TripleBuffer.setSlot tb1 _ _) as [tb2|]; [done|by intros [= <- _]].
Qed.

Lemma game_commitLoop_throws (todo : list RemoteResource) :
  ∀ committed resources msg,
    Game.commitLoop committed todo = Thrown resources msg →
    ∃ before before' r r' rest,
      todo = before ++ r :: rest
      ∧ resources = committed ++ before' ++ r' :: rest
      ∧ Forall2 (λ a b, Published a b (byteView a)) before before'
      ∧ resourceId r' = resourceId r ∧ byteView r' = byteView r
      ∧ initialized r' = initialized r.
Proof.
  induction todo as [|r rest IH]; intros committed resources msg; simpl; [done|].
  destruct (publish r (byteView r)) as [r' []|r' msg'] eqn:Hp.
  - intros Hloop. apply IH in Hloop
      as (before & before' & r0 & r0' & rest' & -> & -> & Hall & Hid & Hview & Hinit).
    exists (r :: before), (r' :: before'), r0, r0', rest'.
    rewrite <- !app_assoc. split_and!; try done.
    constructor; [|done]. by apply publish_Published.
  - intros [= <- <-]. apply publish_throws in Hp as (Hid & Hview & Hinit).
    exists [], [], r, r', rest. split_and!; try done.
Qed.

(** X25.  A [commitResources] of the game manager that throws stops at
    the resource whose bytes do not fit: the resources before it have been
    published, the ones after it are untouched, the failing one keeps its id,
    its bytes and its [initialized] flag (a resource that was never committed
    stays so), and the game context is as it was. *)
Theorem game_commitResources_stops_at_the_failure
    (m m' : Game.GameResourceManager Ctx) (msg : string) :
  Game.commitResources m = Thrown m' msg →
  Game.ctx m' = Game.ctx m
  ∧ ∃ before before' r r' rest,
      Game.resources m = before ++ r :: rest
      ∧ Game.resources m' = before' ++ r' :: rest
      ∧ Forall2 (λ a b, Published a b (byteView a)) before before'
      ∧ resourceId r' = resourceId r ∧ byteView r' = byteView r
      ∧ initialized r' = initialized r.
Proof.
  unfold Game.commitResources.
  destruct (Game.commitLoop [] (Game.resources m)) as [rs []|rs msg'] eqn:Hloop; [done|].
  intros [= <- <-]. split; [done|].
  apply game_commitLoop_throws in Hloop
    as (before & before' & r & r' & rest & Htodo & -> & Hrest).
  by exists before, before', r, r', rest.
Qed.

End GameFields.

Lemma game_disposeResource_releases_held_ids_witness :
  ∃ m',
    Game.disposeResource Examples.holderGameManager 6 = Returned m' None
    ∧ Game.ctx m'
      = foldl Remote.disposeResource (Game.ctx Examples.holderGameManager) [5]
    ∧ Game.resources m' = [Examples.material].
Proof.
  destruct (Game.disposeResource Examples.holderGameManager 6) as [m' result|m' msg] eqn:Hret;
    [|by vm_compute in Hret].
  destruct (game_disposeResource_releases_held_ids Examples.holderGameManager m' 6
              Examples.holder result) as (-> & Hctx & Hres & _).
  - reflexivity.
  - exact Hret.
  - exists m'. split; [reflexivity|]. split; [exact Hctx|exact Hres].
Defined.

Lemma game_getters_read_back_witness :
  Game.getRef (Game.setRef Examples.gameManager (Some Examples.material) [0]).1
    (Game.setRef Examples.gameManager (Some Examples.material) [0]).2
  = getRemoteResource
      (Game.ctx (Game.setRef Examples.gameManager (Some Examples.material) [0]).1) 5.
Proof.
  destruct (game_getters_read_back Examples.gameManager [0]) as (Href & _ & _).
  apply (Href Examples.material); [discriminate|reflexivity].
Defined.

Lemma game_commitResources_stops_at_the_failure_witness :
  ∃ m' msg,
    Game.commitResources Examples.oversizedGameManager = Thrown m' msg
    ∧ Game.ctx m' = Game.ctx Examples.oversizedGameManager
    ∧ ∃ before before' r r' rest,
        Game.resources Examples.oversizedGameManager = before ++ r :: rest
        ∧ Game.resources m' = before' ++ r' :: rest
        ∧ Forall2 (λ a b, Statements.Published a b (byteView a)) before before'
        ∧ resourceId r' = resourceId r ∧ byteView r' = byteView r
        ∧ initialized r' = initialized r.
Proof.
  destruct (Game.commitResources Examples.oversizedGameManager) as [m' []|m' msg] eqn:Hret;
    [by vm_compute in Hret|].
  exists m', msg. split; [reflexivity|].
  by apply (game_commitResources_stops_at_the_failure Examples.oversizedGameManager m' msg).
Defined.

(** ** Network ids *)

Section NetworkIds.
Import Network.
Local Open Scope Z_scope.

Lemma toInt32_small (z : Z) : - 2 ^ 31 ≤ z < 2 ^ 31 → toInt32 z = z.
Proof. intros. unfold toInt32. rewrite Z.mod_small; lia. Qed.

Lemma toInt32_mod (z : Z) : toInt32 z mod 2 ^ 32 = z mod 2 ^ 32.
Proof.
  unfold toInt32.
  rewrite <- Zminus_mod_idemp_l. rewrite Z.mod_mod by lia.
  rewrite Zminus_mod_idemp_l. f_equal. lia.
Qed.

Lemma toInt32_mod16 (z : Z) : toInt32 z mod 2 ^ 16 = z mod 2 ^ 16.
Proof.
  rewrite <- (Z.mod_mod_divide (toInt32 z) (2 ^ 32) (2 ^ 16)) by (exists (2 ^ 16); lia).
  rewrite toInt32_mod. apply Z.mod_mod_divide. exists (2 ^ 16). lia.
Qed.

Lemma isolateBits_16 (z : Z) : isolateBits z 16 0 = z mod 2 ^ 16.
Proof.
  unfold isolateBits.
  change (shl (shl 1 16 - 1) 0) with (Z.ones 16). unfold and.
  change (toInt32 (Z.ones 16)) with (Z.ones 16). rewrite Z.land_ones by lia.
  apply toInt32_mod16.
Qed.

Lemma lor_low_bits (k p : Z) : 0 ≤ p < 2 ^ 16 → Z.lor (k * 2 ^ 16) p = k * 2 ^ 16 + p.
Proof.
  intros Hp. symmetry. apply Z.add_nocarry_lor. apply Z.bits_inj'. intros n Hn.
  rewrite Z.land_spec, Z.bits_0.
  destruct (Z.ltb_spec n 16).
  - by rewrite Z.mul_pow2_bits_low by lia.
  - rewrite <- (Z.mod_small p (2 ^ 16)) by lia.
    rewrite Z.mod_pow2_bits_high by lia. apply andb_false_r.
Qed.

Lemma networkId_value (localId peer : Z) :
  0 ≤ peer < 2 ^ 16 →
  ushr (or (shl localId 16) peer) 0 = localId mod 2 ^ 16 * 2 ^ 16 + peer.
Proof.
  intros Hp. unfold ushr, or, toUint32.
  change (0 mod 2 ^ 32 mod 32) with 0. rewrite Z.shiftr_0_r.
  rewrite (toInt32_small peer) by lia.
  rewrite <- Z.land_ones by lia. rewrite Z.land_lor_distr_l.
  rewrite !Z.land_ones by lia.
  rewrite toInt32_mod. unfold shl. rewrite toInt32_mod.
  change (toUint32 16 mod 32) with 16. rewrite Z.shiftl_mul_pow2 by lia.
  change (2 ^ 32) with (2 ^ 16 * 2 ^ 16) at 1.
  rewrite Z.mul_mod_distr_r by lia. rewrite toInt32_mod16.
  rewrite (Z.mod_small peer) by lia.
  apply lor_low_bits. lia.
Qed.

Lemma networkId_parts (localId peer : Z) :
  0 ≤ peer < 2 ^ 16 →
  getPeerIdFromNetworkId (ushr (or (shl localId 16) peer) 0) = peer
  ∧ getLocalIdFromNetworkId (ushr (or (shl localId 16) peer) 0) = localId mod 2 ^ 16
  ∧ 0 ≤ ushr (or (shl localId 16) peer) 0 < 2 ^ 32.
Proof.
  intros Hp. unfold getPeerIdFromNetworkId, getLocalIdFromNetworkId.
  rewrite !isolateBits_16, networkId_value by done.
  pose proof (Z.mod_pos_bound localId (2 ^ 16)) as Hl.
  split; [|split].
  - rewrite Z.add_comm, Z.mod_add by lia. apply Z.mod_small. lia.
  - unfold ushr, toUint32. change (16 mod 2 ^ 32 mod 32) with 16.
    rewrite Z.shiftr_div_pow2 by lia.
    rewrite (Z.mod_small (_ + _)) by lia.
    rewrite Z.div_add_l by lia. rewrite (Z.div_small peer) by lia.
    rewrite Z.add_0_r. apply Z.mod_small. lia.
  - lia.
Qed.

(** X26.  A network id packs the local id into its high 16 bits and the
    peer id into its low 16 bits.  For a peer id below 65536, the id that
    [createNetworkId] returns is an unsigned 32-bit number from which
    [getPeerIdFromNetworkId] gives back the peer id and
    [getLocalIdFromNetworkId] the local id that was taken, modulo 65536: local
    ids below 65536 are given back exactly, larger ones wrap around. *)
Theorem createNetworkId_round_trip (network : NetworkState) :
  0 ≤ peerId network < 2 ^ 16 →
  let nid := (createNetworkId network).2 in
  getPeerIdFromNetworkId nid = peerId network
  ∧ getLocalIdFromNetworkId nid = (takeLocalId network).2 mod 2 ^ 16
  ∧ (0 ≤ (takeLocalId network).2 < 2 ^ 16 →
     getLocalIdFromNetworkId nid = (takeLocalId network).2)
  ∧ 0 ≤ nid < 2 ^ 32.
Proof.
  intros Hp. cbn zeta. unfold createNetworkId.
  assert (peerId (takeLocalId network).1 = peerId network) as Hpeer.
  { unfold takeLocalId. destruct (removedLocalIds network) as [|localId rest]; [done|].
    by destruct (localId =? 0). }
  destruct (takeLocalId network) as [network' localId]. simpl in *. rewrite Hpeer.
  destruct (networkId_parts localId (peerId network) Hp) as (H1 & H2 & H3).
  split_and!; try done; try lia. intros Hl. rewrite H2. by apply Z.mod_small.
Qed.

Lemma foldl_deleteNetworkId (nids : list Z) :
  ∀ network,
    foldl deleteNetworkId network nids
    = Statements.withRemoved network
        (removedLocalIds network ++ (getLocalIdFromNetworkId <$> nids)).
Proof.
  induction nids as [|nid rest IH]; intros network; simpl.
  - rewrite app_nil_r. by destruct network.
  - rewrite IH. unfold Statements.withRemoved, deleteNetworkId. simpl.
    by rewrite <- app_assoc.
Qed.

Lemma createNetworkId_queued (network : NetworkState) (localId : Z) (rest : list Z) :
  removedLocalIds network = localId :: rest → localId ≠ 0 →
  createNetworkId network
  = (Statements.withRemoved network rest,
     Statements.networkIdOf (peerId network) localId).
Proof.
  intros Hq Hnz. unfold createNetworkId, takeLocalId. rewrite Hq.
  by destruct (Z.eqb_spec localId 0).
Qed.

Lemma createNetworkId_fresh (network : NetworkState) :
  (removedLocalIds network = [] ∨ ∃ rest, removedLocalIds network = 0 :: rest) →
  createNetworkId network
  = ({| removedLocalIds := tail (removedLocalIds network);
        localIdCount := localIdCount network + 1; peerId := peerId network |},
     Statements.networkIdOf (peerId network) (localIdCount network)).
Proof.
  unfold createNetworkId, takeLocalId. by intros [->|[rest ->]].
Qed.

Lemma createNetworkIds_queue (queue : list Z) :
  ∀ network,
    removedLocalIds network = queue → Forall (λ localId, localId ≠ 0) queue →
    Statements.createNetworkIds network (length queue)
    = (Statements.withRemoved network [],
       Statements.networkIdOf (peerId network) <$> queue).
Proof.
  induction queue as [|localId rest IH]; intros network Hq Hall; simpl.
  - unfold Statements.withRemoved. rewrite <- Hq. by destruct network.
  - apply Forall_cons in Hall as [Hnz Hall].
    rewrite (createNetworkId_queued network localId rest Hq Hnz).
    by rewrite IH.
Qed.

(** X27.  Removed local ids are reused first in, first out.
    [deleteNetworkId] puts the local id of a network id at the end of the
    queue.  For a queue without [0], the next calls of [createNetworkId], as
    many as the queue is long, return in the order of the queue the network
    ids made of the queued local ids: the id removed first is reused first;
    they leave the counter as it was and the queue empty, and the call after
    them takes the counter and increments it.  A queued [0] is the
    exception: it is taken off the queue and dropped, and the call takes the
    counter instead. *)
Theorem createNetworkId_reuses_removed_ids (network : NetworkState) (nids : list Z) :
  Forall (λ localId, localId ≠ 0) (removedLocalIds network) →
  Forall (λ nid, getLocalIdFromNetworkId nid ≠ 0) nids →
  let queue := removedLocalIds network ++ (getLocalIdFromNetworkId <$> nids) in
  let deleted := foldl deleteNetworkId network nids in
  deleted = Statements.withRemoved network queue
  ∧ Statements.createNetworkIds deleted (length queue)
    = (Statements.withRemoved network [],
       Statements.networkIdOf (peerId network) <$> queue)
  ∧ createNetworkId (Statements.withRemoved network [])
    = ({| removedLocalIds := []; localIdCount := localIdCount network + 1;
          peerId := peerId network |},
       Statements.networkIdOf (peerId network) (localIdCount network))
  ∧ ∀ rest,
      createNetworkId (Statements.withRemoved network (0 :: rest))
      = ({| removedLocalIds := rest; localIdCount := localIdCount network + 1;
            peerId := peerId network |},
         Statements.networkIdOf (peerId network) (localIdCount network)).
Proof.
  intros Hqueue Hnids. cbn zeta. rewrite foldl_deleteNetworkId.
  split_and!.
  - done.
  - rewrite createNetworkIds_queue; [done|done|].
    apply Forall_app. split; [done|]. by apply Forall_fmap.
  - by rewrite createNetworkId_fresh by (by left).
  - intros rest. by rewrite createNetworkId_fresh by (right; by eexists).
Qed.

End NetworkIds.

Lemma createNetworkId_round_trip_witness :
  Network.getPeerIdFromNetworkId (Network.createNetworkId Examples.network).2 = 7%Z
  ∧ Network.getLocalIdFromNetworkId (Network.createNetworkId Examples.network).2 = 3%Z.
Proof.
  destruct (createNetworkId_round_trip Examples.network) as (Hpeer & _ & Hlocal & _).
  - simpl. lia.
  - split; [exact Hpeer|]. apply Hlocal. simpl. lia.
Defined.

Lemma createNetworkId_reuses_removed_ids_witness :
  Statements.createNetworkIds
    (foldl Network.deleteNetworkId Examples.network [131079; 65543]%Z) 2
  = (Examples.network, [131079; 65543]%Z).
Proof.
  destruct (createNetworkId_reuses_removed_ids Examples.network [131079; 65543]%Z)
    as (_ & Hreused & _).
  - constructor.
  - repeat constructor; vm_compute; discriminate.
  - exact Hreused.
Defined.

(** ** A consumer that waits before the resource arrives *)

Section Waiters.
Import Statements.

(** X28.  A consumer that waits for a resource before its creation record
    arrives is served by the load, unless the loader rejects with [null] or
    [undefined]: the promise it got from [waitForLocalResource] is pending
    while the loader of the resource runs; when the promise of the loader is
    fulfilled it is fulfilled, and when that promise is rejected with an
    error it is rejected with that error.  When the loader rejects with
    [null] or [undefined] the [catch] block throws before [deferred.reject],
    and the promise of the consumer stays pending, left to its timeout.  The
    loader is one that was installed with [registerResourceLoader]. *)
Theorem waiting_consumer_is_served
    (s : Local.State) (msg : Local.CreateResourceMessage) (description : string)
    (handle : nat) (v : Local.LocalValue) (failure : option Local.Rejection) :
  Local.msgId msg ≠ 0 →
  Local.deferredResources s !! Local.msgId msg = None →
  Local.resourceLoaders s !! Local.msgResourceType msg = Some (Local.External handle) →
  let waiting := Local.waitForLocalResource s (Local.msgId msg) description in
  let loading := Local.loadResource waiting.1 msg in
  let settled := Local.resumeAfterLoad loading (length (Local.tasks s)) v failure in
  Local.promiseSettlement waiting.1 waiting.2 = Deferred.Pending
  ∧ Local.promiseSettlement loading waiting.2 = Deferred.Pending
  ∧ Local.promiseSettlement settled waiting.2
    = match failure with
      | None => Deferred.Resolved
      | Some (Local.WithError e) => Deferred.Rejected e
      | Some Local.Nullish => Deferred.Pending
      end.
Proof.
  intros Hnz Hfresh Hloader. cbn zeta.
  unfold Local.waitForLocalResource, Local.NOOP.
  destruct (N.eqb_spec (Local.msgId msg) 0) as [|_]; [done|]. rewrite Hfresh.
  cbn [fst snd].
  set (d := Deferred.createDeferred _ _).
  set (s1 := Local.withDeferredResources _ _).
  set (h := length (Local.deferredHeap s)).
  assert (Local.deferredResources s1 !! Local.msgId msg = Some h) as Hentry.
  { subst s1. simpl. apply lookup_insert_eq. }
  assert (Local.deferredHeap s1 = Local.deferredHeap s ++ [d]) as Hheap1 by done.
  pose proof (announce_books s1 msg) as Hbooks.
  pose proof (announce_deferred s1 msg) as (_ & _ & Hold). rewrite Hentry in Hold.
  destruct Hold as [Hh Hheap3].
  assert (Local.loadResource s1 msg
          = Local.spawn (Local.announce s1 msg).1
              (Local.taskOf s1 msg h [] Local.AwaitLoad)) as Hload.
  { unfold Local.loadResource. destruct (Local.announce s1 msg) as [s3 h3].
    cbn [fst snd] in *. injection Hbooks as _ _ _ _ Hloaders3 _ _ _.
    by rewrite Hloaders3, Hloader, Hh. }
  rewrite Hload.
  destruct (Local.announce s1 msg) as [s3 h3]. cbn [fst snd] in *.
  injection Hbooks as _ _ _ _ Hloaders3 Htasks3 _ _.
  split_and!.
  - cbn [Local.promiseSettlement]. by rewrite Hheap1, list_lookup_middle.
  - cbn [Local.promiseSettlement Local.spawn Local.withTasks Local.deferredHeap].
    by rewrite Hheap3, Hheap1, list_lookup_middle.
  - unfold Local.resumeAfterLoad, Local.spawn. cbn [Local.tasks Local.withTasks].
    rewrite Htasks3, list_lookup_middle by done.
    cbn [Local.phase Local.taskOf]. rewrite bool_decide_eq_true_2 by done.
    change (Local.taskLoader (Local.taskOf s1 msg h [] Local.AwaitLoad))
      with (Local.resourceLoaders s !! Local.msgResourceType msg).
    rewrite Hloader.
    destruct failure as [[|e]|].
    + cbn. by rewrite Hheap3, Hheap1, list_lookup_middle.
    + rewrite failLoad_eq. cbn. rewrite Hheap3, Hheap1.
      by rewrite list_lookup_alter_eq, list_lookup_middle.
    + rewrite finishLoad_eq. cbn. rewrite Hheap3, Hheap1.
      by rewrite list_lookup_alter_eq, list_lookup_middle.
Qed.

End Waiters.

Lemma waiting_consumer_is_served_witness :
  Local.promiseSettlement
    (Local.resumeAfterLoad
       (Local.loadResource
          (Local.waitForLocalResource
             (Local.registerResourceLoader Local.create "mesh" (Local.External 0))
             3 "material").1
          Examples.messageA)
       0 (Local.LOther 0) None)
    (Local.waitForLocalResource
       (Local.registerResourceLoader Local.create "mesh" (Local.External 0))
       3 "material").2
  = Deferred.Resolved.
Proof.
  destruct (waiting_consumer_is_served
              (Local.registerResourceLoader Local.create "mesh" (Local.External 0))
              Examples.messageA "material" 0 (Local.LOther 0) None)
    as (_ & _ & Hserved).
  - simpl. lia.
  - reflexivity.
  - reflexivity.
  - exact Hserved.
Defined.

(** ** What a quiet commit publishes *)

Section QuietCommit.
Context {Ctx Inst : Type} `{!ResourceGame Ctx Inst}.
Import Statements.

Lemma commitRef_quiet (m : Script.ScriptResourceManager Ctx Inst)
    (store : Script.ScriptResourceStore) (c : Ctx) (prev : gmap nat N)
    (view : list byte) (j : nat) (byteOff : N) (isString : bool) :
  (isString = true →
   prev !! j = Script.refViewGet (Script.U8Heap m) store (wordIndex byteOff)) →
  Script.commitRef (Script.U8Heap m) (Script.ptrToResourceId m) store
    (c, prev, view) j byteOff isString
  = (c, prev,
     match wordIndex byteOff with
     | Some k => wordSet view k (tableId m store k)
     | None => view
     end).
Proof.
  intros Hseen. unfold Script.commitRef, tableId.
  assert (bool_decide
            (Script.refViewGet (Script.U8Heap m) store (wordIndex byteOff) ≠ prev !! j)
          && isString = false) as ->.
  { destruct isString; [|apply andb_false_r]. rewrite andb_true_r.
    apply bool_decide_eq_false_2. intros Hne. destruct Hne. by rewrite Hseen. }
  by destruct (wordIndex byteOff).
Qed.

Lemma commitRefs_quiet (m : Script.ScriptResourceManager Ctx Inst)
    (store : Script.ScriptResourceStore) (isStrings : list bool) (offsets : list N) :
  ∀ c prev view j c' prev' view',
    (∀ i byteOff, offsets !! i = Some byteOff → isStrings !! (j + i)%nat = Some true →
                  prev !! (j + i)%nat
                  = Script.refViewGet (Script.U8Heap m) store (wordIndex byteOff)) →
    Script.commitRefs (Script.U8Heap m) (Script.ptrToResourceId m) store isStrings
      (c, prev, view) j offsets = (c', prev', view') →
    ∀ off k, off ∈ offsets → wordIndex off = Some k →
             (4 * k + 4 ≤ length view)%nat →
             wordGet view' k = Some (toUint32 (tableId m store k)).
Proof.
  induction offsets as [|byteOff rest IH]; intros c prev view j c' prev' view' Hseen;
    cbn [Script.commitRefs].
  - intros _ off k Hin. by apply elem_of_nil in Hin.
  - rewrite commitRef_quiet.
    2:{ intros Hstr. specialize (Hseen 0%nat byteOff). rewrite Nat.add_0_r in Hseen.
        apply Hseen; [done|]. by destruct (isStrings !! j) as [[|]|]. }
    intros Hrest off k Hin Hk Hrange.
    assert (length (match wordIndex byteOff with
                    | Some k => wordSet view k (tableId m store k)
                    | None => view
                    end) = length view) as Hlen1.
    { destruct (wordIndex byteOff); [apply wordSet_length|done]. }
    destruct (decide (Exists (λ off', wordIndex off' = Some k) rest)) as [Hex|Hnex].
    + apply Exists_exists in Hex as (off' & Hin' & Hk').
      apply (IH _ _ _ _ _ _ _) with (off := off') (k := k) in Hrest; [done| |done|done|].
      * intros i off0 Hoff Hstr.
        replace (S j + i)%nat with (j + S i)%nat in * by lia. by apply Hseen.
      * by rewrite Hlen1.
    + apply not_Exists_Forall in Hnex; [|intros; apply _].
      apply commitRefs_view in Hrest as (_ & Hother & _).
      apply elem_of_cons in Hin as [->|Hin].
      * rewrite Hother by (eapply Forall_impl; [exact Hnex|done]).
        rewrite Hk. by apply wordGet_wordSet_eq.
      * exfalso. rewrite Forall_forall in Hnex. by apply (Hnex off).
Qed.

Lemma commitResource_quiet (m m' : Script.ScriptResourceManager Ctx Inst)
    (r r' : RemoteResource) :
  Script.commitResource m r = Returned (m', r') tt →
  SeenByCommit m (resourceId r) (resourceType r) →
  ∃ view, Published r r' view ∧ TableReferences m r view.
Proof.
  unfold Script.commitResource.
  destruct (Script.resourceTransformData m !! _) as [transform|] eqn:Ht; [|done].
  destruct (typedArraySet _ _) as [view0|] eqn:Hv; [|done].
  apply typedArraySet_Some in Hv as [_ Hlen0].
  destruct (Script.translate _ _ _ _) as [m1 view|] eqn:Htr; [|done].
  destruct (publish r view) as [r1 []|] eqn:Hp; [|done].
  intros [= <- <-] Hseen. exists view. split; [by apply publish_Published|].
  intros transform' store byteOff k Ht' Hst Hin Hk Hrange.
  rewrite Ht in Ht'. injection Ht' as <-.
  unfold Script.translate in Htr. rewrite Hst in Htr.
  destruct (Script.commitRefs _ _ _ _ _ _ _) as [[c prev] view'] eqn:Hrefs.
  injection Htr as _ <-.
  apply (commitRefs_quiet m store _ _ _ _ _ _ _ _ _) with (off := byteOff) (k := k)
    in Hrefs; [done| |done|done|by rewrite Hlen0].
  intros i off Hoff Hstr. by apply (Hseen transform store).
Qed.

Lemma SameLayout_TableReferences (m m' : Script.ScriptResourceManager Ctx Inst)
    (r : RemoteResource) (view : list byte) :
  SameLayout m m' → TableReferences m' r view → TableReferences m r view.
Proof.
  intros Hsame Hrefs transform store byteOff k Ht Hst Hin Hk Hrange.
  destruct (SameLayout_transform m m' _ transform Hsame Ht) as (t' & Ht' & Hl).
  destruct (SameLayout_store m m' _ store Hsame Hst) as (st' & Hst' & Hw).
  injection Hl as Hl1 Hl2 Hl3.
  rewrite (Hrefs t' st' byteOff k Ht' Hst'); [|congruence|done|lia].
  destruct Hsame as (Hheap & Htable & _ & _).
  unfold tableId. rewrite Hheap, Htable.
  by rewrite (refViewGet_window _ store st' (Some k) Hw).
Qed.

Lemma script_commitLoop_table (m0 : Script.ScriptResourceManager Ctx Inst)
    (todo : list RemoteResource) :
  ∀ (m m' : Script.ScriptResourceManager Ctx Inst) done,
    SameLayout m0 m →
    Script.commitLoop m done todo = Returned m' tt →
    Forall (λ r, SeenByCommit m (resourceId r) (resourceType r)) todo →
    ∃ todo', Script.resources m' = done ++ todo'
             ∧ Forall2 (λ r r', ∃ view, Published r r' view ∧ TableReferences m0 r view)
                 todo todo'.
Proof.
  induction todo as [|r rest IH]; intros m m' done Hsame; simpl.
  - intros [= <-] _. exists []. by rewrite app_nil_r.
  - destruct (Script.commitResource m r) as [[m1 r'] []|[m1 r'] msg] eqn:Hc; [|done].
    intros Hret Hall. apply Forall_cons in Hall as [Hr Hall].
    pose proof Hc as Hlayout. apply commitResource_spec in Hlayout as [Hlayout _].
    pose proof Hc as Hquiet.
    apply commitResource_seen in Hquiet as (_ & _ & _ & _ & Hquiet).
    destruct (Hquiet Hr) as [_ Hstorage].
    apply commitResource_quiet in Hc as (view & Hp & Hrefs); [|done].
    apply IH in Hret as (todo' & -> & Hrest).
    + exists (r' :: todo'). rewrite <- app_assoc. split; [done|].
      constructor; [|done]. exists view. split; [done|].
      by apply (SameLayout_TableReferences m0 m).
    + by apply (SameLayout_trans m0 m m1).
    + eapply Forall_impl; [exact Hall|]. intros r0 Hr0.
      apply (SeenByCommit_transfer m m1); [done|by rewrite Hstorage|done].
Qed.

(** X29.  What a commit publishes when it follows a commit with nothing
    written to the heap in between: every reference word of a resource that
    lies within the scratch view of its type holds the resource id that the
    pointer table gives for the pointer in the heap, and zero when the table
    has no id for that pointer.  So a string whose pointer the table does
    not know, for which the first commit made a string resource and
    published its id, is published as zero by the second commit.  The
    resource ids of the list are taken to be distinct. *)
Theorem second_commit_publishes_table_ids
    (m m1 m2 : Script.ScriptResourceManager Ctx Inst) :
  NoDup (resourceId <$> Script.resources m) →
  Script.commitResources m = Returned m1 tt →
  Script.commitResources m1 = Returned m2 tt →
  Forall2 (λ r r', ∃ view, Published r r' view ∧ TableReferences m1 r view)
    (Script.resources m1) (Script.resources m2).
Proof.
  unfold Script.commitResources. intros Hnd H1 H2.
  apply script_commitLoop_seen in H1 as [_ Hseen]; [|done|done].
  apply (script_commitLoop_table m1) in H2 as (todo' & -> & Hall);
    [done|apply SameLayout_refl|done].
Qed.

End QuietCommit.

Lemma second_commit_publishes_table_ids_witness :
  ∃ m1 m2,
    Script.commitResources Examples.labelManager = Returned m1 tt
    ∧ Script.commitResources m1 = Returned m2 tt
    ∧ Forall2 (λ r r', ∃ view, Statements.Published r r' view
                               ∧ Statements.TableReferences m1 r view)
        (Script.resources m1) (Script.resources m2).
Proof.
  destruct (Script.commitResources Examples.labelManager) as [m1 []|m1 msg] eqn:H1;
    [|by vm_compute in H1].
  destruct (Script.commitResources m1) as [m2 []|m2 msg] eqn:H2.
  - exists m1, m2. split; [reflexivity|]. split; [exact H2|].
    apply (second_commit_publishes_table_ids Examples.labelManager m1 m2).
    + apply NoDup_singleton.
    + exact H1.
    + exact H2.
  - exfalso. vm_compute in H1. injection H1 as <-. by vm_compute in H2.
Defined.

(** ** Change masks of the network serializer *)

Section ChangeMasks.
Context {W : Type} `{!Network.CursorView W}.
Import Network Statements.
Local Open Scope Z_scope.

Lemma pow2_le_30 (b : Z) : 0 ≤ b ≤ 30 → 0 < 2 ^ b ≤ 2 ^ 30.
Proof. intros Hb. split; [lia|]. apply Z.pow_le_mono_r; lia. Qed.

Lemma shl_one (b : Z) : 0 ≤ b ≤ 30 → shl 1 b = 2 ^ b.
Proof.
  intros Hb. unfold shl, toUint32. rewrite (toInt32_small 1) by lia.
  rewrite (Z.mod_small b) by lia. rewrite (Z.mod_small b) by lia.
  rewrite Z.shiftl_1_l. apply toInt32_small. pose proof (pow2_le_30 b Hb). lia.
Qed.

Lemma or_next_bit (mask b : Z) (changed : bool) :
  0 ≤ b ≤ 30 → 0 ≤ mask < 2 ^ b →
  or mask (if changed then shl 1 b else 0)
  = Z.lor mask (if changed then 2 ^ b else 0)
  ∧ or mask (if changed then shl 1 b else 0) = mask + (if changed then 2 ^ b else 0).
Proof.
  intros Hb Hm. pose proof (pow2_le_30 b Hb) as Hp. unfold or.
  rewrite (toInt32_small mask) by lia.
  assert (toInt32 (if changed then shl 1 b else 0) = if changed then 2 ^ b else 0) as ->.
  { destruct changed; [|done]. rewrite shl_one by done. apply toInt32_small. lia. }
  split; [done|]. destruct changed; [|by rewrite Z.lor_0_r, Z.add_0_r].
  symmetry. apply Z.add_nocarry_lor. apply Z.bits_inj'. intros n Hn.
  rewrite Z.land_spec, Z.bits_0, Z.pow2_bits_eqb by lia.
  destruct (Z.eqb_spec b n) as [<-|_]; [|apply andb_false_r].
  rewrite <- (Z.mod_small mask (2 ^ b)) by lia.
  by rewrite Z.mod_pow2_bits_high by lia.
Qed.

Lemma changedLoop_spec (eid : Z) (fns : list (W → Z → W * bool)) :
  ∀ (w : W) (mask b : Z),
    0 ≤ b → b + Z.of_nat (length fns) ≤ 31 → 0 ≤ mask < 2 ^ b →
    let result := changedLoop fns w eid mask b in
    result.1 = written fns w eid
    ∧ 0 ≤ result.2 < 2 ^ (b + Z.of_nat (length fns))
    ∧ (0 <? result.2) = (0 <? mask) || existsb id (answers fns w eid)
    ∧ ∀ i, 0 ≤ i →
           Z.testbit result.2 i
           = if i <? b then Z.testbit mask i
             else nth (Z.to_nat (i - b)) (answers fns w eid) false.
Proof.
  induction fns as [|fn rest IH]; intros w mask b Hb Hn Hm; cbn zeta.
  - simpl. rewrite Z.add_0_r, orb_false_r. split_and!; try done; try lia.
    intros i Hi. destruct (Z.ltb_spec i b) as [|Hge]; [done|].
    rewrite <- (Z.mod_small mask (2 ^ b)) by lia.
    rewrite Z.mod_pow2_bits_high by lia. by destruct (Z.to_nat (i - b)).
  - cbn [changedLoop answers written foldl length] in *.
    destruct (fn w eid) as [w' changed]. cbn [fst snd].
    destruct (or_next_bit mask b changed) as [Hlor Hadd]; [lia|done|].
    assert (0 < 2 ^ b ∧ 2 ^ (b + 1) = 2 * 2 ^ b) as [Hpos Hpow].
    { split; [lia|]. rewrite Z.pow_add_r by lia. lia. }
    specialize (IH w' (or mask (if changed then shl 1 b else 0)) (b + 1)).
    cbn zeta in IH. destruct IH as (Hw & Hrange & Hpositive & Hbits).
    { lia. }
    { lia. }
    { rewrite Hadd. destruct changed; lia. }
    split_and!.
    + done.
    + lia.
    + replace (b + Z.of_nat (S (length rest))) with (b + 1 + Z.of_nat (length rest)) by lia.
      lia.
    + rewrite Hpositive, Hadd. destruct changed; simpl.
      * replace (0 <? mask + 2 ^ b) with true by (symmetry; apply Z.ltb_lt; lia).
        by rewrite orb_true_r.
      * by rewrite Z.add_0_r.
    + intros i Hi. rewrite Hbits by done. rewrite Hlor, Z.lor_spec.
      destruct (Z.ltb_spec i b) as [Hlt|Hge].
      * rewrite (proj2 (Z.ltb_lt i (b + 1))) by lia.
        destruct changed; [|by rewrite Z.bits_0, orb_false_r].
        rewrite Z.pow2_bits_eqb by lia.
        rewrite (proj2 (Z.eqb_neq b i)) by lia. apply orb_false_r.
      * destruct (Z.ltb_spec i (b + 1)) as [Hlt|Hge'].
        -- assert (i = b) as -> by lia. rewrite Z.sub_diag. simpl.
           rewrite <- (Z.mod_small mask (2 ^ b)) by lia.
           rewrite Z.mod_pow2_bits_high by lia. simpl.
           destruct changed; [|apply Z.bits_0].
           rewrite Z.pow2_bits_eqb by lia. apply Z.eqb_refl.
        -- replace (Z.to_nat (i - b)) with (S (Z.to_nat (i - (b + 1)))) by lia. done.
Qed.

Lemma checkBitflag_bit (mask b : Z) :
  0 ≤ b ≤ 30 → - 2 ^ 31 ≤ mask < 2 ^ 31 →
  checkBitflag mask (shl 1 b) = Z.testbit mask b.
Proof.
  intros Hb Hm. pose proof (pow2_le_30 b Hb) as Hp.
  unfold checkBitflag, and. rewrite shl_one by done.
  rewrite (toInt32_small mask), (toInt32_small (2 ^ b)) by lia.
  assert (Z.land mask (2 ^ b) = if Z.testbit mask b then 2 ^ b else 0) as ->.
  { apply Z.bits_inj'. intros n Hn. rewrite Z.land_spec, Z.pow2_bits_eqb by lia.
    destruct (Z.eqb_spec b n) as [<-|Hne].
    - rewrite andb_true_r. destruct (Z.testbit mask b); [|by rewrite Z.bits_0].
      rewrite Z.pow2_bits_eqb by lia. by rewrite Z.eqb_refl.
    - rewrite andb_false_r. destruct (Z.testbit mask b); [|by rewrite Z.bits_0].
      rewrite Z.pow2_bits_eqb by lia. symmetry. by apply Z.eqb_neq. }
  destruct (Z.testbit mask b).
  - by apply bool_decide_eq_true_2.
  - apply bool_decide_eq_false_2. lia.
Qed.

Lemma deserializeLoop_spec (eid mask : Z) (fns : list (W → Z → W)) :
  ∀ (flags : list bool) (w : W) (b : Z),
    0 ≤ b → b + Z.of_nat (length fns) ≤ 31 → - 2 ^ 31 ≤ mask < 2 ^ 31 →
    length flags = length fns →
    (∀ i, (i < length fns)%nat → Z.testbit mask (b + Z.of_nat i) = nth i flags false) →
    deserializeLoop fns w eid mask b
    = foldl (λ w fn, fn w eid) w (chosen flags fns).
Proof.
  induction fns as [|fn rest IH]; intros flags w b Hb Hn Hm Hlen Hbits.
  - by destruct flags.
  - destruct flags as [|flag flags]; [done|]. cbn [deserializeLoop chosen length] in *.
    rewrite checkBitflag_bit by lia.
    pose proof (Hbits 0%nat ltac:(lia)) as H0. rewrite Z.add_0_r in H0. simpl in H0.
    rewrite H0.
    rewrite (IH flags); [by destruct flag|lia|lia|done|lia|].
    intros i Hi. specialize (Hbits (S i) ltac:(lia)). simpl in Hbits.
    rewrite <- Hbits. f_equal. lia.
Qed.

Lemma answers_length (fns : list (W → Z → W * bool)) (eid : Z) :
  ∀ w, length (answers fns w eid) = length fns.
Proof. induction fns as [|fn rest IH]; intros w; simpl; [done|]. by rewrite IH. Qed.

(** X30.  The change mask goes round.  For at most eight field functions,
    the serializer made by [defineChangedSerializer] reserves one byte, runs
    the functions in order and writes a mask between 0 and 255 into the
    reserved byte; it returns [true] exactly when some function reported a
    change.  A deserializer made by [defineChangedDeserializer] with as many
    functions that reads this mask runs, in order, exactly the functions
    whose counterpart reported a change, and no other. *)
Theorem changed_fields_round_trip
    (writers : list (W → Z → W * bool)) (readers : list (W → Z → W))
    (w u : W) (eid eid' : Z) :
  (length writers ≤ 8)%nat → length readers = length writers →
  let changed := answers writers (spaceUint8 w).1 eid in
  ∃ changeMask,
    defineChangedSerializer writers w eid
    = ((spaceUint8 w).2 changeMask (written writers (spaceUint8 w).1 eid),
       existsb id changed)
    ∧ 0 ≤ changeMask < 256
    ∧ ((readUint8 u).2 = changeMask →
       defineChangedDeserializer readers u eid'
       = foldl (λ u fn, fn u eid') (readUint8 u).1 (chosen changed readers)).
Proof.
  intros Hn Hlen. cbn zeta. unfold defineChangedSerializer, defineChangedDeserializer.
  rewrite bool_decide_eq_true_2 by done.
  destruct (spaceUint8 w) as [w0 writeChangeMask]. cbn [fst snd].
  pose proof (changedLoop_spec eid writers w0 0 0) as Hloop. cbn zeta in Hloop.
  destruct Hloop as (Hw & Hrange & Hpositive & Hbits); [lia|lia|lia|].
  destruct (changedLoop writers w0 eid 0 0) as [w1 changeMask]. cbn [fst snd] in *.
  exists changeMask.
  assert (2 ^ (0 + Z.of_nat (length writers)) ≤ 2 ^ 8) as Hpow by (apply Z.pow_le_mono_r; lia).
  split_and!.
  - by rewrite Hw, Hpositive.
  - lia.
  - lia.
  - destruct (readUint8 u) as [u0 mask]. cbn [fst snd]. intros ->.
    apply deserializeLoop_spec; [lia|lia|lia|by rewrite answers_length|].
    intros i Hi. rewrite Hbits by lia.
    rewrite (proj2 (Z.ltb_ge (0 + Z.of_nat i) 0)) by lia. f_equal. lia.
Qed.

End ChangeMasks.

Lemma changed_fields_round_trip_witness :
  ∃ changeMask,
    Network.defineChangedSerializer
      [Examples.writeCell true 10; Examples.writeCell false 20; Examples.writeCell true 30]
      Examples.emptyCells 1
    = ((Network.spaceUint8 Examples.emptyCells).2 changeMask
         (Statements.written
            [Examples.writeCell true 10; Examples.writeCell false 20;
             Examples.writeCell true 30]
            (Network.spaceUint8 Examples.emptyCells).1 1),
       true)
    ∧ (0 ≤ changeMask < 256)%Z
    ∧ ((Network.readUint8 Examples.sentCells).2 = changeMask →
       Network.defineChangedDeserializer
         [Examples.skipCell; Examples.skipCell; Examples.skipCell] Examples.sentCells 2
       = {| Examples.cells := [5; 10; 30]%Z; Examples.cursor := 3 |}).
Proof.
  destruct (changed_fields_round_trip
              [Examples.writeCell true 10; Examples.writeCell false 20;
               Examples.writeCell true 30]
              [Examples.skipCell; Examples.skipCell; Examples.skipCell]
              Examples.emptyCells Examples.sentCells 1 2)
    as (changeMask & Hserialized & Hrange & Hread).
  - simpl. lia.
  - reflexivity.
  - exists changeMask. split; [exact Hserialized|]. split; [exact Hrange|exact Hread].
Defined.
